(** * Quad remeshing engine: half-edge mesh, cavities, gardener, repair loop

    Shallow embedding of the parts of [Mesh/meshQuadQuasiStructured.cpp]
    (namespace QSQ) and of [smoothElementsWithLocalKernel] that the
    specification talks about, together with the statements settled on them.

    Conventions of the embedding.
    - [size_t] is [N]; the sentinel [NO_ID] is [2^64 - 1]; index arithmetic
      that the source performs on [size_t] goes through [wrap].
    - [int] counters are [Z].
    - [std::vector<T>] is [list T], indexed by [N] through [vget] / [vset].
    - [std::unordered_set<size_t>] is [gset N];
      [std::unordered_map<MVertex*,size_t>] is [gmap N N]
      (an [MVertex*] is represented by the number that identifies the vertex).
    - Code that can leave the defined behaviour of the language, call
      [abort()] or loop forever returns an [outcome]. *)

From Stdlib Require Import NArith ZArith List Lia Bool.
From stdpp Require Import base gmap sets list.
Import ListNotations.
Local Open Scope N_scope.

(* ------------------------------------------------------------------ *)
(** ** Machine integers and vectors *)

Definition SIZE_MOD : N := 2 ^ 64.
Definition wrap (x : N) : N := x mod SIZE_MOD.
Arguments wrap : simpl never.

(** [std::numeric_limits<size_t>::max()] *)
Definition NO_ID : N := 18446744073709551615.

Fixpoint vget {A : Type} (l : list A) (i : N) : option A :=
  match l with
  | [] => None
  | x :: t => if i =? 0 then Some x else vget t (N.pred i)
  end.

Fixpoint vset {A : Type} (l : list A) (i : N) (x : A) : list A :=
  match l with
  | [] => []
  | y :: t => if i =? 0 then x :: t else y :: vset t (N.pred i) x
  end.

Definition vsize {A : Type} (l : list A) : N := N.of_nat (length l).

(** [0, 1, ..., n-1] as loop indices *)
Definition iota (n : nat) : list N := map N.of_nat (seq 0 n).

(** [std::find(begin, end, x) - begin], [None] for [end()] *)
Fixpoint vfind (l : list N) (x : N) : option N :=
  match l with
  | [] => None
  | y :: t => if y =? x then Some 0
              else match vfind t x with Some k => Some (N.succ k) | None => None end
  end.

(** [v.erase(v.begin() + i)] for [i] in range *)
Fixpoint verase {A : Type} (l : list A) (i : N) : list A :=
  match l with
  | [] => []
  | y :: t => if i =? 0 then t else y :: verase t (N.pred i)
  end.

(* ------------------------------------------------------------------ *)
(** ** Outcomes of code that may fail to return *)

Inductive outcome (A : Type) : Type :=
| Ret (a : A)   (* the call returns [a] *)
| Abort         (* [abort()] was called: the whole process stops *)
| Undef         (* undefined behaviour: out-of-range access, [erase(end())] *)
| Diverge.      (* the loop never terminates *)
Arguments Ret {A} a.
Arguments Abort {A}.
Arguments Undef {A}.
Arguments Diverge {A}.

Definition obind {A B : Type} (k : A -> outcome B) (m : outcome A) : outcome B :=
  match m with
  | Ret a => k a
  | Abort => Abort
  | Undef => Undef
  | Diverge => Diverge
  end.

(** [x ← m; k] sequences two computations, stopping at the first one that
    does not return. *)
#[global] Instance outcome_bind : MBind outcome := @obind.
#[global] Instance outcome_ret : MRet outcome := @Ret.

Definition of_option {A : Type} (o : option A) : outcome A :=
  match o with Some a => Ret a | None => Undef end.

(* ------------------------------------------------------------------ *)
(** ** Half edge data structure *)

Record HalfEdge : Type := mkHalfEdge {
  prev : N;
  next : N;
  opposite : N;
  vertex : N;   (* the one at the tip of the arrow *)
  face : N
}.

(** The coordinates [p] of a vertex are not read by any function embedded
    here and are left out. *)
Record Vertex : Type := mkVertex {
  v_he : N;               (* reference to one half edge *)
  isSingularity : bool;   (* singularities are irregular vertices to be preserved *)
  v_ptr : N               (* MVertex* *)
}.

Record Face : Type := mkFace {
  f_he : N;     (* reference to one half edge of the face *)
  f_ptr : N     (* MElement* *)
}.

Record MeshHalfEdges : Type := mkMesh {
  vertices : list Vertex;
  hedges : list HalfEdge;
  faces : list Face
}.

(** An [MQuadrangle]: its identity and its four [MVertex*]. *)
Record MQuadrangle : Type := mkQuad {
  q_ptr : N;
  q_v0 : N; q_v1 : N; q_v2 : N; q_v3 : N
}.

Definition getVertex (q : MQuadrangle) (le : N) : N :=
  if le =? 0 then q_v0 q else if le =? 1 then q_v1 q
  else if le =? 2 then q_v2 q else q_v3 q.

(* ------------------------------------------------------------------ *)
(** ** sort_unique_with_perm *)

(** [std::array<size_t,2>] with its lexicographic [operator<]. *)
Definition si2 : Type := (N * N)%type.

Definition si2_ltb (a b : si2) : bool :=
  (fst a <? fst b) || ((fst a =? fst b) && (snd a <? snd b)).

Definition si2_eqb (a b : si2) : bool :=
  (fst a =? fst b) && (snd a =? snd b).

(** [std::sort] with a comparator.  The standard leaves the relative order
    of equivalent elements open; nothing below depends on it. *)
Fixpoint sort_insert {A : Type} (lt : A -> A -> bool) (x : A) (l : list A) : list A :=
  match l with
  | [] => [x]
  | y :: t => if lt x y then x :: y :: t else y :: sort_insert lt x t
  end.

Definition std_sort {A : Type} (lt : A -> A -> bool) (l : list A) : list A :=
  foldr (sort_insert lt) [] l.

(** [std::unique]: keeps the first element of every run of equal elements. *)
Fixpoint unique_from {A : Type} (eqb : A -> A -> bool) (p : A) (l : list A) : list A :=
  match l with
  | [] => []
  | y :: t => if eqb p y then unique_from eqb p t else y :: unique_from eqb y t
  end.

Definition std_unique {A : Type} (eqb : A -> A -> bool) (l : list A) : list A :=
  match l with
  | [] => []
  | x :: t => x :: unique_from eqb x t
  end.

(** [sort_unique] on a vector of indices *)
Definition sort_unique (vec : list N) : list N :=
  std_unique N.eqb (std_sort N.ltb vec).

Definition key_at (inv : list si2) (ids : list N) (k : N) : si2 :=
  default (NO_ID, NO_ID) (vget inv (default NO_ID (vget ids k))).

(** Inner [while(ic < in.size() && in[ids[ic]]==in[ids[ir]])] *)
Fixpoint group_inner (fuel : nat) (inv : list si2) (ids : list N)
    (ir cur_rep ic : N) (old2new : list N) : N * list N :=
  match fuel with
  | O => (ic, old2new)
  | S f =>
      if (ic <? vsize inv) && si2_eqb (key_at inv ids ic) (key_at inv ids ir)
      then group_inner f inv ids ir cur_rep (ic + 1)
             (vset old2new (default NO_ID (vget ids ic)) cur_rep)
      else (ic, old2new)
  end.

(** Outer [while(ic < in.size())] *)
Fixpoint group_outer (fuel : nat) (inv : list si2) (ids : list N)
    (ic ir cur_rep : N) (old2new : list N) : list N :=
  match fuel with
  | O => old2new
  | S f =>
      if ic <? vsize inv then
        let ic := ir in
        let '(ic', o') := group_inner (length inv) inv ids ir cur_rep ic old2new in
        group_outer f inv ids ic' ic' (cur_rep + 1) o'
      else old2new
  end.

(** Returns [(uniques, old2new)]. *)
Definition sort_unique_with_perm (inv : list si2) : list si2 * list N :=
  let ids := std_sort (fun a b => si2_ltb (default (NO_ID, NO_ID) (vget inv a))
                                          (default (NO_ID, NO_ID) (vget inv b)))
                      (iota (length inv)) in
  let uniques := std_unique si2_eqb (std_sort si2_ltb inv) in
  let old2new := group_outer (S (length inv)) inv ids 0 0 0
                   (repeat 0 (length inv)) in
  (uniques, old2new).

(* ------------------------------------------------------------------ *)
(** ** createMeshHalfEdges *)

(** "Create vertices if necessary": one corner of a quad. *)
Definition add_vertex (st : list Vertex * gmap N N) (v1 : N)
  : (list Vertex * gmap N N) * N :=
  let '(vs, mv2new) := st in
  let nv := default NO_ID (mv2new !! v1) in
  if nv =? NO_ID then
    let nv := vsize vs in
    ((vs ++ [mkVertex NO_ID false v1], <[v1 := nv]> mv2new), nv)
  else (st, nv).

(** [if (M.vertices[v].he == NO_ID) M.vertices[v].he = he] *)
Definition set_vertex_he (vs : list Vertex) (v he : N) : list Vertex :=
  match vget vs v with
  | Some x => if v_he x =? NO_ID
              then vset vs v (mkVertex he (isSingularity x) (v_ptr x))
              else vs
  | None => vs
  end.

Definition new_hedge (he0 faceNo k tip : N) : HalfEdge :=
  mkHalfEdge (if k =? 0 then wrap (he0 + 3) else wrap (he0 + k - 1))
             (if k =? 3 then he0 else wrap (he0 + k + 1))
             NO_ID tip faceNo.

Record builder : Type := mkBuilder {
  b_vertices : list Vertex;
  b_hedges : list HalfEdge;
  b_faces : list Face;
  b_mv2new : gmap N N
}.

(** Body of [for (MQuadrangle* q: gf->quadrangles)]. *)
Definition add_quad (b : builder) (q : MQuadrangle) : builder :=
  let st0 := (b_vertices b, b_mv2new b) in
  let '(st1, n0) := add_vertex st0 (getVertex q 0) in
  let '(st2, n1) := add_vertex st1 (getVertex q 1) in
  let '(st3, n2) := add_vertex st2 (getVertex q 2) in
  let '(st4, n3) := add_vertex st3 (getVertex q 3) in
  let '(vs, mv2new) := st4 in
  let faceNo := vsize (b_faces b) in
  let he0 := vsize (b_hedges b) in
  (* quad[(1+k)%4] for k = 0,1,2,3 *)
  let vs := set_vertex_he vs n1 he0 in
  let vs := set_vertex_he vs n2 (wrap (he0 + 1)) in
  let vs := set_vertex_he vs n3 (wrap (he0 + 2)) in
  let vs := set_vertex_he vs n0 (wrap (he0 + 3)) in
  mkBuilder vs
    (b_hedges b ++ [new_hedge he0 faceNo 0 n1; new_hedge he0 faceNo 1 n2;
                    new_hedge he0 faceNo 2 n3; new_hedge he0 faceNo 3 n0])
    (b_faces b ++ [mkFace he0 (q_ptr q)])
    mv2new.

Definition hedge_at (hs : list HalfEdge) (i : N) : HalfEdge :=
  default (mkHalfEdge NO_ID NO_ID NO_ID NO_ID NO_ID) (vget hs i).

(** The sorted vertex pair of half edge [i]. *)
Definition vPair_of (hs : list HalfEdge) (i : N) : si2 :=
  let v1 := vertex (hedge_at hs (prev (hedge_at hs i))) in
  let v2 := vertex (hedge_at hs i) in
  if v2 <? v1 then (v2, v1) else (v1, v2).

(** The loop that fills [new2old]; [None] is the early [return -1]. *)
Fixpoint fill_new2old (idx : list N) (old2new : list N) (new2old : list si2)
  : option (list si2) :=
  match idx with
  | [] => Some new2old
  | i :: rest =>
      let ni := default NO_ID (vget old2new i) in
      match vget new2old ni with
      | None => None   (* ni >= new2old.size() *)
      | Some (a, b) =>
          if a =? NO_ID then fill_new2old rest old2new (vset new2old ni (i, b))
          else if b =? NO_ID then fill_new2old rest old2new (vset new2old ni (a, i))
          else None    (* non manifold quad mesh *)
      end
  end.

Definition set_opposite (hs : list HalfEdge) (h o : N) : list HalfEdge :=
  match vget hs h with
  | Some x => vset hs h (mkHalfEdge (prev x) (next x) o (vertex x) (face x))
  | None => hs
  end.

(** Body of [for (size_t i = 0; i < uniques.size(); ++i)]. *)
Definition link_pair (new2old : list si2) (hs : list HalfEdge) (i : N) : list HalfEdge :=
  let '(h1, h2) := default (NO_ID, NO_ID) (vget new2old i) in
  if negb (h1 =? NO_ID) && negb (h2 =? NO_ID)
  then set_opposite (set_opposite hs h1 h2) h2 h1
  else hs.

(** Body of [for (MVertex* mv: singularVertices)]. *)
Definition flag_singular (mv2new : gmap N N) (vs : list Vertex) (mv : N) : list Vertex :=
  match mv2new !! mv with
  | None => vs
  | Some v =>
      match vget vs v with
      | Some x => vset vs v (mkVertex (v_he x) true (v_ptr x))
      | None => vs
      end
  end.

Definition createMeshHalfEdges (quadrangles : list MQuadrangle)
    (singularVertices : list N) : Z * MeshHalfEdges :=
  let b := foldl add_quad (mkBuilder [] [] [] ∅) quadrangles in
  let hs := b_hedges b in
  (* Connectivity *)
  let vPairs := map (vPair_of hs) (iota (length hs)) in
  let '(uniques, old2new) := sort_unique_with_perm vPairs in
  match fill_new2old (iota (length hs)) old2new
          (repeat (NO_ID, NO_ID) (length uniques)) with
  | None => ((-1)%Z, mkMesh (b_vertices b) hs (b_faces b))
  | Some new2old =>
      let hs' := foldl (link_pair new2old) hs (iota (length uniques)) in
      (* Flag singular vertices *)
      let vs' := foldl (flag_singular (b_mv2new b)) (b_vertices b) singularVertices in
      (0%Z, mkMesh vs' hs' (b_faces b))
  end.

(** *** Hand-built grids: [n x m] quads, counter-clockwise, row by row.
    Vertex [(x,y)] has number [y*(n+1)+x]. *)
Definition grid_quad (n : N) (x y : N) : MQuadrangle :=
  let v := fun x y => y * (n + 1) + x in
  mkQuad (y * n + x) (v x y) (v (x + 1) y) (v (x + 1) (y + 1)) (v x (y + 1)).

Definition grid (n m : nat) : list MQuadrangle :=
  flat_map (fun y => map (fun x => grid_quad (N.of_nat n) x y) (iota n)) (iota m).

(* ------------------------------------------------------------------ *)
(** ** Traversals of [MeshHalfEdges] *)

Definition he_get (M : MeshHalfEdges) (he : N) : outcome HalfEdge :=
  of_option (vget (hedges M) he).
Definition M_next (M : MeshHalfEdges) (he : N) : outcome N :=
  h ← he_get M he; Ret (next h).
Definition M_opposite (M : MeshHalfEdges) (he : N) : outcome N :=
  h ← he_get M he; Ret (opposite h).
Definition M_prev (M : MeshHalfEdges) (he : N) : outcome N :=
  h ← he_get M he; Ret (prev h).
Definition he_vertex (M : MeshHalfEdges) (he : N) : outcome N :=
  h ← he_get M he; Ret (vertex h).
Definition he_face (M : MeshHalfEdges) (he : N) : outcome N :=
  h ← he_get M he; Ret (face h).

(** [M.vertex(he, lv)] *)
Definition M_vertex (M : MeshHalfEdges) (he lv : N) : outcome N :=
  if lv =? 0 then p ← M_prev M he; he_vertex M p else he_vertex M he.

Definition vertex_get (M : MeshHalfEdges) (v : N) : outcome Vertex :=
  of_option (vget (vertices M) v).
Definition face_get (M : MeshHalfEdges) (f : N) : outcome Face :=
  of_option (vget (faces M) f).
Definition is_sing (M : MeshHalfEdges) (v : N) : outcome bool :=
  x ← vertex_get M v; Ret (isSingularity x).

(** Every loop below follows a map on half edge indices until it comes back
    to its start or meets [NO_ID].  With [n] half edges, a walk that has not
    stopped after [n + 1] steps has repeated an index other than its stopping
    points and never stops: running out of fuel is [Diverge]. *)
Definition walk_fuel (M : MeshHalfEdges) : nat := S (length (hedges M)).

(** The half edges of face [f]:
    [he = faces[f].he; do { ...; he = next(he); } while (he != faces[f].he)]. *)
Fixpoint face_loop (fuel : nat) (M : MeshHalfEdges) (start he : N) : outcome (list N) :=
  match fuel with
  | O => Diverge
  | S k =>
      nx ← M_next M he;
      if nx =? start then Ret [he]
      else (r ← face_loop k M start nx; Ret (he :: r))
  end.

Definition face_halfedges (M : MeshHalfEdges) (f : N) : outcome (list N) :=
  fc ← face_get M f;
  face_loop (walk_fuel M) M (f_he fc) (f_he fc).

(** First loop of [vertexFaceValence]: returns [(valence, he_bdr)]. *)
Fixpoint vfv_turn (fuel : nat) (M : MeshHalfEdges) (start he : N) (valence : Z)
  : outcome (Z * N) :=
  match fuel with
  | O => Diverge
  | S k =>
      nx ← M_next M he;
      cand ← M_opposite M nx;
      if cand =? NO_ID then Ret (valence, nx)
      else
        let valence := (valence + 1)%Z in
        if cand =? start then Ret (valence, NO_ID)
        else vfv_turn k M start cand valence
  end.

(** Second loop of [vertexFaceValence]:
    [do { he = opposite(next(he)); valence += 1; }
     while (he != vertices[v].he && he != NO_ID)]. *)
Fixpoint vfv_unroll (fuel : nat) (M : MeshHalfEdges) (start he : N) (valence : Z)
  : outcome Z :=
  match fuel with
  | O => Diverge
  | S k =>
      nx ← M_next M he;
      he' ← M_opposite M nx;
      let valence := (valence + 1)%Z in
      if negb (he' =? start) && negb (he' =? NO_ID)
      then vfv_unroll k M start he' valence
      else Ret valence
  end.

(** [int vertexFaceValence(size_t v, bool& onBoundary)]: the pair
    [(returned valence, onBoundary)]. *)
Definition vertexFaceValence (M : MeshHalfEdges) (v : N) : outcome (Z * bool) :=
  x ← vertex_get M v;
  let he := v_he x in
  if he =? NO_ID then Ret (0%Z, false)
  else
    '(valence, he_bdr) ← vfv_turn (walk_fuel M) M he he 0%Z;
    if he_bdr =? NO_ID then Ret (valence, false)
    else
      (* Boundary case, unroll from he_bdr *)
      valence ← vfv_unroll (walk_fuel M) M he he_bdr 0%Z;
      Ret (valence, true).

(** Writing [faces[valence] = f] into a buffer of [cap] entries
    ([None]: a growing [std::vector]). *)
Definition buf_write (cap : option N) (buf : list N) (f : N) : outcome (list N) :=
  match cap with
  | Some c => if vsize buf <? c then Ret (buf ++ [f]) else Undef
  | None => Ret (buf ++ [f])
  end.

(** First loop of [vertexFaces]: returns [(faces, he_bdr)]. *)
Fixpoint vf_turn (fuel : nat) (M : MeshHalfEdges) (cap : option N) (start he : N)
    (buf : list N) : outcome (list N * N) :=
  match fuel with
  | O => Diverge
  | S k =>
      nx ← M_next M he;
      cand ← M_opposite M nx;
      if cand =? NO_ID then Ret (buf, nx)
      else
        f ← he_face M cand;
        buf ← buf_write cap buf f;
        if cand =? start then Ret (buf, NO_ID)
        else vf_turn k M cap start cand buf
  end.

(** Second loop of [vertexFaces]:
    [do { faces[valence] = hedges[he].face; he = opposite(prev(he)); valence += 1; }
     while (he != vertices[v].he && he != NO_ID)]. *)
Fixpoint vf_unroll (fuel : nat) (M : MeshHalfEdges) (cap : option N) (start he : N)
    (buf : list N) : outcome (list N) :=
  match fuel with
  | O => Diverge
  | S k =>
      f ← he_face M he;
      buf ← buf_write cap buf f;
      pv ← M_prev M he;
      he' ← M_opposite M pv;
      if negb (he' =? start) && negb (he' =? NO_ID)
      then vf_unroll k M cap start he' buf
      else Ret buf
  end.

(** [vertexFaces(v, faces)]: the entries [faces[0 .. valence-1]]; the
    returned valence is their number.  [cap = Some BSIZE] is the overload
    that writes into a caller-supplied array. *)
Definition vertexFaces (M : MeshHalfEdges) (cap : option N) (v : N) : outcome (list N) :=
  x ← vertex_get M v;
  let he := v_he x in
  '(buf, he_bdr) ← vf_turn (walk_fuel M) M cap he he [];
  if he_bdr =? NO_ID then Ret buf
  else vf_unroll (walk_fuel M) M cap he he_bdr [].

Definition BSIZE : N := 24.

Definition count_if (P : N -> bool) (l : list N) : Z :=
  Z.of_nat (length (filter (fun x => P x = true) l)).

Definition in_quads (quads : gset N) (f : N) : bool := bool_decide (f ∈ quads).

Definition valenceInsideQuads (M : MeshHalfEdges) (quads : gset N) (v : N) : outcome Z :=
  fs ← vertexFaces M (Some BSIZE) v;
  if BSIZE <=? vsize fs then Abort
  else Ret (count_if (in_quads quads) fs).

Definition valenceOutsideQuads (M : MeshHalfEdges) (quads : gset N) (v : N) : outcome Z :=
  fs ← vertexFaces M (Some BSIZE) v;
  if BSIZE <=? vsize fs then Abort
  else Ret (count_if (fun f => negb (in_quads quads f)) fs).

(* ------------------------------------------------------------------ *)
(** ** Cavities *)

Record FlipInfo : Type := mkFlipInfo {
  fi_he : N;
  fi_nq : N;
  fi_nvs : N * N * N * N
}.

Definition FlipInfo_init : FlipInfo :=
  mkFlipInfo NO_ID NO_ID (NO_ID, NO_ID, NO_ID, NO_ID).

Definition set_nq (info : FlipInfo) (nq : N) : FlipInfo :=
  mkFlipInfo (fi_he info) nq (fi_nvs info).
Definition set_nvs (info : FlipInfo) (nvs : N * N * N * N) : FlipInfo :=
  mkFlipInfo (fi_he info) (fi_nq info) nvs.

(** The cavity state; the mesh [M] it refers to is passed alongside. *)
Record FCavity : Type := mkCavity {
  hes : list N;      (* ordered half edges *)
  side : list N;     (* side associated to each half-edge *)
  quads : gset N     (* quads inside *)
}.

Definition set_hes (cav : FCavity) (h : list N) : FCavity :=
  mkCavity h (side cav) (quads cav).
Definition add_quad_to (cav : FCavity) (q : N) : FCavity :=
  mkCavity (hes cav) (side cav) ({[ q ]} ∪ quads cav).

(** [auto it = std::find(hes.begin(),hes.end(),x); hes.erase(it);]
    Erasing [end()] is undefined. *)
Definition find_erase (h : list N) (x : N) : outcome (list N) :=
  match vfind h x with
  | Some k => Ret (verase h k)
  | None => Undef
  end.

(** [hes.insert(hes.begin()+i+1, {a, b})] *)
Definition vinsert2 (h : list N) (i : N) (a b : N) : list N :=
  take (N.to_nat (i + 1)) h ++ [a; b] ++ drop (N.to_nat (i + 1)) h.

(** In [orderedHalfEdgesFromStack]:
    [for (size_t he2: hes_stack) if (he2 != he && M.vertex(he2,0) == v2)]. *)
Fixpoint find_next_he (M : MeshHalfEdges) (stack : list N) (he v2 : N)
  : outcome (option N) :=
  match stack with
  | [] => Ret None
  | he2 :: rest =>
      if he2 =? he then find_next_he M rest he v2
      else
        w ← M_vertex M he2 0;
        if w =? v2 then Ret (Some he2) else find_next_he M rest he v2
  end.

(** The [do ... while (he != he0)] of [orderedHalfEdgesFromStack]; returns
    [(ok, orderedHes)].  The walk follows a map on the entries of the stack,
    so [length stack + 1] steps decide whether it comes back to [he0]. *)
Fixpoint ordered_walk (fuel : nat) (M : MeshHalfEdges) (stack : list N)
    (he0 he : N) (ordered : list N) : outcome (bool * list N) :=
  match fuel with
  | O => Diverge
  | S k =>
      v2 ← M_vertex M he 1;
      let ordered := ordered ++ [he] in
      r ← find_next_he M stack he v2;
      match r with
      | None => Ret (false, ordered)
      | Some he2 =>
          if he2 =? he0 then Ret (true, ordered)
          else ordered_walk k M stack he0 he2 ordered
      end
  end.

Definition orderedHalfEdgesFromStack (M : MeshHalfEdges) (hes_stack : list N)
  : outcome (bool * list N) :=
  if vsize hes_stack <? 3 then Ret (false, [])
  else
    match hes_stack with
    | [] => Ret (true, [])
    | he0 :: _ => ordered_walk (S (length hes_stack)) M hes_stack he0 he0 []
    end.

(** [removeInteriorHalfEdges]: the scan position [pos] plays the iterator
    [it_he].  [hes.erase(it_op)] invalidates [it_he] unless [it_op] lies
    after it. *)
Fixpoint remove_interior (fuel : nat) (M : MeshHalfEdges) (h : list N) (pos : N)
  : outcome (list N) :=
  match fuel with
  | O => Ret h
  | S k =>
      match vget h pos with
      | None => Ret h
      | Some he =>
          he_op ← M_opposite M he;
          match vfind h he_op with
          | Some j =>
              if j <=? pos then Undef
              else remove_interior k M (verase (verase h j) pos) pos
          | None => remove_interior k M h (pos + 1)
          end
      end
  end.

Definition removeInteriorHalfEdges (M : MeshHalfEdges) (h : list N) : outcome (list N) :=
  remove_interior (S (length h)) M h 0.

(** Logical or / and with the short-circuit evaluation of the source. *)
Definition oor (a : outcome bool) (b : outcome bool) : outcome bool :=
  x ← a; if (x : bool) then Ret true else b.
Definition oand (a : outcome bool) (b : outcome bool) : outcome bool :=
  x ← a; if (x : bool) then b else Ret false.

(** [q = (he_op != NO_ID) ? M.hedges[he_op].face : NO_ID] *)
Definition face_or_none (M : MeshHalfEdges) (he_op : N) : outcome N :=
  if he_op =? NO_ID then Ret NO_ID else he_face M he_op.

Definition qin (cav : FCavity) (q : N) : bool :=
  negb (q =? NO_ID) && in_quads (quads cav) q.

(** [(i + hes.size() - k) % hes.size()] in [size_t] arithmetic *)
Definition idx_back (i sz k : N) : N := wrap (i + sz + (SIZE_MOD - k)) mod sz.

Definition NO_NVS : N * N * N * N := (NO_ID, NO_ID, NO_ID, NO_ID).

(** The three "minus two vertices" branches share their shape. *)
Definition flip_minus2 (M : MeshHalfEdges) (cav : FCavity) (info : FlipInfo)
    (rejectNewSings : bool) (he_nv : N) (pos he_new e1 e2 : N)
  : outcome (bool * FCavity * FlipInfo) :=
  nv1 ← M_vertex M he_nv 0;
  nv2 ← M_vertex M he_nv 1;
  rej ← oand (Ret rejectNewSings) (oor (is_sing M nv1) (is_sing M nv2));
  if (rej : bool) then Ret (false, cav, info)
  else
    let info := set_nvs info NO_NVS in
    let h := vset (hes cav) pos he_new in
    h ← find_erase h e1;
    h ← find_erase h e2;
    Ret (true, add_quad_to (set_hes cav h) (fi_nq info), info).

(** Branch [q1in && q2in && q3in]: closing a hole. *)
Definition flip_close (M : MeshHalfEdges) (cav : FCavity) (info : FlipInfo)
    (rejectNewSings : bool) (h0 : HalfEdge) (he0_op he1_op he2_op he3_op : N)
  : outcome (bool * FCavity * FlipInfo) :=
  let nv0 := vertex h0 in
  let nv1 := vertex h0 in
  let nv2 := vertex h0 in
  let nv3 := vertex h0 in
  rej ← oand (Ret rejectNewSings)
           (oor (is_sing M nv0) (oor (is_sing M nv1)
              (oor (is_sing M nv2) (is_sing M nv3))));
  if (rej : bool) then Ret (false, cav, info)
  else
    let info := set_nvs info (nv0, nv1, nv2, nv3) in
    h ← find_erase (hes cav) he0_op;
    h ← find_erase h he1_op;
    h ← find_erase h he2_op;
    h ← find_erase h he3_op;
    '(oks, ordered) ← orderedHalfEdgesFromStack M h;
    let cav := set_hes cav ordered in
    if negb oks then Ret (false, cav, set_nq info NO_ID)
    else Ret (true, add_quad_to cav (fi_nq info), info).

(** Branches [q1in && !q2in && !q3in] and [!q1in && !q2in && q3in]: same
    number of vertices on the boundary.  [nv] is the vertex that comes onto
    the boundary, [nvIn] the one that leaves it; [p1 := a1] and [p2 := a2] are
    the two entries of [hes] that are overwritten. *)
Definition flip_same (M : MeshHalfEdges) (cav : FCavity) (info : FlipInfo)
    (rejectNewSings : bool) (nv : N) (nvIn : outcome N) (p1 a1 p2 a2 : N)
  : outcome (bool * FCavity * FlipInfo) :=
  (* Check we are not creating a non-manifold edge boundary *)
  val ← valenceInsideQuads M (quads cav) nv;
  if (0 <? val)%Z then Ret (false, cav, set_nq info NO_ID)
  else
    nvIn ← nvIn;
    rej ← oand (Ret rejectNewSings) (is_sing M nvIn);
    if (rej : bool) then Ret (false, cav, set_nq info NO_ID)
    else
      let info := set_nvs info NO_NVS in
      let h := vset (hes cav) p1 a1 in
      let h := vset h p2 a2 in
      Ret (true, add_quad_to (set_hes cav h) (fi_nq info), info).

(** Branch [!q1in && !q2in && !q3in]: two additional vertices on the
    boundary. *)
Definition flip_plus2 (M : MeshHalfEdges) (cav : FCavity) (info : FlipInfo)
    (rejectNewSings : bool) (i he0 he1 he2 he3 : N) (h1 h2 : HalfEdge)
  : outcome (bool * FCavity * FlipInfo) :=
  (* Check we are not creating a non-manifold edge boundary *)
  let nv1 := vertex h1 in
  val1 ← valenceInsideQuads M (quads cav) nv1;
  if (0 <? val1)%Z then Ret (false, cav, set_nq info NO_ID)
  else
    let nv2 := vertex h2 in
    val2 ← valenceInsideQuads M (quads cav) nv2;
    if (0 <? val2)%Z then Ret (false, cav, set_nq info NO_ID)
    else
      (* Would be concave corner around singularity, reject *)
      let concave := fun (v : N) =>
        oand (is_sing M v)
             (o ← valenceOutsideQuads M (quads cav) v; Ret (o =? 2)%Z) in
      rej ← oand (Ret rejectNewSings)
               (oor (v0 ← M_vertex M he0 0; concave v0)
                    (v1 ← M_vertex M he0 1; concave v1));
      if (rej : bool) then Ret (false, cav, info)
      else
        (* Do the flip *)
        let h := vset (hes cav) i he1 in
        let h := vinsert2 h i he2 he3 in
        Ret (true, add_quad_to (set_hes cav h) (fi_nq info), info).

(** [bool growByFlip(size_t i, FlipInfo& info, bool rejectNewSings)]:
    returns the result together with the cavity and [info] after the call. *)
Definition growByFlip (M : MeshHalfEdges) (cav : FCavity) (i : N) (info : FlipInfo)
    (rejectNewSings : bool) : outcome (bool * FCavity * FlipInfo) :=
  match vget (hes cav) i with
  | None => Ret (false, cav, set_nq info NO_ID)
  | Some he0_op =>
    he0 ← M_opposite M he0_op;
    if he0 =? NO_ID then Ret (false, cav, set_nq info NO_ID) (* half-edge on bdr *)
    else
    h0 ← he_get M he0;
    let info := mkFlipInfo he0_op (face h0) (fi_nvs info) in
    let he1 := next h0 in
    h1 ← he_get M he1;
    let he2 := next h1 in
    h2 ← he_get M he2;
    let he3 := next h2 in
    h3 ← he_get M he3;
    let he1_op := opposite h1 in
    let he2_op := opposite h2 in
    let he3_op := opposite h3 in
    q1 ← face_or_none M he1_op;
    q2 ← face_or_none M he2_op;
    q3 ← face_or_none M he3_op;
    let q1in := qin cav q1 in
    let q2in := qin cav q2 in
    let q3in := qin cav q3 in
    let sz := vsize (hes cav) in
    if q1in && q2in && negb q3in then (* minus two vertices on the bdr *)
      flip_minus2 M cav info rejectNewSings he1 (idx_back i sz 2) he3 he0_op he1_op
    else if q1in && negb q2in && q3in then (* minus two vertices on the bdr *)
      flip_minus2 M cav info rejectNewSings he0_op (idx_back i sz 1) he2 he0_op he3_op
    else if negb q1in && q2in && q3in then (* minus two vertices on the bdr *)
      flip_minus2 M cav info rejectNewSings he3 i he1 he2_op he3_op
    else if q1in && q2in && q3in then
      flip_close M cav info rejectNewSings h0 he0_op he1_op he2_op he3_op
    else if q1in && negb q2in && negb q3in then
      flip_same M cav info rejectNewSings (vertex h2) (Ret (vertex h0))
        (idx_back i sz 1) he2 i he3
    else if negb q1in && negb q2in && q3in then
      flip_same M cav info rejectNewSings (vertex h1) (he_vertex M he0_op)
        i he1 (wrap (i + 1) mod sz) he2
    else if negb q1in && negb q2in && negb q3in then
      flip_plus2 M cav info rejectNewSings i he0 he1 he2 he3 h1 h2
    else (* flip config not supported *)
      Ret (false, cav, set_nq info NO_ID)
  end.

(** Monadic fold: a [for] loop whose body may fail to return. *)
Fixpoint ofold {S A : Type} (f : S -> A -> outcome S) (l : list A) (s : S) : outcome S :=
  match l with
  | [] => Ret s
  | a :: t => s' ← f s a; ofold f t s'
  end.

(** [l[i] = f(l[i])] on a vector; out of range is undefined. *)
Definition vupd {A : Type} (l : list A) (i : N) (f : A -> A) : outcome (list A) :=
  match vget l i with
  | Some x => Ret (vset l i (f x))
  | None => Undef
  end.

(** [int updateSides()]: returns [(sideNo + 1, side)]. *)
Definition corner_count (M : MeshHalfEdges) (q : gset N) : outcome (gmap N Z) :=
  ofold (fun (val : gmap N Z) f =>
           fhs ← face_halfedges M f;
           ofold (fun (val : gmap N Z) he =>
                    v ← he_vertex M he;
                    Ret (<[v := (default 0%Z (val !! v) + 1)%Z]> val))
                 (take 4 fhs) val)
        (elements q) ∅.

Definition is_corner (val : gmap N Z) (v : N) : bool :=
  bool_decide (val !! v = Some 1%Z).

(** The inner [for (size_t j ...)] of [updateSides], started at boundary
    position [i]. *)
Definition tag_sides (M : MeshHalfEdges) (val : gmap N Z) (h : list N) (i : N)
    (sd : list N) : outcome (Z * list N) :=
  ofold (fun (st : Z * list N) j =>
           let he_pos := wrap (i + j) mod vsize h in
           he ← of_option (vget h he_pos);
           v1 ← M_vertex M he 0;
           let sideNo := if is_corner val v1 then (fst st + 1)%Z else fst st in
           (* side is a vector of uint8_t *)
           Ret (sideNo, vset (snd st) he_pos (Z.to_N (sideNo mod 256))))
        (iota (length h)) ((-1)%Z, sd).

Fixpoint first_corner (M : MeshHalfEdges) (val : gmap N Z) (h : list N) (i : N)
  : outcome (option N) :=
  match h with
  | [] => Ret None
  | he0 :: rest =>
      v0 ← M_vertex M he0 0;
      if is_corner val v0 then Ret (Some i) else first_corner M val rest (i + 1)
  end.

Definition updateSides (M : MeshHalfEdges) (cav : FCavity) : outcome (Z * FCavity) :=
  (* side.resize(hes.size()) *)
  let sd := take (length (hes cav)) (side cav)
            ++ repeat 0 (length (hes cav) - length (side cav)) in
  val ← corner_count M (quads cav);
  fc ← first_corner M val (hes cav) 0;
  match fc with
  | None => Ret (0%Z, mkCavity (hes cav) sd (quads cav))
  | Some i =>
      '(sideNo, sd) ← tag_sides M val (hes cav) i sd;
      Ret ((sideNo + 1)%Z, mkCavity (hes cav) sd (quads cav))
  end.

(** [bool init(const std::vector<size_t>& quadsInit)] on a fresh cavity. *)
Definition FCavity_empty : FCavity := mkCavity [] [] ∅.

Definition init (M : MeshHalfEdges) (cav : FCavity) (quadsInit : list N)
  : outcome (bool * FCavity) :=
  if vsize quadsInit <? 1 then Ret (false, cav)
  else
    '(q, hes_stack) ←
       ofold (fun (st : gset N * list N) f =>
                fhs ← face_halfedges M f;
                Ret ({[ f ]} ∪ fst st, snd st ++ fhs))
             quadsInit (quads cav, []);
    let cav := mkCavity (hes cav) (side cav) q in
    hes_stack ← removeInteriorHalfEdges M hes_stack;
    '(oks, ordered) ← orderedHalfEdgesFromStack M hes_stack;
    let cav := set_hes cav ordered in
    if negb oks then Ret (false, cav)
    else
      '(nsides, cav) ← updateSides M cav;
      if (nsides <=? 0)%Z then Ret (false, cav) else Ret (true, cav).

(* ------------------------------------------------------------------ *)
(** ** Gardener *)

(** [current] points to the cavity being grown; the cavity it points to is
    kept in the record, so that growing the cavity and the gardener's view
    of it stay one object.  [lastIrregularity] (a double) is not touched by
    the functions embedded here. *)
Record Gardener : Type := mkGardener {
  valence : list Z;
  vOnBoundary : list bool;
  current : option FCavity;
  valenceInCavity : list Z;
  cavityTargetNbOfSides : Z;
  sings : gset N;        (* singularities strictly inside *)
  singsBdr : gset N;     (* singularities on the cavity boundary *)
  irregular : gset N;    (* irregular vertices (not sing.) inside, including bdr *)
  lastCav : FCavity;
  lastNbIrregular : N
}.

(** Constructor [Gardener(MeshHalfEdges& M_)]. *)
Definition Gardener_new (M : MeshHalfEdges) : outcome Gardener :=
  let n := length (vertices M) in
  '(val, onb) ←
    ofold (fun (st : list Z * list bool) i =>
             fhs ← face_halfedges M i;
             ofold (fun (st : list Z * list bool) he =>
                      h ← he_get M he;
                      let v2 := vertex h in
                      val ← vupd (fst st) v2 (fun x => (x + 1)%Z);
                      if opposite h =? NO_ID then
                        v1 ← M_vertex M he 0;
                        onb ← vupd (snd st) v1 (fun _ => true);
                        onb ← vupd onb v2 (fun _ => true);
                        Ret (val, onb)
                      else Ret (val, snd st))
                   fhs st)
          (iota (length (faces M))) (repeat 0%Z n, repeat false n);
  Ret (mkGardener val onb None (repeat 0%Z n) 0 ∅ ∅ ∅ FCavity_empty 0).

(** The classification shared by [setCavity] and [markNewQuad]:
    [else if (vOnBoundary[v] && valence[v] != 2) irregular.insert(v);
     else if (!vOnBoundary[v] && valence[v] != 4) irregular.insert(v);] *)
Definition mark_irregular (G : Gardener) (irr : gset N) (v : N) : outcome (gset N) :=
  b ← of_option (vget (vOnBoundary G) v);
  if (b : bool) then
    x ← of_option (vget (valence G) v);
    Ret (if (x =? 2)%Z then irr else {[ v ]} ∪ irr)
  else
    x ← of_option (vget (valence G) v);
    Ret (if (x =? 4)%Z then irr else {[ v ]} ∪ irr).

Definition target_of_size (n : nat) : Z :=
  if (n =? 3)%nat then 3
  else if (n =? 4)%nat || (n =? 1)%nat then 4
  else if (n =? 5)%nat then 5
  else 0.

(** [bool setCavity(FCavity& cav)] *)
Definition setCavity (M : MeshHalfEdges) (G : Gardener) (cav : FCavity)
  : outcome (bool * Gardener) :=
  if (size (quads cav) =? 0)%nat || (length (hes cav) =? 0)%nat then Ret (false, G)
  else
    (* Clean stuff of the previous current cavity *)
    let vic := repeat 0%Z (length (valenceInCavity G)) in
    '(vic, asings, irr) ←
      ofold (fun (st : list Z * list N * gset N) i =>
               fhs ← face_halfedges M i;
               ofold (fun (st : list Z * list N * gset N) he =>
                        let '(vic, asings, irr) := st in
                        v2 ← he_vertex M he;
                        vic ← vupd vic v2 (fun x => (x + 1)%Z);
                        s ← is_sing M v2;
                        if (s : bool) then Ret (vic, asings ++ [v2], irr)
                        else (irr ← mark_irregular G irr v2; Ret (vic, asings, irr)))
                     fhs st)
            (elements (quads cav)) (vic, [], ∅);
    let target := target_of_size (size (quads cav)) in
    (* Only add singularities if strictly inside *)
    '(sg, sgb) ←
      ofold (fun (st : gset N * gset N) v =>
               a ← of_option (vget vic v);
               b ← of_option (vget (valence G) v);
               if (a =? b)%Z then Ret ({[ v ]} ∪ fst st, snd st)
               else Ret (fst st, {[ v ]} ∪ snd st))
            (sort_unique asings) (∅, ∅);
    Ret (true, mkGardener (valence G) (vOnBoundary G) (Some cav) vic target
                 sg sgb irr FCavity_empty 0).

(** [void markNewQuad(size_t nq)] *)
Definition markNewQuad (M : MeshHalfEdges) (G : Gardener) (nq : N) : outcome Gardener :=
  fhs ← face_halfedges M nq;
  ofold (fun (G : Gardener) heq =>
           v2q ← he_vertex M heq;
           vic ← vupd (valenceInCavity G) v2q (fun x => (x + 1)%Z);
           let G := mkGardener (valence G) (vOnBoundary G) (current G) vic
                      (cavityTargetNbOfSides G) (sings G) (singsBdr G) (irregular G)
                      (lastCav G) (lastNbIrregular G) in
           s ← is_sing M v2q;
           if (s : bool) then
             a ← of_option (vget vic v2q);
             b ← of_option (vget (valence G) v2q);
             if (a =? b)%Z then Abort (* new sing inside, bad ! abort *)
             else Ret (mkGardener (valence G) (vOnBoundary G) (current G) vic
                         (cavityTargetNbOfSides G) (sings G) ({[ v2q ]} ∪ singsBdr G)
                         (irregular G) (lastCav G) (lastNbIrregular G))
           else
             irr ← mark_irregular G (irregular G) v2q;
             Ret (mkGardener (valence G) (vOnBoundary G) (current G) vic
                    (cavityTargetNbOfSides G) (sings G) (singsBdr G) irr
                    (lastCav G) (lastNbIrregular G)))
        fhs G.

(** The step shared by [convexify], [growIsotropic] and [growMaximal]:
    [bool ok = cav.growByFlip(i, info, true); if (ok) markNewQuad(info.nq);] *)
Definition flip_and_mark (M : MeshHalfEdges) (G : Gardener) (i : N)
  : outcome (bool * Gardener) :=
  match current G with
  | None => Ret (false, G)
  | Some cav =>
      '(ok, cav', info) ← growByFlip M cav i FlipInfo_init true;
      let G := mkGardener (valence G) (vOnBoundary G) (Some cav') (valenceInCavity G)
                 (cavityTargetNbOfSides G) (sings G) (singsBdr G) (irregular G)
                 (lastCav G) (lastNbIrregular G) in
      if (ok : bool) then (G' ← markNewQuad M G (fi_nq info); Ret (true, G'))
      else Ret (false, G)
  end.

(** The configuration that [growByFlip] dispatches on: [None] when there is
    no quad to absorb across [hes[i]], otherwise [(q1in, q2in, q3in)]. *)
Definition flip_config (M : MeshHalfEdges) (cav : FCavity) (i : N)
  : outcome (option (bool * bool * bool)) :=
  match vget (hes cav) i with
  | None => Ret None
  | Some he0_op =>
    he0 ← M_opposite M he0_op;
    if he0 =? NO_ID then Ret None
    else
    h0 ← he_get M he0;
    h1 ← he_get M (next h0);
    h2 ← he_get M (next h1);
    h3 ← he_get M (next h2);
    q1 ← face_or_none M (opposite h1);
    q2 ← face_or_none M (opposite h2);
    q3 ← face_or_none M (opposite h3);
    Ret (Some (qin cav q1, qin cav q2, qin cav q3))
  end.

(** "Closing a hole": all three other neighbours are inside. *)
Definition closing_hole (M : MeshHalfEdges) (cav : FCavity) (i : N) : Prop :=
  flip_config M cav i = Ret (Some (true, true, true)).

(** The quad across [hes[i]], the one a flip absorbs. *)
Definition candidate_quad (M : MeshHalfEdges) (cav : FCavity) (i : N) : outcome N :=
  he0_op ← of_option (vget (hes cav) i);
  he0 ← M_opposite M he0_op;
  he_face M he0.

(** The four corners of a face, by its half edges. *)
Definition face_vertices (M : MeshHalfEdges) (f : N) : outcome (list N) :=
  fhs ← face_halfedges M f;
  ofold (fun (acc : list N) he => v ← he_vertex M he; Ret (acc ++ [v])) fhs [].

(** What a branch of [growByFlip] other than "closing a hole" may do to the
    cavity: a rejection leaves it alone, a success adds the candidate quad. *)
Definition flip_ok (cav : FCavity) (nq : N) (r : bool * FCavity * FlipInfo) : Prop :=
  let '(b, cav', info') := r in
  if b then fi_nq info' = nq /\ quads cav' = {[ nq ]} ∪ quads cav
  else cav' = cav.


(* ------------------------------------------------------------------ *)
(** ** Hand-built inputs *)

(** The index in [M.vertices] of the vertex built from [MVertex] [p]. *)
Fixpoint index_of_ptr (vs : list Vertex) (p : N) : N :=
  match vs with
  | [] => NO_ID
  | x :: t => if v_ptr x =? p then 0
              else let k := index_of_ptr t p in
                   if k =? NO_ID then NO_ID else N.succ k
  end.

(** The 3 x 3 grid of quads, no singularity flagged. *)
Definition grid33 : MeshHalfEdges := snd (createMeshHalfEdges (grid 3 3) []).

(** The 3 x 3 grid with the grid point (2,2) (MVertex 10), a corner of the
    centre quad, flagged as a singularity. *)
Definition grid33_sing : MeshHalfEdges := snd (createMeshHalfEdges (grid 3 3) [10]).

(** The eight quads around the centre quad 4, with the boundary of that set
    as [hes]: the loop around the hole, then the outer loop. *)
Definition ring_cavity : FCavity :=
  mkCavity ([6; 13; 28; 23] ++ [0; 4; 8; 9; 21; 33; 34; 30; 26; 27; 15; 3])
           [] {[ 0; 1; 2; 3; 5; 6; 7; 8 ]}.

(** The invariant the cavity data model asks for: every entry of [hes] has
    no opposite or an opposite in a face outside [quads], and the half edges
    of the faces of [quads] with that property are exactly the entries of
    [hes], each once. *)
Definition he_on_boundary (M : MeshHalfEdges) (q : gset N) (he : N) : bool :=
  let o := opposite (hedge_at (hedges M) he) in
  (o =? NO_ID) || negb (in_quads q (face (hedge_at (hedges M) o))).

Definition cavity_boundary_ok (M : MeshHalfEdges) (cav : FCavity) : bool :=
  let bdr := filter (fun he => in_quads (quads cav) (face (hedge_at (hedges M) he))
                               && he_on_boundary M (quads cav) he = true)
                    (iota (length (hedges M))) in
  forallb (fun he => (length (filter (fun x => x = he) (hes cav)) =? 1)%nat) bdr
  && forallb (fun he => bool_decide (he ∈ bdr)) (hes cav).

(** Two quads side by side; MVertex 1, the lower end of the shared edge,
    is flagged as a singularity. *)
Definition strip12_sing : MeshHalfEdges := snd (createMeshHalfEdges (grid 2 1) [1]).

(** [k] quads around the vertex 0, each sharing an edge with the next. *)
Definition fan (k : nat) : list MQuadrangle :=
  map (fun i => mkQuad i 0 (1 + 2 * i) (2 + 2 * i) (3 + 2 * i)) (iota k).

(** Two quads that share the vertex 0 and nothing else. *)
Definition bowtie : list MQuadrangle := [mkQuad 0 0 1 2 3; mkQuad 1 0 4 5 6].

(** The gardener of [M] after [setCavity(cav)]. *)
Definition gardener_of (M : MeshHalfEdges) (cav : FCavity) : outcome Gardener :=
  G ← Gardener_new M;
  '(_, G') ← setCavity M G cav;
  Ret G'.

(** The faces of the cavity close up and their corners are within the
    vectors that [setCavity] indexes. *)
Definition vertex_fits (M : MeshHalfEdges) (G : Gardener) (v : N) : bool :=
  (v <? vsize (vertices M)) && (v <? vsize (valence G))
  && (v <? vsize (vOnBoundary G)) && (v <? vsize (valenceInCavity G)).

Definition face_fits (M : MeshHalfEdges) (G : Gardener) (f : N) : bool :=
  match face_halfedges M f with
  | Ret fhs =>
      forallb (fun he => match he_vertex M he with
                         | Ret v => vertex_fits M G v
                         | _ => false
                         end) fhs
  | _ => false
  end.

Definition cavity_fits (M : MeshHalfEdges) (G : Gardener) (cav : FCavity) : bool :=
  forallb (face_fits M G) (elements (quads cav)).

(** Loop invariant of [setCavity]: [valenceInCavity] keeps its size and the
    collected singular vertices are valid indices. *)
Definition sc_inv (G : Gardener) (st : list Z * list N * gset N) : Prop :=
  length (fst (fst st)) = length (valenceInCavity G)
  /\ Forall (fun v => v < vsize (valenceInCavity G) /\ v < vsize (valence G))
            (snd (fst st)).

Definition Gardener_default : Gardener :=
  mkGardener [] [] None [] 0 ∅ ∅ ∅ FCavity_empty 0.

(** The gardener built on the 3 x 3 grid. *)
Definition gardener33 : Gardener :=
  match Gardener_new grid33 with Ret g => g | _ => Gardener_default end.

(** The faces written by the first loop of [vertexFaces], when it is given
    room for all of them. *)
Definition first_turn_faces (M : MeshHalfEdges) (v : N) : outcome (list N) :=
  x ← vertex_get M v;
  '(buf, _) ← vf_turn (walk_fuel M) M None (v_he x) (v_he x) [];
  Ret buf.

(* ------------------------------------------------------------------ *)
(** ** Invariants of the construction *)

(** next / prev of each entry are within the vector and inverse to each other,
   and no opposite is set yet. *)
Definition np_consistent (hs : list HalfEdge) : Prop :=
  forall i h, vget hs i = Some h ->
    (exists h', vget hs (next h) = Some h' /\ prev h' = i)
    /\ (exists h', vget hs (prev h) = Some h' /\ next h' = i).


Definition no_opposite (hs : list HalfEdge) : Prop :=
  forall i h, vget hs i = Some h -> opposite h = NO_ID.


(** Setting [opposite] fields leaves [prev] and [next] alone. *)
Definition same_np (hs hs' : list HalfEdge) : Prop :=
  length hs' = length hs
  /\ forall i h, vget hs i = Some h ->
       exists h', vget hs' i = Some h' /\ prev h' = prev h /\ next h' = next h.


Definition slot_of (old2new : list N) (i : N) : N := default NO_ID (vget old2new i).

(** What the loop over the half edges keeps true of [new2old]: an entry that
    is set is a half edge below [k] whose class is the slot, and the second
    entry of a slot comes after a first, different one. *)
Definition fill_inv (old2new : list N) (k : N) (T : list si2) : Prop :=
  forall s a b, vget T s = Some (a, b) ->
    (a <> NO_ID -> slot_of old2new a = s /\ a < k)
    /\ (b <> NO_ID -> slot_of old2new b = s /\ b < k /\ a <> NO_ID /\ a <> b).


Definition full_slot (T : list si2) (s a b : N) : Prop :=
  vget T s = Some (a, b) /\ a <> NO_ID /\ b <> NO_ID.

(** Half edges with an opposite belong to a linked slot; linked slots are
    linked both ways. *)
Definition link_inv (T : list si2) (n : N) (j : N) (hs : list HalfEdge) : Prop :=
  vsize hs = n
  /\ (forall i h, vget hs i = Some h -> opposite h <> NO_ID ->
        exists s a b, s < j /\ full_slot T s a b
          /\ ((i = a /\ opposite h = b) \/ (i = b /\ opposite h = a)))
  /\ (forall s a b, s < j -> full_slot T s a b ->
        (exists ha, vget hs a = Some ha /\ opposite ha = b)
        /\ (exists hb, vget hs b = Some hb /\ opposite hb = a)).


(** The 2 x 2 grid. *)
Definition grid22 : MeshHalfEdges := snd (createMeshHalfEdges (grid 2 2) []).

(* ------------------------------------------------------------------ *)
(** ** Edges of the input quads, and the bookkeeping of the connectivity loop *)

Definition si2_le (a b : si2) : Prop := si2_ltb b a = false.


(** The comparator that sorts by the value found under an index. *)
Definition lt_by_key {A : Type} (key : A -> si2) (a b : A) : bool :=
  si2_ltb (key a) (key b).

Fixpoint key_sorted {A : Type} (key : A -> si2) (l : list A) : Prop :=
  match l with
  | [] => True
  | x :: t => (forall y, In y t -> si2_le (key x) (key y)) /\ key_sorted key t
  end.


(** The grouping loops of [sort_unique_with_perm] as a walk along [ids] *)
Definition key_of (inv : list si2) (i : N) : si2 := default (NO_ID, NO_ID) (vget inv i).

Fixpoint walk (inv : list si2) (prevk : si2) (cur : N) (l : list N) : list (N * N) :=
  match l with
  | [] => []
  | i :: t =>
      if si2_eqb (key_of inv i) prevk then (i, cur) :: walk inv prevk cur t
      else (i, cur + 1) :: walk inv (key_of inv i) (cur + 1) t
  end.

Definition walk_all (inv : list si2) (cur : N) (l : list N) : list (N * N) :=
  match l with
  | [] => []
  | j :: t => (j, cur) :: walk inv (key_of inv j) cur t
  end.

Definition assign (o : list N) (w : list (N * N)) : list N :=
  fold_left (fun o p => vset o (fst p) (snd p)) w o.

Fixpoint span_run (inv : list si2) (kr : si2) (l : list N) : list N * list N :=
  match l with
  | [] => ([], [])
  | i :: t =>
      if si2_eqb (key_of inv i) kr
      then let '(r, s) := span_run inv kr t in (i :: r, s)
      else ([], l)
  end.


(** Number of half edges below [k] whose class is [s]. *)
Fixpoint cnt (old2new : list N) (s : N) (k : nat) : nat :=
  match k with
  | O => 0
  | S k' => cnt old2new s k' + (if slot_of old2new (N.of_nat k') =? s then 1 else 0)
  end.

(** Number of entries of a slot of [new2old] that are set. *)
Definition filled (e : option si2) : nat :=
  match e with
  | None => 0
  | Some (a, b) => (if a =? NO_ID then 0 else 1) + (if b =? NO_ID then 0 else 1)
  end.


(** Occurrences of a value in a list of pairs *)
Fixpoint count_si2 (e : si2) (l : list si2) : nat :=
  match l with
  | [] => 0
  | x :: t => (if si2_eqb x e then 1 else 0) + count_si2 e t
  end.


Definition sort2 (p : si2) : si2 := if snd p <? fst p then (snd p, fst p) else p.

(** The four sides of a quad, from vertex to vertex. *)
Definition sides_of (q : MQuadrangle) : list si2 :=
  [(q_v0 q, q_v1 q); (q_v1 q, q_v2 q); (q_v2 q, q_v3 q); (q_v3 q, q_v0 q)].

Definition idm (mp : gmap N N) (v : N) : N := default NO_ID (mp !! v).
Definition ren (mp : gmap N N) (p : si2) : si2 := sort2 (idm mp (fst p), idm mp (snd p)).

(** What the loop over the quads keeps true. *)
Record build_inv (b : builder) (done : list MQuadrangle) : Prop := {
  bi_ptr : forall v n, b_mv2new b !! v = Some n ->
             exists x, vget (b_vertices b) n = Some x /\ v_ptr x = v;
  bi_size : vsize (b_vertices b) <= vsize (b_hedges b);
  bi_dom : forall p, In p (flat_map sides_of done) ->
             is_Some (b_mv2new b !! fst p) /\ is_Some (b_mv2new b !! snd p);
  bi_pairs : map (vPair_of (b_hedges b)) (iota (length (b_hedges b)))
             = map (ren (b_mv2new b)) (flat_map sides_of done);
  bi_np : np_consistent (b_hedges b);
  bi_len : vsize (b_hedges b) = 4 * N.of_nat (length done)
}.

Definition vmap_inv (st : list Vertex * gmap N N) : Prop :=
  forall v n, snd st !! v = Some n ->
    exists x, vget (fst st) n = Some x /\ v_ptr x = v.


(** The edges of a quad as unordered vertex pairs. *)
Definition quad_edges (q : MQuadrangle) : list si2 := map sort2 (sides_of q).

(** Number of quad sides that lie on the edge [e]. *)
Definition sides_on (e : si2) (quadrangles : list MQuadrangle) : nat :=
  count_si2 e (flat_map quad_edges quadrangles).

(** Number of quads that have [e] among their edges. *)
Definition quads_on (e : si2) (quadrangles : list MQuadrangle) : nat :=
  length (List.filter (fun q => existsb (fun x => si2_eqb x e) (quad_edges q)) quadrangles).


(** A quad that runs twice along the same edge. *)
Definition folded_quad : list MQuadrangle := [mkQuad 0 0 1 0 1].

(* ------------------------------------------------------------------ *)
(** ** remeshSmallDefects: accepting or discarding a replacement *)

Definition CORNER : Z := 1.
Definition CURVE : Z := 2.
Definition SURFACE : Z := 3.

(** The part of the surface that one repair edits: the quads and mesh
    vertices of the [GFace] and the map from a vertex to its quads.
    Elements in the adjacency lists are known by their identity. *)
Record surface_mesh : Type := mkSurface {
  gf_quadrangles : list MQuadrangle;
  gf_mesh_vertices : list N;
  sm_adj : gmap N (list N)
}.

Definition quad_vertices (f : MQuadrangle) : list N :=
  [q_v0 f; q_v1 f; q_v2 f; q_v3 f].

(** [std::pow(x, 2)] and the other terms of the energy are computed in double
    precision from vertex counts; every intermediate value is an integer far
    below 2^53, which doubles hold exactly, so the energy is taken in [Z]. *)
Definition irregularityEnergyOfCavity (bnd : list N) (bndIdealValence : list Z)
    (bndAllowedValenceRange : list (Z * Z)) (inside : list N)
    (quads : list MQuadrangle) : Z :=
  let qval : gmap N Z :=
    foldl (fun (m : gmap N Z) f =>
             foldl (fun (m : gmap N Z) v => <[v := (default 0 (m !! v) + 1)%Z]> m)
                   m (quad_vertices f))
          ∅ quads in
  let energy :=
    foldl (fun (energy : Z) i =>
             match qval !! default NO_ID (vget bnd i) with
             | None => energy   (* bnd vertex not found in qval *)
             | Some val =>
                 let ideal := default 0%Z (vget bndIdealValence i) in
                 let range := default (0%Z, 0%Z) (vget bndAllowedValenceRange i) in
                 let energy := (energy + (val - ideal) ^ 2)%Z in
                 if (fst range =? snd range)%Z && negb (val =? fst range)%Z
                 then (energy + 1000 * Z.abs (val - fst range))%Z   (* defect penalty *)
                 else energy
             end)
          0%Z (iota (length bnd)) in
  foldl (fun (energy : Z) v =>
           match qval !! v with
           | None => energy   (* interior vertex not found in qval *)
           | Some val =>
               let energy := (energy + (val - 4) ^ 2)%Z in
               if (5 <? val)%Z then (energy + 1000 * (val - 5))%Z else energy
           end)
        energy inside.

(** [std::find] then [erase] when found: the first occurrence goes. *)
Fixpoint erase_first (x : N) (l : list N) : list N :=
  match l with
  | [] => []
  | y :: t => if (y =? x)%N then t else y :: erase_first x t
  end.

Fixpoint erase_first_quad (x : N) (l : list MQuadrangle) : list MQuadrangle :=
  match l with
  | [] => []
  | y :: t => if (q_ptr y =? x)%N then t else y :: erase_first_quad x t
  end.

Definition addToAdjacencyList (e : MQuadrangle) (adj : gmap N (list N)) : gmap N (list N) :=
  foldl (fun (adj : gmap N (list N)) v => <[v := default [] (adj !! v) ++ [q_ptr e]]> adj)
        adj (quad_vertices e).

Definition removeElement (s : surface_mesh) (e : MQuadrangle) : surface_mesh :=
  let adj :=
    foldl (fun (adj : gmap N (list N)) v =>
             match adj !! v with
             | Some l => <[v := erase_first (q_ptr e) l]> adj
             | None => adj
             end)
          (sm_adj s) (quad_vertices e) in
  mkSurface (erase_first_quad (q_ptr e) (gf_quadrangles s)) (gf_mesh_vertices s) adj.

(** [removeVertex]; [onFace v] says that [v->onWhat()] is the [GFace] (the
    vertex lists of curves and corners are not part of [surface_mesh]). *)
Definition removeVertex (onFace : N -> bool) (s : surface_mesh) (v : N) : surface_mesh :=
  mkSurface (gf_quadrangles s)
            (if onFace v then erase_first v (gf_mesh_vertices s) else gf_mesh_vertices s)
            (delete v (sm_adj s)).

(** What [remeshFewQuads] hands back.  The function itself is not among the
    sources; by the comment at its call it leaves the [GFace] alone, and the
    new vertices and elements it allocates only enter the mesh below. *)
Record remesh_result : Type := mkRemesh {
  rr_status : Z;
  rr_newVertices : list N;
  rr_newElements : list MQuadrangle
}.

Definition is_duet (vs : Z) (bnd : list N) (quads : list MQuadrangle)
    (r : remesh_result) : bool :=
  (vs =? SURFACE)%Z && (length bnd =? 4)%nat && (length quads =? 2)%nat
  && negb (length (rr_newElements r) =? 2)%nat.

(** The body of the repair loop of [remeshSmallDefects] from the call of
    [remeshFewQuads] to the edition of the mesh: returns whether the
    replacement was applied, and the surface afterwards. *)
Definition remesh_attempt (onFace : N -> bool) (s : surface_mesh) (vs : Z)
    (bnd : list N) (bndIdealValence : list Z) (bndAllowedValenceRange : list (Z * Z))
    (inside : list N) (quads : list MQuadrangle) (r : remesh_result)
  : bool * surface_mesh :=
  if (rr_status r =? 0)%Z then
    (* Check if pattern is better (except if duet) *)
    let duet := is_duet vs bnd quads r in
    let energy_before :=
      irregularityEnergyOfCavity bnd bndIdealValence bndAllowedValenceRange inside quads in
    let energy_after :=
      irregularityEnergyOfCavity bnd bndIdealValence bndAllowedValenceRange
        (rr_newVertices r) (rr_newElements r) in
    if negb duet && (energy_before <=? energy_after)%Z
    then (false, s)   (* cancel remeshing: the new vertices and elements are deleted *)
    else
      (* Add the new elements to the current GFace *)
      let s1 := mkSurface (gf_quadrangles s ++ rr_newElements r)
                          (gf_mesh_vertices s ++ rr_newVertices r)
                          (foldl (fun adj nf => addToAdjacencyList nf adj)
                                 (sm_adj s) (rr_newElements r)) in
      (* Remove old quads and old vertices (strictly inside) *)
      let s2 := foldl removeElement s1 quads in
      let s3 := foldl (removeVertex onFace) s2 inside in
      (true, s3)
  else (false, s).

(** Three quads around the vertex 6 inside the hexagon 0..5, and the two
    quads that [remeshFewQuads] could propose in their place. *)
Definition hex_quads : list MQuadrangle :=
  [mkQuad 100 0 1 6 5; mkQuad 101 1 2 3 6; mkQuad 102 3 4 5 6].

Definition hex_surface : surface_mesh :=
  foldl (fun s q => mkSurface (gf_quadrangles s ++ [q]) (gf_mesh_vertices s)
                              (addToAdjacencyList q (sm_adj s)))
        (mkSurface [] [6] ∅) hex_quads.

Definition hex_replacement : remesh_result :=
  mkRemesh 0 [] [mkQuad 103 0 1 2 3; mkQuad 104 0 3 4 5].

Definition hex_bnd : list N := [0; 1; 2; 3; 4; 5].
Definition hex_inside : list N := [6].
Definition hex_range : list (Z * Z) := repeat (0%Z, 9%Z) 6.

Definition hex_attempt (bndIdealValence : list Z) : bool * surface_mesh :=
  remesh_attempt (fun _ => true) hex_surface SURFACE hex_bnd
    bndIdealValence hex_range hex_inside hex_quads hex_replacement.

(* ------------------------------------------------------------------ *)
(** ** smoothElementsWithLocalKernel: the optimization loop *)

Definition KS_ERROR : Z := 0.
Definition KS_OK : Z := 1.
Definition KS_REJECTED_PROJECTION : Z := 2.
Definition KS_REJECTED_QUALITY : Z := 3.

Section Smoothing.
(** Double precision numbers and points are kept abstract: [D] with the
    operations the loop uses, [P] for [std::array<double,3>], [dist a b] for
    [length(a - b)]. *)
Variable D : Type.
Variable D0 : D.
Variables Dadd Dmul Dmax : D -> D -> D.
Variable Dlt : D -> D -> bool.
Variable P : Type.
Variable dist : P -> P -> D.

(** What [kernelSmoothing] computes for vertex [v] from the current points:
    its status and the position [newPos]. *)
Variable kernel : bool -> N -> list P -> Z * P.

(** [kernelSmoothing] writes [points[v] = newPos] only when it returns
    [KS_OK]. *)
Definition kernelSmoothing (useStencilProjection : bool) (v : N) (points : list P)
  : Z * list P :=
  let '(status, newPos) := kernel useStencilProjection v points in
  if (status =? KS_OK)%Z then (status, vset points v newPos) else (status, points).

Record smooth_iter : Type := mkIter {
  it_running : list bool;
  it_points : list P;
  it_sum_dx : D;
  it_max_dx : D;
  it_count : N
}.

(** Body of [for (size_t i = 0; i < freeVertices.size(); ++i) if (running[i])]. *)
Definition smooth_vertex (useStencilProjection : bool) (local_dx_reduction : D)
    (localAvgSize : list D) (st : smooth_iter) (i : N) : smooth_iter :=
  match vget (it_running st) i, vget (it_points st) i, vget localAvgSize i with
  | Some true, Some center, Some avg =>
      let '(status, points) := kernelSmoothing useStencilProjection i (it_points st) in
      if (status =? KS_OK)%Z then
        match vget points i with
        | Some p =>
            let dx := dist center p in
            let max_dx := Dmax (it_max_dx st) dx in
            let sum_dx := Dadd (it_sum_dx st) dx in
            (* Lock the vertex *)
            if Dlt dx (Dmul local_dx_reduction avg)
            then mkIter (vset (it_running st) i false) points sum_dx max_dx (it_count st)
            else mkIter (it_running st) points sum_dx max_dx (it_count st + 1)
        | None => st
        end
      else mkIter (vset (it_running st) i false) points
                  (it_sum_dx st) (it_max_dx st) (it_count st)
  | _, _, _ => st
  end.

(** One pass of the outer loop over all free vertices. *)
Definition smooth_pass (n : nat) (useStencilProjection : bool) (local_dx_reduction : D)
    (localAvgSize : list D) (running : list bool) (points : list P) : smooth_iter :=
  foldl (smooth_vertex useStencilProjection local_dx_reduction localAvgSize)
        (mkIter running points D0 D0 0) (iota n).

(** The outer loop, [todo] iterations from [iter] on; returns the passes that
    were executed, in order. *)
Fixpoint smooth_loop (todo : nat) (n : nat) (projOnStencil : bool) (iterMaxOuterLoop : N)
    (global_dx_reduction local_dx_reduction : D) (localAvgSize : list D)
    (iter : N) (sum_dx0 : D) (running : list bool) (points : list P)
  : list smooth_iter :=
  match todo with
  | O => []
  | S k =>
      let useStencilProjection := projOnStencil && (iter <? wrap (iterMaxOuterLoop + (SIZE_MOD - 1)))%N in
      let st := smooth_pass n useStencilProjection local_dx_reduction localAvgSize
                  running points in
      if (iter =? 0)%N then
        st :: smooth_loop k n projOnStencil iterMaxOuterLoop global_dx_reduction
                local_dx_reduction localAvgSize (iter + 1)%N (it_sum_dx st)
                (it_running st) (it_points st)
      else if Dlt (it_sum_dx st) (Dmul global_dx_reduction sum_dx0) then [st]
      else if (it_count st =? 0)%N then [st]   (* all locked *)
      else
        st :: smooth_loop k n projOnStencil iterMaxOuterLoop global_dx_reduction
                local_dx_reduction localAvgSize (iter + 1)%N sum_dx0
                (it_running st) (it_points st)
  end.

(** The optimization loop of [smoothElementsWithLocalKernel], all vertices
    running at the start. *)
Definition smoothing_passes (n : nat) (projOnStencil : bool) (iterMaxOuterLoop : N)
    (global_dx_reduction local_dx_reduction : D) (localAvgSize : list D)
    (points : list P) : list smooth_iter :=
  smooth_loop (N.to_nat iterMaxOuterLoop) n projOnStencil iterMaxOuterLoop
    global_dx_reduction local_dx_reduction localAvgSize 0%N D0
    (repeat true n) points.

End Smoothing.

(** Every vertex locked in [(rs, ps)] is locked in [st], at the same place. *)
Definition frozen_from {D P : Type} (rs : list bool) (ps : list P)
    (st : smooth_iter D P) : Prop :=
  forall v, vget rs v = Some false ->
    vget (it_running D P st) v = Some false /\ vget (it_points D P st) v = vget ps v.

(** The two stopping rules a reader could expect of the optimization loop,
    stated on the passes it executed.  [clock k] is the time elapsed at the
    end of pass [k]. *)
Definition stops_at_deadline {D P : Type} (passes : list (smooth_iter D P))
    (clock : nat -> Z) (timeout : Z) : Prop :=
  forall k, (k < length passes)%nat -> (timeout < clock k)%Z ->
    (length passes <= S k)%nat.

Definition stops_below_threshold {D P : Type} (Dmul : D -> D -> D) (Dlt : D -> D -> bool)
    (global_dx_reduction : D) (passes : list (smooth_iter D P)) : Prop :=
  forall k st0 st, passes !! 0%nat = Some st0 -> passes !! k = Some st ->
    Dlt (it_sum_dx D P st) (Dmul global_dx_reduction (it_sum_dx D P st0)) = true ->
    length passes = S k.

(** A kernel on the integer line that moves every vertex by one unit. *)
Definition shift_kernel (_ : bool) (v : N) (points : list Z) : Z * Z :=
  (KS_OK, (default 0 (vget points v) + 1)%Z).

Definition shift_passes (iterMax : N) (global_dx_reduction : Z) : list (smooth_iter Z Z) :=
  smoothing_passes Z 0%Z Z.add Z.mul Z.max Z.ltb Z (fun a b => Z.abs (a - b))
    shift_kernel 1 false iterMax global_dx_reduction 0%Z [1%Z] [0%Z].

(** A kernel on the integer line that halves the coordinate of a vertex. *)
Definition halve_kernel (_ : bool) (v : N) (points : list Z) : Z * Z :=
  (KS_OK, (default 0 (vget points v) / 2)%Z).

Definition halve_passes (iterMax : N) : list (smooth_iter Z Z) :=
  smoothing_passes Z 0%Z Z.add Z.mul Z.max Z.ltb Z (fun a b => Z.abs (a - b))
    halve_kernel 1 false iterMax 0%Z 1%Z [4%Z] [8%Z].

(* ------------------------------------------------------------------ *)
(** * Further parts of the engine *)

(** ** Sorted vectors *)

(** Every element is below all the elements after it. *)
Fixpoint increasing {A : Type} (lt : A -> A -> bool) (l : list A) : Prop :=
  match l with
  | [] => True
  | x :: t => (forall y, In y t -> lt x y = true) /\ increasing lt t
  end.

(** Sorted, possibly with repetitions. *)
Fixpoint nondecreasing (l : list N) : Prop :=
  match l with
  | [] => True
  | x :: t => (forall y, In y t -> x <= y) /\ nondecreasing t
  end.

(** [std::set_intersection] and [std::set_difference] on sorted ranges, as
    the standard describes them: both ranges are scanned from the front, the
    smaller head is passed over, equal heads are passed over together. *)
Fixpoint set_intersection (s1 : list N) : list N -> list N :=
  match s1 with
  | [] => fun _ => []
  | x :: t1 =>
      fix scan (s2 : list N) : list N :=
        match s2 with
        | [] => []
        | y :: t2 =>
            if x <? y then set_intersection t1 s2
            else if y <? x then scan t2
            else x :: set_intersection t1 t2
        end
  end.

Fixpoint set_difference (s1 : list N) : list N -> list N :=
  match s1 with
  | [] => fun _ => []
  | x :: t1 =>
      fix scan (s2 : list N) : list N :=
        match s2 with
        | [] => x :: t1
        | y :: t2 =>
            if x <? y then x :: set_difference t1 s2
            else if y <? x then scan t2
            else set_difference t1 t2
        end
  end.

(** [intersection(v1, v2)] and [difference(v1, v2)] *)
Definition intersection (v1 v2 : list N) : list N :=
  set_intersection (sort_unique v1) (sort_unique v2).

Definition difference (v1 v2 : list N) : list N :=
  set_difference (sort_unique v1) (sort_unique v2).

(** [verticesStrictlyInsideCavity]: the vertices of the quads that are not on
    the boundary [bnd] (the function always returns true). *)
Definition verticesStrictlyInsideCavity (quads : list MQuadrangle) (bnd : list N)
  : list N :=
  let vert := flat_map quad_vertices quads in
  difference (sort_unique vert) bnd.

(* ------------------------------------------------------------------ *)
(** ** The layout that createMeshHalfEdges gives to the mesh *)

(** Half edge [i] belongs to face [f], has the given neighbours in the face
    and points to the vertex that stands for the [MVertex*] [p]. *)
Definition hedge_ok (vs : list Vertex) (hs : list HalfEdge) (i f nx pv p : N) : Prop :=
  exists h x, vget hs i = Some h /\ face h = f /\ next h = nx /\ prev h = pv
              /\ vget vs (vertex h) = Some x /\ v_ptr x = p.

(** Quad number [f] of the input owns the face [f] and the half edges
    [4f .. 4f+3]; half edge [4f+k] runs from corner [k] to corner [(k+1)%4]. *)
Definition quad_layout (vs : list Vertex) (hs : list HalfEdge) (fs : list Face)
    (f : N) (q : MQuadrangle) : Prop :=
  vget fs f = Some (mkFace (4 * f) (q_ptr q))
  /\ hedge_ok vs hs (4 * f) f (4 * f + 1) (4 * f + 3) (q_v1 q)
  /\ hedge_ok vs hs (4 * f + 1) f (4 * f + 2) (4 * f) (q_v2 q)
  /\ hedge_ok vs hs (4 * f + 2) f (4 * f + 3) (4 * f + 1) (q_v3 q)
  /\ hedge_ok vs hs (4 * f + 3) f (4 * f) (4 * f + 2) (q_v0 q).

(** Later steps keep the identity of the vertices, and a reference to a half
    edge once it is set. *)
Definition keeps_ptr (vs vs' : list Vertex) : Prop :=
  forall n x, vget vs n = Some x ->
    exists x', vget vs' n = Some x' /\ v_ptr x' = v_ptr x
               /\ (v_he x <> NO_ID -> v_he x' = v_he x).

(** Later steps keep every field of a half edge but [opposite]. *)
Definition keeps_fields (hs hs' : list HalfEdge) : Prop :=
  length hs' = length hs
  /\ forall i h, vget hs i = Some h ->
       exists h', vget hs' i = Some h' /\ prev h' = prev h /\ next h' = next h
                  /\ vertex h' = vertex h /\ face h' = face h.

(** The vertices while a quad is being added: [pending] are the ones that
    still wait for their half edge. *)
Definition vstate_ok (hs : list HalfEdge) (pending : N -> Prop)
    (st : list Vertex * gmap N N) : Prop :=
  forall n x, vget (fst st) n = Some x ->
    snd st !! v_ptr x = Some n /\ isSingularity x = false
    /\ (v_he x = NO_ID -> pending n)
    /\ (v_he x <> NO_ID -> exists h, vget hs (v_he x) = Some h /\ vertex h = n).

Record layout_inv (b : builder) (done : list MQuadrangle) : Prop := {
  li_build : build_inv b done;
  li_faces : vsize (b_faces b) = N.of_nat (length done);
  li_quads : forall f q, vget done f = Some q ->
               quad_layout (b_vertices b) (b_hedges b) (b_faces b) f q;
  li_vertex : vstate_ok (b_hedges b) (fun _ => False) (b_vertices b, b_mv2new b)
}.

(** [M.vertices[v].ptr] for the corners [v] of face [f]. *)
Definition face_vertex_ptrs (M : MeshHalfEdges) (f : N) : outcome (list N) :=
  vs ← face_vertices M f;
  ofold (fun (acc : list N) v => x ← vertex_get M v; Ret (acc ++ [v_ptr x])) vs [].

(** The layout of the finished mesh. *)
Definition mesh_layout (quadrangles : list MQuadrangle) (M : MeshHalfEdges) : Prop :=
  vsize (faces M) = N.of_nat (length quadrangles)
  /\ vsize (hedges M) = 4 * N.of_nat (length quadrangles)
  /\ (forall f q, vget quadrangles f = Some q ->
        quad_layout (vertices M) (hedges M) (faces M) f q)
  /\ (forall n x, vget (vertices M) n = Some x ->
        v_he x <> NO_ID
        /\ (exists h, vget (hedges M) (v_he x) = Some h /\ vertex h = n)
        /\ (forall m y, vget (vertices M) m = Some y -> v_ptr y = v_ptr x -> m = n)).

(** Half edge [i] is written in the slot of its class in [new2old]. *)
Definition recorded (old2new : list N) (T : list si2) (i : N) : Prop :=
  exists a b, vget T (slot_of old2new i) = Some (a, b) /\ (i = a \/ i = b).

(** ** What a flip does to the boundary *)

(** The change in the number of boundary half edges that a successful flip
    makes, by the configuration [(q1in, q2in, q3in)] of the absorbed quad;
    [None] where the number is recomputed (closing a hole) or where no flip
    is made. *)
Definition boundary_change (cfg : bool * bool * bool) : option Z :=
  match cfg with
  | (true, true, false) | (true, false, true) | (false, true, true) => Some (-2)%Z
  | (true, false, false) | (false, false, true) => Some 0%Z
  | (false, false, false) => Some 2%Z
  | (true, true, true) | (false, true, false) => None
  end.

(** Each half edge of the list starts at the vertex where the one before it
    ends. *)
Fixpoint chained (M : MeshHalfEdges) (l : list N) : Prop :=
  match l with
  | [] => True
  | a :: t =>
      match t with
      | [] => True
      | b :: _ => exists v, M_vertex M a 1 = Ret v /\ M_vertex M b 0 = Ret v
      end /\ chained M t
  end.

(* ------------------------------------------------------------------ *)
(** ** The adjacency map and the quads of the face *)

(** [adj[v]], empty when [v] is not a key. *)
Definition adj_list (adj : gmap N (list N)) (v : N) : list N := default [] (adj !! v).

(** How many corners of [q] are the vertex [v]. *)
Definition corner_times (q : MQuadrangle) (v : N) : nat :=
  List.count_occ N.eq_dec (quad_vertices q) v.

(** How many corners of the quads known as [p] are the vertex [v]. *)
Fixpoint corners_in (qs : list MQuadrangle) (p v : N) : nat :=
  match qs with
  | [] => 0
  | q :: t => ((if (q_ptr q =? p)%N then corner_times q v else 0) + corners_in t p v)%nat
  end.

(** The adjacency map lists, for every vertex, the quads of the face that
    have it as a corner, once per corner. *)
Definition adj_in_sync (qs : list MQuadrangle) (adj : gmap N (list N)) : Prop :=
  forall v p, List.count_occ N.eq_dec (adj_list adj v) p = corners_in qs p v.

(* ------------------------------------------------------------------ *)
(** ** Running vertices of a smoothing pass *)

(** Number of vertices below [k] that are still running. *)
Fixpoint running_below (running : list bool) (k : nat) : N :=
  match k with
  | O => 0
  | S k' => running_below running k'
            + (match vget running (N.of_nat k') with Some true => 1 | _ => 0 end)
  end.

(* ------------------------------------------------------------------ *)
(** ** rotateCanonical *)

Definition INT_MAX : Z := 2147483647.

(** [std::array<int,4>] *)
Definition array4 : Type := (Z * Z * Z * Z)%type.

Definition at4 (a : array4) (lv : N) : Z :=
  let '(a0, a1, a2, a3) := a in
  if lv =? 0 then a0 else if lv =? 1 then a1 else if lv =? 2 then a2 else a3.

(** [std::rotate(a.begin(), a.begin() + k, a.end())] for [k] in [0..3] *)
Definition rotate4 (a : array4) (k : N) : array4 :=
  let '(a0, a1, a2, a3) := a in
  if k =? 0 then a
  else if k =? 1 then (a1, a2, a3, a0)
  else if k =? 2 then (a2, a3, a0, a1)
  else (a3, a0, a1, a2).

Definition rotateCanonical (indices : array4) : array4 :=
  let '(_, minValLv) :=
    foldl (fun (st : Z * N) lv =>
             if (at4 indices lv <? fst st)%Z then (at4 indices lv, lv) else st)
          (INT_MAX, 0) [0; 1; 2; 3] in
  rotate4 indices minValLv.

(* ------------------------------------------------------------------ *)
(** ** What setCavity collects *)

(** The state of the first loop of [setCavity] is [(valenceInCavity, asings,
    irregular)]: [asings] holds flagged vertices only, [irregular] unflagged
    ones only. *)
Definition sc_sound (M : MeshHalfEdges) (st : list Z * list N * gset N) : Prop :=
  (forall v, In v (snd (fst st)) -> is_sing M v = Ret true)
  /\ (forall v, v ∈ snd st -> is_sing M v = Ret false).

(** The body of the loop over the half edges of one quad in [setCavity]. *)
Definition sc_corner (M : MeshHalfEdges) (G : Gardener)
    (st : list Z * list N * gset N) (he : N) : outcome (list Z * list N * gset N) :=
  let '(vic, asings, irr) := st in
  v2 ← he_vertex M he;
  vic ← vupd vic v2 (fun x => (x + 1)%Z);
  s ← is_sing M v2;
  if (s : bool) then Ret (vic, asings ++ [v2], irr)
  else (irr ← mark_irregular G irr v2; Ret (vic, asings, irr)).

(** Within one face: [asings] has kept the entries [as0] it started with and
    holds the flagged targets of the half edges [d] seen so far. *)
Definition sc_face (M : MeshHalfEdges) (as0 d : list N)
    (st : list Z * list N * gset N) : Prop :=
  (forall v, In v as0 -> In v (snd (fst st)))
  /\ sc_sound M st
  /\ (forall he v, In he d -> he_vertex M he = Ret v -> is_sing M v = Ret true ->
        In v (snd (fst st))).

(** Over the faces [done] seen so far. *)
Definition sc_faces (M : MeshHalfEdges) (done : list N)
    (st : list Z * list N * gset N) : Prop :=
  sc_sound M st
  /\ (forall f fhs he v, In f done -> face_halfedges M f = Ret fhs -> In he fhs ->
        he_vertex M he = Ret v -> is_sing M v = Ret true -> In v (snd (fst st))).

(** The second loop of [setCavity] splits the vertices [d] it has seen by
    the test [valenceInCavity[v] == valence[v]]. *)
Definition sc_split (vic val : list Z) (d : list N) (st : gset N * gset N) : Prop :=
  (forall v, v ∈ fst st ->
     In v d /\ exists a, vget vic v = Some a /\ vget val v = Some a)
  /\ (forall v, v ∈ snd st ->
        In v d /\ exists a b, vget vic v = Some a /\ vget val v = Some b /\ a <> b)
  /\ (forall v, In v d -> v ∈ fst st \/ v ∈ snd st).

(** What [markNewQuad] may change in the gardener: [valenceInCavity] keeps
    its size, [singsBdr] and [irregular] only grow, the rest stays. *)
Definition mnq_frame (G G' : Gardener) : Prop :=
  sings G' = sings G /\ valence G' = valence G /\ vOnBoundary G' = vOnBoundary G
  /\ current G' = current G /\ cavityTargetNbOfSides G' = cavityTargetNbOfSides G
  /\ lastCav G' = lastCav G /\ lastNbIrregular G' = lastNbIrregular G
  /\ length (valenceInCavity G') = length (valenceInCavity G)
  /\ singsBdr G ⊆ singsBdr G' /\ irregular G ⊆ irregular G'.

(* ------------------------------------------------------------------ *)
(** ** The constructor of the gardener *)

(** [v] is an end of a half edge without opposite. *)
Definition bdr_end (M : MeshHalfEdges) (v : N) : Prop :=
  exists he h, vget (hedges M) he = Some h /\ opposite h = NO_ID
    /\ (vertex h = v \/ M_vertex M he 0 = Ret v).

(** The state [(valence, vOnBoundary)] of the loop of the constructor. *)
Definition gn_inv (M : MeshHalfEdges) (st : list Z * list bool) : Prop :=
  length (fst st) = length (vertices M) /\ length (snd st) = length (vertices M)
  /\ (forall v x, vget (fst st) v = Some x -> (0 <= x)%Z)
  /\ (forall v, vget (snd st) v = Some true -> bdr_end M v).

(* ------------------------------------------------------------------ *)
(** ** buildCondensedStructure: the numbering of the vertices

    The first part of [buildCondensedStructure], up to the construction of
    the one rings, which only reads what is built here.  An [MElement*] is
    the list of its vertices; [points] receives one entry with every entry
    of [new2old] and is left out. *)

Definition U32_MOD : N := 2 ^ 32.

(** Conversion to [uint32_t] *)
Definition u32 (x : N) : N := x mod U32_MOD.
Arguments u32 : simpl never.

(** [l.resize(n)], new entries being [d] *)
Definition vresize {A : Type} (l : list A) (n : N) (d : A) : list A :=
  take (N.to_nat n) l ++ repeat d (N.to_nat n - length l).

Record Condensed : Type := mkCondensed {
  cs_old2new : gmap N N;           (* unordered_map<MVertex*,uint32_t> *)
  cs_new2old : list N;
  cs_quads : list (list N);        (* vector<array<uint32_t,4>> *)
  cs_v2q : list (list N)
}.

Definition Condensed_empty : Condensed := mkCondensed ∅ [] [] [].

(** [old2new[v] = vcount; new2old.push_back(v); vcount += 1;] *)
Definition number_free (st : Condensed * N) (v : N) : Condensed * N :=
  let c := fst st in
  let vcount := snd st in
  (mkCondensed (<[v := u32 vcount]> (cs_old2new c)) (cs_new2old c ++ [v])
     (cs_quads c) (cs_v2q c),
   wrap (vcount + 1)).

(** The body of [for (size_t lv = 0; lv < 4; ++lv)] for the corner [v] of
    element [f]. *)
Definition number_corner (f : N) (st : Condensed * N) (lv v : N)
  : outcome (Condensed * N) :=
  let c := fst st in
  let vcount := snd st in
  let '(c, vcount, nv) :=
    match cs_old2new c !! v with
    | None =>
        let nv := vcount in
        let v2q := if vsize (cs_v2q c) <=? nv
                   then vresize (cs_v2q c) (wrap (nv + 1)) []
                   else cs_v2q c in
        (mkCondensed (<[v := u32 vcount]> (cs_old2new c)) (cs_new2old c ++ [v])
           (cs_quads c) v2q,
         wrap (vcount + 1), nv)
    | Some n => (c, vcount, n)
    end in
  (* quads[f][lv] = nv; v2q[nv].push_back(f); *)
  row ← of_option (vget (cs_quads c) f);
  fl ← of_option (vget (cs_v2q c) nv);
  Ret (mkCondensed (cs_old2new c) (cs_new2old c)
         (vset (cs_quads c) f (vset row lv (u32 nv)))
         (vset (cs_v2q c) nv (fl ++ [u32 f])),
       vcount).

Definition number_quad (f : N) (q : list N) (st : Condensed * N)
  : outcome (Condensed * N) :=
  ofold (fun st lv => v ← of_option (vget q lv); number_corner f st lv v) (iota 4) st.

(** [for (size_t f = 0; f < elements.size(); ++f)], the elements from [f]
    on; an element that is not a quad ends the function with [false]. *)
Fixpoint number_elements (els : list (list N)) (f : N) (st : Condensed * N)
  : outcome (bool * Condensed) :=
  match els with
  | [] => Ret (true, fst st)
  | q :: rest =>
      if negb (vsize q =? 4) then Ret (false, fst st)
      else (st' ← number_quad f q st; number_elements rest (f + 1) st')
  end.

Definition condense_numbering (elements : list (list N)) (freeVertices : list N)
    (c0 : Condensed) : outcome (bool * Condensed) :=
  let st := foldl number_free (c0, 0) freeVertices in
  let c := fst st in
  let vcount := snd st in
  let c := mkCondensed (cs_old2new c) (cs_new2old c)
             (vresize (cs_quads c) (vsize elements) [0; 0; 0; 0])
             (vresize (cs_v2q c) vcount []) in
  number_elements elements 0 (c, vcount).

(** Every number handed out leads back to its vertex, every vertex listed
    has a number, and [v2q] has one entry per number. *)
Definition numbered (c : Condensed) (vcount : N) : Prop :=
  vcount = vsize (cs_new2old c)
  /\ (forall v n, cs_old2new c !! v = Some n -> vget (cs_new2old c) n = Some v)
  /\ (forall v, In v (cs_new2old c) -> exists n, cs_old2new c !! v = Some n).

(** The corner [lv] of element [f], the vertex [v], has been recorded. *)
Definition corner_recorded (c : Condensed) (f lv v : N) : Prop :=
  exists n row fl,
    cs_old2new c !! v = Some n
    /\ vget (cs_quads c) f = Some row /\ vget row lv = Some n
    /\ vget (cs_v2q c) n = Some fl /\ In f fl.

(** The state before corner [k] of element [F] is numbered: the free
    vertices come first in [new2old], no vertex is listed twice unless a
    free vertex is, [v2q] has one entry per number, and all corners before
    that one are recorded. *)
Definition numbered_quads (els : list (list N)) (free : list N) (F k : N)
    (c : Condensed) (vcount : N) : Prop :=
  numbered c vcount
  /\ vcount <= N.of_nat (length free) + 4 * F + k
  /\ (exists rest, cs_new2old c = free ++ rest)
  /\ (List.NoDup free -> List.NoDup (cs_new2old c))
  /\ vsize (cs_v2q c) = vcount
  /\ vsize (cs_quads c) = vsize els
  /\ (forall f row, vget (cs_quads c) f = Some row -> vsize row = 4)
  /\ (forall f lv q v, f < F \/ (f = F /\ lv < k) ->
        vget els f = Some q -> vget q lv = Some v -> corner_recorded c f lv v).

(* ------------------------------------------------------------------ *)
(** ** cavityIsRemeshable *)

(** The loop of [cavityIsRemeshable] over the sides of the boundary half
    edges, [npts[s]] counting the half edges of side [s]; [None] when the
    function returns false from the loop.  The counts stay below the size
    of [hes]. *)
Fixpoint count_sides (sides : list N) (npts : list N) : option (list N) :=
  match sides with
  | [] => Some npts
  | s :: rest =>
      if vsize npts <=? s then
        let npts := vresize npts (s + 1) 0 in
        if 5 <=? s then None (* keep cavity with less than 5 sides *)
        else count_sides rest (vset npts s (default 0 (vget npts s) + 1))
      else count_sides rest (vset npts s (default 0 (vget npts s) + 1))
  end.

(** [bool cavityIsRemeshable(const FCavity& cav, double& irregularityMeasure)],
    over the pattern test [patchIsRemeshableWithQuadPattern(Ncorners, npts, ..)]
    of the quad meshing tools.  Past the test of the sizes, [side[i]] for
    [i < hes.size()] runs over the whole of [side]. *)
Definition cavityIsRemeshable (patchIsRemeshableWithQuadPattern : N -> list N -> bool)
    (cav : FCavity) : bool :=
  if negb (vsize (hes cav) =? vsize (side cav)) then false
  else
    match count_sides (side cav) [] with
    | None => false
    | Some npts =>
        (* Nb edges -> nb points (including bdr) *)
        let npts := map (fun x => x + 1) npts in
        patchIsRemeshableWithQuadPattern (vsize npts) npts
    end.

(** How many entries of [sides] are [s]. *)
Definition on_side (sides : list N) (s : N) : N :=
  N.of_nat (List.count_occ N.eq_dec sides s).
(* ------------------------------------------------------------------ *)
(** * Properties *)

(** ** Tactics for code in the [outcome] monad *)

Ltac ounfold :=
  unfold mbind, outcome_bind, obind, mret, outcome_ret, of_option in *.

(** Case analysis on the first computation a hypothesis is stuck on. *)
Ltac ostep H :=
  match type of H with
  | context [match ?x with Ret _ => _ | Abort => _ | Undef => _ | Diverge => _ end] =>
      let E := fresh "E" in destruct x eqn:E; try discriminate H
  | context [match ?x with Some _ => _ | None => _ end] =>
      let E := fresh "E" in destruct x eqn:E; try discriminate H
  | context [if ?b then _ else _] =>
      let E := fresh "E" in destruct b eqn:E; try discriminate H
  | context [let '(_, _) := ?p in _] =>
      let E := fresh "E" in destruct p eqn:E
  end.

Ltac osteps H := repeat (ostep H; simpl in H).

(** ** Vectors *)

Lemma vsize_cons {A : Type} (x : A) (l : list A) : vsize (x :: l) = N.succ (vsize l).
Proof. unfold vsize. simpl length. apply Nat2N.inj_succ. Qed.

Lemma vget_lt {A : Type} (l : list A) (i : N) :
  i < vsize l -> exists x, vget l i = Some x.
Proof.
  revert i. induction l as [|y t IH]; intros i Hi.
  - unfold vsize in Hi; simpl in Hi; lia.
  - rewrite vsize_cons in Hi. simpl. destruct (N.eqb_spec i 0); [eauto|].
    apply IH. lia.
Qed.

Lemma vget_Some_lt {A : Type} (l : list A) (i : N) (x : A) :
  vget l i = Some x -> i < vsize l.
Proof.
  revert i. induction l as [|y t IH]; intros i H; simpl in H; [discriminate|].
  rewrite vsize_cons. destruct (N.eqb_spec i 0); [lia|].
  apply IH in H. lia.
Qed.

Lemma vget_ge {A : Type} (l : list A) (i : N) :
  vsize l <= i -> vget l i = None.
Proof.
  intros H. destruct (vget l i) eqn:E; [|reflexivity].
  apply vget_Some_lt in E. lia.
Qed.

Lemma vset_length {A : Type} (l : list A) (i : N) (x : A) :
  length (vset l i x) = length l.
Proof.
  revert i. induction l as [|y t IH]; intros i; simpl; [reflexivity|].
  destruct (i =? 0); simpl; [reflexivity|]. now rewrite IH.
Qed.

Lemma vsize_vset {A : Type} (l : list A) (i : N) (x : A) :
  vsize (vset l i x) = vsize l.
Proof. unfold vsize. now rewrite vset_length. Qed.

Lemma vget_vset_eq {A : Type} (l : list A) (i : N) (x : A) :
  i < vsize l -> vget (vset l i x) i = Some x.
Proof.
  revert i. induction l as [|y t IH]; intros i Hi.
  - unfold vsize in Hi; simpl in Hi; lia.
  - rewrite vsize_cons in Hi. simpl. destruct (N.eqb_spec i 0) as [->|Hn]; simpl.
    + reflexivity.
    + destruct (N.eqb_spec i 0); [contradiction|]. apply IH. lia.
Qed.

Lemma vget_vset_neq {A : Type} (l : list A) (i j : N) (x : A) :
  i <> j -> vget (vset l i x) j = vget l j.
Proof.
  revert i j. induction l as [|y t IH]; intros i j Hij; simpl; [reflexivity|].
  destruct (N.eqb_spec i 0) as [->|Hi]; simpl.
  - destruct (N.eqb_spec j 0); [congruence | reflexivity].
  - destruct (N.eqb_spec j 0); [reflexivity|]. apply IH. lia.
Qed.

Lemma vget_app_l {A : Type} (l1 l2 : list A) (i : N) :
  i < vsize l1 -> vget (l1 ++ l2) i = vget l1 i.
Proof.
  revert i. induction l1 as [|y t IH]; intros i Hi.
  - unfold vsize in Hi; simpl in Hi; lia.
  - rewrite vsize_cons in Hi. simpl. destruct (N.eqb_spec i 0); [reflexivity|].
    apply IH. lia.
Qed.

Lemma vget_app_r {A : Type} (l1 l2 : list A) (i : N) :
  vsize l1 <= i -> vget (l1 ++ l2) i = vget l2 (i - vsize l1).
Proof.
  revert i. induction l1 as [|y t IH]; intros i Hi.
  - unfold vsize; simpl. now rewrite N.sub_0_r.
  - rewrite vsize_cons in *. simpl. destruct (N.eqb_spec i 0); [lia|].
    rewrite IH by lia. f_equal. lia.
Qed.

Lemma vsize_app {A : Type} (l1 l2 : list A) : vsize (l1 ++ l2) = vsize l1 + vsize l2.
Proof. unfold vsize. rewrite length_app. lia. Qed.

(** ** growByFlip and the state of the cavity *)

Section FlipState.
Variable M : MeshHalfEdges.
Variable cav : FCavity.

Lemma flip_minus2_state info rej he_nv pos he_new e1 e2 r :
  flip_minus2 M cav info rej he_nv pos he_new e1 e2 = Ret r ->
  flip_ok cav (fi_nq info) r.
Proof.
  unfold flip_minus2, oand, oor. ounfold. intros H.
  osteps H; inversion H; subst; simpl; auto.
Qed.

Lemma flip_same_state info rej nv nvIn p1 a1 p2 a2 r :
  flip_same M cav info rej nv nvIn p1 a1 p2 a2 = Ret r ->
  flip_ok cav (fi_nq info) r.
Proof.
  unfold flip_same, oand. ounfold. intros H.
  osteps H; inversion H; subst; simpl; auto.
Qed.

Lemma flip_plus2_state info rej i he0 he1 he2 he3 h1 h2 r :
  flip_plus2 M cav info rej i he0 he1 he2 he3 h1 h2 = Ret r ->
  flip_ok cav (fi_nq info) r.
Proof.
  unfold flip_plus2, oand, oor. ounfold. intros H.
  osteps H; inversion H; subst; simpl; auto.
Qed.

Lemma flip_close_state info rej h0 a b c d r :
  flip_close M cav info rej h0 a b c d = Ret r ->
  fst (fst r) = true ->
  fi_nq (snd r) = fi_nq info /\ quads (snd (fst r)) = {[ fi_nq info ]} ∪ quads cav.
Proof.
  unfold flip_close, oand, oor. ounfold. intros H.
  osteps H; inversion H; subst; simpl; auto; discriminate.
Qed.

End FlipState.

Lemma growByFlip_state_cases M cav i info rej b cav' info' :
  growByFlip M cav i info rej = Ret (b, cav', info') ->
  if b then candidate_quad M cav i = Ret (fi_nq info')
            /\ quads cav' = {[ fi_nq info' ]} ∪ quads cav
  else closing_hole M cav i \/ cav' = cav.
Proof.
  unfold growByFlip, closing_hole, flip_config, candidate_quad.
  destruct (vget (hes cav) i) as [he0_op|] eqn:Ei.
  2:{ intros H; inversion H; subst. right; reflexivity. }
  ounfold. unfold M_opposite, he_face. ounfold.
  destruct (he_get M he0_op) as [x| | |] eqn:E0; try discriminate. simpl.
  destruct (opposite x =? NO_ID) eqn:En.
  { intros H; inversion H; subst. right; reflexivity. }
  destruct (he_get M (opposite x)) as [h0| | |] eqn:Eh0; try discriminate.
  destruct (he_get M (next h0)) as [h1| | |] eqn:Eh1; try discriminate.
  destruct (he_get M (next h1)) as [h2| | |] eqn:Eh2; try discriminate.
  destruct (he_get M (next h2)) as [h3| | |] eqn:Eh3; try discriminate.
  destruct (face_or_none M (opposite h1)) as [q1| | |] eqn:Eq1; try discriminate.
  destruct (face_or_none M (opposite h2)) as [q2| | |] eqn:Eq2; try discriminate.
  destruct (face_or_none M (opposite h3)) as [q3| | |] eqn:Eq3; try discriminate.
  destruct (qin cav q1), (qin cav q2), (qin cav q3); simpl; intros H.
  all: try (apply flip_minus2_state in H; simpl in H; destruct b;
            [destruct H as [-> ->]; auto | right; exact H]).
  all: try (apply flip_same_state in H; simpl in H; destruct b;
            [destruct H as [-> ->]; auto | right; exact H]).
  all: try (apply flip_plus2_state in H; simpl in H; destruct b;
            [destruct H as [-> ->]; auto | right; exact H]).
  - destruct b; [| left; reflexivity].
    apply flip_close_state in H; [|reflexivity]. simpl in H.
    destruct H as [-> ->]. auto.
  - inversion H; subst. right; reflexivity.
Qed.

(** C4. A call of [growByFlip] that returns false in a configuration other
    than "closing a hole" leaves the cavity ([hes], [side], [quads]) exactly
    as it was; a call that returns true has added the index of the absorbed
    quad, the one across [hes[i]], to [quads]. *)
Theorem growByFlip_rejection_keeps_state
    (M : MeshHalfEdges) (cav : FCavity) (i : N) (info : FlipInfo) (rej : bool)
    (b : bool) (cav' : FCavity) (info' : FlipInfo) :
  growByFlip M cav i info rej = Ret (b, cav', info') ->
  (b = false -> ~ closing_hole M cav i ->
     hes cav' = hes cav /\ quads cav' = quads cav /\ cav' = cav)
  /\ (b = true ->
        candidate_quad M cav i = Ret (fi_nq info')
        /\ fi_nq info' ∈ quads cav'
        /\ quads cav' = {[ fi_nq info' ]} ∪ quads cav).
Proof.
  intros H. apply growByFlip_state_cases in H. split; intros ->.
  - intros Hn. destruct H as [H|H]; [contradiction|]. now subst.
  - destruct H as [H1 H2]. split; [exact H1|].
    split; [rewrite H2; apply elem_of_union_l, elem_of_singleton_2; reflexivity | exact H2].
Qed.

Lemma growByFlip_rejection_keeps_state_witness :
  (growByFlip strip12_sing (mkCavity [0; 1; 2; 3] [] {[ 0 ]}) 0 FlipInfo_init true
     = Ret (false, mkCavity [0; 1; 2; 3] [] {[ 0 ]}, FlipInfo_init)
   /\ growByFlip grid33 (mkCavity [16; 17; 18; 19] [] {[ 4 ]}) 0 FlipInfo_init true
     = Ret (true, mkCavity [7; 4; 5; 17; 18; 19] [] ({[ 1 ]} ∪ {[ 4 ]}),
            mkFlipInfo 16 1 NO_NVS))
  /\ (mkCavity [0; 1; 2; 3] [] {[ 0 ]} = mkCavity [0; 1; 2; 3] [] {[ 0 ]}
      /\ candidate_quad grid33 (mkCavity [16; 17; 18; 19] [] {[ 4 ]}) 0 = Ret 1).
Proof.
  assert (H1 : growByFlip strip12_sing (mkCavity [0; 1; 2; 3] [] {[ 0 ]}) 0
                 FlipInfo_init true
               = Ret (false, mkCavity [0; 1; 2; 3] [] {[ 0 ]}, FlipInfo_init))
    by (vm_compute; reflexivity).
  assert (H2 : growByFlip grid33 (mkCavity [16; 17; 18; 19] [] {[ 4 ]}) 0
                 FlipInfo_init true
               = Ret (true, mkCavity [7; 4; 5; 17; 18; 19] [] ({[ 1 ]} ∪ {[ 4 ]}),
                      mkFlipInfo 16 1 NO_NVS))
    by (vm_compute; reflexivity).
  split; [split; [exact H1 | exact H2]|].
  split.
  - destruct (growByFlip_rejection_keeps_state _ _ _ _ _ _ _ _ H1) as [Hr _].
    apply Hr; [reflexivity|]. unfold closing_hole. vm_compute. discriminate.
  - destruct (growByFlip_rejection_keeps_state _ _ _ _ _ _ _ _ H2) as [_ Ha].
    apply Ha. reflexivity.
Defined.

(** ** The closing-a-hole branch and singular corners *)


(** ** vertexFaceValence on the 3 x 3 grid *)

(** C5. On the hand-built 3 x 3 grid the four interior vertices report
    valence 4 and [onBoundary = false], but the non-corner boundary vertex
    (2,0) (MVertex 2, index 4) reports valence 1 where it has two incident
    quads, which [vertexFaces] lists: the second loop of [vertexFaceValence]
    goes on with [opposite(next(he))] from the boundary half edge and turns
    around the far end of that half edge. *)
Theorem vertexFaceValence_grid33_boundary :
  fst (createMeshHalfEdges (grid 3 3) []) = 0%Z
  /\ map (fun p => vertexFaceValence grid33 (index_of_ptr (vertices grid33) p))
         [5; 6; 9; 10]
     = [Ret (4%Z, false); Ret (4%Z, false); Ret (4%Z, false); Ret (4%Z, false)]
  /\ index_of_ptr (vertices grid33) 2 = 4
  /\ vertexFaces grid33 None 4 = Ret [2; 1]
  /\ vertexFaceValence grid33 4 = Ret (1%Z, true)
  /\ map (fun p => vertexFaceValence grid33 (index_of_ptr (vertices grid33) p))
         [1; 2; 4; 7; 8; 11; 13; 14]
     = [Ret (2%Z, true); Ret (1%Z, true); Ret (1%Z, true); Ret (2%Z, true);
        Ret (2%Z, true); Ret (1%Z, true); Ret (1%Z, true); Ret (2%Z, true)].
Proof. repeat split; vm_compute; reflexivity. Qed.

(** ** setCavity *)

Lemma ofold_ret {S A : Type} (P : S -> Prop) (f : S -> A -> outcome S) (l : list A) :
  (forall s a, In a l -> P s -> exists s', f s a = Ret s' /\ P s') ->
  forall s, P s -> exists s', ofold f l s = Ret s' /\ P s'.
Proof.
  induction l as [|a t IH]; intros Hf s Hs; simpl.
  - eauto.
  - destruct (Hf s a (or_introl eq_refl) Hs) as (s1 & E1 & P1).
    ounfold. rewrite E1. apply IH; [|exact P1].
    intros s0 a0 Hin. apply Hf. now right.
Qed.

Lemma sort_insert_In {A : Type} (lt : A -> A -> bool) (a x : A) (l : list A) :
  In x (sort_insert lt a l) -> x = a \/ In x l.
Proof.
  induction l as [|y t IH]; simpl.
  - intros [H|[]]; auto.
  - destruct (lt a y); simpl; intros [H|H]; auto.
    destruct (IH H); auto.
Qed.

Lemma std_sort_In {A : Type} (lt : A -> A -> bool) (x : A) (l : list A) :
  In x (std_sort lt l) -> In x l.
Proof.
  unfold std_sort. induction l as [|y t IH]; simpl; [auto|].
  intros H. apply sort_insert_In in H. destruct H; auto.
Qed.

Lemma unique_from_In {A : Type} (eqb : A -> A -> bool) (x p : A) (l : list A) :
  In x (unique_from eqb p l) -> In x l.
Proof.
  revert p. induction l as [|y t IH]; intros p; simpl; [auto|].
  destruct (eqb p y); simpl.
  - intros H. right. eapply IH; eauto.
  - intros [H|H]; auto. right. eapply IH; eauto.
Qed.

Lemma std_unique_In {A : Type} (eqb : A -> A -> bool) (x : A) (l : list A) :
  In x (std_unique eqb l) -> In x l.
Proof.
  destruct l as [|y t]; simpl; [auto|].
  intros [H|H]; auto. right. eapply unique_from_In; eauto.
Qed.

Lemma sort_unique_In (x : N) (l : list N) : In x (sort_unique l) -> In x l.
Proof. unfold sort_unique. intros H. eapply std_sort_In, std_unique_In, H. Qed.

Lemma vupd_ret {A : Type} (l : list A) (i : N) (f : A -> A) :
  i < vsize l -> exists l', vupd l i f = Ret l' /\ length l' = length l.
Proof.
  intros Hi. unfold vupd. destruct (vget_lt l i Hi) as [x ->].
  eexists; split; [reflexivity | apply vset_length].
Qed.

Section SetCavity.
Variable M : MeshHalfEdges.
Variable G : Gardener.

Lemma mark_irregular_ret irr v :
  vertex_fits M G v = true -> exists irr', mark_irregular G irr v = Ret irr'.
Proof.
  unfold vertex_fits. rewrite !andb_true_iff, !N.ltb_lt. intros [[[H1 H2] H3] H4].
  unfold mark_irregular.
  destruct (vget_lt _ _ H3) as [b ->]. destruct (vget_lt _ _ H2) as [x ->].
  simpl. destruct b; simpl; eauto.
Qed.

Lemma setCavity_corner_ret st he v :
  he_vertex M he = Ret v -> vertex_fits M G v = true -> sc_inv G st ->
  exists st',
    (let '(vic, asings, irr) := st in
     v2 ← he_vertex M he;
     vic ← vupd vic v2 (fun x => (x + 1)%Z);
     s ← is_sing M v2;
     if (s : bool) then Ret (vic, asings ++ [v2], irr)
     else (irr ← mark_irregular G irr v2; Ret (vic, asings, irr))) = Ret st'
    /\ sc_inv G st'.
Proof.
  intros Hv Hf [Hl Ha]. destruct st as [[vic asings] irr]. simpl in Hl, Ha.
  pose proof Hf as Hf'. unfold vertex_fits in Hf'.
  rewrite !andb_true_iff, !N.ltb_lt in Hf'. destruct Hf' as [[[H1 H2] H3] H4].
  rewrite Hv. simpl.
  destruct (vupd_ret vic v (fun x => (x + 1)%Z)) as (vic' & -> & Hl').
  { unfold vsize in *. rewrite Hl. exact H4. }
  simpl. unfold is_sing, vertex_get.
  destruct (vget_lt _ _ H1) as [x ->]. simpl.
  destruct (isSingularity x).
  - eexists; split; [reflexivity|]. split; simpl; [congruence|].
    apply Forall_app; split; [exact Ha|]. constructor; [auto|constructor].
  - destruct (mark_irregular_ret irr v Hf) as [irr' ->]. simpl.
    eexists; split; [reflexivity|]. split; simpl; [congruence|exact Ha].
Qed.


Lemma setCavity_face_ret st f :
  face_fits M G f = true -> sc_inv G st ->
  exists st',
    (fhs ← face_halfedges M f;
     ofold (fun (st : list Z * list N * gset N) he =>
              let '(vic, asings, irr) := st in
              v2 ← he_vertex M he;
              vic ← vupd vic v2 (fun x => (x + 1)%Z);
              s ← is_sing M v2;
              if (s : bool) then Ret (vic, asings ++ [v2], irr)
              else (irr ← mark_irregular G irr v2; Ret (vic, asings, irr)))
           fhs st) = Ret st'
    /\ sc_inv G st'.
Proof.
  unfold face_fits. destruct (face_halfedges M f) as [fhs| | |]; try discriminate.
  intros Hall Hst. simpl. rewrite forallb_forall in Hall.
  apply (ofold_ret (sc_inv G)); [|exact Hst].
  intros s he Hin Hs. specialize (Hall he Hin).
  assert (Hv : exists v, he_vertex M he = Ret v /\ vertex_fits M G v = true).
  { destruct (he_vertex M he) as [v| | |]; try discriminate. eauto. }
  destruct Hv as (v & Ev & Hv).
  eapply setCavity_corner_ret; eauto.
Qed.

Lemma setCavity_sings_ret (vic : list Z) (asings : list N) :
  length vic = length (valenceInCavity G) ->
  Forall (fun v => v < vsize (valenceInCavity G) /\ v < vsize (valence G)) asings ->
  exists r,
    ofold (fun (st : gset N * gset N) v =>
             a ← of_option (vget vic v);
             b ← of_option (vget (valence G) v);
             if (a =? b)%Z then Ret ({[ v ]} ∪ fst st, snd st)
             else Ret (fst st, {[ v ]} ∪ snd st))
          (sort_unique asings) (∅, ∅) = Ret r.
Proof.
  intros Hl Ha.
  destruct (ofold_ret (fun _ => True)
              (fun (st : gset N * gset N) v =>
                 a ← of_option (vget vic v);
                 b ← of_option (vget (valence G) v);
                 if (a =? b)%Z then Ret ({[ v ]} ∪ fst st, snd st)
                 else Ret (fst st, {[ v ]} ∪ snd st))
              (sort_unique asings)) with (s := ((∅, ∅) : gset N * gset N))
    as (r & Hr & _); [| exact I | eauto].
  intros s v Hin _. apply sort_unique_In in Hin.
  rewrite List.Forall_forall in Ha. destruct (Ha v Hin) as [H1 H2].
  destruct (vget_lt vic v) as [a ->]; [unfold vsize in *; rewrite Hl; exact H1|].
  destruct (vget_lt _ _ H2) as [b ->]. simpl.
  destruct (a =? b)%Z; eauto.
Qed.

End SetCavity.

(** C7. For a cavity with at least one quad and one boundary half edge,
    whose faces lie within the mesh and the gardener's vectors, [setCavity]
    returns true and sets [cavityTargetNbOfSides] to 3 for 3 faces, to 4 for
    1 or 4 faces, to 5 for 5 faces and to 0 for any other number of faces. *)
Theorem setCavity_target_sides (M : MeshHalfEdges) (G : Gardener) (cav : FCavity) :
  size (quads cav) <> 0%nat -> hes cav <> [] -> cavity_fits M G cav = true ->
  exists G',
    setCavity M G cav = Ret (true, G')
    /\ current G' = Some cav
    /\ (size (quads cav) = 3%nat -> cavityTargetNbOfSides G' = 3%Z)
    /\ (size (quads cav) = 1%nat \/ size (quads cav) = 4%nat ->
        cavityTargetNbOfSides G' = 4%Z)
    /\ (size (quads cav) = 5%nat -> cavityTargetNbOfSides G' = 5%Z)
    /\ (size (quads cav) <> 1%nat -> size (quads cav) <> 3%nat ->
        size (quads cav) <> 4%nat -> size (quads cav) <> 5%nat ->
        cavityTargetNbOfSides G' = 0%Z).
Proof.
  intros Hq Hh Hfit. unfold setCavity.
  destruct (Nat.eqb_spec (size (quads cav)) 0); [contradiction|].
  destruct (hes cav) as [|h0 ht] eqn:Eh; [contradiction|]. simpl orb. cbv iota.
  unfold cavity_fits in Hfit. rewrite forallb_forall in Hfit.
  destruct (ofold_ret (sc_inv G)
              (fun (st : list Z * list N * gset N) i =>
                 fhs ← face_halfedges M i;
                 ofold (fun (st : list Z * list N * gset N) he =>
                          let '(vic, asings, irr) := st in
                          v2 ← he_vertex M he;
                          vic ← vupd vic v2 (fun x => (x + 1)%Z);
                          s ← is_sing M v2;
                          if (s : bool) then Ret (vic, asings ++ [v2], irr)
                          else (irr ← mark_irregular G irr v2; Ret (vic, asings, irr)))
                       fhs st)
              (elements (quads cav)))
    with (s := (repeat 0%Z (length (valenceInCavity G)), @nil N, (∅ : gset N)))
    as (st & Est & Hl & Ha).
  { intros s f Hin Hs. apply setCavity_face_ret; auto. }
  { split; simpl; [apply repeat_length | constructor]. }
  rewrite Est. destruct st as [[vic asings] irr]. simpl in Hl, Ha. simpl.
  destruct (setCavity_sings_ret G vic asings Hl Ha) as ([sg sgb] & ->). simpl.
  eexists. split; [reflexivity|]. simpl. unfold target_of_size.
  split; [reflexivity|].
  repeat split.
  - intros ->. reflexivity.
  - intros [-> | ->]; reflexivity.
  - intros ->. reflexivity.
  - intros H1 H3 H4 H5.
    destruct (Nat.eqb_spec (size (quads cav)) 3); [contradiction|].
    destruct (Nat.eqb_spec (size (quads cav)) 4); [contradiction|].
    destruct (Nat.eqb_spec (size (quads cav)) 1); [contradiction|].
    destruct (Nat.eqb_spec (size (quads cav)) 5); [contradiction|]. reflexivity.
Qed.

Lemma setCavity_target_sides_witness :
  cavity_fits grid33 gardener33 (mkCavity [16; 17; 18; 19] [] {[ 4 ]}) = true
  /\ exists G',
       setCavity grid33 gardener33 (mkCavity [16; 17; 18; 19] [] {[ 4 ]}) = Ret (true, G')
       /\ cavityTargetNbOfSides G' = 4%Z.
Proof.
  split; [vm_compute; reflexivity|].
  destruct (setCavity_target_sides grid33 gardener33
              (mkCavity [16; 17; 18; 19] [] {[ 4 ]}))
    as (G' & E & _ & _ & H4 & _).
  - vm_compute. discriminate.
  - discriminate.
  - vm_compute. reflexivity.
  - exists G'. split; [exact E|]. apply H4. left. vm_compute. reflexivity.
Defined.

(** ** Singularities and markNewQuad *)


(** ** The fixed buffer of valenceInsideQuads / valenceOutsideQuads *)

Section Buffer.
Variable M : MeshHalfEdges.
Variable c : N.

Lemma vf_turn_grows fuel start he buf buf' bdr :
  vf_turn fuel M None start he buf = Ret (buf', bdr) -> vsize buf <= vsize buf'.
Proof.
  revert he buf. induction fuel as [|k IH]; intros he buf H; simpl in H; [discriminate|].
  ounfold. unfold buf_write in H.
  destruct (M_next M he) as [nx| | |]; try discriminate.
  destruct (M_opposite M nx) as [cand| | |]; try discriminate.
  destruct (cand =? NO_ID); [inversion H; subst; lia|].
  destruct (he_face M cand) as [f| | |]; try discriminate.
  destruct (cand =? start).
  - inversion H; subst. rewrite vsize_app. lia.
  - apply IH in H. rewrite vsize_app in H. lia.
Qed.

Lemma vf_turn_cap fuel start he buf buf' bdr :
  vf_turn fuel M None start he buf = Ret (buf', bdr) ->
  vsize buf <= c ->
  vf_turn fuel M (Some c) start he buf
  = if vsize buf' <=? c then Ret (buf', bdr) else Undef.
Proof.
  revert he buf. induction fuel as [|k IH]; intros he buf H Hb; simpl in H; [discriminate|].
  simpl. ounfold. unfold buf_write in *.
  destruct (M_next M he) as [nx| | |]; try discriminate.
  destruct (M_opposite M nx) as [cand| | |]; try discriminate.
  destruct (cand =? NO_ID).
  { inversion H; subst. destruct (N.leb_spec (vsize buf') c); [reflexivity|lia]. }
  destruct (he_face M cand) as [f| | |]; try discriminate.
  destruct (N.ltb_spec (vsize buf) c) as [Hlt|Hge].
  - destruct (cand =? start).
    + inversion H; subst. rewrite vsize_app.
      destruct (N.leb_spec (vsize buf + vsize [f]) c); [reflexivity|].
      unfold vsize in *; simpl in *; lia.
    + apply IH; [exact H|]. rewrite vsize_app. unfold vsize in *; simpl in *; lia.
  - assert (vsize (buf ++ [f]) <= vsize buf').
    { destruct (cand =? start); [inversion H; subst; lia|].
      eapply vf_turn_grows; eauto. }
    rewrite vsize_app in H0.
    destruct (N.leb_spec (vsize buf') c); [unfold vsize in *; simpl in *; lia|reflexivity].
Qed.

Lemma vf_unroll_grows fuel start he buf buf' :
  vf_unroll fuel M None start he buf = Ret buf' -> vsize buf < vsize buf'.
Proof.
  revert he buf. induction fuel as [|k IH]; intros he buf H; simpl in H; [discriminate|].
  ounfold. unfold buf_write in H.
  destruct (he_face M he) as [f| | |]; try discriminate.
  destruct (M_prev M he) as [pv| | |]; try discriminate.
  destruct (M_opposite M pv) as [he'| | |]; try discriminate.
  destruct (negb (he' =? start) && negb (he' =? NO_ID)).
  - apply IH in H. rewrite vsize_app in H. lia.
  - inversion H; subst. rewrite vsize_app. unfold vsize; simpl; lia.
Qed.

Lemma vf_unroll_cap fuel start he buf buf' :
  vf_unroll fuel M None start he buf = Ret buf' ->
  vsize buf <= c ->
  vf_unroll fuel M (Some c) start he buf
  = if vsize buf' <=? c then Ret buf' else Undef.
Proof.
  revert he buf. induction fuel as [|k IH]; intros he buf H Hb; simpl in H; [discriminate|].
  simpl. ounfold. unfold buf_write in *.
  destruct (he_face M he) as [f| | |]; try discriminate.
  destruct (N.ltb_spec (vsize buf) c) as [Hlt|Hge].
  - destruct (M_prev M he) as [pv| | |]; try discriminate.
    destruct (M_opposite M pv) as [he'| | |]; try discriminate.
    destruct (negb (he' =? start) && negb (he' =? NO_ID)).
    + apply IH; [exact H|]. rewrite vsize_app. unfold vsize in *; simpl in *; lia.
    + inversion H; subst. rewrite vsize_app.
      destruct (N.leb_spec (vsize buf + vsize [f]) c); [reflexivity|].
      unfold vsize in *; simpl in *; lia.
  - assert (vsize (buf ++ [f]) <= vsize buf').
    { destruct (M_prev M he) as [pv| | |]; try discriminate.
      destruct (M_opposite M pv) as [he'| | |]; try discriminate.
      destruct (negb (he' =? start) && negb (he' =? NO_ID)).
      - apply vf_unroll_grows in H. lia.
      - inversion H; subst. lia. }
    rewrite vsize_app in H0.
    destruct (N.leb_spec (vsize buf') c); [unfold vsize in *; simpl in *; lia|reflexivity].
Qed.

(** The walk into a buffer of [c] entries, from the walk into a vector. *)
Lemma vertexFaces_cap v buf1 fs :
  first_turn_faces M v = Ret buf1 ->
  vertexFaces M None v = Ret fs ->
  vertexFaces M (Some c) v
  = if (vsize buf1 <=? c) && (vsize fs <=? c) then Ret fs else Undef.
Proof.
  unfold first_turn_faces, vertexFaces. ounfold.
  destruct (vertex_get M v) as [x| | |]; try discriminate.
  destruct (vf_turn (walk_fuel M) M None (v_he x) (v_he x) [])
    as [[buf bdr]| | |] eqn:E1; try discriminate.
  intros H; inversion H; subst buf1; clear H. intros H2.
  rewrite (vf_turn_cap _ _ _ _ _ _ E1) by (unfold vsize; simpl; lia).
  destruct (N.leb_spec (vsize buf) c) as [Hb|Hb]; [|reflexivity].
  cbv beta iota. rewrite andb_true_l.
  destruct (bdr =? NO_ID).
  - inversion H2; subst. destruct (N.leb_spec (vsize fs) c); [reflexivity|lia].
  - rewrite (vf_unroll_cap _ _ _ _ _ H2) by (unfold vsize; simpl; lia). reflexivity.
Qed.

End Buffer.




(** ** Consistency of the half edges built by createMeshHalfEdges *)

Lemma wrap_small x : x < SIZE_MOD -> wrap x = x.
Proof. intros H. unfold wrap. now apply N.mod_small. Qed.

Lemma vget_0 {A} (x : A) l : vget (x :: l) 0 = Some x.
Proof. reflexivity. Qed.

Lemma vget_block (hs : list HalfEdge) (a b c d : HalfEdge) (k : N) :
  k < 4 ->
  vget (hs ++ [a; b; c; d]) (vsize hs + k)
  = Some (if k =? 0 then a else if k =? 1 then b else if k =? 2 then c else d).
Proof.
  intros Hk. rewrite vget_app_r by lia.
  replace (vsize hs + k - vsize hs) with k by lia.
  assert (k = 0 \/ k = 1 \/ k = 2 \/ k = 3) as [->|[->|[->| ->]]] by lia; reflexivity.
Qed.

Lemma vget_block0 {A} (hs : list A) (a : A) (l : list A) :
  vget (hs ++ a :: l) (vsize hs) = Some a.
Proof. rewrite vget_app_r by lia. now rewrite N.sub_diag. Qed.

Lemma np_consistent_block (hs : list HalfEdge) (f t0 t1 t2 t3 : N) :
  vsize hs + 4 < SIZE_MOD ->
  np_consistent hs ->
  np_consistent (hs ++ [new_hedge (vsize hs) f 0 t0; new_hedge (vsize hs) f 1 t1;
                        new_hedge (vsize hs) f 2 t2; new_hedge (vsize hs) f 3 t3]).
Proof.
  intros Hsz Hnp i h Hi.
  set (blk := [new_hedge (vsize hs) f 0 t0; new_hedge (vsize hs) f 1 t1;
               new_hedge (vsize hs) f 2 t2; new_hedge (vsize hs) f 3 t3]) in *.
  destruct (N.lt_ge_cases i (vsize hs)) as [Hlt|Hge].
  - rewrite vget_app_l in Hi by exact Hlt.
    destruct (Hnp i h Hi) as [(h1 & E1 & P1) (h2 & E2 & P2)].
    split; [exists h1 | exists h2]; split; auto.
    + rewrite vget_app_l; [exact E1 | eapply vget_Some_lt; eauto].
    + rewrite vget_app_l; [exact E2 | eapply vget_Some_lt; eauto].
  - assert (Hi4 : i < vsize hs + 4).
    { apply vget_Some_lt in Hi. rewrite vsize_app in Hi. unfold blk, vsize in *.
      simpl in *. lia. }
    set (k := i - vsize hs). assert (Hk : k < 4) by (unfold k; lia).
    assert (Ei : i = vsize hs + k) by (unfold k; lia).
    rewrite Ei in Hi. unfold blk in Hi. rewrite vget_block in Hi by exact Hk.
    assert (k = 0 \/ k = 1 \/ k = 2 \/ k = 3) as Hc by lia.
    unfold blk.
    destruct Hc as [Hc|[Hc|[Hc|Hc]]]; rewrite Hc in *; simpl in Hi;
      inversion Hi; subst h; unfold new_hedge; simpl;
      rewrite ?wrap_small by lia.
    + split; eexists.
      * replace (vsize hs + 0 + 1) with (vsize hs + 1) by lia.
        rewrite (vget_block hs _ _ _ _ 1) by lia. simpl. split; [reflexivity|].
        unfold new_hedge; simpl. rewrite ?wrap_small by lia; lia.
      * rewrite (vget_block hs _ _ _ _ 3) by lia. simpl. split; [reflexivity|].
        unfold new_hedge; simpl. rewrite ?wrap_small by lia; lia.
    + split; eexists.
      * replace (vsize hs + 1 + 1) with (vsize hs + 2) by lia.
        rewrite (vget_block hs _ _ _ _ 2) by lia. simpl. split; [reflexivity|].
        unfold new_hedge; simpl. rewrite ?wrap_small by lia; lia.
      * replace (vsize hs + 1 - 1) with (vsize hs + 0) by lia.
        rewrite (vget_block hs _ _ _ _ 0) by lia. simpl. split; [reflexivity|].
        unfold new_hedge; simpl. rewrite ?wrap_small by lia; lia.
    + split; eexists.
      * replace (vsize hs + 2 + 1) with (vsize hs + 3) by lia.
        rewrite (vget_block hs _ _ _ _ 3) by lia. simpl. split; [reflexivity|].
        unfold new_hedge; simpl. rewrite ?wrap_small by lia; lia.
      * replace (vsize hs + 2 - 1) with (vsize hs + 1) by lia.
        rewrite (vget_block hs _ _ _ _ 1) by lia. simpl. split; [reflexivity|].
        unfold new_hedge; simpl. rewrite ?wrap_small by lia; lia.
    + split; eexists.
      * rewrite vget_block0. split; [reflexivity|].
        unfold new_hedge; simpl. rewrite ?wrap_small by lia; lia.
      * replace (vsize hs + 3 - 1) with (vsize hs + 2) by lia.
        rewrite (vget_block hs _ _ _ _ 2) by lia. simpl. split; [reflexivity|].
        unfold new_hedge; simpl. rewrite ?wrap_small by lia; lia.
Qed.

Lemma add_quad_hedges b q :
  exists t0 t1 t2 t3,
    b_hedges (add_quad b q)
    = b_hedges b ++ [new_hedge (vsize (b_hedges b)) (vsize (b_faces b)) 0 t0;
                     new_hedge (vsize (b_hedges b)) (vsize (b_faces b)) 1 t1;
                     new_hedge (vsize (b_hedges b)) (vsize (b_faces b)) 2 t2;
                     new_hedge (vsize (b_hedges b)) (vsize (b_faces b)) 3 t3].
Proof.
  unfold add_quad.
  destruct (add_vertex (b_vertices b, b_mv2new b) (getVertex q 0)) as [st1 n0].
  destruct (add_vertex st1 (getVertex q 1)) as [st2 n1].
  destruct (add_vertex st2 (getVertex q 2)) as [st3 n2].
  destruct (add_vertex st3 (getVertex q 3)) as [[vs mp] n3].
  simpl. eauto.
Qed.

Lemma no_opposite_app hs blk :
  no_opposite hs -> Forall (fun h => opposite h = NO_ID) blk -> no_opposite (hs ++ blk).
Proof.
  intros H1 H2 i h Hi.
  destruct (N.lt_ge_cases i (vsize hs)) as [Hlt|Hge].
  - rewrite vget_app_l in Hi by exact Hlt. eauto.
  - rewrite vget_app_r in Hi by exact Hge.
    revert H2 Hi. generalize (i - vsize hs). clear.
    induction blk as [|x t IH]; intros k HF Hk; simpl in Hk; [discriminate|].
    inversion HF; subst. destruct (k =? 0); [inversion Hk; subst; auto|]. eauto.
Qed.

Lemma build_hedges (qs : list MQuadrangle) : forall b,
  np_consistent (b_hedges b) -> no_opposite (b_hedges b) ->
  vsize (b_hedges b) + 4 * N.of_nat (length qs) < SIZE_MOD ->
  np_consistent (b_hedges (foldl add_quad b qs))
  /\ no_opposite (b_hedges (foldl add_quad b qs))
  /\ vsize (b_hedges (foldl add_quad b qs))
     = vsize (b_hedges b) + 4 * N.of_nat (length qs).
Proof.
  induction qs as [|q t IH]; intros b Hnp Hno Hsz; simpl.
  - split; [exact Hnp | split; [exact Hno | lia]].
  - destruct (add_quad_hedges b q) as (t0 & t1 & t2 & t3 & E).
    assert (Hlen : vsize (b_hedges (add_quad b q)) = vsize (b_hedges b) + 4).
    { rewrite E, vsize_app. reflexivity. }
    simpl length in Hsz. rewrite Nat2N.inj_succ in Hsz.
    destruct (IH (add_quad b q)) as (I1 & I2 & I3).
    + rewrite E. apply np_consistent_block; [lia | exact Hnp].
    + rewrite E. apply no_opposite_app; [exact Hno|].
      repeat constructor.
    + lia.
    + split; [exact I1 | split; [exact I2 |]]. rewrite I3, Hlen. lia.
Qed.

Lemma same_np_refl hs : same_np hs hs.
Proof. split; eauto. Qed.

Lemma same_np_trans a b c : same_np a b -> same_np b c -> same_np a c.
Proof.
  intros [L1 H1] [L2 H2]. split; [congruence|].
  intros i h Hi. destruct (H1 i h Hi) as (h1 & E1 & P1 & N1).
  destruct (H2 i h1 E1) as (h2 & E2 & P2 & N2). exists h2. repeat split; congruence.
Qed.

Lemma set_opposite_same_np hs h o : same_np hs (set_opposite hs h o).
Proof.
  unfold set_opposite. destruct (vget hs h) as [x|] eqn:E; [|apply same_np_refl].
  split; [apply vset_length|].
  intros i y Hi. destruct (N.eq_dec h i) as [->|Hne].
  - rewrite vget_vset_eq by (eapply vget_Some_lt; eauto).
    rewrite E in Hi. inversion Hi; subst. eexists; split; [reflexivity|]. simpl; auto.
  - rewrite vget_vset_neq by exact Hne. eauto.
Qed.

Lemma link_pair_same_np T hs i : same_np hs (link_pair T hs i).
Proof.
  unfold link_pair. destruct (default (NO_ID, NO_ID) (vget T i)) as [h1 h2].
  destruct (negb (h1 =? NO_ID) && negb (h2 =? NO_ID)); [|apply same_np_refl].
  eapply same_np_trans; apply set_opposite_same_np.
Qed.

Lemma foldl_link_same_np T l : forall hs, same_np hs (foldl (link_pair T) hs l).
Proof.
  induction l as [|i t IH]; intros hs; simpl; [apply same_np_refl|].
  eapply same_np_trans; [apply link_pair_same_np | apply IH].
Qed.

Lemma np_consistent_same hs hs' : same_np hs hs' -> np_consistent hs -> np_consistent hs'.
Proof.
  intros [L H] Hnp i h' Hi'.
  assert (Hlt : i < vsize hs).
  { apply vget_Some_lt in Hi'. unfold vsize in *. rewrite <- L. exact Hi'. }
  destruct (vget_lt hs i Hlt) as [h Hi].
  destruct (H i h Hi) as (h2 & E2 & P2 & N2). rewrite Hi' in E2. inversion E2; subst h2.
  destruct (Hnp i h Hi) as [(a & Ea & Pa) (b & Eb & Pb)].
  destruct (H _ a Ea) as (a' & Ea' & Pa' & Na').
  destruct (H _ b Eb) as (b' & Eb' & Pb' & Nb').
  split; [exists a' | exists b']; split; congruence.
Qed.

Section Fill.
Variable old2new : list N.

Lemma fill_new2old_inv (len : nat) : forall (k : nat) (T T' : list si2),
  fill_new2old (map N.of_nat (seq k len)) old2new T = Some T' ->
  N.of_nat (k + len) <= NO_ID ->
  fill_inv old2new (N.of_nat k) T ->
  fill_inv old2new (N.of_nat (k + len)) T' /\ length T' = length T.
Proof.
  induction len as [|len IH]; intros k T T' H Hb Hinv; simpl in H.
  - inversion H; subst. rewrite Nat.add_0_r. auto.
  - fold (slot_of old2new (N.of_nat k)) in H.
    destruct (vget T (slot_of old2new (N.of_nat k))) as [[a b]|] eqn:Es; [|discriminate].
    assert (Hk : N.of_nat k <> NO_ID) by lia.
    assert (Hstep : forall x, N.of_nat k <= x -> x < N.of_nat (S k) -> x = N.of_nat k) by lia.
    replace (k + S len)%nat with (S k + len)%nat in * by lia.
    destruct (Hinv _ _ _ Es) as [Ha Hb'].
    destruct (N.eqb_spec a NO_ID) as [Ea|Ea].
    + apply IH in H; [| exact Hb |].
      * rewrite vset_length in H. exact H.
      * intros s x y Hs.
        destruct (N.eq_dec (slot_of old2new (N.of_nat k)) s) as [<-|Hne].
        -- rewrite vget_vset_eq in Hs by (eapply vget_Some_lt; eauto).
           inversion Hs; subst x y. split.
           ++ intros _. split; [reflexivity | lia].
           ++ intros Hy. destruct (Hb' Hy) as (_ & _ & Hc & _). contradiction.
        -- rewrite vget_vset_neq in Hs by exact Hne.
           destruct (Hinv _ _ _ Hs) as [Hx Hy]. split.
           ++ intros Hx'. destruct (Hx Hx'). split; [auto | lia].
           ++ intros Hy'. destruct (Hy Hy') as (? & ? & ? & ?). repeat split; auto. lia.
    + destruct (N.eqb_spec b NO_ID) as [Eb|Eb]; [|discriminate].
      apply IH in H; [| exact Hb |].
      * rewrite vset_length in H. exact H.
      * intros s x y Hs.
        destruct (N.eq_dec (slot_of old2new (N.of_nat k)) s) as [<-|Hne].
        -- rewrite vget_vset_eq in Hs by (eapply vget_Some_lt; eauto).
           inversion Hs; subst x y. destruct (Ha Ea) as [Ha1 Ha2]. split.
           ++ intros _. split; [exact Ha1 | lia].
           ++ intros _. repeat split; auto; lia.
        -- rewrite vget_vset_neq in Hs by exact Hne.
           destruct (Hinv _ _ _ Hs) as [Hx Hy]. split.
           ++ intros Hx'. destruct (Hx Hx'). split; [auto | lia].
           ++ intros Hy'. destruct (Hy Hy') as (? & ? & ? & ?). repeat split; auto. lia.
Qed.

End Fill.

Lemma set_opposite_get hs h o i :
  h < vsize hs ->
  vget (set_opposite hs h o) i
  = if i =? h
    then option_map (fun x => mkHalfEdge (prev x) (next x) o (vertex x) (face x)) (vget hs h)
    else vget hs i.
Proof.
  intros Hh. unfold set_opposite. destruct (vget_lt hs h Hh) as [x Ex]. rewrite Ex.
  destruct (N.eqb_spec i h) as [->|Hne].
  - rewrite vget_vset_eq by exact Hh. reflexivity.
  - rewrite vget_vset_neq by congruence. reflexivity.
Qed.

Lemma set_opposite_size hs h o : vsize (set_opposite hs h o) = vsize hs.
Proof.
  unfold set_opposite. destruct (vget hs h); [apply vsize_vset | reflexivity].
Qed.

Section Link.
Variable old2new : list N.
Variable T : list si2.
Variable n : N.
Hypothesis HT : fill_inv old2new n T.

Lemma full_slot_facts s a b :
  full_slot T s a b ->
  slot_of old2new a = s /\ slot_of old2new b = s /\ a < n /\ b < n /\ a <> b.
Proof.
  intros (E & Ha & Hb). destruct (HT _ _ _ E) as [H1 H2].
  destruct (H1 Ha) as [? ?]. destruct (H2 Hb) as (? & ? & ? & ?). auto.
Qed.

Lemma link_pair_inv j hs :
  link_inv T n j hs -> link_inv T n (j + 1) (link_pair T hs j).
Proof.
  intros (Hn & K1 & K2). unfold link_pair.
  destruct (vget T j) as [[h1 h2]|] eqn:Ej; simpl.
  2:{ split; [exact Hn|]. split.
      - intros i h Hi Ho. destruct (K1 i h Hi Ho) as (s & a & b & Hs & R).
        exists s, a, b. split; [lia | exact R].
      - intros s a b Hs Hf. apply (K2 s); [|exact Hf].
        destruct Hf as (E & _). destruct (N.eq_dec s j) as [->|]; [congruence | lia]. }
  destruct (N.eqb_spec h1 NO_ID) as [E1|E1]; simpl.
  { split; [exact Hn|]. split.
    - intros i h Hi Ho. destruct (K1 i h Hi Ho) as (s & a & b & Hs & R).
      exists s, a, b. split; [lia | exact R].
    - intros s a b Hs Hf. apply (K2 s); [|exact Hf].
      destruct (N.eq_dec s j) as [->|]; [|lia].
      destruct Hf as (E & Ha & _). rewrite Ej in E. inversion E; subst. contradiction. }
  destruct (N.eqb_spec h2 NO_ID) as [E2|E2]; simpl.
  { split; [exact Hn|]. split.
    - intros i h Hi Ho. destruct (K1 i h Hi Ho) as (s & a & b & Hs & R).
      exists s, a, b. split; [lia | exact R].
    - intros s a b Hs Hf. apply (K2 s); [|exact Hf].
      destruct (N.eq_dec s j) as [->|]; [|lia].
      destruct Hf as (E & _ & Hb). rewrite Ej in E. inversion E; subst. contradiction. }
  assert (Hf : full_slot T j h1 h2) by (repeat split; auto).
  destruct (full_slot_facts _ _ _ Hf) as (S1 & S2 & L1 & L2 & Hne).
  assert (G : forall i,
    vget (set_opposite (set_opposite hs h1 h2) h2 h1) i
    = if i =? h2
      then option_map (fun x => mkHalfEdge (prev x) (next x) h1 (vertex x) (face x)) (vget hs h2)
      else if i =? h1
      then option_map (fun x => mkHalfEdge (prev x) (next x) h2 (vertex x) (face x)) (vget hs h1)
      else vget hs i).
  { intros i. rewrite set_opposite_get by (rewrite set_opposite_size; lia).
    rewrite !set_opposite_get by lia.
    destruct (N.eqb_spec h2 h1); [congruence|]. reflexivity. }
  split; [rewrite !set_opposite_size; exact Hn|]. split.
  - intros i h Hi Ho. rewrite G in Hi.
    destruct (N.eqb_spec i h2) as [->|N2].
    { destruct (vget hs h2); inversion Hi; subst h. simpl.
      exists j, h1, h2. split; [lia|]. split; [exact Hf|]. right; auto. }
    destruct (N.eqb_spec i h1) as [->|N1].
    { destruct (vget hs h1); inversion Hi; subst h. simpl.
      exists j, h1, h2. split; [lia|]. split; [exact Hf|]. left; auto. }
    destruct (K1 i h Hi Ho) as (s & a & b & Hs & R).
    exists s, a, b. split; [lia | exact R].
  - intros s a b Hs Hfs. destruct (N.eq_dec s j) as [->|Hsj].
    + destruct Hfs as (E & _). rewrite Ej in E. inversion E; subst a b.
      rewrite !G. rewrite N.eqb_refl.
      destruct (N.eqb_spec h1 h2); [congruence|]. rewrite N.eqb_refl.
      destruct (vget_lt hs h1) as [x1 ->]; [lia|].
      destruct (vget_lt hs h2) as [x2 ->]; [lia|]. simpl.
      split; eexists; (split; [reflexivity | reflexivity]).
    + destruct (full_slot_facts _ _ _ Hfs) as (Sa & Sb & _ & _ & _).
      assert (a <> h1 /\ a <> h2 /\ b <> h1 /\ b <> h2) as (A1 & A2 & B1 & B2).
      { repeat split; intros ->; congruence. }
      rewrite !G.
      destruct (N.eqb_spec a h2); [congruence|]. destruct (N.eqb_spec a h1); [congruence|].
      destruct (N.eqb_spec b h2); [congruence|]. destruct (N.eqb_spec b h1); [congruence|].
      apply (K2 s); [lia | exact Hfs].
Qed.

Lemma foldl_link_inv (len : nat) : forall (j : nat) hs,
  link_inv T n (N.of_nat j) hs ->
  link_inv T n (N.of_nat (j + len)) (foldl (link_pair T) hs (map N.of_nat (seq j len))).
Proof.
  induction len as [|len IH]; intros j hs H; simpl.
  - now rewrite Nat.add_0_r.
  - replace (j + S len)%nat with (S j + len)%nat by lia. apply IH.
    replace (N.of_nat (S j)) with (N.of_nat j + 1) by lia.
    apply link_pair_inv. exact H.
Qed.

Lemma link_inv_involution j hs :
  link_inv T n j hs ->
  forall i h, vget hs i = Some h -> opposite h <> NO_ID ->
    exists h', vget hs (opposite h) = Some h' /\ opposite h' = i.
Proof.
  intros (Hn & K1 & K2) i h Hi Ho.
  destruct (K1 i h Hi Ho) as (s & a & b & Hs & Hf & R).
  destruct (K2 s a b Hs Hf) as [(ha & Ea & Oa) (hb & Eb & Ob)].
  destruct R as [[-> ->]|[-> ->]]; eauto.
Qed.

End Link.

Lemma vget_repeat {A} (x y : A) (m : nat) (s : N) :
  vget (repeat x m) s = Some y -> y = x.
Proof.
  revert s. induction m as [|m IH]; intros s H; simpl in H; [discriminate|].
  destruct (s =? 0); [now inversion H | eauto].
Qed.

Lemma fill_inv_init old2new (m : nat) : fill_inv old2new 0 (repeat (NO_ID, NO_ID) m).
Proof.
  intros s a b H. apply vget_repeat in H. inversion H; subst. split; intros; congruence.
Qed.

Lemma link_inv_init T hs :
  no_opposite hs -> link_inv T (vsize hs) 0 hs.
Proof.
  intros Hno. split; [reflexivity|]. split.
  - intros i h Hi Ho. apply Hno in Hi. contradiction.
  - intros s a b Hs. lia.
Qed.

(** The half edges of a mesh that [createMeshHalfEdges] returns with 0. *)
Lemma createMeshHalfEdges_hedges quads sings M :
  4 * N.of_nat (length quads) < NO_ID ->
  createMeshHalfEdges quads sings = (0%Z, M) ->
  np_consistent (hedges M)
  /\ vsize (hedges M) = 4 * N.of_nat (length quads)
  /\ forall i h, vget (hedges M) i = Some h -> opposite h <> NO_ID ->
       exists h', vget (hedges M) (opposite h) = Some h' /\ opposite h' = i.
Proof.
  intros Hsz. unfold createMeshHalfEdges.
  set (b := foldl add_quad (mkBuilder [] [] [] ∅) quads).
  destruct (build_hedges quads (mkBuilder [] [] [] ∅)) as (Hnp & Hno & Hlen).
  { intros i h H. discriminate. }
  { intros i h H. discriminate. }
  { simpl. unfold vsize, NO_ID, SIZE_MOD in *. simpl. lia. }
  fold b in Hnp, Hno, Hlen. simpl in Hlen. change (vsize []) with 0 in Hlen.
  rewrite N.add_0_l in Hlen.
  destruct (sort_unique_with_perm _) as [uniques old2new].
  destruct (fill_new2old _ _ _) as [T|] eqn:EF; [|intros H; inversion H].
  intros H. inversion H; subst M; clear H. simpl.
  unfold iota in EF.
  apply fill_new2old_inv in EF; [| unfold vsize in Hlen; lia | apply fill_inv_init].
  destruct EF as [HT HTl]. simpl in HT.
  pose proof (foldl_link_same_np T (iota (length uniques)) (b_hedges b)) as Hs.
  split; [eapply np_consistent_same; eauto|].
  split; [destruct Hs as [Hl _]; unfold vsize in *; rewrite Hl; exact Hlen|].
  pose proof (foldl_link_inv old2new T (vsize (b_hedges b)) HT (length uniques) 0
                (b_hedges b) (link_inv_init _ _ Hno)) as Hl.
  eapply link_inv_involution; eauto.
Qed.

(** C2. In a structure that [createMeshHalfEdges] returns with 0 (the number
    of half edges being one that [size_t] can hold), every half edge [he]
    satisfies [next(prev(he)) == he] and [prev(next(he)) == he], and every
    half edge whose opposite is not [NO_ID] satisfies
    [opposite(opposite(he)) == he]. *)
Theorem createMeshHalfEdges_consistent
    (quadrangles : list MQuadrangle) (singularVertices : list N) (M : MeshHalfEdges) :
  4 * N.of_nat (length quadrangles) < NO_ID ->
  createMeshHalfEdges quadrangles singularVertices = (0%Z, M) ->
  forall he, he < vsize (hedges M) ->
    (p ← M_prev M he; M_next M p) = Ret he
    /\ (x ← M_next M he; M_prev M x) = Ret he
    /\ (forall o, M_opposite M he = Ret o -> o <> NO_ID -> M_opposite M o = Ret he).
Proof.
  intros Hsz Hc he Hhe.
  destruct (createMeshHalfEdges_hedges _ _ _ Hsz Hc) as (Hnp & _ & Hop).
  destruct (vget_lt _ _ Hhe) as [h Eh].
  destruct (Hnp he h Eh) as [(hn & En & Pn) (hp & Ep & Np)].
  unfold M_prev, M_next, M_opposite, he_get. ounfold.
  rewrite Eh. simpl. rewrite En, Ep. simpl. rewrite Pn, Np.
  repeat split. intros o Ho Hne. inversion Ho; subst o.
  destruct (Hop he h Eh Hne) as (h' & E' & O'). rewrite E'. simpl. now rewrite O'.
Qed.

Lemma createMeshHalfEdges_consistent_witness :
  (4 * N.of_nat (length (grid 2 2)) < NO_ID
   /\ createMeshHalfEdges (grid 2 2) [] = (0%Z, grid22)
   /\ 1 < vsize (hedges grid22)
   /\ M_opposite grid22 1 = Ret 7)
  /\ (p ← M_prev grid22 1; M_next grid22 p) = Ret 1
  /\ (x ← M_next grid22 1; M_prev grid22 x) = Ret 1
  /\ M_opposite grid22 7 = Ret 1.
Proof.
  assert (H1 : 4 * N.of_nat (length (grid 2 2)) < NO_ID) by (vm_compute; reflexivity).
  assert (H2 : createMeshHalfEdges (grid 2 2) [] = (0%Z, grid22))
    by (vm_compute; reflexivity).
  assert (H3 : 1 < vsize (hedges grid22)) by (vm_compute; reflexivity).
  assert (H4 : M_opposite grid22 1 = Ret 7) by (vm_compute; reflexivity).
  split; [repeat split; assumption|].
  destruct (createMeshHalfEdges_consistent _ _ _ H1 H2 1 H3) as (A & B & C).
  split; [exact A|]. split; [exact B|].
  apply (C 7 H4). vm_compute. discriminate.
Defined.

(** ** Non-manifold edges and the return value of createMeshHalfEdges *)

(** si2 order *)
Lemma si2_eqb_eq a b : si2_eqb a b = true <-> a = b.
Proof.
  destruct a as [a1 a2], b as [b1 b2]. unfold si2_eqb. simpl.
  rewrite andb_true_iff, !N.eqb_eq. split; [intros [-> ->]; reflexivity|].
  intros H; inversion H; auto.
Qed.

Lemma si2_eqb_refl a : si2_eqb a a = true.
Proof. now apply si2_eqb_eq. Qed.

Lemma si2_eqb_neq a b : si2_eqb a b = false <-> a <> b.
Proof.
  rewrite <- si2_eqb_eq. destruct (si2_eqb a b); split; congruence.
Qed.

Lemma si2_ltb_spec a b :
  si2_ltb a b = true <-> (fst a < fst b \/ (fst a = fst b /\ snd a < snd b)).
Proof.
  unfold si2_ltb. rewrite orb_true_iff, andb_true_iff, !N.ltb_lt, N.eqb_eq. tauto.
Qed.

Lemma si2_le_spec a b :
  si2_le a b <-> (fst a < fst b \/ (fst a = fst b /\ snd a <= snd b)).
Proof.
  unfold si2_le. destruct (si2_ltb b a) eqn:E.
  - apply si2_ltb_spec in E. split; [discriminate | lia].
  - split; [intros _ | reflexivity].
    assert (~ (fst b < fst a \/ (fst b = fst a /\ snd b < snd a))).
    { rewrite <- si2_ltb_spec. congruence. }
    lia.
Qed.

Lemma si2_le_refl a : si2_le a a.
Proof. apply si2_le_spec. lia. Qed.

Lemma si2_le_trans a b c : si2_le a b -> si2_le b c -> si2_le a c.
Proof. rewrite !si2_le_spec. lia. Qed.

Lemma si2_le_antisym a b : si2_le a b -> si2_le b a -> a = b.
Proof.
  rewrite !si2_le_spec. destruct a, b; simpl. intros. f_equal; lia.
Qed.

Lemma si2_le_total a b : si2_le a b \/ si2_le b a.
Proof. rewrite !si2_le_spec. lia. Qed.

(** Sorting *)
Section Sort.
Context {A : Type} (key : A -> si2).
Local Abbreviation lt := (lt_by_key key).

Lemma sort_insert_In_iff (x a : A) (l : list A) :
  In x (sort_insert lt a l) <-> x = a \/ In x l.
Proof.
  induction l as [|y t IH]; simpl; [intuition congruence|].
  destruct (lt a y); simpl; [intuition congruence|]. rewrite IH. intuition congruence.
Qed.

Lemma sort_insert_sorted (a : A) (l : list A) :
  key_sorted key l -> key_sorted key (sort_insert lt a l).
Proof.
  induction l as [|y t IH]; simpl; [tauto|].
  intros [Hy Ht]. destruct (lt a y) eqn:E.
  - simpl. split; [|tauto].
    assert (Hay : si2_le (key a) (key y)).
    { unfold lt_by_key in E. apply si2_ltb_spec in E. apply si2_le_spec. lia. }
    intros z [<-|Hz]; [exact Hay|]. eapply si2_le_trans; eauto.
  - simpl. split; [|auto].
    intros z Hz. apply sort_insert_In_iff in Hz. destruct Hz as [->|Hz]; [exact E|auto].
Qed.

Lemma std_sort_sorted (l : list A) : key_sorted key (std_sort lt l).
Proof.
  unfold std_sort. induction l as [|a t IH]; simpl; [exact I|].
  apply sort_insert_sorted, IH.
Qed.

Lemma sort_insert_perm (a : A) (l : list A) : Permutation (sort_insert lt a l) (a :: l).
Proof.
  induction l as [|y t IH]; simpl; [reflexivity|].
  destruct (lt a y); [reflexivity|]. rewrite IH. apply perm_swap.
Qed.

Lemma std_sort_perm (l : list A) : Permutation (std_sort lt l) l.
Proof.
  unfold std_sort. induction l as [|a t IH]; simpl; [reflexivity|].
  rewrite sort_insert_perm. now constructor.
Qed.

Lemma sort_insert_map (a : A) (l : list A) :
  map key (sort_insert lt a l) = sort_insert si2_ltb (key a) (map key l).
Proof.
  induction l as [|y t IH]; simpl; [reflexivity|].
  unfold lt_by_key at 1. destruct (si2_ltb (key a) (key y)); simpl; [reflexivity|].
  now rewrite IH.
Qed.

Lemma std_sort_map (l : list A) :
  map key (std_sort lt l) = std_sort si2_ltb (map key l).
Proof.
  unfold std_sort. induction l as [|a t IH]; simpl; [reflexivity|].
  now rewrite sort_insert_map, IH.
Qed.

End Sort.

Section Groups.
Variable inv : list si2.
Local Abbreviation key := (key_of inv).

Lemma span_run_app kr l r s : span_run inv kr l = (r, s) -> l = r ++ s.
Proof.
  revert r s. induction l as [|i t IH]; intros r s H; simpl in H.
  - inversion H; reflexivity.
  - destruct (si2_eqb (key i) kr).
    + destruct (span_run inv kr t) as [r' s'] eqn:E. inversion H; subst.
      simpl. f_equal. now apply IH.
    + inversion H; reflexivity.
Qed.

Lemma walk_span kr cur l r s :
  span_run inv kr l = (r, s) ->
  walk inv kr cur l = map (fun i => (i, cur)) r ++ walk_all inv (cur + 1) s.
Proof.
  revert r s. induction l as [|i t IH]; intros r s H; simpl in H.
  - inversion H; reflexivity.
  - simpl. destruct (si2_eqb (key i) kr) eqn:E.
    + destruct (span_run inv kr t) as [r' s'] eqn:E'. inversion H; subst.
      simpl. f_equal. now apply IH.
    + inversion H; subst. reflexivity.
Qed.

Lemma assign_app o w1 w2 : assign o (w1 ++ w2) = assign (assign o w1) w2.
Proof. unfold assign. apply fold_left_app. Qed.

Lemma key_at_app ids pre i t :
  ids = pre ++ i :: t -> key_at inv ids (vsize pre) = key i.
Proof.
  intros ->. unfold key_at, key_of. rewrite vget_app_r by lia.
  rewrite N.sub_diag. reflexivity.
Qed.

Lemma group_inner_spec ids ir cur kr :
  vsize ids = vsize inv -> key_at inv ids ir = kr ->
  forall suf pre fuel o r s,
    ids = pre ++ suf -> (length suf <= fuel)%nat ->
    span_run inv kr suf = (r, s) ->
    group_inner fuel inv ids ir cur (vsize pre) o
    = (vsize pre + vsize r, assign o (map (fun i => (i, cur)) r)).
Proof.
  intros Hsz Hkr. induction suf as [|i t IH]; intros pre fuel o r s Hids Hf Hs.
  - simpl in Hs. inversion Hs; subst r s. rewrite app_nil_r in Hids. subst pre.
    change (vsize []) with 0. rewrite N.add_0_r. simpl.
    destruct fuel; simpl; [reflexivity|].
    rewrite Hsz, N.ltb_irrefl. reflexivity.
  - destruct fuel as [|fuel]; [simpl in Hf; lia|]. simpl group_inner.
    assert (Hlt : vsize pre < vsize inv).
    { rewrite <- Hsz, Hids, vsize_app, vsize_cons. lia. }
    apply N.ltb_lt in Hlt. rewrite Hlt. simpl andb.
    rewrite (key_at_app ids pre i t Hids), Hkr.
    simpl in Hs. destruct (si2_eqb (key i) kr) eqn:E.
    + destruct (span_run inv kr t) as [r' s'] eqn:E'. inversion Hs; subst r s.
      assert (Hi : default NO_ID (vget ids (vsize pre)) = i).
      { rewrite Hids, vget_app_r by lia. now rewrite N.sub_diag. }
      rewrite Hi.
      replace (vsize pre + 1) with (vsize (pre ++ [i])) by (rewrite vsize_app; reflexivity).
      rewrite (IH (pre ++ [i]) fuel _ r' s').
      * f_equal. unfold vsize. rewrite length_app. simpl length. lia.
      * rewrite <- app_assoc. exact Hids.
      * simpl in Hf. lia.
      * reflexivity.
    + inversion Hs; subst r s. change (vsize []) with 0. rewrite N.add_0_r. reflexivity.
Qed.

Lemma group_outer_spec ids :
  vsize ids = vsize inv ->
  forall fuel suf pre cur o,
    ids = pre ++ suf -> (length suf < fuel)%nat ->
    group_outer fuel inv ids (vsize pre) (vsize pre) cur o
    = assign o (walk_all inv cur suf).
Proof.
  intros Hsz. induction fuel as [|fuel IH]; intros suf pre cur o Hids Hf; [lia|].
  simpl group_outer. destruct suf as [|j t].
  - rewrite app_nil_r in Hids. subst pre. rewrite Hsz, N.ltb_irrefl. reflexivity.
  - assert (Hlt : vsize pre < vsize inv).
    { rewrite <- Hsz, Hids, vsize_app, vsize_cons. lia. }
    apply N.ltb_lt in Hlt. rewrite Hlt.
    destruct (span_run inv (key j) (j :: t)) as [r s] eqn:Es.
    rewrite (group_inner_spec ids (vsize pre) cur (key j) Hsz
               (key_at_app ids pre j t Hids) (j :: t) pre (length inv) o r s Hids).
    2:{ assert (length ids = length inv) by (unfold vsize in Hsz; lia).
        rewrite <- H, Hids, length_app. lia. }
    2:{ exact Es. }
    pose proof (span_run_app _ _ _ _ Es) as Happ.
    simpl in Es. rewrite si2_eqb_refl in Es.
    destruct (span_run inv (key j) t) as [r' s'] eqn:Es'. inversion Es; subst r s.
    replace (vsize pre + vsize (j :: r')) with (vsize (pre ++ j :: r'))
      by (rewrite vsize_app; reflexivity).
    rewrite (IH s' (pre ++ j :: r') (cur + 1)).
    + simpl walk_all. rewrite (walk_span _ _ _ _ _ Es').
      change ((j, cur) :: map (fun i => (i, cur)) r' ++ walk_all inv (cur + 1) s')
        with (map (fun i => (i, cur)) (j :: r') ++ walk_all inv (cur + 1) s').
      now rewrite assign_app.
    + rewrite Hids, Happ, <- app_assoc. reflexivity.
    + pose proof (span_run_app _ _ _ _ Es') as Ht. rewrite Ht in Hf.
      simpl in Hf. rewrite length_app in Hf. lia.
Qed.

End Groups.

Section Walk.
Variable inv : list si2.
Local Abbreviation key := (key_of inv).

Lemma si2_eqb_sym a b : si2_eqb a b = si2_eqb b a.
Proof.
  destruct (si2_eqb a b) eqn:E.
  - apply si2_eqb_eq in E. subst. symmetry. apply si2_eqb_refl.
  - apply si2_eqb_neq in E. symmetry. apply si2_eqb_neq. congruence.
Qed.

Lemma walk_fst prevk cur l : map fst (walk inv prevk cur l) = l.
Proof.
  revert prevk cur. induction l as [|i t IH]; intros prevk cur; simpl; [reflexivity|].
  destruct (si2_eqb (key i) prevk); simpl; now rewrite IH.
Qed.

Lemma walk_bounds l : forall prevk cur i c,
  In (i, c) (walk inv prevk cur l) ->
  cur <= c
  /\ c <= cur + N.of_nat (length (unique_from si2_eqb prevk (map key l))).
Proof.
  induction l as [|i0 t IH]; intros prevk cur i c H; simpl in H; [contradiction|].
  simpl. rewrite (si2_eqb_sym prevk). destruct (si2_eqb (key i0) prevk).
  - destruct H as [H|H]; [inversion H; subst; lia|]. eapply IH; eauto.
  - simpl length. destruct H as [H|H]; [inversion H; subst; lia|].
    apply IH in H. lia.
Qed.

(** Along a list sorted by key, whose keys are not below [prevk], the class
    tells the key. *)
Lemma walk_first_class l : forall prevk cur i c,
  (forall y, In y l -> si2_le prevk (key y)) -> key_sorted key l ->
  In (i, c) (walk inv prevk cur l) ->
  (c = cur <-> key i = prevk).
Proof.
  induction l as [|i0 t IH]; intros prevk cur i c Hlow Hs H; simpl in H; [contradiction|].
  destruct Hs as [Hs0 Hs].
  destruct (si2_eqb (key i0) prevk) eqn:E.
  - apply si2_eqb_eq in E. destruct H as [H|H].
    + inversion H; subst. tauto.
    + eapply IH; eauto. intros y Hy. apply Hlow. now right.
  - apply si2_eqb_neq in E.
    assert (Hc : cur + 1 <= c /\ (c = cur + 1 <-> key i = key i0)).
    { destruct H as [H|H].
      - inversion H; subst. split; [lia | tauto].
      - split; [eapply walk_bounds; eauto|]. eapply IH; eauto. }
    destruct Hc as [Hc1 Hc2]. split; [lia|]. intros Hk. exfalso.
    assert (Hin : In i (i0 :: t)).
    { rewrite <- (walk_fst prevk cur (i0 :: t)). simpl.
      destruct (si2_eqb (key i0) prevk) eqn:E'; [apply si2_eqb_eq in E'; contradiction|].
      apply (in_map fst) in H. exact H. }
    destruct Hin as [<-|Hin]; [contradiction|].
    apply E. apply si2_le_antisym.
    + rewrite <- Hk. auto.
    + apply Hlow. now left.
Qed.

Lemma iff_flip {A B : Type} (a b : A) (x y : B) :
  (b = a <-> y = x) -> (a = b <-> x = y).
Proof. intros [H1 H2]; split; intros H; symmetry; [apply H1 | apply H2]; symmetry; exact H. Qed.

Lemma walk_classes l : forall prevk cur i c j d,
  (forall y, In y l -> si2_le prevk (key y)) -> key_sorted key l ->
  In (i, c) (walk inv prevk cur l) -> In (j, d) (walk inv prevk cur l) ->
  (c = d <-> key i = key j).
Proof.
  induction l as [|i0 t IH]; intros prevk cur i c j d Hlow Hs Hi Hj;
    [simpl in Hi; contradiction|].
  pose proof (walk_first_class (i0 :: t) prevk cur j d Hlow Hs Hj) as Fj.
  pose proof (walk_first_class (i0 :: t) prevk cur i c Hlow Hs Hi) as Fi.
  simpl in Hi, Hj. destruct Hs as [Hs0 Hs].
  destruct (si2_eqb (key i0) prevk) eqn:E.
  - apply si2_eqb_eq in E.
    destruct Hi as [Hi|Hi], Hj as [Hj|Hj].
    + assert (c = cur /\ i = i0) as [-> ->] by (inversion Hi; auto).
      assert (d = cur /\ j = i0) as [-> ->] by (inversion Hj; auto).
      split; reflexivity.
    + assert (c = cur /\ key i = prevk) as [-> Hk] by (inversion Hi; subst; auto).
      rewrite Hk. apply iff_flip. exact Fj.
    + assert (d = cur /\ key j = prevk) as [-> Hk] by (inversion Hj; subst; auto).
      rewrite Hk. exact Fi.
    + apply (IH prevk cur i c j d); auto. intros y Hy. apply Hlow. now right.
  - apply si2_eqb_neq in E.
    assert (T1 : forall x e, In (x, e) (walk inv (key i0) (cur + 1) t) ->
                  (e = cur + 1 <-> key x = key i0)).
    { intros x e Hx. eapply walk_first_class; eauto. }
    destruct Hi as [Hi|Hi], Hj as [Hj|Hj].
    + assert (c = cur + 1 /\ i = i0) as [-> ->] by (inversion Hi; auto).
      assert (d = cur + 1 /\ j = i0) as [-> ->] by (inversion Hj; auto).
      split; reflexivity.
    + assert (c = cur + 1 /\ i = i0) as [-> ->] by (inversion Hi; auto).
      apply iff_flip. exact (T1 _ _ Hj).
    + assert (d = cur + 1 /\ j = i0) as [-> ->] by (inversion Hj; auto).
      exact (T1 _ _ Hi).
    + apply (IH (key i0) (cur + 1) i c j d); auto.
Qed.

Lemma assign_get_notin w : forall o i,
  ~ In i (map fst w) -> vget (assign o w) i = vget o i.
Proof.
  induction w as [|[i0 c0] w IH]; intros o i Hn; simpl; [reflexivity|].
  simpl in Hn. unfold assign in *. simpl. rewrite IH by tauto.
  apply vget_vset_neq. intros ->. tauto.
Qed.

Lemma assign_get w : forall o i c,
  List.NoDup (map fst w) -> In (i, c) w -> i < vsize o ->
  vget (assign o w) i = Some c.
Proof.
  induction w as [|[i0 c0] w IH]; intros o i c Hnd Hin Hlt; [contradiction|].
  simpl in Hnd. inversion Hnd; subst. destruct Hin as [Hin|Hin].
  - inversion Hin; subst. unfold assign. simpl.
    fold (assign (vset o i c) w). rewrite assign_get_notin by assumption.
    now apply vget_vset_eq.
  - unfold assign. simpl. fold (assign (vset o i0 c0) w).
    apply IH; auto. now rewrite vsize_vset.
Qed.

End Walk.

Lemma iota_In (n : nat) (i : N) : In i (iota n) <-> i < N.of_nat n.
Proof.
  unfold iota. rewrite in_map_iff. split.
  - intros (k & <- & Hk). apply in_seq in Hk. lia.
  - intros H. exists (N.to_nat i). split; [apply N2Nat.id|]. apply in_seq. lia.
Qed.

Lemma iota_NoDup (n : nat) : List.NoDup (iota n).
Proof.
  unfold iota. apply Finite.Injective_map_NoDup; [|apply seq_NoDup].
  intros a b H. now apply Nat2N.inj.
Qed.

Lemma iota_length (n : nat) : length (iota n) = n.
Proof. unfold iota. now rewrite length_map, length_seq. Qed.

Lemma vget_map_seq {A} (l : list A) (d : A) :
  forall k, map (fun i => default d (vget l i)) (map N.of_nat (seq k (length l - k)))
            = drop k l.
Proof.
  intros k. remember (length l - k)%nat as m eqn:Em.
  revert k Em. induction m as [|m IH]; intros k Em; simpl.
  - symmetry. apply drop_ge. lia.
  - assert (Hk : (k < length l)%nat) by lia.
    destruct (vget_lt l (N.of_nat k)) as [x Ex]; [unfold vsize; lia|].
    rewrite Ex. simpl. rewrite IH by lia.
    assert (Hx : l !! k = Some x).
    { clear -Ex. revert k Ex. induction l as [|y t IHl]; intros k Ex; simpl in Ex; [discriminate|].
      destruct k; simpl in *; [exact Ex|].
      destruct (N.eqb_spec (N.pos (Pos.of_succ_nat k)) 0); [lia|].
      apply IHl. rewrite <- Ex. f_equal. lia. }
    symmetry. erewrite drop_S; eauto.
Qed.

Lemma map_key_iota (inv : list si2) : map (key_of inv) (iota (length inv)) = inv.
Proof.
  unfold iota, key_of.
  pose proof (vget_map_seq inv (NO_ID, NO_ID) 0) as H.
  rewrite Nat.sub_0_r in H. exact H.
Qed.

(** What [sort_unique_with_perm] computes: [old2new] sends two indices to the
    same class exactly when they carry the same value, and all classes are
    below the number of unique values. *)
Lemma sort_unique_with_perm_classes (inv : list si2) :
  (forall i, i < vsize inv ->
     slot_of (snd (sort_unique_with_perm inv)) i < vsize (fst (sort_unique_with_perm inv)))
  /\ (forall i j, i < vsize inv -> j < vsize inv ->
        (slot_of (snd (sort_unique_with_perm inv)) i
         = slot_of (snd (sort_unique_with_perm inv)) j
         <-> key_of inv i = key_of inv j)).
Proof.
  unfold sort_unique_with_perm. cbv zeta. cbn [fst snd].
  set (lt := fun a b : N => si2_ltb (default (NO_ID, NO_ID) (vget inv a))
                                    (default (NO_ID, NO_ID) (vget inv b))).
  set (ids := std_sort lt (iota (length inv))).
  pose proof (std_sort_perm (key_of inv) (iota (length inv))) as Hperm.
  pose proof (std_sort_sorted (key_of inv) (iota (length inv))) as Hsorted.
  pose proof (std_sort_map (key_of inv) (iota (length inv))) as Hmap.
  change (std_sort (lt_by_key (key_of inv)) (iota (length inv)))
    with ids in Hperm, Hsorted, Hmap.
  rewrite map_key_iota in Hmap.
  assert (Hlen : vsize ids = vsize inv).
  { unfold vsize. rewrite (Permutation_length Hperm), iota_length. reflexivity. }
  assert (Hnd : List.NoDup ids).
  { eapply Permutation_NoDup; [symmetry; exact Hperm | apply iota_NoDup]. }
  assert (Hin : forall i, i < vsize inv -> In i ids).
  { intros i Hi. eapply Permutation_in; [symmetry; exact Hperm|]. now apply iota_In. }
  pose proof (group_outer_spec inv ids Hlen (S (length inv)) ids [] 0
                (repeat 0 (length inv)) eq_refl) as Hgo.
  change (vsize (@nil N)) with 0 in Hgo. rewrite Hgo by (unfold vsize in Hlen; lia).
  clear Hgo.
  set (w := walk_all inv 0 ids).
  assert (Hw : map fst w = ids).
  { unfold w, walk_all. destruct ids as [|j t]; [reflexivity|]. simpl.
    now rewrite walk_fst. }
  assert (Hget : forall i, i < vsize inv ->
            exists c, In (i, c) w /\ slot_of (assign (repeat 0 (length inv)) w) i = c).
  { intros i Hi. pose proof (Hin i Hi) as Hi'. rewrite <- Hw in Hi'.
    apply in_map_iff in Hi'. destruct Hi' as ([i' c] & Hfst & Hic). simpl in Hfst. subst i'.
    exists c. split; [exact Hic|]. unfold slot_of.
    rewrite (assign_get w _ i c); [reflexivity | rewrite Hw; exact Hnd | exact Hic |].
    unfold vsize in *. rewrite repeat_length. exact Hi. }
  split.
  - intros i Hi. destruct (Hget i Hi) as (c & Hc & ->).
    rewrite <- Hmap. unfold w, walk_all in Hc.
    destruct ids as [|j t]; [contradiction|]. simpl map. simpl std_unique.
    rewrite vsize_cons. destruct Hc as [Hc|Hc]; [inversion Hc; lia|].
    apply walk_bounds in Hc. unfold vsize. lia.
  - intros i j Hi Hj. destruct (Hget i Hi) as (c & Hc & ->).
    destruct (Hget j Hj) as (d & Hd & ->).
    unfold w, walk_all in Hc, Hd. destruct ids as [|j0 t]; [contradiction|].
    destruct Hsorted as [Hs0 Hs].
    change ((j0, 0) :: walk inv (key_of inv j0) 0 t)
      with (walk_all inv 0 (j0 :: t)) in Hc, Hd.
    assert (Hwalk : walk_all inv 0 (j0 :: t) = walk inv (key_of inv j0) 0 (j0 :: t)).
    { simpl. now rewrite si2_eqb_refl. }
    rewrite Hwalk in Hc, Hd.
    eapply (walk_classes inv (j0 :: t) (key_of inv j0) 0); eauto.
    + intros y [<-|Hy]; [apply si2_le_refl | auto].
    + split; auto.
Qed.
Section FillCount.
Variable old2new : list N.
Local Abbreviation slot := (slot_of old2new).

Lemma cnt_mono s k len : (cnt old2new s k <= cnt old2new s (k + len))%nat.
Proof.
  induction len as [|len IH]; [rewrite Nat.add_0_r; lia|].
  replace (k + S len)%nat with (S (k + len)) by lia. simpl. lia.
Qed.

Lemma fill_new2old_count (len : nat) : forall (k : nat) (T : list si2),
  (forall i, i < N.of_nat (k + len) -> exists e, vget T (slot i) = Some e) ->
  N.of_nat (k + len) <= NO_ID ->
  fill_inv old2new (N.of_nat k) T ->
  (forall s, filled (vget T s) = cnt old2new s k) ->
  match fill_new2old (map N.of_nat (seq k len)) old2new T with
  | None => exists s, (3 <= cnt old2new s (k + len))%nat
  | Some _ => forall s, (cnt old2new s (k + len) <= 2)%nat
  end.
Proof.
  induction len as [|len IH]; intros k T Hslot Hb Hinv Hcnt; simpl.
  - intros s. rewrite Nat.add_0_r, <- Hcnt.
    destruct (vget T s) as [[a b]|]; simpl; [|lia].
    destruct (a =? NO_ID), (b =? NO_ID); lia.
  - fold (slot (N.of_nat k)).
    destruct (Hslot (N.of_nat k)) as [[a b] Es]; [lia|]. rewrite Es.
    assert (Hk : N.of_nat k <> NO_ID) by lia.
    replace (k + S len)%nat with (S k + len)%nat in * by lia.
    destruct (Hinv _ _ _ Es) as [Ha Hb'].
    pose proof (Hcnt (slot (N.of_nat k))) as Hc0. rewrite Es in Hc0. simpl in Hc0.
    assert (Hget : forall e s, vget (vset T (slot (N.of_nat k)) e) s
                     = if s =? slot (N.of_nat k) then Some e else vget T s).
    { intros e s. destruct (N.eqb_spec s (slot (N.of_nat k))) as [->|Hne].
      - apply vget_vset_eq. eapply vget_Some_lt; eauto.
      - apply vget_vset_neq. congruence. }
    assert (Hslot' : forall e i, i < N.of_nat (S k + len) ->
              exists e', vget (vset T (slot (N.of_nat k)) e) (slot i) = Some e').
    { intros e i Hi. rewrite Hget. destruct (slot i =? slot (N.of_nat k)); eauto. }
    assert (Hinv' : forall x y,
              (x <> NO_ID -> slot x = slot (N.of_nat k) /\ x < N.of_nat (S k)) ->
              (y <> NO_ID -> slot y = slot (N.of_nat k) /\ y < N.of_nat (S k)
                             /\ x <> NO_ID /\ x <> y) ->
              fill_inv old2new (N.of_nat (S k)) (vset T (slot (N.of_nat k)) (x, y))).
    { intros x y Hx Hy s x' y' Hs. rewrite Hget in Hs.
      destruct (N.eqb_spec s (slot (N.of_nat k))) as [->|Hne].
      - inversion Hs; subst. split; assumption.
      - destruct (Hinv _ _ _ Hs) as [Hx' Hy']. split.
        + intros Hn. destruct (Hx' Hn). split; [auto | lia].
        + intros Hn. destruct (Hy' Hn) as (? & ? & ? & ?). repeat split; auto. lia. }
    destruct (N.eqb_spec a NO_ID) as [Ea|Ea].
    + apply IH; auto.
      * apply Hinv'.
        -- intros _. split; [reflexivity | lia].
        -- intros Hy. destruct (Hb' Hy) as (_ & _ & Hc & _). contradiction.
      * intros s. rewrite Hget. simpl cnt. rewrite (N.eqb_sym (slot (N.of_nat k)) s).
        destruct (N.eqb_spec s (slot (N.of_nat k))) as [->|Hne]; [|rewrite Hcnt; lia].
        simpl. destruct (N.eqb_spec (N.of_nat k) NO_ID); [contradiction|].
        destruct (N.eqb_spec b NO_ID) as [Eb|Eb]; [lia|].
        destruct (Hb' Eb) as (_ & _ & Hc & _). contradiction.
    + destruct (N.eqb_spec b NO_ID) as [Eb|Eb].
      * apply IH; auto.
        -- destruct (Ha Ea) as [Ha1 Ha2]. apply Hinv'.
           ++ intros _. split; [exact Ha1 | lia].
           ++ intros _. repeat split; auto; lia.
        -- intros s. rewrite Hget. simpl cnt. rewrite (N.eqb_sym (slot (N.of_nat k)) s).
           destruct (N.eqb_spec s (slot (N.of_nat k))) as [->|Hne]; [|rewrite Hcnt; lia].
           simpl. destruct (N.eqb_spec (N.of_nat k) NO_ID); [contradiction|].
           destruct (N.eqb_spec a NO_ID); [contradiction|]. lia.
      * exists (slot (N.of_nat k)).
        pose proof (cnt_mono (slot (N.of_nat k)) (S k) len) as Hm.
        assert (Hs1 : cnt old2new (slot (N.of_nat k)) (S k)
                      = (cnt old2new (slot (N.of_nat k)) k + 1)%nat)
          by (simpl; rewrite N.eqb_refl; reflexivity).
        lia.
Qed.

End FillCount.

Lemma count_si2_app e l1 l2 : count_si2 e (l1 ++ l2) = (count_si2 e l1 + count_si2 e l2)%nat.
Proof. induction l1 as [|x t IH]; simpl; [reflexivity|]. rewrite IH. lia. Qed.

Lemma count_si2_pos e l : (0 < count_si2 e l)%nat -> In e l.
Proof.
  induction l as [|x t IH]; simpl; [lia|].
  destruct (si2_eqb x e) eqn:E; [apply si2_eqb_eq in E; auto|]. auto.
Qed.

Lemma count_si2_map {A} (f : A -> si2) (e : si2) (l : list A) :
  count_si2 e (map f l) = length (List.filter (fun i => si2_eqb (f i) e) l).
Proof.
  induction l as [|i t IH]; simpl; [reflexivity|].
  destruct (si2_eqb (f i) e); simpl; now rewrite IH.
Qed.

Lemma cnt_pos old2new s k :
  (0 < cnt old2new s k)%nat -> exists i, i < N.of_nat k /\ slot_of old2new i = s.
Proof.
  induction k as [|k IH]; simpl; [lia|].
  destruct (N.eqb_spec (slot_of old2new (N.of_nat k)) s) as [E|E].
  - intros _. exists (N.of_nat k). split; [lia | exact E].
  - intros H. destruct IH as (i & Hi & Hs); [lia|]. exists i. split; [lia | exact Hs].
Qed.

Lemma cnt_filter old2new s k :
  cnt old2new s k = length (List.filter (fun i => slot_of old2new i =? s) (iota k)).
Proof.
  induction k as [|k IH]; [reflexivity|].
  unfold iota. rewrite seq_S, map_app, List.filter_app, length_app. simpl.
  fold (iota k). rewrite <- IH. destruct (slot_of old2new (N.of_nat k) =? s); reflexivity.
Qed.

Lemma filter_ext_in_length {A} (f g : A -> bool) (l : list A) :
  (forall x, In x l -> f x = g x) ->
  length (List.filter f l) = length (List.filter g l).
Proof. intros H. now rewrite (List.filter_ext_in f g l H). Qed.

(** The connectivity loop fails exactly when some vertex pair is carried by
    three half edges. *)
Lemma connectivity_fails (ks : list si2) :
  N.of_nat (length ks) <= NO_ID ->
  match fill_new2old (iota (length ks)) (snd (sort_unique_with_perm ks))
          (repeat (NO_ID, NO_ID) (length (fst (sort_unique_with_perm ks)))) with
  | None => exists e, (3 <= count_si2 e ks)%nat
  | Some _ => forall e, (count_si2 e ks <= 2)%nat
  end.
Proof.
  intros Hb. destruct (sort_unique_with_perm_classes ks) as [Hlt Hcls].
  set (o2n := snd (sort_unique_with_perm ks)) in *.
  set (u := fst (sort_unique_with_perm ks)) in *.
  assert (Hcount : forall i, i < vsize ks ->
            cnt o2n (slot_of o2n i) (length ks) = count_si2 (key_of ks i) ks).
  { intros i Hi. rewrite cnt_filter.
    rewrite <- (map_key_iota ks) at 3. rewrite count_si2_map.
    apply filter_ext_in_length. intros j Hj. apply iota_In in Hj.
    destruct (N.eqb_spec (slot_of o2n j) (slot_of o2n i)) as [E|E].
    - symmetry. apply si2_eqb_eq. apply Hcls; auto.
    - symmetry. apply si2_eqb_neq. intros E'. apply E. apply Hcls; auto. }
  pose proof (fill_new2old_count o2n (length ks) 0 (repeat (NO_ID, NO_ID) (length u))) as HF.
  simpl in HF. unfold iota.
  destruct (fill_new2old _ _ _).
  - intros e. destruct (count_si2 e ks) as [|c] eqn:Ec; [lia|].
    assert (Hin : In e ks) by (apply count_si2_pos; lia).
    rewrite <- (map_key_iota ks) in Hin. apply in_map_iff in Hin.
    destruct Hin as (i & <- & Hi). apply iota_In in Hi.
    rewrite <- Ec, <- Hcount by exact Hi. apply HF; auto.
    + intros j Hj. apply vget_lt. specialize (Hlt j Hj).
      unfold vsize in *. now rewrite repeat_length.
    + apply fill_inv_init.
    + intros s. destruct (vget _ s) as [[a b]|] eqn:E; simpl; [|reflexivity].
      apply vget_repeat in E. inversion E; subst. reflexivity.
  - destruct HF as [s Hs]; auto.
    + intros j Hj. apply vget_lt. specialize (Hlt j Hj).
      unfold vsize in *. now rewrite repeat_length.
    + apply fill_inv_init.
    + intros s. destruct (vget _ s) as [[a b]|] eqn:E; simpl; [|reflexivity].
      apply vget_repeat in E. inversion E; subst. reflexivity.
    + (* a class with three members belongs to some index *)
      assert (Hex : exists i, i < vsize ks /\ slot_of o2n i = s).
      { apply cnt_pos. lia. }
      destruct Hex as (i & Hi & <-). exists (key_of ks i). rewrite <- Hcount; auto.
Qed.

Lemma add_vertex_spec st v st' n :
  vmap_inv st -> vsize (fst st) < NO_ID ->
  add_vertex st v = (st', n) ->
  vmap_inv st'
  /\ snd st' !! v = Some n
  /\ (forall v0 n0, snd st !! v0 = Some n0 -> snd st' !! v0 = Some n0)
  /\ vsize (fst st) <= vsize (fst st') <= vsize (fst st) + 1.
Proof.
  destruct st as [vs mp]. unfold add_vertex. simpl. intros HI Hb.
  destruct (mp !! v) as [nv|] eqn:E; simpl.
  - destruct (HI v nv E) as (x & Ex & _). apply vget_Some_lt in Ex. simpl in Ex.
    destruct (N.eqb_spec nv NO_ID); [lia|].
    intros H; inversion H; subst. simpl. repeat split; auto; lia.
  - rewrite ?N.eqb_refl. intros H; inversion H; subst; clear H. simpl.
    repeat split.
    + intros v0 n0 H0. simpl in H0.
      destruct (decide (v = v0)) as [->|Hne].
      * rewrite lookup_insert_eq in H0. inversion H0; subst.
        exists (mkVertex NO_ID false v0). split; [|reflexivity].
        simpl. apply vget_block0.
      * rewrite lookup_insert_ne in H0 by exact Hne.
        destruct (HI v0 n0 H0) as (x & Ex & Px). exists x. split; [|exact Px].
        simpl in *. rewrite vget_app_l; [exact Ex | eapply vget_Some_lt; eauto].
    + apply lookup_insert_eq.
    + intros v0 n0 H0. destruct (decide (v = v0)) as [->|Hne]; [congruence|].
      now rewrite lookup_insert_ne.
    + rewrite vsize_app. lia.
    + rewrite vsize_app. unfold vsize; simpl; lia.
Qed.

Lemma set_vertex_he_get vs v he n x :
  vget vs n = Some x ->
  exists x', vget (set_vertex_he vs v he) n = Some x' /\ v_ptr x' = v_ptr x.
Proof.
  intros H. unfold set_vertex_he. destruct (vget vs v) as [y|] eqn:Ey; [|eauto].
  destruct (v_he y =? NO_ID); [|eauto].
  destruct (N.eq_dec v n) as [->|Hne].
  - rewrite vget_vset_eq by (eapply vget_Some_lt; eauto).
    rewrite Ey in H. inversion H; subst. eexists; split; reflexivity.
  - rewrite vget_vset_neq by exact Hne. eauto.
Qed.

Lemma set_vertex_he_size vs v he : vsize (set_vertex_he vs v he) = vsize vs.
Proof.
  unfold set_vertex_he. destruct (vget vs v) as [y|]; [|reflexivity].
  destruct (v_he y =? NO_ID); [apply vsize_vset | reflexivity].
Qed.

Lemma vmap_inv_set_he vs mp v he :
  vmap_inv (vs, mp) -> vmap_inv (set_vertex_he vs v he, mp).
Proof.
  intros HI v0 n0 H0. destruct (HI v0 n0 H0) as (x & Ex & Px). simpl in *.
  destruct (set_vertex_he_get vs v he n0 x Ex) as (x' & Ex' & Px').
  exists x'. split; [exact Ex' | congruence].
Qed.

Lemma vPair_of_app hs blk i :
  np_consistent hs -> i < vsize hs -> vPair_of (hs ++ blk) i = vPair_of hs i.
Proof.
  intros Hnp Hi. destruct (vget_lt hs i Hi) as [h Eh].
  destruct (Hnp i h Eh) as [_ (hp & Ep & _)].
  unfold vPair_of, hedge_at. rewrite (vget_app_l hs blk i Hi), Eh. simpl.
  rewrite (vget_app_l hs blk (prev h)) by (eapply vget_Some_lt; eauto).
  reflexivity.
Qed.

Lemma hedge_at_block hs a b c d k :
  k < 4 ->
  hedge_at (hs ++ [a; b; c; d]) (vsize hs + k)
  = (if k =? 0 then a else if k =? 1 then b else if k =? 2 then c else d).
Proof. intros Hk. unfold hedge_at. now rewrite vget_block. Qed.

Lemma vPair_of_block hs f t0 t1 t2 t3 :
  vsize hs + 4 < SIZE_MOD ->
  map (vPair_of (hs ++ [new_hedge (vsize hs) f 0 t1; new_hedge (vsize hs) f 1 t2;
                        new_hedge (vsize hs) f 2 t3; new_hedge (vsize hs) f 3 t0]))
      [vsize hs + 0; vsize hs + 1; vsize hs + 2; vsize hs + 3]
  = [sort2 (t0, t1); sort2 (t1, t2); sort2 (t2, t3); sort2 (t3, t0)].
Proof.
  intros Hb. unfold vPair_of. simpl map.
  rewrite !hedge_at_block by lia. simpl.
  unfold new_hedge at 1 3 5 7. simpl prev. rewrite !wrap_small by lia.
  replace (vsize hs + 1 - 1) with (vsize hs + 0) by lia.
  replace (vsize hs + 2 - 1) with (vsize hs + 1) by lia.
  replace (vsize hs + 3 - 1) with (vsize hs + 2) by lia.
  rewrite !hedge_at_block by lia. simpl. reflexivity.
Qed.

Lemma map_of_nat_seq (a m : nat) :
  map N.of_nat (seq a m) = map (fun k => N.of_nat a + N.of_nat k) (seq 0 m).
Proof.
  induction m as [|m IH]; [reflexivity|].
  rewrite !seq_S, !map_app, IH. simpl. f_equal. f_equal. lia.
Qed.

Lemma iota_app (n m : nat) :
  iota (n + m) = iota n ++ map (fun k => N.of_nat n + N.of_nat k) (seq 0 m).
Proof.
  unfold iota. rewrite seq_app, map_app. f_equal. apply map_of_nat_seq.
Qed.

Lemma ren_ext mp mp' p :
  is_Some (mp !! fst p) -> is_Some (mp !! snd p) ->
  (forall v n, mp !! v = Some n -> mp' !! v = Some n) ->
  ren mp' p = ren mp p.
Proof.
  intros [a Ha] [b Hb] H. unfold ren, idm.
  rewrite (H _ _ Ha), (H _ _ Hb), Ha, Hb. reflexivity.
Qed.

Lemma add_quad_inv b done q :
  build_inv b done -> vsize (b_hedges b) + 4 < NO_ID ->
  build_inv (add_quad b q) (done ++ [q]).
Proof.
  intros [Hptr Hsize Hdom Hpairs Hnp Hlen] Hb.
  assert (HSM : NO_ID < SIZE_MOD) by (unfold NO_ID, SIZE_MOD; simpl; lia).
  unfold add_quad.
  destruct (add_vertex (b_vertices b, b_mv2new b) (getVertex q 0)) as [st1 n0] eqn:E0.
  destruct (add_vertex st1 (getVertex q 1)) as [st2 n1] eqn:E1.
  destruct (add_vertex st2 (getVertex q 2)) as [st3 n2] eqn:E2.
  destruct (add_vertex st3 (getVertex q 3)) as [[vs4 mp4] n3] eqn:E3.
  apply add_vertex_spec in E0; [|exact Hptr | simpl; lia].
  destruct E0 as (I1 & G0 & M1 & S1). simpl in S1.
  apply add_vertex_spec in E1; [|exact I1 | lia].
  destruct E1 as (I2 & G1 & M2 & S2).
  apply add_vertex_spec in E2; [|exact I2 | lia].
  destruct E2 as (I3 & G2 & M3 & S3).
  apply add_vertex_spec in E3; [|exact I3 | lia].
  destruct E3 as (I4 & G3 & M4 & S4). simpl in G3, M4, S4.
  assert (Hmono : forall v n, b_mv2new b !! v = Some n -> mp4 !! v = Some n).
  { intros v n H. apply M4, M3, M2, M1. exact H. }
  assert (F0 : mp4 !! q_v0 q = Some n0) by (apply M4, M3, M2; exact G0).
  assert (F1 : mp4 !! q_v1 q = Some n1) by (apply M4, M3; exact G1).
  assert (F2 : mp4 !! q_v2 q = Some n2) by (apply M4; exact G2).
  assert (F3 : mp4 !! q_v3 q = Some n3) by exact G3.
  set (he0 := vsize (b_hedges b)) in *.
  set (blk := [new_hedge he0 (vsize (b_faces b)) 0 n1; new_hedge he0 (vsize (b_faces b)) 1 n2;
               new_hedge he0 (vsize (b_faces b)) 2 n3; new_hedge he0 (vsize (b_faces b)) 3 n0]).
  constructor; simpl.
  - repeat apply vmap_inv_set_he. exact I4.
  - rewrite !set_vertex_he_size, vsize_app. change (vsize blk) with 4. lia.
  - intros p Hp. rewrite flat_map_app in Hp. apply in_app_or in Hp.
    destruct Hp as [Hp|Hp].
    + destruct (Hdom p Hp) as [[a Ha] [c Hc]]. split; eexists; apply Hmono; eauto.
    + simpl in Hp. destruct Hp as [<-|[<-|[<-|[<-|[]]]]]; simpl; split; eauto.
  - rewrite length_app. change (length blk) with 4%nat.
    rewrite iota_app, map_app, flat_map_app, map_app.
    apply (f_equal2 (@app si2)).
    + transitivity (map (ren (b_mv2new b)) (flat_map sides_of done)).
      * rewrite <- Hpairs. apply map_ext_in. intros i Hi. apply iota_In in Hi.
        apply vPair_of_app; [exact Hnp | exact Hi].
      * apply map_ext_in. intros p Hp. symmetry.
        destruct (Hdom p Hp). apply ren_ext; auto.
    + simpl seq. simpl map at 1. fold he0.
      change (N.of_nat (length (b_hedges b))) with he0.
      change (N.of_nat 0) with 0. change (N.of_nat 1) with 1.
      change (N.of_nat 2) with 2. change (N.of_nat 3) with 3.
      unfold blk, he0.
      pose proof (vPair_of_block (b_hedges b) (vsize (b_faces b)) n0 n1 n2 n3) as HB.
      simpl map in HB. rewrite HB by (fold he0; lia).
      simpl. unfold ren, idm. simpl.
      now rewrite F0, F1, F2, F3.
  - unfold blk, he0. apply np_consistent_block; [fold he0; lia | exact Hnp].
  - rewrite vsize_app, length_app. change (vsize blk) with 4. simpl length. lia.
Qed.

Lemma build_inv_fold (qs : list MQuadrangle) : forall b done,
  build_inv b done ->
  vsize (b_hedges b) + 4 * N.of_nat (length qs) < NO_ID ->
  build_inv (foldl add_quad b qs) (done ++ qs).
Proof.
  induction qs as [|q t IH]; intros b done Hb Hsz; simpl.
  - now rewrite app_nil_r.
  - replace (done ++ q :: t) with ((done ++ [q]) ++ t) by now rewrite <- app_assoc.
    simpl length in Hsz.
    assert (Hq : build_inv (add_quad b q) (done ++ [q])) by (apply add_quad_inv; [exact Hb | lia]).
    apply IH; [exact Hq|].
    rewrite (bi_len _ _ Hq), length_app. rewrite (bi_len _ _ Hb) in Hsz. simpl length. lia.
Qed.

Lemma build_inv_init : build_inv (mkBuilder [] [] [] ∅) [].
Proof.
  constructor; simpl.
  - intros v n H. rewrite lookup_empty in H. discriminate.
  - unfold vsize; simpl; lia.
  - intros p [].
  - reflexivity.
  - intros i h H. discriminate.
  - reflexivity.
Qed.

Lemma sort2_eq (x y x' y' : N) :
  sort2 (x, y) = sort2 (x', y') <-> (x = x' /\ y = y') \/ (x = y' /\ y = x').
Proof.
  unfold sort2. simpl.
  destruct (N.ltb_spec y x) as [L1|L1], (N.ltb_spec y' x') as [L2|L2];
    split; intros HH;
    try (inversion HH; subst; lia);
    try (destruct HH as [[-> ->]|[-> ->]]; first [reflexivity | lia | f_equal; lia]).
Qed.

Lemma flat_map_quad_edges qs :
  flat_map quad_edges qs = map sort2 (flat_map sides_of qs).
Proof.
  induction qs as [|q t IH]; [reflexivity|].
  simpl. now rewrite IH.
Qed.

Section Rename.
Variable b : builder.
Variable quadrangles : list MQuadrangle.
Hypothesis HB : build_inv b quadrangles.

Lemma idm_inj v w :
  is_Some (b_mv2new b !! v) -> is_Some (b_mv2new b !! w) ->
  idm (b_mv2new b) v = idm (b_mv2new b) w -> v = w.
Proof.
  intros [n Hn] [m Hm]. unfold idm. rewrite Hn, Hm. simpl. intros ->.
  destruct (bi_ptr _ _ HB v m Hn) as (x & Ex & Px).
  destruct (bi_ptr _ _ HB w m Hm) as (y & Ey & Py). congruence.
Qed.

Lemma ren_eq p p' :
  In p (flat_map sides_of quadrangles) -> In p' (flat_map sides_of quadrangles) ->
  (ren (b_mv2new b) p = ren (b_mv2new b) p' <-> sort2 p = sort2 p').
Proof.
  intros Hp Hp'. destruct (bi_dom _ _ HB p Hp) as [D1 D2].
  destruct (bi_dom _ _ HB p' Hp') as [D1' D2'].
  destruct p as [x y], p' as [x' y']. unfold ren. simpl in *.
  rewrite !sort2_eq. split.
  - intros [[H1 H2]|[H1 H2]]; [left | right]; split; apply idm_inj; auto.
  - intros [[-> ->]|[-> ->]]; auto.
Qed.

Lemma count_ren p :
  In p (flat_map sides_of quadrangles) ->
  count_si2 (ren (b_mv2new b) p) (map (ren (b_mv2new b)) (flat_map sides_of quadrangles))
  = sides_on (sort2 p) quadrangles.
Proof.
  intros Hp. unfold sides_on. rewrite flat_map_quad_edges, !count_si2_map.
  apply filter_ext_in_length. intros x Hx.
  destruct (si2_eqb (sort2 x) (sort2 p)) eqn:E.
  - apply si2_eqb_eq. apply ren_eq; auto. now apply si2_eqb_eq.
  - apply si2_eqb_neq. intros H. apply si2_eqb_neq in E. apply E. now apply ren_eq.
Qed.

End Rename.

Lemma quads_on_le_sides_on e qs : (quads_on e qs <= sides_on e qs)%nat.
Proof.
  unfold quads_on, sides_on. induction qs as [|q t IH]; [simpl; lia|].
  change (flat_map quad_edges (q :: t)) with (quad_edges q ++ flat_map quad_edges t).
  rewrite count_si2_app. cbn [List.filter].
  destruct (existsb (fun x => si2_eqb x e) (quad_edges q)) eqn:E; cbn [length]; [|lia].
  assert (0 < count_si2 e (quad_edges q))%nat; [|lia].
  apply existsb_exists in E. destruct E as (x & Hx & Ex).
  clear -Hx Ex. induction (quad_edges q) as [|y l IHl]; [contradiction|].
  simpl. destruct Hx as [->|Hx]; [rewrite Ex; lia|]. specialize (IHl Hx). lia.
Qed.

Lemma count_si2_NoDup e l :
  List.NoDup l -> count_si2 e l = if existsb (fun x => si2_eqb x e) l then 1%nat else 0%nat.
Proof.
  induction 1 as [|x t Hx Ht IH]; [reflexivity|].
  cbn [count_si2 existsb]. destruct (si2_eqb x e) eqn:E; cbn [orb]; [|rewrite IH; reflexivity].
  apply si2_eqb_eq in E. subst x.
  destruct (existsb (fun x => si2_eqb x e) t) eqn:Et; [|rewrite IH; reflexivity].
  exfalso. apply existsb_exists in Et. destruct Et as (y & Hy & Ey).
  apply si2_eqb_eq in Ey. subst y. contradiction.
Qed.

(** For quads that do not run twice along an edge, the sides on an edge are
    as many as the quads that share it. *)
Lemma sides_on_quads_on e qs :
  List.Forall (fun q => List.NoDup (quad_edges q)) qs -> sides_on e qs = quads_on e qs.
Proof.
  unfold quads_on, sides_on. induction 1 as [|q t Hq Ht IH]; [reflexivity|].
  change (flat_map quad_edges (q :: t)) with (quad_edges q ++ flat_map quad_edges t).
  rewrite count_si2_app, IH, (count_si2_NoDup e _ Hq). cbn [List.filter].
  destruct (existsb (fun x => si2_eqb x e) (quad_edges q)); reflexivity.
Qed.

(** C6. [createMeshHalfEdges] returns -1 when some edge carries more than two
    quad sides, in particular when it is shared by more than two quads, and
    returns 0 when every edge carries at most two quad sides, in particular
    when no quad runs twice along an edge and every edge is shared by at most
    two quads (the number of half edges being one that [size_t] can hold). *)
Theorem createMeshHalfEdges_manifold_edges
    (quadrangles : list MQuadrangle) (singularVertices : list N) :
  4 * N.of_nat (length quadrangles) < NO_ID ->
  ((exists e, (3 <= sides_on e quadrangles)%nat) ->
     fst (createMeshHalfEdges quadrangles singularVertices) = (-1)%Z)
  /\ ((forall e, (sides_on e quadrangles <= 2)%nat) ->
        fst (createMeshHalfEdges quadrangles singularVertices) = 0%Z)
  /\ ((exists e, (3 <= quads_on e quadrangles)%nat) ->
        fst (createMeshHalfEdges quadrangles singularVertices) = (-1)%Z)
  /\ (List.Forall (fun q => List.NoDup (quad_edges q)) quadrangles ->
      (forall e, (quads_on e quadrangles <= 2)%nat) ->
        fst (createMeshHalfEdges quadrangles singularVertices) = 0%Z).
Proof.
  intros Hsz.
  assert (HB : build_inv (foldl add_quad (mkBuilder [] [] [] ∅) quadrangles) quadrangles).
  { apply (build_inv_fold quadrangles _ [] build_inv_init). simpl.
    change (vsize (@nil HalfEdge)) with 0. lia. }
  set (b := foldl add_quad (mkBuilder [] [] [] ∅) quadrangles) in *.
  pose proof (bi_pairs _ _ HB) as Hpairs.
  pose proof (bi_len _ _ HB) as Hlen.
  assert (Hfirst : (exists e, (3 <= sides_on e quadrangles)%nat) ->
                   fst (createMeshHalfEdges quadrangles singularVertices) = (-1)%Z).
  { intros [e He]. unfold createMeshHalfEdges. fold b.
    pose proof (connectivity_fails (map (vPair_of (b_hedges b)) (iota (length (b_hedges b))))) as HC.
    rewrite length_map, iota_length in HC.
    destruct (sort_unique_with_perm _) as [uniques old2new]. simpl in HC.
    destruct (fill_new2old _ _ _); [|reflexivity]. exfalso.
    assert (Hin : In e (flat_map quad_edges quadrangles)) by (apply count_si2_pos; unfold sides_on in He; lia).
    rewrite flat_map_quad_edges in Hin. apply in_map_iff in Hin.
    destruct Hin as (p & <- & Hp).
    rewrite <- (count_ren b quadrangles HB p Hp), <- Hpairs in He.
    specialize (HC ltac:(unfold vsize in Hlen; lia) (ren (b_mv2new b) p)). lia. }
  assert (Hzero : (forall e, (sides_on e quadrangles <= 2)%nat) ->
                  fst (createMeshHalfEdges quadrangles singularVertices) = 0%Z).
  { intros Hall. unfold createMeshHalfEdges. fold b.
    pose proof (connectivity_fails (map (vPair_of (b_hedges b)) (iota (length (b_hedges b))))) as HC.
    rewrite length_map, iota_length in HC.
    destruct (sort_unique_with_perm _) as [uniques old2new]. simpl in HC.
    destruct (fill_new2old _ _ _); [reflexivity|]. exfalso.
    destruct HC as [e He]; [unfold vsize in Hlen; lia|].
    assert (Hin : In e (map (vPair_of (b_hedges b)) (iota (length (b_hedges b)))))
      by (apply count_si2_pos; lia).
    rewrite Hpairs in Hin, He. apply in_map_iff in Hin. destruct Hin as (p & <- & Hp).
    rewrite (count_ren b quadrangles HB p Hp) in He.
    specialize (Hall (sort2 p)). lia. }
  split; [exact Hfirst|]. split; [exact Hzero|]. split.
  - intros [e He]. apply Hfirst. exists e.
    pose proof (quads_on_le_sides_on e quadrangles). lia.
  - intros Hnd Hall. apply Hzero. intros e.
    rewrite (sides_on_quads_on e quadrangles Hnd). apply Hall.
Qed.

Lemma createMeshHalfEdges_manifold_edges_witness :
  (4 * N.of_nat (length (fan 3)) < NO_ID
   /\ 4 * N.of_nat (length (grid 2 2)) < NO_ID
   /\ (3 <= quads_on (0%N, 3%N) (fan 3 ++ [mkQuad 9 0 3 8 9]%N))%nat)
  /\ fst (createMeshHalfEdges (fan 3 ++ [mkQuad 9 0 3 8 9]) []) = (-1)%Z
  /\ forall e, (3 <= sides_on e (grid 2 2))%nat -> False.
Proof.
  assert (H1 : 4 * N.of_nat (length (fan 3 ++ [mkQuad 9 0 3 8 9])) < NO_ID)
    by (vm_compute; reflexivity).
  assert (H2 : 4 * N.of_nat (length (grid 2 2)) < NO_ID) by (vm_compute; reflexivity).
  assert (H3 : (3 <= quads_on (0%N, 3%N) (fan 3 ++ [mkQuad 9 0 3 8 9]%N))%nat)
    by (vm_compute; lia).
  split; [split; [vm_compute; reflexivity | split; assumption]|].
  destruct (createMeshHalfEdges_manifold_edges _ [] H1) as (_ & _ & A & _).
  destruct (createMeshHalfEdges_manifold_edges (grid 2 2) [] H2) as (B & _ & _ & _).
  split; [apply A; exists (0, 3); exact H3|].
  intros e He. assert (Hf : fst (createMeshHalfEdges (grid 2 2) []) = (-1)%Z)
    by (apply B; exists e; exact He).
  vm_compute in Hf. discriminate.
Defined.

(** A single quad (0,1,0,1) has no edge shared by more than two quads, and
    [createMeshHalfEdges] fails on it: the edge {0,1} carries its four sides. *)
Lemma createMeshHalfEdges_folded_quad :
  (forall e, (quads_on e folded_quad <= 2)%nat)
  /\ sides_on (0, 1) folded_quad = 4%nat
  /\ fst (createMeshHalfEdges folded_quad []) = (-1)%Z.
Proof.
  split; [|split; vm_compute; reflexivity].
  intros e. unfold quads_on, folded_quad. simpl.
  destruct (_ || _); simpl; lia.
Qed.

(** ** remeshSmallDefects: energy of accepted replacements *)

(** C3. In [remeshSmallDefects], with the replacement [r] returned by
    [remeshFewQuads] (which does not touch the surface mesh): a replacement
    that is not a duet and whose cavity irregularity energy is greater than or
    equal to the energy before is discarded, and the quad list, the vertex list
    and the adjacency map stay as they were; a duet is accepted whatever the
    energies; an accepted replacement that is not a duet has a strictly smaller
    energy; and every discarded attempt leaves the surface mesh unchanged. *)
Theorem remesh_attempt_energy
    (onFace : N -> bool) (s : surface_mesh) (vs : Z) (bnd : list N)
    (bndIdealValence : list Z) (bndAllowedValenceRange : list (Z * Z))
    (inside : list N) (quads : list MQuadrangle) (r : remesh_result) :
  let energy_before :=
    irregularityEnergyOfCavity bnd bndIdealValence bndAllowedValenceRange inside quads in
  let energy_after :=
    irregularityEnergyOfCavity bnd bndIdealValence bndAllowedValenceRange
      (rr_newVertices r) (rr_newElements r) in
  let res := remesh_attempt onFace s vs bnd bndIdealValence bndAllowedValenceRange
               inside quads r in
  (rr_status r = 0%Z -> is_duet vs bnd quads r = false ->
     (energy_before <= energy_after)%Z -> res = (false, s))
  /\ (rr_status r = 0%Z -> is_duet vs bnd quads r = true -> fst res = true)
  /\ (fst res = true -> is_duet vs bnd quads r = false ->
        (energy_after < energy_before)%Z)
  /\ (fst res = false -> snd res = s).
Proof.
  cbv zeta. unfold remesh_attempt.
  destruct (Z.eqb_spec (rr_status r) 0) as [E|E];
    [|split; [contradiction|split; [contradiction|split; [discriminate|reflexivity]]]].
  destruct (is_duet vs bnd quads r); cbn [negb andb].
  { split; [discriminate|split; [reflexivity|split; [discriminate|discriminate]]]. }
  destruct (Z.leb_spec
              (irregularityEnergyOfCavity bnd bndIdealValence bndAllowedValenceRange
                 inside quads)
              (irregularityEnergyOfCavity bnd bndIdealValence bndAllowedValenceRange
                 (rr_newVertices r) (rr_newElements r))) as [L|L]; cbn [fst snd].
  - split; [reflexivity|split; [discriminate|split; [discriminate|reflexivity]]].
  - split; [lia|split; [discriminate|split; [intros _ _; exact L|discriminate]]].
Qed.

Lemma remesh_attempt_energy_witness :
  hex_attempt [1; 2; 1; 2; 1; 2]%Z = (false, hex_surface)
  /\ (fst (hex_attempt [2; 1; 1; 2; 1; 1]%Z) = true
      /\ map q_ptr (gf_quadrangles (snd (hex_attempt [2; 1; 1; 2; 1; 1]%Z))) = [103; 104]
      /\ (irregularityEnergyOfCavity hex_bnd [2; 1; 1; 2; 1; 1] hex_range
            (rr_newVertices hex_replacement) (rr_newElements hex_replacement)
          < irregularityEnergyOfCavity hex_bnd [2; 1; 1; 2; 1; 1] hex_range
              hex_inside hex_quads)%Z).
Proof.
  split.
  - apply (remesh_attempt_energy (fun _ => true) hex_surface SURFACE hex_bnd
             [1; 2; 1; 2; 1; 2]%Z hex_range hex_inside hex_quads hex_replacement);
      [reflexivity | reflexivity | vm_compute; discriminate].
  - assert (A : fst (hex_attempt [2; 1; 1; 2; 1; 1]%Z) = true) by (vm_compute; reflexivity).
    split; [exact A|]. split; [vm_compute; reflexivity|].
    apply (remesh_attempt_energy (fun _ => true) hex_surface SURFACE hex_bnd
             [2; 1; 1; 2; 1; 1]%Z hex_range hex_inside hex_quads hex_replacement);
      [exact A | reflexivity].
Defined.

(** ** smoothElementsWithLocalKernel: locking and stopping *)

Section SmoothingFacts.
Variable D : Type.
Variable D0 : D.
Variables Dadd Dmul Dmax : D -> D -> D.
Variable Dlt : D -> D -> bool.
Variable P : Type.
Variable dist : P -> P -> D.
Variable kernel : bool -> N -> list P -> Z * P.
Variable n : nat.
Variable projOnStencil : bool.
Variable iterMaxOuterLoop : N.
Variables global_dx_reduction local_dx_reduction : D.
Variable localAvgSize : list D.

Local Abbreviation iter_t := (smooth_iter D P).
Local Abbreviation vertex_step usp :=
  (smooth_vertex D Dadd Dmul Dmax Dlt P dist kernel usp local_dx_reduction localAvgSize).
Local Abbreviation pass usp :=
  (smooth_pass D D0 Dadd Dmul Dmax Dlt P dist kernel n usp local_dx_reduction localAvgSize).
Local Abbreviation loop todo :=
  (smooth_loop D D0 Dadd Dmul Dmax Dlt P dist kernel todo n projOnStencil
     iterMaxOuterLoop global_dx_reduction local_dx_reduction localAvgSize).

Lemma kernelSmoothing_other (usp : bool) (i v : N) (ps : list P) :
  i <> v -> vget (snd (kernelSmoothing P kernel usp i ps)) v = vget ps v.
Proof.
  intros Hiv. unfold kernelSmoothing.
  destruct (kernel usp i ps) as [status newPos].
  destruct (status =? KS_OK)%Z; cbn [snd]; [apply vget_vset_neq; exact Hiv|reflexivity].
Qed.

Lemma smooth_vertex_frozen (usp : bool) (st : iter_t) (i : N) :
  frozen_from (it_running D P st) (it_points D P st) (vertex_step usp st i).
Proof.
  intros v Hv. unfold smooth_vertex.
  destruct (vget (it_running D P st) i) as [[|]|] eqn:Ri; [|auto|auto].
  destruct (vget (it_points D P st) i) as [center|]; [|auto].
  destruct (vget localAvgSize i) as [avg|]; [|auto].
  assert (Hiv : i <> v) by (intros ->; congruence).
  pose proof (kernelSmoothing_other usp i v (it_points D P st) Hiv) as Hk.
  destruct (kernelSmoothing P kernel usp i (it_points D P st)) as [status points].
  cbn [snd] in Hk.
  destruct (status =? KS_OK)%Z.
  - destruct (vget points i) as [p|]; [|auto].
    destruct (Dlt (dist center p) (Dmul local_dx_reduction avg)); cbn.
    + rewrite vget_vset_neq by exact Hiv. auto.
    + auto.
  - cbn. rewrite vget_vset_neq by exact Hiv. auto.
Qed.

Lemma frozen_from_trans (rs : list bool) (ps : list P) (st st' : iter_t) :
  frozen_from rs ps st ->
  frozen_from (it_running D P st) (it_points D P st) st' ->
  frozen_from rs ps st'.
Proof.
  intros H1 H2 v Hv. destruct (H1 v Hv) as [A B].
  destruct (H2 v A) as [A' B']. split; [exact A'|congruence].
Qed.

Lemma frozen_from_refl (st : iter_t) :
  frozen_from (it_running D P st) (it_points D P st) st.
Proof. intros v Hv. auto. Qed.

Lemma foldl_vertex_frozen (usp : bool) (l : list N) (st : iter_t) :
  frozen_from (it_running D P st) (it_points D P st) (foldl (vertex_step usp) st l).
Proof.
  revert st. induction l as [|i t IH]; intros st; [apply frozen_from_refl|].
  cbn [foldl]. eapply frozen_from_trans; [apply smooth_vertex_frozen|apply IH].
Qed.

Lemma smooth_pass_frozen (usp : bool) (rs : list bool) (ps : list P) :
  frozen_from rs ps (pass usp rs ps).
Proof. unfold smooth_pass. apply (foldl_vertex_frozen usp (iota n) (mkIter D P rs ps D0 D0 0)). Qed.

Lemma smooth_loop_frozen (todo : nat) (iter : N) (sum_dx0 : D) (rs : list bool)
    (ps : list P) (k : nat) (st : iter_t) :
  loop todo iter sum_dx0 rs ps !! k = Some st -> frozen_from rs ps st.
Proof.
  revert iter sum_dx0 rs ps k.
  induction todo as [|t IH]; intros iter sum_dx0 rs ps k H; [discriminate|].
  cbn [smooth_loop] in H. cbv zeta in H.
  set (usp := projOnStencil && (iter <? wrap (iterMaxOuterLoop + (SIZE_MOD - 1)))) in H.
  pose proof (smooth_pass_frozen usp rs ps) as Hp.
  set (s0 := pass usp rs ps) in *.
  assert (Hone : [s0] !! k = Some st -> frozen_from rs ps st).
  { destruct k as [|k']; [intros [= <-]; exact Hp|destruct k'; discriminate]. }
  assert (Hcons : forall sum1,
             (s0 :: loop t (iter + 1) sum1 (it_running D P s0) (it_points D P s0)) !! k
               = Some st -> frozen_from rs ps st).
  { intros sum1 A. destruct k as [|k']; [injection A as <-; exact Hp|].
    cbn in A. eapply frozen_from_trans; [exact Hp|eapply IH; exact A]. }
  destruct (iter =? 0); [eapply Hcons; exact H|].
  destruct (Dlt (it_sum_dx D P s0) (Dmul global_dx_reduction sum_dx0)); [auto|].
  destruct (it_count D P s0 =? 0); [auto|]. eapply Hcons; exact H.
Qed.

Lemma smooth_loop_later (todo : nat) (iter : N) (sum_dx0 : D) (rs : list bool)
    (ps : list P) (k m : nat) (st st' : iter_t) :
  loop todo iter sum_dx0 rs ps !! k = Some st ->
  loop todo iter sum_dx0 rs ps !! m = Some st' ->
  (k <= m)%nat ->
  frozen_from (it_running D P st) (it_points D P st) st'.
Proof.
  revert iter sum_dx0 rs ps k m.
  induction todo as [|t IH]; intros iter sum_dx0 rs ps k m Hk Hm Hkm; [discriminate|].
  cbn [smooth_loop] in Hk, Hm. cbv zeta in Hk, Hm.
  set (usp := projOnStencil && (iter <? wrap (iterMaxOuterLoop + (SIZE_MOD - 1)))) in *.
  set (s0 := pass usp rs ps) in *.
  assert (Hcons : forall sum1,
             (s0 :: loop t (iter + 1) sum1 (it_running D P s0) (it_points D P s0)) !! k
               = Some st ->
             (s0 :: loop t (iter + 1) sum1 (it_running D P s0) (it_points D P s0)) !! m
               = Some st' ->
             frozen_from (it_running D P st) (it_points D P st) st').
  { intros sum1 Ak Am. destruct k as [|k'].
    - injection Ak as <-. destruct m as [|m']; [injection Am as <-; apply frozen_from_refl|].
      cbn in Am. eapply smooth_loop_frozen. exact Am.
    - destruct m as [|m']; [lia|]. cbn in Ak, Am. eapply IH; [exact Ak|exact Am|lia]. }
  assert (Hone : [s0] !! k = Some st -> [s0] !! m = Some st' ->
                 frozen_from (it_running D P st) (it_points D P st) st').
  { intros Ak Am. destruct k as [|k']; [|destruct k'; discriminate].
    destruct m as [|m']; [|destruct m'; discriminate].
    injection Ak as <-. injection Am as <-. apply frozen_from_refl. }
  destruct (iter =? 0); [eapply Hcons; eassumption|].
  destruct (Dlt (it_sum_dx D P s0) (Dmul global_dx_reduction sum_dx0)); [auto|].
  destruct (it_count D P s0 =? 0); [auto|]. eapply Hcons; eassumption.
Qed.

Lemma smooth_loop_length (todo : nat) (iter : N) (sum_dx0 : D) (rs : list bool)
    (ps : list P) :
  (length (loop todo iter sum_dx0 rs ps) <= todo)%nat.
Proof.
  revert iter sum_dx0 rs ps. induction todo as [|t IH]; intros iter sum_dx0 rs ps;
    [apply Nat.le_refl|].
  cbn [smooth_loop]. cbv zeta.
  set (s0 := pass _ rs ps).
  pose proof (IH (iter + 1) (it_sum_dx D P s0) (it_running D P s0) (it_points D P s0)).
  pose proof (IH (iter + 1) sum_dx0 (it_running D P s0) (it_points D P s0)).
  destruct (iter =? 0); [cbn [length]; lia|].
  destruct (Dlt _ _); [cbn [length]; lia|].
  destruct (_ =? 0); cbn [length]; lia.
Qed.

(** After the first iteration, a pass below the global threshold, or one
    that leaves every vertex locked, is the last one. *)
Lemma smooth_loop_stops (todo : nat) (iter : N) (sum_dx0 : D) (rs : list bool)
    (ps : list P) (k : nat) (st : iter_t) :
  iter <> 0 ->
  loop todo iter sum_dx0 rs ps !! k = Some st ->
  Dlt (it_sum_dx D P st) (Dmul global_dx_reduction sum_dx0) = true
    \/ it_count D P st = 0 ->
  length (loop todo iter sum_dx0 rs ps) = S k.
Proof.
  revert iter sum_dx0 rs ps k.
  induction todo as [|t IH]; intros iter sum_dx0 rs ps k Hi Hk Hs; [discriminate|].
  cbn [smooth_loop] in *. cbv zeta in *.
  set (s0 := pass _ rs ps) in *.
  destruct (N.eqb_spec iter 0) as [|_]; [contradiction|].
  destruct (Dlt (it_sum_dx D P s0) (Dmul global_dx_reduction sum_dx0)) eqn:E1.
  { destruct k as [|k']; [reflexivity|destruct k'; discriminate]. }
  destruct (N.eqb_spec (it_count D P s0) 0) as [E2|E2].
  { destruct k as [|k']; [reflexivity|destruct k'; discriminate]. }
  destruct k as [|k'].
  - injection Hk as <-. destruct Hs; congruence.
  - cbn in Hk. cbn [length]. f_equal. apply IH; [lia|exact Hk|exact Hs].
Qed.

(** A loop that ends before its iteration bound ended on one of the two
    tests. *)
Lemma smooth_loop_early (todo : nat) (iter : N) (sum_dx0 : D) (rs : list bool)
    (ps : list P) :
  iter <> 0 ->
  (length (loop todo iter sum_dx0 rs ps) < todo)%nat ->
  exists st, last (loop todo iter sum_dx0 rs ps) = Some st
    /\ (Dlt (it_sum_dx D P st) (Dmul global_dx_reduction sum_dx0) = true
        \/ it_count D P st = 0).
Proof.
  revert iter sum_dx0 rs ps.
  induction todo as [|t IH]; intros iter sum_dx0 rs ps Hi Hl; [cbn in Hl; lia|].
  cbn [smooth_loop] in *. cbv zeta in *.
  set (s0 := pass _ rs ps) in *.
  destruct (N.eqb_spec iter 0) as [|_]; [contradiction|].
  destruct (Dlt (it_sum_dx D P s0) (Dmul global_dx_reduction sum_dx0)) eqn:E1.
  { exists s0. split; [reflexivity|left; exact E1]. }
  destruct (N.eqb_spec (it_count D P s0) 0) as [E2|E2].
  { exists s0. split; [reflexivity|right; exact E2]. }
  cbn [length] in Hl.
  destruct (IH (iter + 1) sum_dx0 (it_running D P s0) (it_points D P s0)) as (st & L & S1);
    [lia|lia|].
  exists st. split; [|exact S1].
  destruct (loop t (iter + 1) sum_dx0 (it_running D P s0) (it_points D P s0)) as [|a l];
    [discriminate|]. rewrite last_cons. cbn in L |- *. rewrite L. reflexivity.
Qed.

Lemma smooth_vertex_locks (usp : bool) (st : iter_t) (v : N) (center newPos : P) (avg : D) :
  vget (it_running D P st) v = Some true ->
  vget (it_points D P st) v = Some center ->
  vget localAvgSize v = Some avg ->
  kernel usp v (it_points D P st) = (KS_OK, newPos) ->
  Dlt (dist center newPos) (Dmul local_dx_reduction avg) = true ->
  vget (it_running D P (vertex_step usp st v)) v = Some false
  /\ vget (it_points D P (vertex_step usp st v)) v = Some newPos.
Proof.
  intros Hr Hp Ha Hk Hd. unfold smooth_vertex, kernelSmoothing.
  rewrite Hr, Hp, Ha, Hk. change (KS_OK =? KS_OK)%Z with true. cbv iota beta.
  rewrite vget_vset_eq by (eapply vget_Some_lt; exact Hp).
  rewrite Hd. cbn. split.
  - apply vget_vset_eq. eapply vget_Some_lt; exact Hr.
  - apply vget_vset_eq. eapply vget_Some_lt; exact Hp.
Qed.

End SmoothingFacts.




(* ------------------------------------------------------------------ *)
(** * Further properties *)

(** ** sort_unique_with_perm and sort_unique *)

Lemma unique_from_si2_In (p x : si2) (l : list si2) :
  In x (unique_from si2_eqb p l) \/ x = p <-> In x l \/ x = p.
Proof.
  revert p. induction l as [|y t IH]; intros p; simpl; [tauto|].
  destruct (si2_eqb p y) eqn:E.
  - apply si2_eqb_eq in E. subst y. rewrite IH. intuition congruence.
  - simpl. specialize (IH y). intuition congruence.
Qed.

Lemma std_unique_si2_In (x : si2) (l : list si2) :
  In x (std_unique si2_eqb l) <-> In x l.
Proof.
  destruct l as [|y t]; simpl; [tauto|].
  pose proof (unique_from_si2_In y x t). intuition congruence.
Qed.

Lemma unique_from_si2_increasing (p : si2) (l : list si2) :
  (forall y, In y l -> si2_le p y) -> key_sorted (fun x => x) l ->
  increasing si2_ltb (unique_from si2_eqb p l)
  /\ (forall y, In y (unique_from si2_eqb p l) -> si2_ltb p y = true).
Proof.
  revert p. induction l as [|y t IH]; intros p Hlow Hs; simpl; [split; [exact I|tauto]|].
  destruct Hs as [Hy Hs].
  destruct (si2_eqb p y) eqn:E.
  - apply si2_eqb_eq in E. subst y. apply IH; [|exact Hs]. intros z Hz. apply Hlow. now right.
  - destruct (IH y Hy Hs) as [I1 I2]. simpl.
    assert (Hpy : si2_ltb p y = true).
    { apply si2_eqb_neq in E. pose proof (Hlow y (or_introl eq_refl)) as L.
      apply si2_le_spec in L. apply si2_ltb_spec. destruct p, y; simpl in *.
      assert (n <> n1 \/ n0 <> n2) by (destruct (N.eq_dec n n1); [right; congruence|now left]).
      lia. }
    split; [split; [exact I2 | exact I1]|].
    intros z [<-|Hz]; [exact Hpy|].
    apply I2 in Hz. apply si2_ltb_spec in Hz, Hpy. apply si2_ltb_spec. lia.
Qed.

Lemma std_unique_si2_increasing (l : list si2) :
  key_sorted (fun x => x) l -> increasing si2_ltb (std_unique si2_eqb l).
Proof.
  destruct l as [|x t]; simpl; [tauto|]. intros [Hx Ht].
  destruct (unique_from_si2_increasing x t Hx Ht) as [I1 I2]. split; assumption.
Qed.

Lemma vget_cons_pos {A : Type} (x : A) (l : list A) (i : N) :
  0 < i -> vget (x :: l) i = vget l (i - 1).
Proof.
  intros H. simpl. destruct (N.eqb_spec i 0); [lia|]. now rewrite N.sub_1_r.
Qed.

(** The class that the walk gives to an index is the place of its value in
    the run-compressed sequence of values. *)
Lemma walk_unique (inv : list si2) (l : list N) : forall prevk cur i c,
  In (i, c) (walk inv prevk cur l) ->
  cur <= c
  /\ vget (prevk :: unique_from si2_eqb prevk (map (key_of inv) l)) (c - cur)
     = Some (key_of inv i).
Proof.
  induction l as [|i0 t IH]; intros prevk cur i c H; [contradiction|].
  simpl in H. simpl map. simpl unique_from.
  rewrite (si2_eqb_sym prevk (key_of inv i0)).
  destruct (si2_eqb (key_of inv i0) prevk) eqn:E.
  - destruct H as [H|H].
    + inversion H; subst. apply si2_eqb_eq in E. rewrite N.sub_diag. simpl.
      split; [lia | congruence].
    + apply IH, H.
  - destruct H as [H|H].
    + inversion H; subst. split; [lia|].
      replace (cur + 1 - cur) with 1 by lia. reflexivity.
    + destruct (IH _ _ _ _ H) as [Hc Hv]. split; [lia|].
      rewrite vget_cons_pos by lia.
      replace (c - cur - 1) with (c - (cur + 1)) by lia. exact Hv.
Qed.

Lemma assign_size (w : list (N * N)) : forall o, vsize (assign o w) = vsize o.
Proof.
  induction w as [|p w IH]; intros o; [reflexivity|].
  unfold assign. simpl. fold (assign (vset o (fst p) (snd p)) w).
  now rewrite IH, vsize_vset.
Qed.

(** The loops of [sort_unique_with_perm] as the walk along the sorted
    indices. *)
Lemma sort_unique_with_perm_walk (inv : list si2) :
  let ids := std_sort (lt_by_key (key_of inv)) (iota (length inv)) in
  map (key_of inv) ids = std_sort si2_ltb inv
  /\ snd (sort_unique_with_perm inv)
     = assign (repeat 0 (length inv)) (walk_all inv 0 ids)
  /\ (forall i, i < vsize inv ->
        exists c, In (i, c) (walk_all inv 0 ids)
                  /\ slot_of (snd (sort_unique_with_perm inv)) i = c).
Proof.
  cbv zeta. unfold sort_unique_with_perm. cbn [fst snd].
  set (lt := fun a b : N => si2_ltb (default (NO_ID, NO_ID) (vget inv a))
                                    (default (NO_ID, NO_ID) (vget inv b))).
  change (lt_by_key (key_of inv)) with lt.
  set (ids := std_sort lt (iota (length inv))).
  pose proof (std_sort_perm (key_of inv) (iota (length inv))) as Hperm.
  pose proof (std_sort_map (key_of inv) (iota (length inv))) as Hmap.
  change (std_sort (lt_by_key (key_of inv)) (iota (length inv)))
    with ids in Hperm, Hmap.
  rewrite map_key_iota in Hmap.
  assert (Hlen : vsize ids = vsize inv).
  { unfold vsize. rewrite (Permutation_length Hperm), iota_length. reflexivity. }
  assert (Hnd : List.NoDup ids).
  { eapply Permutation_NoDup; [symmetry; exact Hperm | apply iota_NoDup]. }
  assert (Hin : forall i, i < vsize inv -> In i ids).
  { intros i Hi. eapply Permutation_in; [symmetry; exact Hperm|]. now apply iota_In. }
  pose proof (group_outer_spec inv ids Hlen (S (length inv)) ids [] 0
                (repeat 0 (length inv)) eq_refl) as Hgo.
  change (vsize (@nil N)) with 0 in Hgo. rewrite Hgo by (unfold vsize in Hlen; lia).
  clear Hgo.
  set (w := walk_all inv 0 ids).
  assert (Hw : map fst w = ids).
  { unfold w, walk_all. destruct ids as [|j t]; [reflexivity|]. simpl.
    now rewrite walk_fst. }
  split; [exact Hmap|]. split; [reflexivity|].
  intros i Hi. pose proof (Hin i Hi) as Hi'. rewrite <- Hw in Hi'.
  apply in_map_iff in Hi'. destruct Hi' as ([i' c] & Hfst & Hic). simpl in Hfst. subst i'.
  exists c. split; [exact Hic|]. unfold slot_of.
  rewrite (assign_get w _ i c); [reflexivity | rewrite Hw; exact Hnd | exact Hic |].
  unfold vsize in *. rewrite repeat_length. exact Hi.
Qed.

(** X1. [sort_unique_with_perm] returns the distinct values of [in] in
    strictly increasing order, and [old2new] has one entry per input that
    leads back to the value: [uniques[old2new[i]] == in[i]]. *)
Theorem sort_unique_with_perm_roundtrip (inv : list si2) :
  vsize (snd (sort_unique_with_perm inv)) = vsize inv
  /\ (forall i, i < vsize inv ->
        vget (fst (sort_unique_with_perm inv)) (slot_of (snd (sort_unique_with_perm inv)) i)
        = vget inv i)
  /\ increasing si2_ltb (fst (sort_unique_with_perm inv))
  /\ (forall x, In x (fst (sort_unique_with_perm inv)) <-> In x inv).
Proof.
  destruct (sort_unique_with_perm_walk inv) as (Hmap & Hsnd & Hget).
  split; [|split; [|split]].
  - rewrite Hsnd, assign_size. unfold vsize. now rewrite repeat_length.
  - intros i Hi. destruct (Hget i Hi) as (c & Hc & ->).
    destruct (vget_lt inv i Hi) as [x Hx]. rewrite Hx.
    assert (Hk : key_of inv i = x) by (unfold key_of; now rewrite Hx).
    unfold sort_unique_with_perm. cbn [fst]. rewrite <- Hmap.
    destruct (std_sort (lt_by_key (key_of inv)) (iota (length inv))) as [|j0 t];
      [contradiction|].
    simpl map. simpl std_unique. simpl in Hc. destruct Hc as [Hc|Hc].
    + inversion Hc; subst. reflexivity.
    + apply walk_unique in Hc. destruct Hc as [_ Hc]. rewrite N.sub_0_r in Hc.
      rewrite Hc, Hk. reflexivity.
  - unfold sort_unique_with_perm. cbn [fst]. apply std_unique_si2_increasing.
    apply (std_sort_sorted (fun x : si2 => x)).
  - intros x. unfold sort_unique_with_perm. cbn [fst]. rewrite std_unique_si2_In.
    split; intros H.
    + eapply Permutation_in; [apply (std_sort_perm (fun x : si2 => x))|exact H].
    + eapply Permutation_in; [symmetry; apply (std_sort_perm (fun x : si2 => x))|exact H].
Qed.

Section SortN.

Lemma sort_insert_N_In (x a : N) (l : list N) :
  In x (sort_insert N.ltb a l) <-> x = a \/ In x l.
Proof.
  induction l as [|y t IH]; simpl; [intuition congruence|].
  destruct (a <? y); simpl; [intuition congruence|]. rewrite IH. intuition congruence.
Qed.

Lemma std_sort_N_In (x : N) (l : list N) : In x (std_sort N.ltb l) <-> In x l.
Proof.
  unfold std_sort. induction l as [|a t IH]; simpl; [tauto|].
  rewrite sort_insert_N_In, IH. intuition congruence.
Qed.

Lemma sort_insert_N_sorted (a : N) (l : list N) :
  nondecreasing l -> nondecreasing (sort_insert N.ltb a l).
Proof.
  induction l as [|y t IH]; simpl; [tauto|].
  intros [Hy Ht]. destruct (N.ltb_spec a y).
  - simpl. split; [|tauto]. intros z [<-|Hz]; [lia|]. specialize (Hy z Hz). lia.
  - simpl. split; [|auto]. intros z Hz. apply sort_insert_N_In in Hz.
    destruct Hz as [->|Hz]; [lia|auto].
Qed.

Lemma std_sort_N_sorted (l : list N) : nondecreasing (std_sort N.ltb l).
Proof.
  unfold std_sort. induction l as [|a t IH]; simpl; [exact I|].
  apply sort_insert_N_sorted, IH.
Qed.

Lemma unique_from_N_In (p x : N) (l : list N) :
  In x (unique_from N.eqb p l) \/ x = p <-> In x l \/ x = p.
Proof.
  revert p. induction l as [|y t IH]; intros p; simpl; [tauto|].
  destruct (N.eqb_spec p y) as [<-|E].
  - rewrite IH. intuition congruence.
  - simpl. specialize (IH y). intuition congruence.
Qed.

Lemma unique_from_N_increasing (p : N) (l : list N) :
  (forall y, In y l -> p <= y) -> nondecreasing l ->
  increasing N.ltb (unique_from N.eqb p l)
  /\ (forall y, In y (unique_from N.eqb p l) -> (p <? y) = true).
Proof.
  revert p. induction l as [|y t IH]; intros p Hlow Hs; simpl; [split; [exact I|tauto]|].
  destruct Hs as [Hy Hs].
  destruct (N.eqb_spec p y) as [<-|E].
  - apply IH; [|exact Hs]. intros z Hz. apply Hlow. now right.
  - destruct (IH y Hy Hs) as [I1 I2]. simpl.
    assert (Hpy : (p <? y) = true).
    { apply N.ltb_lt. pose proof (Hlow y (or_introl eq_refl)). lia. }
    split; [split; [exact I2 | exact I1]|].
    intros z [<-|Hz]; [exact Hpy|].
    apply I2 in Hz. apply N.ltb_lt in Hz, Hpy. apply N.ltb_lt. lia.
Qed.

End SortN.

Lemma sort_unique_increasing (vec : list N) : increasing N.ltb (sort_unique vec).
Proof.
  unfold sort_unique. pose proof (std_sort_N_sorted vec) as Hs.
  destruct (std_sort N.ltb vec) as [|x t]; simpl; [exact I|].
  destruct Hs as [Hx Ht].
  destruct (unique_from_N_increasing x t Hx Ht) as [I1 I2]. split; assumption.
Qed.

Lemma sort_unique_In_iff (x : N) (vec : list N) : In x (sort_unique vec) <-> In x vec.
Proof.
  unfold sort_unique. rewrite <- (std_sort_N_In x vec).
  destruct (std_sort N.ltb vec) as [|y t]; simpl; [tauto|].
  pose proof (unique_from_N_In y x t). intuition congruence.
Qed.

Lemma increasing_N_NoDup (l : list N) : increasing N.ltb l -> List.NoDup l.
Proof.
  induction l as [|x t IH]; intros Hinc; [constructor|].
  destruct Hinc as [Hx Ht]. constructor; [|auto].
  intros Hin. apply Hx in Hin. apply N.ltb_lt in Hin. lia.
Qed.

(** X2. [sort_unique] leaves the values of the vector, each once, in
    strictly increasing order. *)
Theorem sort_unique_spec (vec : list N) :
  increasing N.ltb (sort_unique vec)
  /\ List.NoDup (sort_unique vec)
  /\ (forall x, In x (sort_unique vec) <-> In x vec).
Proof.
  split; [apply sort_unique_increasing|].
  split; [apply increasing_N_NoDup, sort_unique_increasing|].
  intros x. apply sort_unique_In_iff.
Qed.

Lemma increasing_N_cons (x : N) (t : list N) :
  increasing N.ltb (x :: t) -> (forall y, In y t -> x < y) /\ increasing N.ltb t.
Proof.
  intros [H1 H2]. split; [|exact H2]. intros y Hy. apply N.ltb_lt. auto.
Qed.

Lemma set_intersection_spec (s1 : list N) : forall s2,
  increasing N.ltb s1 -> increasing N.ltb s2 ->
  (forall x, In x (set_intersection s1 s2) <-> In x s1 /\ In x s2)
  /\ increasing N.ltb (set_intersection s1 s2).
Proof.
  induction s1 as [|x t1 IH1]; intros s2 H1 H2; [simpl; split; [tauto|exact I]|].
  apply increasing_N_cons in H1 as H1'. destruct H1' as [Hx Ht1].
  induction s2 as [|y t2 IH2]; [simpl; split; [tauto|exact I]|].
  apply increasing_N_cons in H2 as H2'. destruct H2' as [Hy Ht2].
  cbn [set_intersection].
  destruct (N.ltb_spec x y) as [Lxy|Lxy].
  - destruct (IH1 (y :: t2) Ht1 H2) as [A B]. split; [|exact B].
    intros z. rewrite A. simpl. split.
    + intros [Hz1 Hz2]. auto.
    + intros [[<-|Hz1] Hz2]; [|auto]. exfalso.
      destruct Hz2 as [<-|Hz2]; [lia|]. apply Hy in Hz2. lia.
  - destruct (N.ltb_spec y x) as [Lyx|Lyx].
    + destruct (IH2 Ht2) as [A B]. split; [|exact B].
      intros z. change ((fix scan (s2 : list N) : list N :=
                match s2 with
                | [] => []
                | y0 :: t3 =>
                    if x <? y0 then set_intersection t1 s2
                    else if y0 <? x then scan t3 else x :: set_intersection t1 t3
                end) t2) with (set_intersection (x :: t1) t2).
      rewrite A. simpl. split.
      * intros [Hz1 Hz2]. auto.
      * intros [Hz1 [<-|Hz2]]; [|auto]. exfalso.
        destruct Hz1 as [<-|Hz1]; [lia|]. apply Hx in Hz1. lia.
    + assert (x = y) by lia. subst y.
      destruct (IH1 t2 Ht1 Ht2) as [A B]. split.
      * intros z. simpl. rewrite A. split.
        -- intros [<-|[Hz1 Hz2]]; auto.
        -- intros [Hz1 Hz2]. destruct Hz1 as [Hz1|Hz1]; [left; exact Hz1|].
           destruct Hz2 as [Hz2|Hz2]; [left; exact Hz2|]. right. auto.
      * split; [|exact B]. intros z Hz. apply A in Hz. apply N.ltb_lt, Hx. tauto.
Qed.

Lemma set_difference_spec (s1 : list N) : forall s2,
  increasing N.ltb s1 -> increasing N.ltb s2 ->
  (forall x, In x (set_difference s1 s2) <-> In x s1 /\ ~ In x s2)
  /\ increasing N.ltb (set_difference s1 s2).
Proof.
  induction s1 as [|x t1 IH1]; intros s2 H1 H2; [simpl; split; [tauto|exact I]|].
  apply increasing_N_cons in H1 as H1'. destruct H1' as [Hx Ht1].
  induction s2 as [|y t2 IH2]; [simpl; split; [tauto|exact H1]|].
  apply increasing_N_cons in H2 as H2'. destruct H2' as [Hy Ht2].
  cbn [set_difference].
  destruct (N.ltb_spec x y) as [Lxy|Lxy].
  - destruct (IH1 (y :: t2) Ht1 H2) as [A B]. split.
    + intros z. simpl. rewrite A. simpl. split.
      * intros [<-|[Hz1 Hz2]]; [|tauto]. split; [now left|].
        intros [->|Hz]; [lia|]. apply Hy in Hz. lia.
      * intros [[<-|Hz1] Hz2]; [now left|right; tauto].
    + split; [|exact B]. intros z Hz. apply A in Hz. apply N.ltb_lt, Hx. tauto.
  - destruct (N.ltb_spec y x) as [Lyx|Lyx].
    + destruct (IH2 Ht2) as [A B]. split; [|exact B].
      intros z. change ((fix scan (s2 : list N) : list N :=
                match s2 with
                | [] => x :: t1
                | y0 :: t3 =>
                    if x <? y0 then x :: set_difference t1 s2
                    else if y0 <? x then scan t3 else set_difference t1 t3
                end) t2) with (set_difference (x :: t1) t2).
      rewrite A. simpl. split.
      * intros [Hz1 Hz2]. split; [exact Hz1|]. intros [<-|Hz]; [|tauto].
        destruct Hz1 as [<-|Hz1]; [lia|]. apply Hx in Hz1. lia.
      * intros [Hz1 Hz2]. tauto.
    + assert (x = y) by lia. subst y.
      destruct (IH1 t2 Ht1 Ht2) as [A B]. split; [|exact B].
      intros z. rewrite A. simpl. split.
      * intros [Hz1 Hz2]. split; [now right|]. intros [<-|Hz]; [|tauto].
        apply Hx in Hz1. lia.
      * intros [[<-|Hz1] Hz2]; [tauto|]. tauto.
Qed.

Lemma difference_spec (v1 v2 : list N) :
  (forall x, In x (difference v1 v2) <-> In x v1 /\ ~ In x v2)
  /\ increasing N.ltb (difference v1 v2).
Proof.
  destruct (set_difference_spec _ _ (sort_unique_increasing v1) (sort_unique_increasing v2))
    as [C D].
  unfold difference. split; [|exact D].
  intros x. rewrite C, !sort_unique_In_iff. reflexivity.
Qed.

(** X3. [intersection(v1, v2)] holds the values found in both vectors and
    [difference(v1, v2)] the values of [v1] not found in [v2], each once and
    in strictly increasing order. *)
Theorem intersection_difference_spec (v1 v2 : list N) :
  (forall x, In x (intersection v1 v2) <-> In x v1 /\ In x v2)
  /\ increasing N.ltb (intersection v1 v2)
  /\ (forall x, In x (difference v1 v2) <-> In x v1 /\ ~ In x v2)
  /\ increasing N.ltb (difference v1 v2).
Proof.
  destruct (set_intersection_spec _ _ (sort_unique_increasing v1)
              (sort_unique_increasing v2)) as [A B].
  destruct (difference_spec v1 v2) as [C D].
  unfold intersection.
  split; [intros x; rewrite A, !sort_unique_In_iff; reflexivity|].
  split; [exact B|]. split; [exact C|exact D].
Qed.

(** X4. [verticesStrictlyInsideCavity] lists, each once, the corners of the
    given quads that are not on the boundary [bnd]. *)
Theorem verticesStrictlyInsideCavity_spec (quads : list MQuadrangle) (bnd : list N) :
  List.NoDup (verticesStrictlyInsideCavity quads bnd)
  /\ forall v, In v (verticesStrictlyInsideCavity quads bnd)
       <-> (exists q, In q quads /\ In v (quad_vertices q)) /\ ~ In v bnd.
Proof.
  unfold verticesStrictlyInsideCavity.
  destruct (difference_spec (sort_unique (flat_map quad_vertices quads)) bnd) as (C & D).
  split; [apply increasing_N_NoDup, D|].
  intros v. rewrite C, sort_unique_In_iff, in_flat_map. reflexivity.
Qed.

(** ** The layout of the mesh built by createMeshHalfEdges *)

Lemma keeps_ptr_refl vs : keeps_ptr vs vs.
Proof. intros n x H. eauto. Qed.

Lemma keeps_ptr_trans a b c : keeps_ptr a b -> keeps_ptr b c -> keeps_ptr a c.
Proof.
  intros H1 H2 n x Hx. destruct (H1 n x Hx) as (y & Ey & Py & Hy).
  destruct (H2 n y Ey) as (z & Ez & Pz & Hz). exists z.
  split; [exact Ez|]. split; [congruence|]. intros Hne.
  rewrite Hz by (rewrite Hy; auto). auto.
Qed.

Lemma keeps_fields_refl hs : keeps_fields hs hs.
Proof. split; eauto 10. Qed.

Lemma keeps_fields_trans a b c : keeps_fields a b -> keeps_fields b c -> keeps_fields a c.
Proof.
  intros [L1 H1] [L2 H2]. split; [congruence|].
  intros i h Hi. destruct (H1 i h Hi) as (h1 & E1 & A1 & B1 & C1 & D1).
  destruct (H2 i h1 E1) as (h2 & E2 & A2 & B2 & C2 & D2).
  exists h2. repeat split; congruence.
Qed.

Lemma hedge_ok_keeps vs hs vs' hs' i f nx pv p :
  keeps_ptr vs vs' ->
  (forall j h, vget hs j = Some h ->
     exists h', vget hs' j = Some h' /\ prev h' = prev h /\ next h' = next h
                /\ vertex h' = vertex h /\ face h' = face h) ->
  hedge_ok vs hs i f nx pv p -> hedge_ok vs' hs' i f nx pv p.
Proof.
  intros Hv Hh (h & x & Eh & F & Nx & Pv & Ex & Px).
  destruct (Hh i h Eh) as (h' & Eh' & A & B & C & D).
  destruct (Hv _ x Ex) as (x' & Ex' & Px' & _).
  exists h', x'. rewrite C. repeat split; congruence.
Qed.

Lemma quad_layout_keeps vs hs fs vs' hs' fs' f q :
  keeps_ptr vs vs' ->
  (forall j h, vget hs j = Some h ->
     exists h', vget hs' j = Some h' /\ prev h' = prev h /\ next h' = next h
                /\ vertex h' = vertex h /\ face h' = face h) ->
  (forall g y, vget fs g = Some y -> vget fs' g = Some y) ->
  quad_layout vs hs fs f q -> quad_layout vs' hs' fs' f q.
Proof.
  intros Hv Hh Hf (F & H0 & H1 & H2 & H3).
  split; [apply Hf, F|].
  repeat split; eapply hedge_ok_keeps; eauto.
Qed.

Lemma add_vertex_state hs (P : N -> Prop) st v st' n :
  vmap_inv st -> vsize (fst st) < NO_ID ->
  vstate_ok hs P st ->
  add_vertex st v = (st', n) ->
  vstate_ok hs (fun m => m = n \/ P m) st'
  /\ (forall m x, vget (fst st) m = Some x -> vget (fst st') m = Some x).
Proof.
  destruct st as [vs mp]. unfold add_vertex. simpl. intros HI Hb HS.
  destruct (mp !! v) as [nv|] eqn:E; simpl.
  - destruct (HI v nv E) as (x & Ex & _). apply vget_Some_lt in Ex. simpl in Ex.
    destruct (N.eqb_spec nv NO_ID); [lia|].
    intros H; inversion H; subst. split; [|auto].
    intros m y Hy. destruct (HS m y Hy) as (A & B & C & D). simpl in *. tauto.
  - rewrite ?N.eqb_refl. intros H; inversion H; subst; clear H. simpl. split.
    + intros m y Hy. simpl in Hy.
      destruct (N.lt_ge_cases m (vsize vs)) as [Hlt|Hge].
      * rewrite vget_app_l in Hy by exact Hlt.
        destruct (HS m y Hy) as (A & B & C & D). simpl in *.
        split; [|tauto].
        rewrite lookup_insert_ne; [exact A|]. intros Heq. rewrite Heq in E. congruence.
      * pose proof (vget_Some_lt _ _ _ Hy) as Hm. rewrite vsize_app in Hm.
        change (vsize [mkVertex NO_ID false v]) with 1 in Hm.
        assert (m = vsize vs) by lia. subst m.
        rewrite vget_block0 in Hy. inversion Hy; subst y. simpl.
        rewrite lookup_insert_eq. split; [reflexivity|]. split; [reflexivity|].
        split; [auto|]. intros Hc. contradiction.
    + intros m x Hx. rewrite vget_app_l; [exact Hx | eapply vget_Some_lt; eauto].
Qed.

Lemma set_vertex_he_keeps vs v he : keeps_ptr vs (set_vertex_he vs v he).
Proof.
  intros n x H. unfold set_vertex_he. destruct (vget vs v) as [y|] eqn:Ey; [|eauto].
  destruct (N.eqb_spec (v_he y) NO_ID) as [Ev|Ev]; [|eauto].
  destruct (N.eq_dec v n) as [->|Hne].
  - rewrite vget_vset_eq by (eapply vget_Some_lt; eauto).
    rewrite Ey in H. inversion H; subst. eexists; split; [reflexivity|].
    simpl. split; [reflexivity|]. intros; contradiction.
  - rewrite vget_vset_neq by exact Hne. eauto.
Qed.

Lemma set_vertex_he_state hs (P : N -> Prop) vs mp v he h :
  he <> NO_ID -> vget hs he = Some h -> vertex h = v ->
  vstate_ok hs P (vs, mp) ->
  vstate_ok hs (fun m => P m /\ m <> v) (set_vertex_he vs v he, mp).
Proof.
  intros Hne Hh Hv HS n x Hx. simpl in *. unfold set_vertex_he in Hx.
  destruct (vget vs v) as [y|] eqn:Ey.
  - destruct (N.eqb_spec (v_he y) NO_ID) as [Ev|Ev].
    + destruct (N.eq_dec v n) as [->|Hvn].
      * rewrite vget_vset_eq in Hx by (eapply vget_Some_lt; eauto).
        inversion Hx; subst x. simpl. destruct (HS n y Ey) as (A & B & _). simpl in *.
        split; [exact A|]. split; [exact B|]. split; [intros; contradiction|]. eauto.
      * rewrite vget_vset_neq in Hx by exact Hvn.
        destruct (HS n x Hx) as (A & B & C & D). simpl in *.
        split; [exact A|]. split; [exact B|]. split; [|exact D]. auto.
    + destruct (HS n x Hx) as (A & B & C & D). simpl in *.
      split; [exact A|]. split; [exact B|]. split; [|exact D].
      intros Hx0. split; [auto|]. intros ->. rewrite Ey in Hx. inversion Hx; subst x.
      contradiction.
  - destruct (HS n x Hx) as (A & B & C & D). simpl in *.
    split; [exact A|]. split; [exact B|]. split; [|exact D].
    intros Hx0. split; [auto|]. intros ->. congruence.
Qed.

Lemma vstate_ok_weaken hs hs' (P P' : N -> Prop) st :
  (forall n, P n -> P' n) ->
  (forall i h, vget hs i = Some h -> vget hs' i = Some h) ->
  vstate_ok hs P st -> vstate_ok hs' P' st.
Proof.
  intros HP Hh HS n x Hx. destruct (HS n x Hx) as (A & B & C & D).
  split; [exact A|]. split; [exact B|]. split; [auto|].
  intros Hne. destruct (D Hne) as (h & Eh & Vh). eauto.
Qed.

Lemma keeps_ptr_same vs vs' :
  (forall m x, vget vs m = Some x -> vget vs' m = Some x) -> keeps_ptr vs vs'.
Proof. intros H n x Hx. exists x. auto. Qed.

(** What one turn of the loop over the quads appends. *)
Lemma add_quad_shape b done q :
  layout_inv b done -> vsize (b_hedges b) + 4 < NO_ID ->
  exists vs' mp' n0 n1 n2 n3,
    let he0 := vsize (b_hedges b) in
    let f := vsize (b_faces b) in
    let hs' := b_hedges b ++ [new_hedge he0 f 0 n1; new_hedge he0 f 1 n2;
                              new_hedge he0 f 2 n3; new_hedge he0 f 3 n0] in
    add_quad b q = mkBuilder vs' hs' (b_faces b ++ [mkFace he0 (q_ptr q)]) mp'
    /\ vstate_ok hs' (fun _ => False) (vs', mp')
    /\ keeps_ptr (b_vertices b) vs'
    /\ (exists x, vget vs' n0 = Some x /\ v_ptr x = q_v0 q)
    /\ (exists x, vget vs' n1 = Some x /\ v_ptr x = q_v1 q)
    /\ (exists x, vget vs' n2 = Some x /\ v_ptr x = q_v2 q)
    /\ (exists x, vget vs' n3 = Some x /\ v_ptr x = q_v3 q).
Proof.
  intros [HB HF HQ HV] Hb.
  destruct HB as [Hptr Hsize Hdom Hpairs Hnp Hlen].
  assert (HSM : NO_ID < SIZE_MOD) by (unfold NO_ID, SIZE_MOD; simpl; lia).
  unfold add_quad.
  destruct (add_vertex (b_vertices b, b_mv2new b) (getVertex q 0)) as [st1 n0] eqn:E0.
  destruct (add_vertex st1 (getVertex q 1)) as [st2 n1] eqn:E1.
  destruct (add_vertex st2 (getVertex q 2)) as [st3 n2] eqn:E2.
  destruct (add_vertex st3 (getVertex q 3)) as [[vs4 mp4] n3] eqn:E3.
  pose proof E0 as T0. pose proof E1 as T1. pose proof E2 as T2. pose proof E3 as T3.
  apply add_vertex_spec in E0; [|exact Hptr | simpl; lia].
  destruct E0 as (I1 & G0 & M1 & S1). simpl in S1.
  apply add_vertex_spec in E1; [|exact I1 | lia].
  destruct E1 as (I2 & G1 & M2 & S2).
  apply add_vertex_spec in E2; [|exact I2 | lia].
  destruct E2 as (I3 & G2 & M3 & S3).
  apply add_vertex_spec in E3; [|exact I3 | lia].
  destruct E3 as (I4 & G3 & M4 & S4). simpl in G3, M4, S4.
  apply (add_vertex_state (b_hedges b) (fun _ => False)) in T0;
    [|exact Hptr | simpl; lia | exact HV].
  destruct T0 as [V1 K1].
  apply (add_vertex_state (b_hedges b) (fun m => m = n0 \/ False)) in T1;
    [|exact I1 | lia | exact V1].
  destruct T1 as [V2 K2].
  apply (add_vertex_state (b_hedges b) (fun m => m = n1 \/ m = n0 \/ False)) in T2;
    [|exact I2 | lia | exact V2].
  destruct T2 as [V3 K3].
  apply (add_vertex_state (b_hedges b) (fun m => m = n2 \/ m = n1 \/ m = n0 \/ False)) in T3;
    [|exact I3 | lia | exact V3].
  destruct T3 as [V4 K4]. simpl in K1, K4.
  assert (F0 : mp4 !! q_v0 q = Some n0) by (apply M4, M3, M2; exact G0).
  assert (F1 : mp4 !! q_v1 q = Some n1) by (apply M4, M3; exact G1).
  assert (F2 : mp4 !! q_v2 q = Some n2) by (apply M4; exact G2).
  assert (F3 : mp4 !! q_v3 q = Some n3) by exact G3.
  set (he0 := vsize (b_hedges b)) in *.
  set (f := vsize (b_faces b)).
  set (blk := [new_hedge he0 f 0 n1; new_hedge he0 f 1 n2;
               new_hedge he0 f 2 n3; new_hedge he0 f 3 n0]).
  set (vsA := set_vertex_he vs4 n1 he0).
  set (vsB := set_vertex_he vsA n2 (wrap (he0 + 1))).
  set (vsC := set_vertex_he vsB n3 (wrap (he0 + 2))).
  set (vsD := set_vertex_he vsC n0 (wrap (he0 + 3))).
  exists vsD, mp4, n0, n1, n2, n3. cbv zeta. fold he0 f blk.
  split; [reflexivity|].
  assert (Hk4 : keeps_ptr vs4 vsD).
  { eapply keeps_ptr_trans; [apply set_vertex_he_keeps|].
    eapply keeps_ptr_trans; [apply set_vertex_he_keeps|].
    eapply keeps_ptr_trans; [apply set_vertex_he_keeps|].
    apply set_vertex_he_keeps. }
  assert (Hfind : forall p n, mp4 !! p = Some n ->
                    exists x, vget vsD n = Some x /\ v_ptr x = p).
  { intros p n Hp. destruct (I4 p n Hp) as (x & Ex & Px). simpl in Ex.
    destruct (Hk4 n x Ex) as (x' & Ex' & Px' & _). exists x'. split; [exact Ex'|congruence]. }
  split; [|split; [|repeat split; eapply Hfind; eassumption]].
  - assert (W : vstate_ok (b_hedges b ++ blk)
                  (fun m => m = n3 \/ m = n2 \/ m = n1 \/ m = n0 \/ False) (vs4, mp4)).
    { eapply vstate_ok_weaken; [| |exact V4]; [tauto|].
      intros i h Hi. rewrite vget_app_l; [exact Hi|eapply vget_Some_lt; eauto]. }
    assert (B0 : vget (b_hedges b ++ blk) he0 = Some (new_hedge he0 f 0 n1)).
    { unfold blk, he0. apply vget_block0. }
    assert (B1 : vget (b_hedges b ++ blk) (wrap (he0 + 1)) = Some (new_hedge he0 f 1 n2)).
    { rewrite wrap_small by lia. unfold blk, he0. rewrite vget_block by lia. reflexivity. }
    assert (B2 : vget (b_hedges b ++ blk) (wrap (he0 + 2)) = Some (new_hedge he0 f 2 n3)).
    { rewrite wrap_small by lia. unfold blk, he0. rewrite vget_block by lia. reflexivity. }
    assert (B3 : vget (b_hedges b ++ blk) (wrap (he0 + 3)) = Some (new_hedge he0 f 3 n0)).
    { rewrite wrap_small by lia. unfold blk, he0. rewrite vget_block by lia. reflexivity. }
    assert (N0 : he0 <> NO_ID) by lia.
    assert (N1 : wrap (he0 + 1) <> NO_ID) by (rewrite wrap_small by lia; lia).
    assert (N2 : wrap (he0 + 2) <> NO_ID) by (rewrite wrap_small by lia; lia).
    assert (N3 : wrap (he0 + 3) <> NO_ID) by (rewrite wrap_small by lia; lia).
    apply (set_vertex_he_state _ _ vs4 mp4 n1 he0 _ N0 B0 eq_refl) in W.
    apply (set_vertex_he_state _ _ _ mp4 n2 _ _ N1 B1 eq_refl) in W.
    apply (set_vertex_he_state _ _ _ mp4 n3 _ _ N2 B2 eq_refl) in W.
    apply (set_vertex_he_state _ _ _ mp4 n0 _ _ N3 B3 eq_refl) in W.
    eapply vstate_ok_weaken; [| |exact W]; [|auto].
    intros n. cbv beta. tauto.
  - eapply keeps_ptr_trans; [|exact Hk4]. apply keeps_ptr_same.
    intros m x Hx. apply K4. destruct st3 as [vs3 mp3]. apply K3.
    destruct st2 as [vs2 mp2]. apply K2. destruct st1 as [vs1 mp1]. apply K1. exact Hx.
Qed.

Lemma add_quad_layout b done q :
  layout_inv b done -> vsize (b_hedges b) + 4 < NO_ID ->
  layout_inv (add_quad b q) (done ++ [q]).
Proof.
  intros HL Hb.
  destruct (add_quad_shape b done q HL Hb)
    as (vs' & mp' & n0 & n1 & n2 & n3 & E & HV' & HK & X0 & X1 & X2 & X3).
  cbv zeta in E, HV'.
  pose proof (add_quad_inv b done q (li_build _ _ HL) Hb) as HB'.
  destruct HL as [HB HF HQ HV].
  assert (HSM : NO_ID < SIZE_MOD) by (unfold NO_ID, SIZE_MOD; simpl; lia).
  pose proof (bi_len _ _ HB) as Hlen.
  constructor; [exact HB'| | |].
  - rewrite E. simpl. rewrite vsize_app, length_app, HF. simpl. unfold vsize. simpl. lia.
  - intros f q' Hq'. rewrite E. simpl.
    destruct (N.lt_ge_cases f (vsize done)) as [Hlt|Hge].
    + rewrite vget_app_l in Hq' by exact Hlt.
      eapply quad_layout_keeps; [exact HK | | | apply HQ; exact Hq'].
      * intros j h Hj. exists h.
        rewrite vget_app_l by (eapply vget_Some_lt; eauto). auto.
      * intros g y Hg. rewrite vget_app_l by (eapply vget_Some_lt; eauto). exact Hg.
    + pose proof (vget_Some_lt _ _ _ Hq') as Hf. rewrite vsize_app in Hf.
      change (vsize [q]) with 1 in Hf.
      assert (Ef : f = vsize done) by lia.
      rewrite Ef in Hq'. rewrite vget_block0 in Hq'. inversion Hq'; subst q'.
      assert (Ef' : f = vsize (b_faces b)) by (rewrite HF; exact Ef).
      assert (Ehe : 4 * f = vsize (b_hedges b)) by (rewrite Hlen, Ef; reflexivity).
      unfold quad_layout. rewrite !Ehe. rewrite Ef'.
      set (he0 := vsize (b_hedges b)) in *. set (fn := vsize (b_faces b)) in *.
      destruct X0 as (x0 & Ex0 & Px0). destruct X1 as (x1 & Ex1 & Px1).
      destruct X2 as (x2 & Ex2 & Px2). destruct X3 as (x3 & Ex3 & Px3).
      split; [unfold fn; apply vget_block0|].
      split; [|split; [|split]].
      * exists (new_hedge he0 fn 0 n1), x1.
        split; [unfold he0; apply vget_block0|]. simpl.
        rewrite !wrap_small by lia. repeat split; auto; lia.
      * exists (new_hedge he0 fn 1 n2), x2.
        split; [unfold he0; rewrite vget_block by lia; reflexivity|]. simpl.
        rewrite !wrap_small by lia. repeat split; auto; lia.
      * exists (new_hedge he0 fn 2 n3), x3.
        split; [unfold he0; rewrite vget_block by lia; reflexivity|]. simpl.
        rewrite !wrap_small by lia. repeat split; auto; lia.
      * exists (new_hedge he0 fn 3 n0), x0.
        split; [unfold he0; rewrite vget_block by lia; reflexivity|]. simpl.
        rewrite !wrap_small by lia. repeat split; auto; lia.
  - rewrite E. exact HV'.
Qed.

Lemma layout_inv_fold (qs : list MQuadrangle) : forall b done,
  layout_inv b done ->
  vsize (b_hedges b) + 4 * N.of_nat (length qs) < NO_ID ->
  layout_inv (foldl add_quad b qs) (done ++ qs).
Proof.
  induction qs as [|q t IH]; intros b done Hb Hsz; simpl.
  - now rewrite app_nil_r.
  - replace (done ++ q :: t) with ((done ++ [q]) ++ t) by now rewrite <- app_assoc.
    simpl length in Hsz.
    assert (Hq : layout_inv (add_quad b q) (done ++ [q]))
      by (apply add_quad_layout; [exact Hb | lia]).
    apply IH; [exact Hq|].
    rewrite (bi_len _ _ (li_build _ _ Hq)), length_app.
    rewrite (bi_len _ _ (li_build _ _ Hb)) in Hsz. simpl length. lia.
Qed.

Lemma layout_inv_init : layout_inv (mkBuilder [] [] [] ∅) [].
Proof.
  constructor; simpl.
  - apply build_inv_init.
  - reflexivity.
  - intros f q H. discriminate.
  - intros n x H. discriminate.
Qed.

Lemma createMeshHalfEdges_builder (quadrangles : list MQuadrangle) :
  4 * N.of_nat (length quadrangles) < NO_ID ->
  layout_inv (foldl add_quad (mkBuilder [] [] [] ∅) quadrangles) quadrangles.
Proof.
  intros Hsz. apply (layout_inv_fold quadrangles _ [] layout_inv_init).
  simpl. change (vsize (@nil HalfEdge)) with 0. lia.
Qed.

Lemma set_opposite_keeps hs h o : keeps_fields hs (set_opposite hs h o).
Proof.
  unfold set_opposite. destruct (vget hs h) as [x|] eqn:E; [|apply keeps_fields_refl].
  split; [apply vset_length|].
  intros i y Hi. destruct (N.eq_dec h i) as [->|Hne].
  - rewrite vget_vset_eq by (eapply vget_Some_lt; eauto).
    rewrite E in Hi. inversion Hi; subst. eexists; split; [reflexivity|]. simpl; auto.
  - rewrite vget_vset_neq by exact Hne. eauto 10.
Qed.

Lemma link_pair_keeps T hs i : keeps_fields hs (link_pair T hs i).
Proof.
  unfold link_pair. destruct (default (NO_ID, NO_ID) (vget T i)) as [h1 h2].
  destruct (negb (h1 =? NO_ID) && negb (h2 =? NO_ID)); [|apply keeps_fields_refl].
  eapply keeps_fields_trans; apply set_opposite_keeps.
Qed.

Lemma foldl_link_keeps T l : forall hs, keeps_fields hs (foldl (link_pair T) hs l).
Proof.
  induction l as [|i t IH]; intros hs; simpl; [apply keeps_fields_refl|].
  eapply keeps_fields_trans; [apply link_pair_keeps | apply IH].
Qed.

(** Flagging touches [isSingularity] alone, and that of the flagged vertex
    alone. *)
Lemma flag_singular_get mp vs mv n x :
  vget vs n = Some x ->
  exists x', vget (flag_singular mp vs mv) n = Some x'
    /\ v_he x' = v_he x /\ v_ptr x' = v_ptr x
    /\ (isSingularity x' = true <-> isSingularity x = true \/ mp !! mv = Some n).
Proof.
  intros Hx. unfold flag_singular. destruct (mp !! mv) as [v|] eqn:E.
  - destruct (vget vs v) as [y|] eqn:Ey.
    + destruct (N.eq_dec v n) as [->|Hne].
      * rewrite vget_vset_eq by (eapply vget_Some_lt; eauto).
        rewrite Ey in Hx. inversion Hx; subst. eexists; split; [reflexivity|]. simpl.
        intuition.
      * rewrite vget_vset_neq by exact Hne. exists x. intuition congruence.
    + exists x. repeat split; auto. intros [H|H]; [exact H|].
      inversion H; subst. congruence.
  - exists x. intuition congruence.
Qed.

Lemma flag_singular_size mp vs mv : vsize (flag_singular mp vs mv) = vsize vs.
Proof.
  unfold flag_singular. destruct (mp !! mv) as [v|]; [|reflexivity].
  destruct (vget vs v); [apply vsize_vset|reflexivity].
Qed.

Lemma foldl_flag_size mp l : forall vs,
  vsize (foldl (flag_singular mp) vs l) = vsize vs.
Proof.
  induction l as [|mv t IH]; intros vs; simpl; [reflexivity|].
  now rewrite IH, flag_singular_size.
Qed.

Lemma foldl_flag_get mp l : forall vs n x,
  vget vs n = Some x ->
  exists x', vget (foldl (flag_singular mp) vs l) n = Some x'
    /\ v_he x' = v_he x /\ v_ptr x' = v_ptr x
    /\ (isSingularity x' = true
        <-> isSingularity x = true \/ exists mv, In mv l /\ mp !! mv = Some n).
Proof.
  induction l as [|mv t IH]; intros vs n x Hx; simpl.
  - exists x. repeat split; auto. intros [H|(mv & [] & _)]. exact H.
  - destruct (flag_singular_get mp vs mv n x Hx) as (y & Ey & Hy & Py & Sy).
    destruct (IH _ n y Ey) as (z & Ez & Hz & Pz & Sz).
    exists z. split; [exact Ez|]. split; [congruence|]. split; [congruence|].
    rewrite Sz, Sy. split.
    + intros [[H|H]|(mv' & Hin & Hm)]; [now left | right | right]; eauto.
    + intros [H|(mv' & [<-|Hin] & Hm)]; [tauto | tauto | right; eauto].
Qed.

Lemma foldl_flag_inv mp l vs n x' :
  vget (foldl (flag_singular mp) vs l) n = Some x' ->
  exists x, vget vs n = Some x
    /\ v_he x' = v_he x /\ v_ptr x' = v_ptr x
    /\ (isSingularity x' = true
        <-> isSingularity x = true \/ exists mv, In mv l /\ mp !! mv = Some n).
Proof.
  intros H. pose proof (vget_Some_lt _ _ _ H) as Hlt. rewrite foldl_flag_size in Hlt.
  destruct (vget_lt vs n Hlt) as [x Hx]. exists x. split; [exact Hx|].
  destruct (foldl_flag_get mp l vs n x Hx) as (y & Ey & Hy). rewrite H in Ey.
  inversion Ey; subst y. exact Hy.
Qed.

Lemma keeps_fields_inv hs hs' i h' :
  keeps_fields hs hs' -> vget hs' i = Some h' ->
  exists h, vget hs i = Some h /\ prev h' = prev h /\ next h' = next h
            /\ vertex h' = vertex h /\ face h' = face h.
Proof.
  intros [L K] H. pose proof (vget_Some_lt _ _ _ H) as Hlt.
  unfold vsize in Hlt. rewrite L in Hlt. destruct (vget_lt hs i Hlt) as [h Hh].
  exists h. split; [exact Hh|]. destruct (K i h Hh) as (h2 & E2 & R). rewrite H in E2.
  inversion E2; subst h2. exact R.
Qed.

(** The mesh that [createMeshHalfEdges] leaves, whatever it returns. *)
Lemma createMeshHalfEdges_layout (quadrangles : list MQuadrangle) (singularVertices : list N) :
  4 * N.of_nat (length quadrangles) < NO_ID ->
  mesh_layout quadrangles (snd (createMeshHalfEdges quadrangles singularVertices)).
Proof.
  intros Hsz. pose proof (createMeshHalfEdges_builder quadrangles Hsz) as HL.
  unfold createMeshHalfEdges.
  set (b := foldl add_quad (mkBuilder [] [] [] ∅) quadrangles) in *.
  destruct HL as [HB HF HQ HV]. pose proof (bi_len _ _ HB) as Hlen.
  pose proof (bi_ptr _ _ HB) as Hptr.
  assert (Hbase : forall vs' hs',
            keeps_fields (b_hedges b) hs' ->
            vsize vs' = vsize (b_vertices b) ->
            (forall n x, vget (b_vertices b) n = Some x ->
               exists x', vget vs' n = Some x' /\ v_he x' = v_he x /\ v_ptr x' = v_ptr x) ->
            mesh_layout quadrangles (mkMesh vs' hs' (b_faces b))).
  { intros vs' hs' [KL KF] Hvs KV. unfold mesh_layout. simpl.
    split; [exact HF|]. split; [unfold vsize in *; rewrite KL; exact Hlen|].
    split.
    - intros f q Hq. eapply quad_layout_keeps; [| exact KF | | apply HQ; exact Hq]; [|auto].
      intros n x Hx. destruct (KV n x Hx) as (x' & Ex' & Hx' & Px').
      exists x'. repeat split; auto.
    - intros n x' Hx'.
      assert (Hn : n < vsize (b_vertices b)) by (rewrite <- Hvs; eapply vget_Some_lt; eauto).
      destruct (vget_lt _ _ Hn) as [x Hx].
      destruct (KV n x Hx) as (x2 & Ex2 & He2 & Pe2). rewrite Hx' in Ex2.
      inversion Ex2; subst x2.
      destruct (HV n x Hx) as (A & B & C & D). simpl in *.
      assert (Hne : v_he x <> NO_ID) by (intros Hc; exact (C Hc)).
      rewrite He2. split; [exact Hne|]. split.
      + destruct (D Hne) as (h & Eh & Vh). destruct (KF _ h Eh) as (h' & Eh' & _ & _ & Vh' & _).
        exists h'. split; [exact Eh'|congruence].
      + intros m y' Hy' Hp.
        assert (Hm : m < vsize (b_vertices b)) by (rewrite <- Hvs; eapply vget_Some_lt; eauto).
        destruct (vget_lt _ _ Hm) as [y Hy].
        destruct (KV m y Hy) as (y2 & Ey2 & _ & Py2). rewrite Hy' in Ey2.
        inversion Ey2; subst y2.
        destruct (HV m y Hy) as (A' & _). simpl in A'.
        assert (v_ptr y = v_ptr x) by congruence.
        rewrite H in A'. rewrite A in A'. congruence. }
  destruct (sort_unique_with_perm _) as [uniques old2new].
  destruct (fill_new2old _ _ _) as [T|]; simpl.
  - apply Hbase.
    + apply foldl_link_keeps.
    + apply foldl_flag_size.
    + intros n x Hx. destruct (foldl_flag_get (b_mv2new b) singularVertices _ n x Hx)
        as (x' & Ex' & Hx' & Px' & _). eauto.
  - apply Hbase; [apply keeps_fields_refl | reflexivity | eauto].
Qed.

Lemma M_next_get M he h : vget (hedges M) he = Some h -> M_next M he = Ret (next h).
Proof. intros H. unfold M_next, he_get. ounfold. now rewrite H. Qed.

Lemma he_vertex_get M he h : vget (hedges M) he = Some h -> he_vertex M he = Ret (vertex h).
Proof. intros H. unfold he_vertex, he_get. ounfold. now rewrite H. Qed.

Lemma he_face_get M he h : vget (hedges M) he = Some h -> he_face M he = Ret (face h).
Proof. intros H. unfold he_face, he_get. ounfold. now rewrite H. Qed.

Lemma face_loop_four M s h0 h1 h2 h3 fuel :
  (4 <= fuel)%nat ->
  vget (hedges M) s = Some h0 -> next h0 = s + 1 ->
  vget (hedges M) (s + 1) = Some h1 -> next h1 = s + 2 ->
  vget (hedges M) (s + 2) = Some h2 -> next h2 = s + 3 ->
  vget (hedges M) (s + 3) = Some h3 -> next h3 = s ->
  face_loop fuel M s s = Ret [s; s + 1; s + 2; s + 3].
Proof.
  intros Hf E0 N0 E1 N1 E2 N2 E3 N3.
  destruct fuel as [|[|[|[|k]]]]; try lia.
  cbn [face_loop].
  rewrite (M_next_get M _ _ E0), N0. ounfold.
  destruct (N.eqb_spec (s + 1) s); [lia|].
  rewrite (M_next_get M _ _ E1), N1.
  destruct (N.eqb_spec (s + 2) s); [lia|].
  rewrite (M_next_get M _ _ E2), N2.
  destruct (N.eqb_spec (s + 3) s); [lia|].
  rewrite (M_next_get M _ _ E3), N3. rewrite N.eqb_refl. reflexivity.
Qed.

(** X5. In the mesh that [createMeshHalfEdges] builds (with success or not)
    there is one face per input quad and four half edges per face: face [f]
    refers to the quad [f] of the input and starts at half edge [4f]; its
    loop of half edges is [4f, 4f+1, 4f+2, 4f+3], each of them knows [f] as
    its face, and the vertices at their tips stand for the corners 1, 2, 3, 0
    of the quad. *)
Theorem createMeshHalfEdges_faces
    (quadrangles : list MQuadrangle) (singularVertices : list N) (f : N) (q : MQuadrangle) :
  4 * N.of_nat (length quadrangles) < NO_ID ->
  vget quadrangles f = Some q ->
  let M := snd (createMeshHalfEdges quadrangles singularVertices) in
  vsize (faces M) = N.of_nat (length quadrangles)
  /\ vsize (hedges M) = 4 * N.of_nat (length quadrangles)
  /\ face_get M f = Ret (mkFace (4 * f) (q_ptr q))
  /\ face_halfedges M f = Ret [4 * f; 4 * f + 1; 4 * f + 2; 4 * f + 3]
  /\ map (he_face M) [4 * f; 4 * f + 1; 4 * f + 2; 4 * f + 3] = [Ret f; Ret f; Ret f; Ret f]
  /\ face_vertex_ptrs M f = Ret [q_v1 q; q_v2 q; q_v3 q; q_v0 q].
Proof.
  intros Hsz Hq. cbv zeta.
  destruct (createMeshHalfEdges_layout quadrangles singularVertices Hsz)
    as (HF & HH & HQ & _).
  set (M := snd (createMeshHalfEdges quadrangles singularVertices)) in *.
  split; [exact HF|]. split; [exact HH|].
  destruct (HQ f q Hq) as (Ef & H0 & H1 & H2 & H3).
  destruct H0 as (h0 & x0 & E0 & F0 & N0 & P0 & X0 & Q0).
  destruct H1 as (h1 & x1 & E1 & F1 & N1 & P1 & X1 & Q1).
  destruct H2 as (h2 & x2 & E2 & F2 & N2 & P2 & X2 & Q2).
  destruct H3 as (h3 & x3 & E3 & F3 & N3 & P3 & X3 & Q3).
  assert (Hget : face_get M f = Ret (mkFace (4 * f) (q_ptr q))).
  { unfold face_get. ounfold. now rewrite Ef. }
  assert (Hloop : face_halfedges M f = Ret [4 * f; 4 * f + 1; 4 * f + 2; 4 * f + 3]).
  { unfold face_halfedges. rewrite Hget. ounfold. cbn [f_he].
    eapply face_loop_four; eauto.
    unfold walk_fuel. apply vget_Some_lt in E3. unfold vsize in E3. lia. }
  split; [exact Hget|]. split; [exact Hloop|]. split.
  - cbn [map]. rewrite (he_face_get M _ _ E0), (he_face_get M _ _ E1),
      (he_face_get M _ _ E2), (he_face_get M _ _ E3). congruence.
  - unfold face_vertex_ptrs, face_vertices. rewrite Hloop. ounfold. cbn [ofold].
    rewrite (he_vertex_get M _ _ E0). ounfold.
    rewrite (he_vertex_get M _ _ E1). ounfold.
    rewrite (he_vertex_get M _ _ E2). ounfold.
    rewrite (he_vertex_get M _ _ E3). ounfold. cbn [app ofold].
    unfold vertex_get. ounfold. rewrite X0, X1, X2, X3. cbn [app].
    congruence.
Qed.

Lemma createMeshHalfEdges_faces_witness :
  (4 * N.of_nat (length (grid 2 2)) < NO_ID
   /\ vget (grid 2 2) 3 = Some (mkQuad 3 4 5 8 7))
  /\ face_halfedges grid22 3 = Ret [12; 13; 14; 15]
  /\ face_vertex_ptrs grid22 3 = Ret [5; 8; 7; 4].
Proof.
  assert (H1 : 4 * N.of_nat (length (grid 2 2)) < NO_ID) by (vm_compute; reflexivity).
  assert (H2 : vget (grid 2 2) 3 = Some (mkQuad 3 4 5 8 7)) by (vm_compute; reflexivity).
  split; [split; assumption|].
  destruct (createMeshHalfEdges_faces (grid 2 2) [] 3 _ H1 H2) as (_ & _ & _ & A & _ & B).
  split; [exact A | exact B].
Defined.

Lemma quad_layout_tip vs hs fs f q i h x :
  quad_layout vs hs fs f q ->
  4 * f <= i < 4 * f + 4 ->
  vget hs i = Some h -> vget vs (vertex h) = Some x ->
  In (v_ptr x) (quad_vertices q).
Proof.
  intros (_ & H0 & H1 & H2 & H3) Hi Eh Ex.
  assert (Hk : i = 4 * f \/ i = 4 * f + 1 \/ i = 4 * f + 2 \/ i = 4 * f + 3) by lia.
  unfold quad_vertices.
  destruct Hk as [Hk|[Hk|[Hk|Hk]]]; subst i.
  - destruct H0 as (h' & x' & E' & _ & _ & _ & X' & P').
    rewrite Eh in E'. inversion E'; subst h'. rewrite Ex in X'. inversion X'; subst x'.
    rewrite P'. simpl. auto.
  - destruct H1 as (h' & x' & E' & _ & _ & _ & X' & P').
    rewrite Eh in E'. inversion E'; subst h'. rewrite Ex in X'. inversion X'; subst x'.
    rewrite P'. simpl. auto.
  - destruct H2 as (h' & x' & E' & _ & _ & _ & X' & P').
    rewrite Eh in E'. inversion E'; subst h'. rewrite Ex in X'. inversion X'; subst x'.
    rewrite P'. simpl. auto.
  - destruct H3 as (h' & x' & E' & _ & _ & _ & X' & P').
    rewrite Eh in E'. inversion E'; subst h'. rewrite Ex in X'. inversion X'; subst x'.
    rewrite P'. simpl. auto.
Qed.

Lemma vget_In {A : Type} (l : list A) (i : N) (x : A) : vget l i = Some x -> In x l.
Proof.
  revert i. induction l as [|y t IH]; intros i H; simpl in H; [discriminate|].
  destruct (i =? 0); [inversion H; now left | right; eauto].
Qed.

Lemma In_vget {A : Type} (l : list A) (x : A) : In x l -> exists i, vget l i = Some x.
Proof.
  induction l as [|y t IH]; intros H; [contradiction|].
  destruct H as [->|H]; [exists 0; reflexivity|].
  destruct (IH H) as [i Hi]. exists (i + 1). rewrite vget_cons_pos by lia.
  now replace (i + 1 - 1) with i by lia.
Qed.

(** X6. The vertices of the mesh that [createMeshHalfEdges] builds are the
    corners of the input quads, each [MVertex*] once: every vertex refers to
    a half edge that points to it and stands for a corner of some quad, no
    two vertices stand for the same [MVertex*], and every corner of every
    quad has its vertex. *)
Theorem createMeshHalfEdges_vertices
    (quadrangles : list MQuadrangle) (singularVertices : list N) :
  4 * N.of_nat (length quadrangles) < NO_ID ->
  let M := snd (createMeshHalfEdges quadrangles singularVertices) in
  (forall v x, vget (vertices M) v = Some x ->
     v_he x <> NO_ID
     /\ he_vertex M (v_he x) = Ret v
     /\ (exists q, In q quadrangles /\ In (v_ptr x) (quad_vertices q))
     /\ (forall w y, vget (vertices M) w = Some y -> v_ptr y = v_ptr x -> w = v))
  /\ (forall q p, In q quadrangles -> In p (quad_vertices q) ->
        exists v x, vget (vertices M) v = Some x /\ v_ptr x = p).
Proof.
  intros Hsz. cbv zeta.
  destruct (createMeshHalfEdges_layout quadrangles singularVertices Hsz)
    as (HF & HH & HQ & HV).
  set (M := snd (createMeshHalfEdges quadrangles singularVertices)) in *.
  split.
  - intros v x Hx. destruct (HV v x Hx) as (Hne & (h & Eh & Vh) & Hinj).
    split; [exact Hne|]. split; [rewrite (he_vertex_get M _ _ Eh); congruence|].
    split; [|exact Hinj].
    pose proof (vget_Some_lt _ _ _ Eh) as Hlt. rewrite HH in Hlt.
    remember (v_he x) as i eqn:Ei. clear Ei.
    assert (Hf : i / 4 < vsize quadrangles).
    { unfold vsize. apply N.Div0.div_lt_upper_bound. lia. }
    destruct (vget_lt _ _ Hf) as [q Hq]. exists q. split; [eapply vget_In; eauto|].
    eapply (quad_layout_tip _ _ _ (i / 4) q i h x (HQ _ _ Hq)); [|exact Eh|congruence].
    pose proof (N.Div0.div_mod i 4) as Hd.
    pose proof (N.mod_upper_bound i 4 ltac:(lia)) as Hm.
    clear -Hd Hm. remember (i / 4) as d eqn:Ed. remember (i mod 4) as r eqn:Er.
    clear Ed Er. lia.
  - intros q p Hq Hp. apply In_vget in Hq. destruct Hq as [f Hf].
    destruct (HQ f q Hf) as (_ & H0 & H1 & H2 & H3).
    unfold quad_vertices in Hp. simpl in Hp.
    destruct Hp as [<-|[<-|[<-|[<-|[]]]]].
    + destruct H3 as (h & x & _ & _ & _ & _ & X & P). eauto.
    + destruct H0 as (h & x & _ & _ & _ & _ & X & P). eauto.
    + destruct H1 as (h & x & _ & _ & _ & _ & X & P). eauto.
    + destruct H2 as (h & x & _ & _ & _ & _ & X & P). eauto.
Qed.

Lemma createMeshHalfEdges_vertices_witness :
  4 * N.of_nat (length (grid 2 2)) < NO_ID
  /\ exists v x, vget (vertices grid22) v = Some x /\ v_ptr x = 8.
Proof.
  assert (H1 : 4 * N.of_nat (length (grid 2 2)) < NO_ID) by (vm_compute; reflexivity).
  split; [exact H1|].
  apply (proj2 (createMeshHalfEdges_vertices (grid 2 2) [] H1) (mkQuad 3 4 5 8 7) 8).
  - vm_compute. tauto.
  - vm_compute. tauto.
Defined.

(** X7. After a successful [createMeshHalfEdges] the vertices flagged
    [isSingularity] are those whose [MVertex*] is listed in
    [singularVertices]; when it fails none is flagged. *)
Theorem createMeshHalfEdges_flags
    (quadrangles : list MQuadrangle) (singularVertices : list N) (v : N) (x : Vertex) :
  4 * N.of_nat (length quadrangles) < NO_ID ->
  vget (vertices (snd (createMeshHalfEdges quadrangles singularVertices))) v = Some x ->
  (fst (createMeshHalfEdges quadrangles singularVertices) = 0%Z ->
     (isSingularity x = true <-> In (v_ptr x) singularVertices))
  /\ (fst (createMeshHalfEdges quadrangles singularVertices) <> 0%Z ->
        isSingularity x = false).
Proof.
  intros Hsz. pose proof (createMeshHalfEdges_builder quadrangles Hsz) as HL.
  unfold createMeshHalfEdges.
  set (b := foldl add_quad (mkBuilder [] [] [] ∅) quadrangles) in *.
  destruct HL as [HB HF HQ HV]. pose proof (bi_ptr _ _ HB) as Hptr.
  destruct (sort_unique_with_perm _) as [uniques old2new].
  destruct (fill_new2old _ _ _) as [T|]; simpl.
  - intros Hx. split; [intros _|intros Hc; contradiction].
    apply foldl_flag_inv in Hx. destruct Hx as (x0 & Ex0 & _ & Px & Sx).
    destruct (HV v x0 Ex0) as (A & B & _). simpl in A.
    rewrite Sx, Px. split.
    + intros [H|(mv & Hin & Hm)]; [congruence|].
      destruct (Hptr mv v Hm) as (x1 & Ex1 & Px1). rewrite Ex0 in Ex1.
      inversion Ex1; subst x1. rewrite Px1. exact Hin.
    + intros Hin. right. eauto.
  - intros Hx. split; [intros Hc; discriminate|intros _].
    destruct (HV v x Hx) as (_ & B & _). exact B.
Qed.

Lemma createMeshHalfEdges_flags_witness :
  (4 * N.of_nat (length (grid 3 3)) < NO_ID
   /\ vget (vertices grid33_sing) 10 = Some (mkVertex 17 true 10)
   /\ fst (createMeshHalfEdges (grid 3 3) [10]) = 0%Z)
  /\ In 10 [10].
Proof.
  assert (H1 : 4 * N.of_nat (length (grid 3 3)) < NO_ID) by (vm_compute; reflexivity).
  assert (H2 : vget (vertices (snd (createMeshHalfEdges (grid 3 3) [10]))) 10
               = Some (mkVertex 17 true 10)) by (vm_compute; reflexivity).
  assert (H3 : fst (createMeshHalfEdges (grid 3 3) [10]) = 0%Z) by (vm_compute; reflexivity).
  split; [split; [exact H1|split; [exact H2|exact H3]]|].
  apply (proj1 (createMeshHalfEdges_flags (grid 3 3) [10] 10 _ H1 H2) H3). reflexivity.
Defined.

(** ** Opposite half edges *)

Lemma fill_new2old_records old2new (len : nat) : forall (k : nat) (T T' : list si2),
  fill_new2old (map N.of_nat (seq k len)) old2new T = Some T' ->
  N.of_nat (k + len) <= NO_ID ->
  fill_inv old2new (N.of_nat k) T ->
  (forall i, i < N.of_nat k -> recorded old2new T i) ->
  forall i, i < N.of_nat (k + len) -> recorded old2new T' i.
Proof.
  induction len as [|len IH]; intros k T T' H Hb Hinv Hrec.
  - simpl in H. inversion H; subst. rewrite Nat.add_0_r. exact Hrec.
  - pose proof H as H0. simpl in H.
    fold (slot_of old2new (N.of_nat k)) in H.
    set (s := slot_of old2new (N.of_nat k)) in *.
    destruct (vget T s) as [[a b]|] eqn:Es; [|discriminate].
    assert (Hk : N.of_nat k <> NO_ID) by lia.
    replace (k + S len)%nat with (S k + len)%nat in * by lia.
    destruct (Hinv _ _ _ Es) as [Ha Hb'].
    assert (Hstep : forall T1,
              fill_new2old (map N.of_nat (seq k 1)) old2new T = Some T1 ->
              fill_inv old2new (N.of_nat (S k)) T1).
    { intros T1 E1. destruct (fill_new2old_inv old2new 1 k T T1 E1) as [HI _];
        [lia | exact Hinv |]. replace (k + 1)%nat with (S k) in HI by lia. exact HI. }
    assert (Hold : forall i, i < N.of_nat k -> i <> NO_ID) by (intros; lia).
    destruct (N.eqb_spec a NO_ID) as [Ea|Ea].
    + apply (IH (S k) _ T' H Hb).
      * apply Hstep. simpl.
        change (default NO_ID (vget old2new (N.of_nat k))) with s.
        rewrite Es. rewrite Ea, N.eqb_refl. reflexivity.
      * intros i Hi. destruct (N.eq_dec i (N.of_nat k)) as [->|Hik].
        -- exists (N.of_nat k), b. fold s.
           rewrite vget_vset_eq by (eapply vget_Some_lt; eauto). auto.
        -- assert (Hlt : i < N.of_nat k) by lia.
           destruct (Hrec i Hlt) as (a0 & b0 & E0 & R0).
           exists a0, b0. split; [|exact R0].
           rewrite vget_vset_neq; [exact E0|].
           intros Hs. rewrite <- Hs in E0. rewrite Es in E0. inversion E0; subst a0 b0.
           destruct R0 as [R0|R0].
           ++ apply (Hold i Hlt). congruence.
           ++ assert (Hbn : b <> NO_ID) by (rewrite <- R0; auto).
              destruct (Hb' Hbn) as (_ & _ & Hc & _). contradiction.
    + destruct (N.eqb_spec b NO_ID) as [Eb|Eb]; [|discriminate].
      apply (IH (S k) _ T' H Hb).
      * apply Hstep. simpl.
        change (default NO_ID (vget old2new (N.of_nat k))) with s.
        rewrite Es.
        destruct (N.eqb_spec a NO_ID); [contradiction|]. rewrite Eb, N.eqb_refl. reflexivity.
      * intros i Hi. destruct (N.eq_dec i (N.of_nat k)) as [->|Hik].
        -- exists a, (N.of_nat k). fold s.
           rewrite vget_vset_eq by (eapply vget_Some_lt; eauto). auto.
        -- assert (Hlt : i < N.of_nat k) by lia.
           destruct (Hrec i Hlt) as (a0 & b0 & E0 & R0).
           destruct (N.eq_dec (slot_of old2new i) s) as [Hs|Hs].
           ++ rewrite Hs in E0. rewrite Es in E0. inversion E0; subst a0 b0.
              exists a, (N.of_nat k). rewrite Hs.
              rewrite vget_vset_eq by (eapply vget_Some_lt; eauto).
              split; [reflexivity|]. destruct R0 as [R0|R0]; [now left|].
              exfalso. apply (Hold i Hlt). congruence.
           ++ exists a0, b0. split; [|exact R0].
              rewrite vget_vset_neq; [exact E0|]. congruence.
Qed.

Lemma vget_map_iota {A : Type} (f : N -> A) (n : nat) (i : N) :
  i < N.of_nat n -> vget (map f (iota n)) i = Some (f i).
Proof.
  induction n as [|n IH]; intros Hi; [lia|].
  unfold iota in *. rewrite seq_S, !map_app. simpl.
  assert (Hsz : vsize (map f (map N.of_nat (seq 0 n))) = N.of_nat n).
  { unfold vsize. now rewrite !length_map, length_seq. }
  destruct (N.eq_dec i (N.of_nat n)) as [->|Hne].
  - pose proof (vget_block0 (map f (map N.of_nat (seq 0 n))) (f (N.of_nat n)) []) as Hb.
    rewrite Hsz in Hb. exact Hb.
  - rewrite vget_app_l by (rewrite Hsz; lia). apply IH. lia.
Qed.

Lemma hedge_at_keeps hs hs' i :
  keeps_fields hs hs' ->
  prev (hedge_at hs' i) = prev (hedge_at hs i)
  /\ vertex (hedge_at hs' i) = vertex (hedge_at hs i).
Proof.
  intros [L K]. unfold hedge_at. destruct (vget hs i) as [h|] eqn:E.
  - destruct (K i h E) as (h' & E' & P & _ & V & _). rewrite E'. simpl. auto.
  - assert (vget hs' i = None) as ->; [|auto].
    destruct (vget hs' i) eqn:E'; [|reflexivity].
    apply vget_Some_lt in E'. unfold vsize in E'. rewrite L in E'.
    destruct (vget_lt hs i E') as [x Hx]. congruence.
Qed.

Lemma vPair_of_keeps hs hs' i :
  keeps_fields hs hs' -> vPair_of hs' i = vPair_of hs i.
Proof.
  intros K. unfold vPair_of.
  destruct (hedge_at_keeps hs hs' i K) as [P V]. rewrite P, V.
  destruct (hedge_at_keeps hs hs' (prev (hedge_at hs i)) K) as [_ V']. now rewrite V'.
Qed.

(** X8. After a successful [createMeshHalfEdges], the opposite of a half
    edge is another half edge between the same two vertices, and a half edge
    has no opposite ([NO_ID]) exactly when no other half edge runs between
    its two vertices. *)
Theorem createMeshHalfEdges_opposite
    (quadrangles : list MQuadrangle) (singularVertices : list N) (M : MeshHalfEdges)
    (he : N) (h : HalfEdge) :
  4 * N.of_nat (length quadrangles) < NO_ID ->
  createMeshHalfEdges quadrangles singularVertices = (0%Z, M) ->
  vget (hedges M) he = Some h ->
  (opposite h <> NO_ID ->
     opposite h <> he /\ opposite h < vsize (hedges M)
     /\ vPair_of (hedges M) (opposite h) = vPair_of (hedges M) he)
  /\ (opposite h = NO_ID ->
        forall i, i < vsize (hedges M) -> i <> he ->
          vPair_of (hedges M) i <> vPair_of (hedges M) he).
Proof.
  intros Hsz. unfold createMeshHalfEdges.
  set (b := foldl add_quad (mkBuilder [] [] [] ∅) quadrangles).
  destruct (build_hedges quadrangles (mkBuilder [] [] [] ∅)) as (Hnp & Hno & Hlen).
  { intros i x H. discriminate. }
  { intros i x H. discriminate. }
  { simpl. unfold vsize, NO_ID, SIZE_MOD in *. simpl. lia. }
  fold b in Hnp, Hno, Hlen. simpl in Hlen. change (vsize []) with 0 in Hlen.
  rewrite N.add_0_l in Hlen.
  set (hs := b_hedges b) in *.
  set (vp := map (vPair_of hs) (iota (length hs))).
  destruct (sort_unique_with_perm_classes vp) as [_ Hcls].
  assert (Hvp : vsize vp = vsize hs).
  { unfold vp, vsize. now rewrite length_map, iota_length. }
  assert (Hkey : forall i, i < vsize hs -> key_of vp i = vPair_of hs i).
  { intros i Hi. unfold key_of, vp. rewrite vget_map_iota by exact Hi. reflexivity. }
  destruct (sort_unique_with_perm vp) as [uniques old2new]. cbn [fst snd] in Hcls.
  destruct (fill_new2old _ _ _) as [T|] eqn:EF; [|intros H; inversion H].
  intros H; inversion H; subst M; clear H. cbn [hedges].
  unfold iota in EF.
  pose proof EF as EF'.
  apply fill_new2old_inv in EF; [| unfold vsize in Hlen; lia | apply fill_inv_init].
  destruct EF as [HT HTl]. simpl in HT. rewrite repeat_length in HTl.
  assert (Hrec : forall i, i < vsize hs -> recorded old2new T i).
  { intros i Hi.
    apply (fill_new2old_records old2new (length hs) 0 _ T EF');
      [unfold vsize in Hlen; lia | apply fill_inv_init | intros j Hj; lia | exact Hi]. }
  pose proof (foldl_link_inv old2new T (vsize hs) HT (length uniques) 0
                hs (link_inv_init _ _ Hno)) as (Hn & K1 & K2).
  fold (iota (length uniques)) in Hn, K1, K2. simpl in K1, K2.
  pose proof (foldl_link_keeps T (iota (length uniques)) hs) as KF.
  set (hs' := foldl (link_pair T) hs (iota (length uniques))) in *.
  assert (Hpair : forall i, vPair_of hs' i = vPair_of hs i)
    by (intros i; apply vPair_of_keeps, KF).
  intros Hhe. rewrite !Hpair.
  assert (Hhlt : he < vsize hs) by (rewrite <- Hn; eapply vget_Some_lt; eauto).
  split.
  - intros Ho. destruct (K1 he h Hhe Ho) as (s & a0 & b0 & Hs & Hf & R).
    destruct (full_slot_facts old2new T (vsize hs) HT s a0 b0 Hf)
      as (Sa & Sb & La & Lb & Hab).
    rewrite Hn.
    assert (Hsl : slot_of old2new (opposite h) = slot_of old2new he
                  /\ opposite h < vsize hs /\ opposite h <> he).
    { destruct R as [[-> ->]|[-> ->]]; repeat split; congruence. }
    destruct Hsl as (Hsl & Hol & Hne).
    split; [exact Hne|]. split; [exact Hol|].
    rewrite <- !Hkey by assumption. apply Hcls; [rewrite Hvp; exact Hol | rewrite Hvp; exact Hhlt|].
    exact Hsl.
  - intros Ho i Hi Hne Heq. rewrite Hn in Hi. rewrite Hpair in Heq.
    rewrite <- !Hkey in Heq by assumption.
    apply Hcls in Heq; [|rewrite Hvp; exact Hi | rewrite Hvp; exact Hhlt].
    destruct (Hrec he Hhlt) as (a0 & b0 & E0 & R0).
    destruct (Hrec i Hi) as (a1 & b1 & E1 & R1).
    rewrite Heq, E0 in E1. inversion E1; subst a1 b1.
    assert (Hb0 : he <> NO_ID /\ i <> NO_ID) by lia.
    assert (Hf : full_slot T (slot_of old2new he) a0 b0).
    { split; [exact E0|]. destruct R0 as [R0|R0], R1 as [R1|R1]; subst; try tauto;
        split; tauto. }
    assert (Hs : slot_of old2new he < N.of_nat (length uniques)).
    { apply vget_Some_lt in E0. unfold vsize in E0. rewrite HTl in E0. exact E0. }
    destruct (K2 _ _ _ Hs Hf) as [(ha & Ea & Oa) (hb & Eb & Ob)].
    destruct Hf as (_ & Na & Nb).
    destruct R0 as [R0|R0]; subst.
    + rewrite Hhe in Ea. inversion Ea; subst ha. congruence.
    + rewrite Hhe in Eb. inversion Eb; subst hb. congruence.
Qed.

Lemma createMeshHalfEdges_opposite_witness :
  (4 * N.of_nat (length (grid 2 2)) < NO_ID
   /\ createMeshHalfEdges (grid 2 2) [] = (0%Z, grid22)
   /\ vget (hedges grid22) 1 = Some (mkHalfEdge 0 2 7 2 0)
   /\ vget (hedges grid22) 0 = Some (mkHalfEdge 3 1 NO_ID 1 0))
  /\ vPair_of (hedges grid22) 7 = vPair_of (hedges grid22) 1
  /\ vPair_of (hedges grid22) 3 <> vPair_of (hedges grid22) 0.
Proof.
  assert (H1 : 4 * N.of_nat (length (grid 2 2)) < NO_ID) by (vm_compute; reflexivity).
  assert (H2 : createMeshHalfEdges (grid 2 2) [] = (0%Z, grid22))
    by (vm_compute; reflexivity).
  assert (H3 : vget (hedges grid22) 1 = Some (mkHalfEdge 0 2 7 2 0))
    by (vm_compute; reflexivity).
  assert (H4 : vget (hedges grid22) 0 = Some (mkHalfEdge 3 1 NO_ID 1 0))
    by (vm_compute; reflexivity).
  split; [repeat split; assumption|]. split.
  - destruct (createMeshHalfEdges_opposite _ _ _ _ _ H1 H2 H3) as [A _].
    apply A. vm_compute. discriminate.
  - destruct (createMeshHalfEdges_opposite _ _ _ _ _ H1 H2 H4) as [_ B].
    apply B; [reflexivity | vm_compute; reflexivity | vm_compute; discriminate].
Defined.

(** ** growByFlip and the length of the boundary *)

Lemma vfind_lt (h : list N) (x k : N) : vfind h x = Some k -> k < vsize h.
Proof.
  revert k. induction h as [|y t IH]; intros k H; simpl in H; [discriminate|].
  rewrite vsize_cons. destruct (y =? x); [inversion H; lia|].
  destruct (vfind t x) as [j|]; [|discriminate].
  inversion H; subst. specialize (IH j eq_refl). lia.
Qed.

Lemma verase_size {A : Type} (h : list A) (k : N) :
  k < vsize h -> vsize (verase h k) + 1 = vsize h.
Proof.
  revert k. induction h as [|y t IH]; intros k Hk.
  - unfold vsize in Hk. simpl in Hk. lia.
  - rewrite vsize_cons in *. simpl. destruct (N.eqb_spec k 0); [lia|].
    rewrite vsize_cons. rewrite <- (IH (N.pred k)) by lia. lia.
Qed.

Lemma find_erase_size (h h' : list N) (x : N) :
  find_erase h x = Ret h' -> vsize h' + 1 = vsize h.
Proof.
  unfold find_erase. destruct (vfind h x) as [k|] eqn:E; [|discriminate].
  intros H; inversion H; subst. apply verase_size. eapply vfind_lt; eauto.
Qed.

Lemma vinsert2_size (h : list N) (i a b : N) : vsize (vinsert2 h i a b) = vsize h + 2.
Proof.
  unfold vinsert2, vsize. rewrite !length_app. simpl.
  rewrite length_take, length_drop. lia.
Qed.

Section FlipSize.
Variable M : MeshHalfEdges.
Variable cav : FCavity.

Lemma flip_minus2_size info rej he_nv pos he_new e1 e2 b cav' info' :
  flip_minus2 M cav info rej he_nv pos he_new e1 e2 = Ret (b, cav', info') ->
  side cav' = side cav
  /\ (b = true -> vsize (hes cav') + 2 = vsize (hes cav)).
Proof.
  unfold flip_minus2, oand, oor. ounfold. intros H.
  osteps H; inversion H; subst; simpl; split; auto; try discriminate.
  all: intros _;
    repeat match goal with
           | E : find_erase _ _ = Ret _ |- _ => apply find_erase_size in E
           end;
    rewrite ?vsize_vset in *; lia.
Qed.

Lemma flip_same_size info rej nv nvIn p1 a1 p2 a2 b cav' info' :
  flip_same M cav info rej nv nvIn p1 a1 p2 a2 = Ret (b, cav', info') ->
  side cav' = side cav
  /\ (b = true -> vsize (hes cav') = vsize (hes cav)).
Proof.
  unfold flip_same, oand. ounfold. intros H.
  osteps H; inversion H; subst; simpl; split; auto; try discriminate.
  all: intros _; now rewrite !vsize_vset.
Qed.

Lemma flip_plus2_size info rej i he0 he1 he2 he3 h1 h2 b cav' info' :
  flip_plus2 M cav info rej i he0 he1 he2 he3 h1 h2 = Ret (b, cav', info') ->
  side cav' = side cav
  /\ (b = true -> vsize (hes cav') = vsize (hes cav) + 2).
Proof.
  unfold flip_plus2, oand, oor. ounfold. intros H.
  osteps H; inversion H; subst; simpl; split; auto; try discriminate.
  all: intros _; now rewrite vinsert2_size, vsize_vset.
Qed.

Lemma flip_close_side info rej h0 a b c d r :
  flip_close M cav info rej h0 a b c d = Ret r -> side (snd (fst r)) = side cav.
Proof.
  unfold flip_close, oand, oor. ounfold. intros H.
  osteps H; inversion H; subst; simpl; auto.
Qed.

End FlipSize.

(** X9. [growByFlip] never touches [side].  A successful flip outside the
    closing-a-hole configuration changes the number of boundary half edges
    by -2 when two of the three other neighbours of the absorbed quad are
    inside, by 0 when the next or the previous one alone is inside, and by
    +2 when none is; the configuration where only the neighbour across is
    inside is never flipped. *)
Theorem growByFlip_boundary_size
    (M : MeshHalfEdges) (cav : FCavity) (i : N) (info : FlipInfo) (rej : bool)
    (b : bool) (cav' : FCavity) (info' : FlipInfo) :
  growByFlip M cav i info rej = Ret (b, cav', info') ->
  side cav' = side cav
  /\ (b = true ->
        exists cfg, flip_config M cav i = Ret (Some cfg)
          /\ cfg <> (false, true, false)
          /\ forall d, boundary_change cfg = Some d ->
               Z.of_N (vsize (hes cav')) = (Z.of_N (vsize (hes cav)) + d)%Z).
Proof.
  unfold growByFlip, flip_config.
  destruct (vget (hes cav) i) as [he0_op|] eqn:Ei.
  2:{ intros H; inversion H; subst. split; [reflexivity|discriminate]. }
  ounfold. unfold M_opposite. ounfold.
  destruct (he_get M he0_op) as [x| | |] eqn:E0; try discriminate. simpl.
  destruct (opposite x =? NO_ID) eqn:En.
  { intros H; inversion H; subst. split; [reflexivity|discriminate]. }
  destruct (he_get M (opposite x)) as [h0| | |] eqn:Eh0; try discriminate.
  destruct (he_get M (next h0)) as [h1| | |] eqn:Eh1; try discriminate.
  destruct (he_get M (next h1)) as [h2| | |] eqn:Eh2; try discriminate.
  destruct (he_get M (next h2)) as [h3| | |] eqn:Eh3; try discriminate.
  destruct (face_or_none M (opposite h1)) as [q1| | |] eqn:Eq1; try discriminate.
  destruct (face_or_none M (opposite h2)) as [q2| | |] eqn:Eq2; try discriminate.
  destruct (face_or_none M (opposite h3)) as [q3| | |] eqn:Eq3; try discriminate.
  destruct (qin cav q1), (qin cav q2), (qin cav q3); simpl; intros H.
  - apply flip_close_side in H. simpl in H. split; [exact H|].
    intros _. eexists; split; [reflexivity|]. split; [discriminate|]. intros d Hd. discriminate.
  - apply flip_minus2_size in H. destruct H as [Hs Hz]. split; [exact Hs|].
    intros Hb. eexists; split; [reflexivity|]. split; [discriminate|].
    intros d Hd. inversion Hd; subst d. specialize (Hz Hb). lia.
  - apply flip_minus2_size in H. destruct H as [Hs Hz]. split; [exact Hs|].
    intros Hb. eexists; split; [reflexivity|]. split; [discriminate|].
    intros d Hd. inversion Hd; subst d. specialize (Hz Hb). lia.
  - apply flip_same_size in H. destruct H as [Hs Hz]. split; [exact Hs|].
    intros Hb. eexists; split; [reflexivity|]. split; [discriminate|].
    intros d Hd. inversion Hd; subst d. specialize (Hz Hb). lia.
  - apply flip_minus2_size in H. destruct H as [Hs Hz]. split; [exact Hs|].
    intros Hb. eexists; split; [reflexivity|]. split; [discriminate|].
    intros d Hd. inversion Hd; subst d. specialize (Hz Hb). lia.
  - inversion H; subst. split; [reflexivity|discriminate].
  - apply flip_same_size in H. destruct H as [Hs Hz]. split; [exact Hs|].
    intros Hb. eexists; split; [reflexivity|]. split; [discriminate|].
    intros d Hd. inversion Hd; subst d. specialize (Hz Hb). lia.
  - apply flip_plus2_size in H. destruct H as [Hs Hz]. split; [exact Hs|].
    intros Hb. eexists; split; [reflexivity|]. split; [discriminate|].
    intros d Hd. inversion Hd; subst d. specialize (Hz Hb). lia.
Qed.

Lemma growByFlip_boundary_size_witness :
  growByFlip grid33 (mkCavity [16; 17; 18; 19] [] {[ 4 ]}) 0 FlipInfo_init true
    = Ret (true, mkCavity [7; 4; 5; 17; 18; 19] [] ({[ 1 ]} ∪ {[ 4 ]}),
           mkFlipInfo 16 1 NO_NVS)
  /\ exists cfg, flip_config grid33 (mkCavity [16; 17; 18; 19] [] {[ 4 ]}) 0 = Ret (Some cfg)
       /\ cfg <> (false, true, false)
       /\ forall d, boundary_change cfg = Some d -> (6 = 4 + d)%Z.
Proof.
  assert (H : growByFlip grid33 (mkCavity [16; 17; 18; 19] [] {[ 4 ]}) 0
                FlipInfo_init true
              = Ret (true, mkCavity [7; 4; 5; 17; 18; 19] [] ({[ 1 ]} ∪ {[ 4 ]}),
                     mkFlipInfo 16 1 NO_NVS)) by (vm_compute; reflexivity).
  split; [exact H|].
  exact (proj2 (growByFlip_boundary_size _ _ _ _ _ _ _ _ H) eq_refl).
Defined.

(** ** orderedHalfEdgesFromStack and removeInteriorHalfEdges *)

Lemma find_next_he_spec M (stack : list N) (he v2 he2 : N) :
  find_next_he M stack he v2 = Ret (Some he2) ->
  In he2 stack /\ he2 <> he /\ M_vertex M he2 0 = Ret v2.
Proof.
  induction stack as [|x t IH]; simpl; [discriminate|].
  destruct (N.eqb_spec x he) as [->|Hne].
  - intros H. destruct (IH H) as (A & B & C). auto.
  - ounfold. destruct (M_vertex M x 0) as [w| | |] eqn:Ew; try discriminate.
    destruct (N.eqb_spec w v2) as [->|Hw].
    + intros H. inversion H; subst. auto.
    + intros H. destruct (IH H) as (A & B & C). auto.
Qed.

Lemma ordered_walk_spec M (stack : list N) (he0 : N) (fuel : nat) :
  forall he acc out,
    ordered_walk fuel M stack he0 he acc = Ret (true, out) ->
    exists mid,
      out = acc ++ he :: mid
      /\ (forall x, In x mid -> In x stack)
      /\ chained M (he :: mid)
      /\ exists lst v, last (he :: mid) = Some lst
           /\ M_vertex M lst 1 = Ret v /\ M_vertex M he0 0 = Ret v.
Proof.
  induction fuel as [|k IH]; intros he acc out H; simpl in H; [discriminate|].
  ounfold. destruct (M_vertex M he 1) as [v2| | |] eqn:Ev; try discriminate.
  destruct (find_next_he M stack he v2) as [[he2|]| | |] eqn:Ef; try discriminate.
  destruct (find_next_he_spec M stack he v2 he2 Ef) as (Hin & Hne & Hv).
  destruct (N.eqb_spec he2 he0) as [->|Hn0].
  - inversion H; subst out. exists []. split; [reflexivity|].
    split; [intros x []|]. split; [simpl; auto|].
    exists he, v2. auto.
  - destruct (IH _ _ _ H) as (mid & Eo & Hm & Hc & lst & v & Hl & Hv1 & Hv0).
    exists (he2 :: mid). split; [rewrite Eo, <- app_assoc; reflexivity|].
    split; [intros x [<-|Hx]; auto|].
    split; [split; [exists v2; auto | exact Hc]|].
    exists lst, v. split; [|auto]. rewrite last_cons. rewrite Hl. reflexivity.
Qed.

(** X10. [orderedHalfEdgesFromStack] fails on fewer than three half edges.
    When it succeeds, the ordered half edges are taken from the stack,
    begin with its first entry, each one starts at the vertex where the one
    before it ends, and the last one ends where the first one starts: they
    form one closed loop. *)
Theorem orderedHalfEdgesFromStack_loop
    (M : MeshHalfEdges) (hes_stack ordered : list N) (oks : bool) :
  orderedHalfEdgesFromStack M hes_stack = Ret (oks, ordered) ->
  (vsize hes_stack < 3 -> oks = false /\ ordered = [])
  /\ (oks = true ->
        3 <= vsize hes_stack
        /\ head ordered = head hes_stack
        /\ (forall he, In he ordered -> In he hes_stack)
        /\ chained M ordered
        /\ exists he0 lst v, head ordered = Some he0 /\ last ordered = Some lst
             /\ M_vertex M lst 1 = Ret v /\ M_vertex M he0 0 = Ret v).
Proof.
  unfold orderedHalfEdgesFromStack.
  destruct (N.ltb_spec (vsize hes_stack) 3) as [Hlt|Hge].
  - intros H; inversion H; subst. split; [auto|discriminate].
  - destruct hes_stack as [|he0 t]; [unfold vsize in Hge; simpl in Hge; lia|].
    intros H. split; [lia|]. intros ->.
    destruct (ordered_walk_spec M (he0 :: t) he0 _ _ _ _ H)
      as (mid & Eo & Hm & Hc & lst & v & Hl & Hv1 & Hv0).
    simpl in Eo. subst ordered.
    split; [exact Hge|]. split; [reflexivity|].
    split; [intros he [<-|Hx]; [now left|auto]|].
    split; [exact Hc|]. exists he0, lst, v. auto.
Qed.

Lemma orderedHalfEdgesFromStack_loop_witness :
  orderedHalfEdgesFromStack grid22 [2; 0; 3; 1] = Ret (true, [2; 3; 0; 1])
  /\ chained grid22 [2; 3; 0; 1].
Proof.
  assert (H : orderedHalfEdgesFromStack grid22 [2; 0; 3; 1] = Ret (true, [2; 3; 0; 1]))
    by (vm_compute; reflexivity).
  split; [exact H|].
  exact (proj1 (proj2 (proj2 (proj2
           (proj2 (orderedHalfEdgesFromStack_loop _ _ _ _ H) eq_refl))))).
Defined.

Lemma vfind_None (h : list N) (x : N) : vfind h x = None -> ~ In x h.
Proof.
  induction h as [|y t IH]; simpl; [tauto|].
  destruct (N.eqb_spec y x); [discriminate|].
  destruct (vfind t x); [discriminate|]. intros _ [H|H]; [congruence|]. now apply IH.
Qed.

Lemma verase_In {A : Type} (h : list A) (k : N) (x : A) : In x (verase h k) -> In x h.
Proof.
  revert k. induction h as [|y t IH]; intros k; simpl; [tauto|].
  destruct (k =? 0); [now right|]. intros [H|H]; [now left|right; eauto].
Qed.

Lemma verase_get_lt {A : Type} (h : list A) (k i : N) :
  i < k -> vget (verase h k) i = vget h i.
Proof.
  revert k i. induction h as [|y t IH]; intros k i Hik; simpl; [reflexivity|].
  destruct (N.eqb_spec k 0); [lia|]. simpl.
  destruct (N.eqb_spec i 0); [reflexivity|]. apply IH. lia.
Qed.

Lemma remove_interior_spec M (fuel : nat) : forall h pos r,
  (length h - N.to_nat pos < fuel)%nat ->
  (forall k he o, k < pos -> vget h k = Some he -> M_opposite M he = Ret o -> ~ In o h) ->
  remove_interior fuel M h pos = Ret r ->
  (forall he, In he r -> In he h)
  /\ (forall he o, In he r -> M_opposite M he = Ret o -> ~ In o r).
Proof.
  induction fuel as [|k IH]; intros h pos r Hf HP H; [lia|].
  simpl in H. destruct (vget h pos) as [he|] eqn:Ep.
  - ounfold. destruct (M_opposite M he) as [he_op| | |] eqn:Eo; try discriminate.
    pose proof (vget_Some_lt _ _ _ Ep) as Hpos. unfold vsize in Hpos.
    destruct (vfind h he_op) as [j|] eqn:Ej.
    + destruct (N.leb_spec j pos) as [Hle|Hgt]; [discriminate|].
      pose proof (vfind_lt _ _ _ Ej) as Hj. unfold vsize in Hj.
      pose proof (verase_size h j) as S1. unfold vsize in S1.
      pose proof (verase_size (verase h j) pos) as S2. unfold vsize in S2.
      apply IH in H.
      * destruct H as [A B]. split; [|exact B].
        intros x Hx. eapply verase_In, verase_In, A, Hx.
      * lia.
      * intros k0 x o Hk0 Hx Ho Hin.
        rewrite !verase_get_lt in Hx by lia.
        apply (HP k0 x o Hk0 Hx Ho). eapply verase_In, verase_In, Hin.
    + apply IH in H; [exact H | lia |].
      intros k0 x o Hk0 Hx Ho.
      destruct (N.eq_dec k0 pos) as [->|Hne].
      * rewrite Ep in Hx. inversion Hx; subst x. rewrite Eo in Ho. inversion Ho; subst o.
        now apply vfind_None.
      * apply (HP k0 x o); [lia | exact Hx | exact Ho].
  - inversion H; subst r. split; [auto|].
    intros he o Hin Ho. apply In_vget in Hin. destruct Hin as [k0 Hk0].
    apply (HP k0 he o); [|exact Hk0|exact Ho].
    apply vget_Some_lt in Hk0. destruct (N.lt_ge_cases k0 pos) as [|Hge]; [assumption|].
    exfalso. destruct (vget_lt h pos) as [y Hy]; [lia|]. congruence.
Qed.

(** X11. The half edges that [removeInteriorHalfEdges] leaves are taken from
    its input, and none of them has its opposite among them: what remains is
    the boundary of the region. *)
Theorem removeInteriorHalfEdges_boundary (M : MeshHalfEdges) (h r : list N) :
  removeInteriorHalfEdges M h = Ret r ->
  (forall he, In he r -> In he h)
  /\ (forall he o, In he r -> M_opposite M he = Ret o -> ~ In o r).
Proof.
  unfold removeInteriorHalfEdges. intros H.
  eapply remove_interior_spec; [| |exact H]; [lia|].
  intros k he o Hk. lia.
Qed.

Lemma removeInteriorHalfEdges_boundary_witness :
  removeInteriorHalfEdges grid22 [0; 1; 2; 3; 4; 5; 6; 7] = Ret [0; 2; 3; 4; 5; 6]
  /\ forall o, M_opposite grid22 2 = Ret o -> ~ In o [0; 2; 3; 4; 5; 6].
Proof.
  assert (H : removeInteriorHalfEdges grid22 [0; 1; 2; 3; 4; 5; 6; 7]
              = Ret [0; 2; 3; 4; 5; 6]) by (vm_compute; reflexivity).
  split; [exact H|].
  intros o. apply (proj2 (removeInteriorHalfEdges_boundary _ _ _ H) 2 o).
  simpl. tauto.
Defined.

(** ** The adjacency map under addToAdjacencyList and removeElement *)

Lemma count_occ_erase_first (x p : N) (l : list N) :
  List.count_occ N.eq_dec (erase_first x l) p
  = (List.count_occ N.eq_dec l p - (if (p =? x)%N then 1 else 0))%nat.
Proof.
  induction l as [|y t IH]; simpl; [reflexivity|].
  destruct (N.eqb_spec y x) as [->|Hyx].
  - destruct (N.eq_dec x p) as [->|Hxp].
    + rewrite N.eqb_refl. lia.
    + destruct (N.eqb_spec p x); [congruence|]. lia.
  - simpl. destruct (N.eq_dec y p) as [->|Hyp].
    + destruct (N.eqb_spec p x); [congruence|]. rewrite IH.
      destruct (N.eqb_spec p x); [congruence|]. lia.
    + exact IH.
Qed.

Lemma count_occ_repeat (x p : N) (k : nat) :
  List.count_occ N.eq_dec (repeat x k) p = if p =? x then k else 0%nat.
Proof.
  induction k as [|k IH]; simpl; [destruct (p =? x); reflexivity|].
  destruct (N.eq_dec x p) as [->|Hne].
  - rewrite N.eqb_refl in *. now rewrite IH.
  - destruct (N.eqb_spec p x); [congruence|]. exact IH.
Qed.

Lemma addToAdjacencyList_list (ptr : N) (vs : list N) : forall adj v,
  adj_list (foldl (fun (adj : gmap N (list N)) w =>
                     <[w := default [] (adj !! w) ++ [ptr]]> adj) adj vs) v
  = adj_list adj v ++ repeat ptr (List.count_occ N.eq_dec vs v).
Proof.
  induction vs as [|w t IH]; intros adj v; simpl; [now rewrite app_nil_r|].
  rewrite IH. unfold adj_list at 1. destruct (N.eq_dec w v) as [->|Hne].
  - rewrite lookup_insert_eq. simpl. fold (adj_list adj v).
    rewrite <- app_assoc. reflexivity.
  - rewrite lookup_insert_ne by exact Hne. reflexivity.
Qed.

Lemma removeElement_list (ptr : N) (vs : list N) : forall adj v,
  adj_list (foldl (fun (adj : gmap N (list N)) w =>
                     match adj !! w with
                     | Some l => <[w := erase_first ptr l]> adj
                     | None => adj
                     end) adj vs) v
  = Nat.iter (List.count_occ N.eq_dec vs v) (erase_first ptr) (adj_list adj v).
Proof.
  induction vs as [|w t IH]; intros adj v; simpl; [reflexivity|].
  rewrite IH. destruct (N.eq_dec w v) as [->|Hne].
  - rewrite Nat.iter_succ_r. f_equal. unfold adj_list.
    destruct (adj !! v) as [l|] eqn:E; [now rewrite lookup_insert_eq|].
    rewrite E. reflexivity.
  - f_equal. unfold adj_list. destruct (adj !! w) as [l|]; [|reflexivity].
    now rewrite lookup_insert_ne by exact Hne.
Qed.

Lemma count_occ_iter_erase (x p : N) (k : nat) (l : list N) :
  List.count_occ N.eq_dec (Nat.iter k (erase_first x) l) p
  = (List.count_occ N.eq_dec l p - (if (p =? x)%N then k else 0))%nat.
Proof.
  induction k as [|k IH]; simpl; [destruct (p =? x); lia|].
  rewrite count_occ_erase_first, IH. destruct (p =? x); lia.
Qed.

Lemma addToAdjacencyList_count (e : MQuadrangle) (adj : gmap N (list N)) (v p : N) :
  List.count_occ N.eq_dec (adj_list (addToAdjacencyList e adj) v) p
  = (List.count_occ N.eq_dec (adj_list adj v) p
     + (if (q_ptr e =? p)%N then corner_times e v else 0))%nat.
Proof.
  unfold addToAdjacencyList. rewrite addToAdjacencyList_list, List.count_occ_app.
  rewrite count_occ_repeat. rewrite (N.eqb_sym p). reflexivity.
Qed.

Lemma removeElement_count (s : surface_mesh) (e : MQuadrangle) (v p : N) :
  List.count_occ N.eq_dec (adj_list (sm_adj (removeElement s e)) v) p
  = (List.count_occ N.eq_dec (adj_list (sm_adj s) v) p
     - (if (q_ptr e =? p)%N then corner_times e v else 0))%nat.
Proof.
  unfold removeElement. cbn [sm_adj]. rewrite removeElement_list, count_occ_iter_erase.
  rewrite (N.eqb_sym p). reflexivity.
Qed.

Lemma corners_in_app (qs1 qs2 : list MQuadrangle) (p v : N) :
  corners_in (qs1 ++ qs2) p v = (corners_in qs1 p v + corners_in qs2 p v)%nat.
Proof. induction qs1 as [|q t IH]; simpl; [reflexivity|]. rewrite IH. lia. Qed.

Lemma corners_in_erase (e : MQuadrangle) (qs : list MQuadrangle) (p v : N) :
  (forall q, In q qs -> q_ptr q = q_ptr e -> q = e) ->
  corners_in (erase_first_quad (q_ptr e) qs) p v
  = (corners_in qs p v - (if (q_ptr e =? p)%N then corner_times e v else 0))%nat.
Proof.
  induction qs as [|q t IH]; intros H; simpl; [reflexivity|].
  destruct (N.eqb_spec (q_ptr q) (q_ptr e)) as [Eq|Nq].
  - assert (q = e) by (apply H; [now left|exact Eq]). subst q.
    destruct (q_ptr e =? p); lia.
  - simpl. rewrite IH by (intros q' Hq'; apply H; now right).
    destruct (N.eqb_spec (q_ptr e) p) as [<-|Np]; [|lia].
    destruct (N.eqb_spec (q_ptr q) (q_ptr e)); [contradiction|]. lia.
Qed.

Lemma addToAdjacencyList_sync (qs : list MQuadrangle) (adj : gmap N (list N))
    (e : MQuadrangle) :
  adj_in_sync qs adj -> adj_in_sync (qs ++ [e]) (addToAdjacencyList e adj).
Proof.
  intros HS v p. rewrite addToAdjacencyList_count, HS, corners_in_app. simpl. lia.
Qed.

Lemma removeElement_sync (s : surface_mesh) (e : MQuadrangle) :
  adj_in_sync (gf_quadrangles s) (sm_adj s) ->
  (forall q, In q (gf_quadrangles s) -> q_ptr q = q_ptr e -> q = e) ->
  adj_in_sync (gf_quadrangles (removeElement s e)) (sm_adj (removeElement s e)).
Proof.
  intros HS H v p. rewrite removeElement_count, HS.
  unfold removeElement. cbn [gf_quadrangles]. now rewrite corners_in_erase.
Qed.

(** X12. The adjacency map follows the quads of the face.  If it lists for
    every vertex the quads that have it as a corner, it still does after a
    quad is pushed on the face and handed to [addToAdjacencyList], and after
    [removeElement] takes a quad away (a quad being known by its pointer);
    [removeElement] leaves the mesh vertices alone. *)
Theorem adjacency_stays_in_sync (s : surface_mesh) (e : MQuadrangle) :
  adj_in_sync (gf_quadrangles s) (sm_adj s) ->
  adj_in_sync (gf_quadrangles s ++ [e]) (addToAdjacencyList e (sm_adj s))
  /\ ((forall q, In q (gf_quadrangles s) -> q_ptr q = q_ptr e -> q = e) ->
        adj_in_sync (gf_quadrangles (removeElement s e)) (sm_adj (removeElement s e)))
  /\ gf_mesh_vertices (removeElement s e) = gf_mesh_vertices s.
Proof.
  intros HS. split; [|split; [|reflexivity]].
  - now apply addToAdjacencyList_sync.
  - intros H. now apply removeElement_sync.
Qed.

Lemma adjacency_stays_in_sync_witness :
  adj_in_sync (gf_quadrangles (mkSurface [] [] ∅)) (sm_adj (mkSurface [] [] ∅))
  /\ adj_in_sync [mkQuad 7 0 1 2 3] (addToAdjacencyList (mkQuad 7 0 1 2 3) ∅).
Proof.
  assert (H : adj_in_sync (gf_quadrangles (mkSurface [] [] ∅)) (sm_adj (mkSurface [] [] ∅))).
  { intros v p. reflexivity. }
  split; [exact H|].
  exact (proj1 (adjacency_stays_in_sync (mkSurface [] [] ∅) (mkQuad 7 0 1 2 3) H)).
Defined.

(** X13. Adding an element with [addToAdjacencyList] and removing it again
    with [removeElement] gives back the adjacency lists, up to the order of
    their entries, and, for an element whose pointer is not yet on the face,
    the quads of the face as they were. *)
Theorem add_then_removeElement (qs : list MQuadrangle) (vs : list N)
    (adj : gmap N (list N)) (e : MQuadrangle) :
  let s := removeElement (mkSurface (qs ++ [e]) vs (addToAdjacencyList e adj)) e in
  (forall v, Permutation (adj_list (sm_adj s) v) (adj_list adj v))
  /\ (~ In (q_ptr e) (map q_ptr qs) -> gf_quadrangles s = qs).
Proof.
  cbv zeta. split.
  - intros v. apply (Permutation_count_occ N.eq_dec). intros p.
    rewrite removeElement_count. cbn [sm_adj]. rewrite addToAdjacencyList_count. lia.
  - intros Hn. unfold removeElement. cbn [gf_quadrangles].
    induction qs as [|q t IH]; simpl.
    + now rewrite N.eqb_refl.
    + destruct (N.eqb_spec (q_ptr q) (q_ptr e)) as [Eq|Nq].
      * exfalso. apply Hn. simpl. now left.
      * f_equal. apply IH. intros Hin. apply Hn. simpl. now right.
Qed.

Lemma foldl_add_sync (new : list MQuadrangle) : forall qs adj,
  adj_in_sync qs adj ->
  adj_in_sync (qs ++ new) (foldl (fun adj nf => addToAdjacencyList nf adj) adj new).
Proof.
  induction new as [|e t IH]; intros qs adj HS; simpl; [now rewrite app_nil_r|].
  replace (qs ++ e :: t) with ((qs ++ [e]) ++ t) by now rewrite <- app_assoc.
  apply IH.
  now apply addToAdjacencyList_sync.
Qed.

Lemma erase_first_quad_In (x : N) (qs : list MQuadrangle) (q : MQuadrangle) :
  In q (erase_first_quad x qs) -> In q qs.
Proof.
  induction qs as [|y t IH]; simpl; [tauto|].
  destruct (q_ptr y =? x); [now right|]. intros [H|H]; [now left|right; auto].
Qed.

Lemma foldl_removeElement_sync (l : list MQuadrangle) : forall s,
  adj_in_sync (gf_quadrangles s) (sm_adj s) ->
  (forall e q, In e l -> In q (gf_quadrangles s) -> q_ptr q = q_ptr e -> q = e) ->
  adj_in_sync (gf_quadrangles (foldl removeElement s l)) (sm_adj (foldl removeElement s l))
  /\ (forall q, In q (gf_quadrangles (foldl removeElement s l)) -> In q (gf_quadrangles s))
  /\ gf_mesh_vertices (foldl removeElement s l) = gf_mesh_vertices s.
Proof.
  induction l as [|e t IH]; intros s HS H; simpl; [auto|].
  destruct (IH (removeElement s e)) as (A & B & C).
  - apply removeElement_sync; [exact HS|]. intros q Hq. apply H; [now left|exact Hq].
  - intros e' q He' Hq. apply H; [now right|].
    unfold removeElement in Hq. cbn [gf_quadrangles] in Hq.
    eapply erase_first_quad_In; eauto.
  - split; [exact A|]. split; [|exact C].
    intros q Hq. apply B in Hq. unfold removeElement in Hq. cbn [gf_quadrangles] in Hq.
    eapply erase_first_quad_In; eauto.
Qed.

Lemma removeVertex_sync (onFace : N -> bool) (s : surface_mesh) (v : N) :
  adj_in_sync (gf_quadrangles s) (sm_adj s) ->
  (forall p, corners_in (gf_quadrangles s) p v = 0%nat) ->
  adj_in_sync (gf_quadrangles (removeVertex onFace s v)) (sm_adj (removeVertex onFace s v)).
Proof.
  intros HS H0 w p. unfold removeVertex. cbn [gf_quadrangles sm_adj].
  unfold adj_list. destruct (N.eq_dec v w) as [->|Hne].
  - rewrite lookup_delete_eq. simpl. now rewrite H0.
  - rewrite lookup_delete_ne by exact Hne. apply HS.
Qed.

Lemma foldl_removeVertex_quads (onFace : N -> bool) (l : list N) : forall s,
  gf_quadrangles (foldl (removeVertex onFace) s l) = gf_quadrangles s.
Proof.
  induction l as [|v t IH]; intros s; simpl; [reflexivity|]. now rewrite IH.
Qed.

Lemma foldl_removeVertex_sync (onFace : N -> bool) (l : list N) : forall s,
  adj_in_sync (gf_quadrangles s) (sm_adj s) ->
  (forall v p, In v l -> corners_in (gf_quadrangles s) p v = 0%nat) ->
  adj_in_sync (gf_quadrangles (foldl (removeVertex onFace) s l))
              (sm_adj (foldl (removeVertex onFace) s l))
  /\ gf_quadrangles (foldl (removeVertex onFace) s l) = gf_quadrangles s.
Proof.
  induction l as [|v t IH]; intros s HS H; simpl; [auto|].
  destruct (IH (removeVertex onFace s v)) as (A & B).
  - apply removeVertex_sync; [exact HS|]. intros p. apply H. now left.
  - intros w p Hw. unfold removeVertex. cbn [gf_quadrangles]. apply H. now right.
  - split; [exact A|]. rewrite B. reflexivity.
Qed.


Lemma hex_surface_in_sync : adj_in_sync (gf_quadrangles hex_surface) (sm_adj hex_surface).
Proof.
  change (gf_quadrangles hex_surface) with ([] ++ hex_quads).
  replace (sm_adj hex_surface)
    with (foldl (fun adj nf => addToAdjacencyList nf adj) (∅ : gmap N (list N)) hex_quads)
    by (vm_compute; reflexivity).
  apply foldl_add_sync. intros v p. reflexivity.
Qed.


(** ** The irregularity energy *)

Lemma foldl_Z_nonneg {A : Type} (f : Z -> A -> Z) (l : list A) :
  (forall e x, (0 <= e)%Z -> (0 <= f e x)%Z) ->
  forall e0, (0 <= e0)%Z -> (0 <= foldl f e0 l)%Z.
Proof.
  intros Hf. induction l as [|x t IH]; intros e0 H0; simpl; [exact H0|].
  apply IH, Hf, H0.
Qed.

(** X15. The irregularity energy of a cavity is never negative: with the
    strict decrease of every accepted repair, a cavity cannot be repaired
    for ever. *)
Theorem irregularityEnergyOfCavity_nonneg
    (bnd : list N) (bndIdealValence : list Z) (bndAllowedValenceRange : list (Z * Z))
    (inside : list N) (quads : list MQuadrangle) :
  (0 <= irregularityEnergyOfCavity bnd bndIdealValence bndAllowedValenceRange
          inside quads)%Z.
Proof.
  unfold irregularityEnergyOfCavity. cbv zeta.
  apply foldl_Z_nonneg.
  - intros e v He. destruct (_ !! v) as [val|]; [|exact He].
    assert (0 <= (val - 4) ^ 2)%Z by (rewrite Z.pow_2_r; apply Z.square_nonneg).
    destruct (Z.ltb_spec 5 val); lia.
  - apply foldl_Z_nonneg; [|lia].
    intros e i He. destruct (_ !! _) as [val|]; [|exact He].
    set (ideal := default 0%Z (vget bndIdealValence i)).
    set (range := default (0%Z, 0%Z) (vget bndAllowedValenceRange i)).
    assert (0 <= (val - ideal) ^ 2)%Z by (rewrite Z.pow_2_r; apply Z.square_nonneg).
    destruct ((range.1 =? range.2)%Z && negb (val =? range.1)%Z); lia.
Qed.

(** ** The count of a smoothing pass *)

Lemma running_below_vset (l : list bool) (i : N) (b : bool) (k : nat) :
  N.of_nat k <= i -> running_below (vset l i b) k = running_below l k.
Proof.
  induction k as [|k IH]; intros Hk; simpl; [reflexivity|].
  rewrite IH by lia. rewrite vget_vset_neq by lia. reflexivity.
Qed.

Lemma running_below_le (l : list bool) (k : nat) : running_below l k <= N.of_nat k.
Proof.
  induction k as [|k IH]; simpl; [lia|].
  destruct (vget l (N.of_nat k)) as [[|]|]; lia.
Qed.

Lemma running_below_zero (l : list bool) (k : nat) :
  running_below l k = 0 <-> forall i, i < N.of_nat k -> vget l i <> Some true.
Proof.
  induction k as [|k IH]; simpl.
  - split; [intros _ i Hi; lia|reflexivity].
  - split.
    + intros H i Hi.
      assert (H0 : running_below l k = 0) by lia.
      destruct (N.eq_dec i (N.of_nat k)) as [->|Hne].
      * destruct (vget l (N.of_nat k)) as [[|]|]; [lia|discriminate|discriminate].
      * apply IH; [exact H0|lia].
    + intros H. assert (H0 : running_below l k = 0) by (apply IH; intros i Hi; apply H; lia).
      rewrite H0. specialize (H (N.of_nat k) ltac:(lia)).
      destruct (vget l (N.of_nat k)) as [[|]|]; [congruence|reflexivity|reflexivity].
Qed.

Section PassCount.
Variable D : Type.
Variable D0 : D.
Variables Dadd Dmul Dmax : D -> D -> D.
Variable Dlt : D -> D -> bool.
Variable P : Type.
Variable dist : P -> P -> D.
Variable kernel : bool -> N -> list P -> Z * P.
Variable usp : bool.
Variable local_dx_reduction : D.
Variable localAvgSize : list D.

Local Abbreviation step :=
  (smooth_vertex D Dadd Dmul Dmax Dlt P dist kernel usp local_dx_reduction localAvgSize).

Lemma kernelSmoothing_size (v : N) (ps : list P) :
  vsize (snd (kernelSmoothing P kernel usp v ps)) = vsize ps.
Proof.
  unfold kernelSmoothing. destruct (kernel usp v ps) as [status newPos].
  destruct (status =? KS_OK)%Z; cbn [snd]; [apply vsize_vset|reflexivity].
Qed.

Lemma smooth_vertex_count (st : smooth_iter D P) (k : nat) :
  N.of_nat k < vsize (it_points D P st) ->
  N.of_nat k < vsize localAvgSize ->
  it_count D P st = running_below (it_running D P st) k ->
  it_count D P (step st (N.of_nat k))
    = running_below (it_running D P (step st (N.of_nat k))) (S k)
  /\ vsize (it_points D P (step st (N.of_nat k))) = vsize (it_points D P st)
  /\ vsize (it_running D P (step st (N.of_nat k))) = vsize (it_running D P st).
Proof.
  intros Hp Ha Hc. unfold smooth_vertex. cbn [running_below].
  destruct (vget (it_running D P st) (N.of_nat k)) as [[|]|] eqn:Er.
  - destruct (vget_lt _ _ Hp) as [center Ec]. rewrite Ec.
    destruct (vget_lt _ _ Ha) as [avg Ea]. rewrite Ea.
    pose proof (kernelSmoothing_size (N.of_nat k) (it_points D P st)) as Hs.
    destruct (kernelSmoothing P kernel usp (N.of_nat k) (it_points D P st))
      as [status points]. cbn [snd] in Hs.
    pose proof (vget_Some_lt _ _ _ Er) as Hr.
    destruct (status =? KS_OK)%Z.
    + destruct (vget_lt points (N.of_nat k)) as [p Ep]; [lia|]. rewrite Ep.
      destruct (Dlt (dist center p) (Dmul local_dx_reduction avg)); cbn.
      * rewrite running_below_vset by lia. rewrite vget_vset_eq by exact Hr.
        rewrite vsize_vset. split; [lia|]. split; [exact Hs|reflexivity].
      * rewrite Er. split; [lia|]. split; [exact Hs|reflexivity].
    + cbn. rewrite running_below_vset by lia. rewrite vget_vset_eq by exact Hr.
      rewrite vsize_vset. split; [lia|]. split; [exact Hs|reflexivity].
  - rewrite Er. split; [lia|]. split; reflexivity.
  - rewrite Er. split; [lia|]. split; reflexivity.
Qed.

Lemma foldl_smooth_count (m : nat) : forall (k : nat) (st : smooth_iter D P),
  N.of_nat (k + m) <= vsize (it_points D P st) ->
  N.of_nat (k + m) <= vsize localAvgSize ->
  it_count D P st = running_below (it_running D P st) k ->
  let st' := foldl step st (map N.of_nat (seq k m)) in
  it_count D P st' = running_below (it_running D P st') (k + m)
  /\ vsize (it_points D P st') = vsize (it_points D P st)
  /\ vsize (it_running D P st') = vsize (it_running D P st).
Proof.
  induction m as [|m IH]; intros k st Hp Ha Hc; cbv zeta; simpl.
  - rewrite Nat.add_0_r. auto.
  - destruct (smooth_vertex_count st k) as (C1 & C2 & C3); [lia|lia|exact Hc|].
    destruct (IH (S k) (step st (N.of_nat k))) as (I1 & I2 & I3);
      [rewrite C2; lia | lia | exact C1 |].
    cbv zeta in I1, I2, I3.
    replace (k + S m)%nat with (S k + m)%nat by lia.
    split; [exact I1|]. split; congruence.
Qed.

End PassCount.

(** X16. At the end of a pass of the optimization loop of
    [smoothElementsWithLocalKernel], [count] is the number of free vertices
    that are still running; so the test [count == 0] stops the loop exactly
    when every free vertex is locked.  The pass changes the size of neither
    [running] nor [points]. *)
Theorem smooth_pass_count
    (D : Type) (D0 : D) (Dadd Dmul Dmax : D -> D -> D) (Dlt : D -> D -> bool)
    (P : Type) (dist : P -> P -> D) (kernel : bool -> N -> list P -> Z * P)
    (n : nat) (useStencilProjection : bool) (local_dx_reduction : D)
    (localAvgSize : list D) (running : list bool) (points : list P) :
  N.of_nat n <= vsize points ->
  N.of_nat n <= vsize localAvgSize ->
  let st := smooth_pass D D0 Dadd Dmul Dmax Dlt P dist kernel n useStencilProjection
              local_dx_reduction localAvgSize running points in
  it_count D P st = running_below (it_running D P st) n
  /\ (it_count D P st = 0
      <-> forall i, i < N.of_nat n -> vget (it_running D P st) i <> Some true)
  /\ vsize (it_running D P st) = vsize running
  /\ vsize (it_points D P st) = vsize points.
Proof.
  intros Hp Ha. cbv zeta. unfold smooth_pass.
  destruct (foldl_smooth_count D Dadd Dmul Dmax Dlt P dist kernel useStencilProjection
              local_dx_reduction localAvgSize n 0 (mkIter D P running points D0 D0 0))
    as (C1 & C2 & C3); [exact Hp | exact Ha | reflexivity |].
  cbv zeta in C1, C2, C3. simpl in C1. fold (iota n) in C1, C2, C3.
  split; [exact C1|]. split; [rewrite C1; apply running_below_zero|].
  split; [exact C3 | exact C2].
Qed.

Lemma smooth_pass_count_witness :
  (N.of_nat 1 <= vsize [8%Z] /\ N.of_nat 1 <= vsize [4%Z])
  /\ it_count Z Z
       (smooth_pass Z 0%Z Z.add Z.mul Z.max Z.ltb Z (fun a b => Z.abs (a - b))
          halve_kernel 1 false 1%Z [4%Z] [true] [4%Z]) = 0.
Proof.
  assert (H1 : N.of_nat 1 <= vsize [4%Z]) by (vm_compute; discriminate).
  split; [split; [vm_compute; discriminate|exact H1]|].
  apply (proj1 (proj2 (smooth_pass_count Z 0%Z Z.add Z.mul Z.max Z.ltb Z
                         (fun a b => Z.abs (a - b)) halve_kernel 1 false 1%Z [4%Z]
                         [true] [4%Z] H1 H1))).
  intros i Hi. assert (i = 0) by lia. subst i. vm_compute. discriminate.
Defined.

(** ** rotateCanonical *)

(** Case analysis on a comparison whose two sides are already evaluated. *)
Ltac split_ltb :=
  match goal with
  | |- context [(?x <? ?y)%Z] =>
      lazymatch y with
      | context [if _ then _ else _] => fail
      | _ => destruct (Z.ltb_spec x y); cbn [fst]
      end
  end.

(** X17. [rotateCanonical] returns a rotation of its argument that begins
    with its smallest entry; applying it twice changes nothing more; and two
    arrays that are rotations of one another, with one entry below the three
    others, have the same canonical form. *)
Theorem rotateCanonical_spec (a0 a1 a2 a3 : Z) :
  (a0 <= INT_MAX /\ a1 <= INT_MAX /\ a2 <= INT_MAX /\ a3 <= INT_MAX)%Z ->
  let a := (a0, a1, a2, a3) in
  (exists k, k < 4 /\ rotateCanonical a = rotate4 a k)
  /\ (forall lv, at4 (rotateCanonical a) 0 <= at4 a lv)%Z
  /\ rotateCanonical (rotateCanonical a) = rotateCanonical a
  /\ ((a0 < a1 /\ a0 < a2 /\ a0 < a3)%Z ->
        forall k, rotateCanonical (rotate4 a k) = a).
Proof.
  intros (H0 & H1 & H2 & H3). cbv zeta. unfold INT_MAX in *.
  split; [|split; [|split]].
  - unfold rotateCanonical. cbn [foldl at4 fst N.eqb Pos.eqb]. unfold INT_MAX.
    repeat split_ltb;
      eexists; (split; [|reflexivity]); lia.
  - intros lv.
    assert (Hlv : (at4 (a0, a1, a2, a3) lv = a0 \/ at4 (a0, a1, a2, a3) lv = a1
                   \/ at4 (a0, a1, a2, a3) lv = a2 \/ at4 (a0, a1, a2, a3) lv = a3)).
    { unfold at4. destruct (lv =? 0); [auto|]. destruct (lv =? 1); [auto|].
      destruct (lv =? 2); auto. }
    remember (at4 (a0, a1, a2, a3) lv) as x eqn:Ex. clear Ex.
    unfold rotateCanonical. cbn [foldl at4 fst N.eqb Pos.eqb].
    unfold INT_MAX.
    repeat split_ltb;
      cbn [rotate4 at4 N.eqb Pos.eqb]; lia.
  - unfold rotateCanonical at 2 3. cbn [foldl at4 fst N.eqb Pos.eqb]. unfold INT_MAX.
    repeat split_ltb;
      cbn [rotate4 N.eqb Pos.eqb];
      unfold rotateCanonical; cbn [foldl at4 fst N.eqb Pos.eqb]; unfold INT_MAX;
      repeat split_ltb;
      try reflexivity; lia.
  - intros (L1 & L2 & L3) k. unfold rotate4 at 1.
    destruct (k =? 0); [|destruct (k =? 1); [|destruct (k =? 2)]];
      unfold rotateCanonical; cbn [foldl at4 fst N.eqb Pos.eqb]; unfold INT_MAX;
      repeat split_ltb;
      try reflexivity; lia.
Qed.

Lemma rotateCanonical_spec_witness :
  (forall k, rotateCanonical (rotate4 ((-1)%Z, 0%Z, 1%Z, 0%Z) k) = ((-1)%Z, 0%Z, 1%Z, 0%Z))
  /\ rotateCanonical (0%Z, 1%Z, 0%Z, (-1)%Z) = ((-1)%Z, 0%Z, 1%Z, 0%Z).
Proof.
  assert (H : forall k, rotateCanonical (rotate4 ((-1)%Z, 0%Z, 1%Z, 0%Z) k)
                        = ((-1)%Z, 0%Z, 1%Z, 0%Z)).
  { apply (rotateCanonical_spec (-1) 0 1 0); unfold INT_MAX; lia. }
  split; [exact H|]. exact (H 1).
Defined.

(** ** Valences around a vertex *)

Lemma filter_split_length {A : Type} (f : A -> bool) (l : list A) :
  (length (List.filter f l) + length (List.filter (fun x => negb (f x)) l))%nat = length l.
Proof.
  induction l as [|x t IH]; simpl; [reflexivity|].
  destruct (f x); simpl; lia.
Qed.

Lemma count_if_split (f : N -> bool) (l : list N) :
  (count_if f l + count_if (fun x => negb (f x)) l)%Z = Z.of_nat (length l).
Proof.
  unfold count_if.
  assert (E : forall (g : N -> bool),
            length (filter (fun x => g x = true) l) = length (List.filter g l)).
  { intros g. induction l as [|x t IH]; [reflexivity|].
    cbn [List.filter]. rewrite filter_cons.
    destruct (decide (g x = true)) as [e|n0].
    - rewrite e. simpl. now rewrite IH.
    - destruct (g x); [congruence|]. exact IH. }
  rewrite !E. rewrite <- (filter_split_length f l). lia.
Qed.

(** X18. When [valenceInsideQuads] and [valenceOutsideQuads] both return for
    a vertex, their results add up to the number of faces that the walk of
    [vertexFaces] lists around the vertex, which is below 24; none of the two
    is negative. *)
Theorem valence_inside_plus_outside
    (M : MeshHalfEdges) (quads : gset N) (v : N) (a b : Z) :
  valenceInsideQuads M quads v = Ret a ->
  valenceOutsideQuads M quads v = Ret b ->
  exists fs, vertexFaces M (Some BSIZE) v = Ret fs
    /\ vsize fs < BSIZE
    /\ (a + b)%Z = Z.of_nat (length fs)
    /\ (0 <= a)%Z /\ (0 <= b)%Z.
Proof.
  unfold valenceInsideQuads, valenceOutsideQuads. ounfold.
  destruct (vertexFaces M (Some BSIZE) v) as [fs| | |]; try discriminate.
  destruct (N.leb_spec BSIZE (vsize fs)) as [|Hlt]; [discriminate|].
  intros Ha Hb. inversion Ha; subst a. inversion Hb; subst b.
  exists fs. split; [reflexivity|]. split; [exact Hlt|].
  split; [apply count_if_split|]. unfold count_if. lia.
Qed.

Lemma valence_inside_plus_outside_witness :
  (valenceInsideQuads (snd (createMeshHalfEdges (fan 3) [])) {[ 0; 1 ]} 0 = Ret 2%Z
   /\ valenceOutsideQuads (snd (createMeshHalfEdges (fan 3) [])) {[ 0; 1 ]} 0 = Ret 1%Z)
  /\ exists fs, vertexFaces (snd (createMeshHalfEdges (fan 3) [])) (Some BSIZE) 0 = Ret fs
       /\ vsize fs < BSIZE /\ (2 + 1)%Z = Z.of_nat (length fs) /\ (0 <= 2)%Z /\ (0 <= 1)%Z.
Proof.
  assert (H1 : valenceInsideQuads (snd (createMeshHalfEdges (fan 3) [])) {[ 0; 1 ]} 0
               = Ret 2%Z) by (vm_compute; reflexivity).
  assert (H2 : valenceOutsideQuads (snd (createMeshHalfEdges (fan 3) [])) {[ 0; 1 ]} 0
               = Ret 1%Z) by (vm_compute; reflexivity).
  split; [split; assumption|].
  exact (valence_inside_plus_outside _ _ _ _ _ H1 H2).
Defined.

Lemma he_get_Some M he h : vget (hedges M) he = Some h -> he_get M he = Ret h.
Proof. unfold he_get, of_option. now intros ->. Qed.

Lemma vfv_turn_reads M (fuel : nat) (start he : N) (valence : Z) r :
  vfv_turn fuel M start he valence = Ret r ->
  exists h, vget (hedges M) he = Some h.
Proof.
  destruct fuel as [|k]; simpl; [discriminate|].
  unfold M_next, he_get. ounfold.
  destruct (vget (hedges M) he) as [h|]; [eauto|discriminate].
Qed.

(** The first loops of [vertexFaceValence] and of [vertexFaces] make the
    same turn: one face is written for every unit of valence. *)
Lemma vfv_turn_faces M (fuel : nat) (start : N) : forall he valence n bdr buf,
  (exists h, vget (hedges M) start = Some h) ->
  vfv_turn fuel M start he valence = Ret (n, bdr) ->
  exists buf', vf_turn fuel M None start he buf = Ret (buf', bdr)
    /\ Z.of_nat (length buf') = (Z.of_nat (length buf) + (n - valence))%Z.
Proof.
  induction fuel as [|k IH]; intros he valence n bdr buf Hs H; simpl in H; [discriminate|].
  simpl. ounfold.
  destruct (M_next M he) as [nx| | |]; try discriminate.
  destruct (M_opposite M nx) as [cand| | |]; try discriminate.
  destruct (N.eqb_spec cand NO_ID) as [Ec|Ec].
  { inversion H; subst. exists buf. split; [reflexivity|lia]. }
  assert (Hc : exists h, vget (hedges M) cand = Some h).
  { destruct (N.eqb_spec cand start) as [Es|Es]; [rewrite Es; exact Hs|].
    eapply vfv_turn_reads; exact H. }
  destruct Hc as [hc Hc]. unfold he_face. ounfold.
  rewrite (he_get_Some _ _ _ Hc). unfold buf_write.
  destruct (N.eqb_spec cand start) as [Es|Es].
  - inversion H; subst. eexists; split; [reflexivity|].
    rewrite length_app. simpl. lia.
  - destruct (IH cand (valence + 1)%Z n bdr (buf ++ [face hc]) Hs H) as (buf' & E & L).
    exists buf'. split; [exact E|]. rewrite length_app in L. simpl in L. lia.
Qed.

(** X19. Away from the mesh boundary the two valence routines agree: when
    [vertexFaceValence] returns [n] with [onBoundary] false for a vertex that
    has a half edge, [vertexFaces] returns a list of exactly [n] faces.  For a
    vertex without half edge [vertexFaceValence] returns 0. *)
Theorem vertexFaceValence_interior_faces (M : MeshHalfEdges) (v : N) (n : Z) :
  vertexFaceValence M v = Ret (n, false) ->
  exists x, vget (vertices M) v = Some x
    /\ (v_he x = NO_ID -> n = 0%Z)
    /\ (v_he x <> NO_ID ->
          exists fs, vertexFaces M None v = Ret fs /\ Z.of_nat (length fs) = n).
Proof.
  unfold vertexFaceValence, vertexFaces, vertex_get. ounfold.
  destruct (vget (vertices M) v) as [x|]; [|discriminate].
  intros H. exists x. split; [reflexivity|].
  destruct (N.eqb_spec (v_he x) NO_ID) as [E|E].
  - split; [intros _; now inversion H|contradiction].
  - split; [contradiction|]. intros _.
    destruct (vfv_turn (walk_fuel M) M (v_he x) (v_he x) 0) as [[val bdr]| | |] eqn:T;
      try discriminate.
    destruct (vfv_turn_reads _ _ _ _ _ _ T) as [h Hh].
    destruct (vfv_turn_faces M _ _ _ _ _ _ [] (ex_intro _ h Hh) T) as (buf' & E1 & L).
    rewrite E1.
    destruct (N.eqb_spec bdr NO_ID) as [Eb|Eb].
    + inversion H; subst. exists buf'. split; [reflexivity|]. simpl in L. lia.
    + destruct (vfv_unroll (walk_fuel M) M (v_he x) bdr 0); discriminate.
Qed.

Lemma vertexFaceValence_interior_faces_witness :
  vertexFaceValence grid33 5 = Ret (4%Z, false)
  /\ exists x, vget (vertices grid33) 5 = Some x
       /\ (v_he x = NO_ID -> 4%Z = 0%Z)
       /\ (v_he x <> NO_ID ->
             exists fs, vertexFaces grid33 None 5 = Ret fs /\ Z.of_nat (length fs) = 4%Z).
Proof.
  assert (H : vertexFaceValence grid33 5 = Ret (4%Z, false)) by (vm_compute; reflexivity).
  split; [exact H|]. exact (vertexFaceValence_interior_faces grid33 5 4%Z H).
Defined.

(** ** Loops that return *)

(** A property of the entries handled so far and the state carries through
    a loop that returns. *)
Lemma ofold_prefix {S A : Type} (P : list A -> S -> Prop) (f : S -> A -> outcome S) :
  (forall d s a s', P d s -> f s a = Ret s' -> P (d ++ [a]) s') ->
  forall l done s s', P done s -> ofold f l s = Ret s' -> P (done ++ l) s'.
Proof.
  intros Hf. induction l as [|a t IH]; intros done s s' Hs H; simpl in H.
  - inversion H; subst. rewrite app_nil_r. exact Hs.
  - ounfold. destruct (f s a) as [s1| | |] eqn:E1; try discriminate.
    replace (done ++ a :: t) with ((done ++ [a]) ++ t) by (rewrite <- app_assoc; reflexivity).
    eapply IH; [|exact H]. eapply Hf; eauto.
Qed.

Lemma ofold_inv {S A : Type} (P : S -> Prop) (f : S -> A -> outcome S) (l : list A) :
  (forall s a s', P s -> f s a = Ret s' -> P s') ->
  forall s s', P s -> ofold f l s = Ret s' -> P s'.
Proof.
  intros Hf s s' Hs H.
  apply (ofold_prefix (fun _ => P) f (fun d s0 a s1 => Hf s0 a s1) l [] s s' Hs H).
Qed.

(** ** updateSides and init *)

Lemma ofold_counter {A : Type} (f : Z * list N -> A -> outcome (Z * list N)) :
  (forall st a st', f st a = Ret st' ->
     length (snd st') = length (snd st) /\ (fst st <= fst st' <= fst st + 1)%Z) ->
  forall l st st', ofold f l st = Ret st' ->
    length (snd st') = length (snd st)
    /\ (fst st <= fst st' <= fst st + Z.of_nat (length l))%Z.
Proof.
  intros Hf. induction l as [|a t IH]; intros st st' H; simpl in H.
  - inversion H; subst. simpl. split; [reflexivity|lia].
  - ounfold. destruct (f st a) as [s1| | |] eqn:E1; try discriminate.
    destruct (Hf _ _ _ E1) as [L1 B1]. destruct (IH _ _ H) as [L2 B2].
    split; [congruence|]. simpl length. lia.
Qed.

Lemma tag_sides_bounds M val h i sd n sd' :
  tag_sides M val h i sd = Ret (n, sd') ->
  length sd' = length sd /\ (-1 <= n < Z.of_nat (length h))%Z.
Proof.
  unfold tag_sides. intros H. apply ofold_counter in H.
  - rewrite iota_length in H. simpl in H. lia.
  - clear. intros st a st'. ounfold.
    destruct (vget h (wrap (i + a) mod vsize h)) as [he|]; [|discriminate].
    destruct (M_vertex M he 0) as [v1| | |]; try discriminate.
    intros H; inversion H; subst; clear H. simpl. rewrite vset_length.
    split; [reflexivity|]. destruct (is_corner val v1); lia.
Qed.

Lemma resize_length (h sd : list N) :
  length (take (length h) sd ++ repeat 0 (length h - length sd)) = length h.
Proof. rewrite length_app, length_take, repeat_length. lia. Qed.

Lemma updateSides_frame M cav n cav' :
  updateSides M cav = Ret (n, cav') ->
  hes cav' = hes cav /\ quads cav' = quads cav
  /\ length (side cav') = length (hes cav)
  /\ (0 <= n <= Z.of_nat (length (hes cav)))%Z.
Proof.
  unfold updateSides. ounfold.
  destruct (corner_count M (quads cav)) as [val| | |]; try discriminate.
  destruct (first_corner M val (hes cav) 0) as [[i|]| | |]; try discriminate.
  - destruct (tag_sides M val (hes cav) i _) as [[k sd']| | |] eqn:T; try discriminate.
    apply tag_sides_bounds in T. destruct T as [L B].
    intros H; inversion H; subst; clear H. simpl.
    rewrite L, resize_length. repeat split; lia.
  - intros H; inversion H; subst; clear H. simpl.
    rewrite resize_length. repeat split; lia.
Qed.

(** X20. [updateSides] leaves the boundary half edges and the quads of the
    cavity alone, gives [side] one entry per boundary half edge, and returns
    a number of sides between 0 and the number of boundary half edges. *)
Theorem updateSides_sides (M : MeshHalfEdges) (cav cav' : FCavity) (n : Z) :
  updateSides M cav = Ret (n, cav') ->
  hes cav' = hes cav /\ quads cav' = quads cav
  /\ length (side cav') = length (hes cav)
  /\ (0 <= n <= Z.of_nat (length (hes cav)))%Z.
Proof. apply updateSides_frame. Qed.

Lemma updateSides_sides_witness :
  exists cav', updateSides grid33 (mkCavity [16; 17; 18; 19] [] {[ 4 ]}) = Ret (4%Z, cav')
    /\ hes cav' = [16; 17; 18; 19] /\ quads cav' = {[ 4 ]}
    /\ length (side cav') = 4%nat /\ (0 <= 4 <= 4)%Z.
Proof.
  assert (E : exists cav', updateSides grid33 (mkCavity [16; 17; 18; 19] [] {[ 4 ]})
                           = Ret (4%Z, cav')) by (eexists; vm_compute; reflexivity).
  destruct E as [cav' E]. exists cav'. split; [exact E|].
  exact (updateSides_sides grid33 _ cav' 4%Z E).
Defined.

Lemma init_gather M : forall (l : list N) (q0 : gset N) (acc : list N) q stack,
  ofold (fun (st : gset N * list N) f =>
           fhs ← face_halfedges M f;
           Ret ({[ f ]} ∪ fst st, snd st ++ fhs)) l (q0, acc) = Ret (q, stack) ->
  q = list_to_set l ∪ q0
  /\ forall he, In he stack ->
       In he acc \/ exists f fhs, In f l /\ face_halfedges M f = Ret fhs /\ In he fhs.
Proof.
  induction l as [|f t IH]; intros q0 acc q stack H; simpl in H.
  - inversion H; subst. split; [|auto].
    apply set_eq. intros x. simpl. rewrite elem_of_union, elem_of_empty. tauto.
  - ounfold. destruct (face_halfedges M f) as [fhs| | |] eqn:Ef; try discriminate.
    simpl in H. apply IH in H. destruct H as [Hq Hs]. split.
    + rewrite Hq. simpl. apply set_eq. intros x. rewrite !elem_of_union. tauto.
    + intros he Hin. destruct (Hs he Hin) as [Ha|(f' & fhs' & A & B & C)].
      * apply in_app_or in Ha. destruct Ha as [Ha|Ha]; [auto|].
        right. exists f, fhs. simpl. auto.
      * right. exists f', fhs'. simpl. auto.
Qed.

Lemma removeInteriorHalfEdges_spec M (h r : list N) :
  removeInteriorHalfEdges M h = Ret r ->
  (forall he, In he r -> In he h)
  /\ (forall he o, In he r -> M_opposite M he = Ret o -> ~ In o r).
Proof.
  unfold removeInteriorHalfEdges. intros H.
  eapply remove_interior_spec; [| |exact H]; [lia|].
  intros k he o Hk. lia.
Qed.

Lemma orderedHalfEdgesFromStack_true M (stack ordered : list N) :
  orderedHalfEdgesFromStack M stack = Ret (true, ordered) ->
  ordered <> []
  /\ (forall he, In he ordered -> In he stack)
  /\ chained M ordered
  /\ exists he0 lst v, head ordered = Some he0 /\ last ordered = Some lst
       /\ M_vertex M lst 1 = Ret v /\ M_vertex M he0 0 = Ret v.
Proof.
  unfold orderedHalfEdgesFromStack.
  destruct (N.ltb_spec (vsize stack) 3) as [Hlt|Hge]; [discriminate|].
  destruct stack as [|he0 t]; [unfold vsize in Hge; simpl in Hge; lia|].
  intros H.
  destruct (ordered_walk_spec M (he0 :: t) he0 _ _ _ _ H)
    as (mid & Eo & Hm & Hc & lst & v & Hl & Hv1 & Hv0).
  simpl in Eo. subst ordered.
  split; [discriminate|].
  split; [intros he [<-|Hx]; [now left|auto]|].
  split; [exact Hc|]. exists he0, lst, v. auto.
Qed.

(** X21. When [init] succeeds, the cavity holds the given quads (added to
    those it had), [hes] is a closed chain: not empty, each half edge starting
    where the one before it ends and the first starting where the last ends;
    every entry is a half edge of one of the given quads whose opposite is
    not in [hes]; and [side] has one entry per entry of [hes]. *)
Theorem init_boundary_loop (M : MeshHalfEdges) (cav cav' : FCavity) (quadsInit : list N) :
  init M cav quadsInit = Ret (true, cav') ->
  quads cav' = list_to_set quadsInit ∪ quads cav
  /\ length (side cav') = length (hes cav')
  /\ hes cav' <> []
  /\ chained M (hes cav')
  /\ (exists he0 lst v, head (hes cav') = Some he0 /\ last (hes cav') = Some lst
        /\ M_vertex M lst 1 = Ret v /\ M_vertex M he0 0 = Ret v)
  /\ (forall he, In he (hes cav') ->
        (exists f fhs, In f quadsInit /\ face_halfedges M f = Ret fhs /\ In he fhs)
        /\ forall o, M_opposite M he = Ret o -> ~ In o (hes cav')).
Proof.
  unfold init. destruct (vsize quadsInit <? 1); [discriminate|]. ounfold.
  destruct (ofold _ quadsInit (quads cav, [])) as [[q stack]| | |] eqn:Eg; try discriminate.
  destruct (removeInteriorHalfEdges M stack) as [r| | |] eqn:Er; try discriminate.
  destruct (orderedHalfEdgesFromStack M r) as [[oks ordered]| | |] eqn:Eo; try discriminate.
  destruct oks; simpl; [|discriminate].
  destruct (updateSides M _) as [[n c2]| | |] eqn:Eu; try discriminate.
  destruct (n <=? 0)%Z; [discriminate|].
  intros H; inversion H; subst c2; clear H.
  apply init_gather in Eg. destruct Eg as [Hq Hstack].
  apply removeInteriorHalfEdges_spec in Er. destruct Er as [Hsub Hopp].
  apply orderedHalfEdgesFromStack_true in Eo.
  destruct Eo as (Hne & Hin & Hch & Hcl).
  apply updateSides_frame in Eu. simpl in Eu. destruct Eu as (Eh & Eq & El & _).
  rewrite Eh, Eq. repeat split; try assumption.
  - destruct (Hstack he (Hsub he (Hin he H))) as [[]|Hf]. exact Hf.
  - intros o Ho Hino. apply (Hopp he o (Hin he H) Ho). apply Hin. exact Hino.
Qed.

Lemma init_boundary_loop_witness :
  exists cav', init grid33 FCavity_empty [4; 5] = Ret (true, cav')
    /\ quads cav' = list_to_set [4; 5] ∪ quads FCavity_empty
    /\ length (side cav') = length (hes cav')
    /\ hes cav' <> [].
Proof.
  assert (E : exists cav', init grid33 FCavity_empty [4; 5] = Ret (true, cav'))
    by (eexists; vm_compute; reflexivity).
  destruct E as [cav' E]. exists cav'. split; [exact E|].
  destruct (init_boundary_loop grid33 FCavity_empty cav' [4; 5] E) as (A & B & C & _).
  auto.
Defined.

(** ** The gardener's view of the singularities *)

Lemma mark_irregular_adds G irr v irr' :
  mark_irregular G irr v = Ret irr' ->
  irr ⊆ irr' /\ forall w, w ∈ irr' -> w ∈ irr \/ w = v.
Proof.
  unfold mark_irregular. ounfold.
  destruct (vget (vOnBoundary G) v) as [b|]; [|discriminate].
  destruct (vget (valence G) v) as [x|]; [|destruct b; discriminate].
  intros H.
  assert (E : irr' = irr \/ irr' = {[ v ]} ∪ irr).
  { destruct b; [destruct (x =? 2)%Z | destruct (x =? 4)%Z]; inversion H; auto. }
  destruct E as [->| ->].
  - split; [reflexivity|auto].
  - split; [apply union_subseteq_r|].
    intros w Hw. apply elem_of_union in Hw. destruct Hw as [Hw|Hw]; [|auto].
    apply elem_of_singleton in Hw. auto.
Qed.

Section Collect.
Variable M : MeshHalfEdges.
Variable G : Gardener.

Lemma sc_corner_keeps as0 d st he st' :
  sc_face M as0 d st -> (sc_corner M G) st he = Ret st' -> sc_face M as0 (d ++ [he]) st'.
Proof.
  destruct st as [[vic asings] irr]. intros (Hm & [HA HB] & HC). simpl in *.
  unfold sc_corner. ounfold.
  destruct (he_vertex M he) as [v2| | |] eqn:Ev; try discriminate.
  destruct (vupd vic v2 _) as [vic'| | |]; try discriminate.
  destruct (is_sing M v2) as [[|]| | |] eqn:Es; try discriminate.
  - intros H; inversion H; subst; clear H. unfold sc_face, sc_sound. simpl.
    split; [intros v Hv; apply in_or_app; auto|].
    split; [split; [|exact HB]|].
    + intros v Hv. apply in_app_or in Hv. destruct Hv as [Hv|[<-|[]]]; auto.
    + intros he' v Hin Hv Hs. apply in_or_app.
      apply in_app_or in Hin. destruct Hin as [Hin|[<-|[]]]; [left; eauto|].
      right. left. congruence.
  - destruct (mark_irregular G irr v2) as [irr'| | |] eqn:Em; try discriminate.
    apply mark_irregular_adds in Em. destruct Em as [_ Hnew].
    intros H; inversion H; subst; clear H. unfold sc_face, sc_sound. simpl.
    split; [exact Hm|]. split; [split; [exact HA|]|].
    + intros w Hw. destruct (Hnew w Hw) as [Hw'| ->]; auto.
    + intros he' v Hin Hv Hs.
      apply in_app_or in Hin. destruct Hin as [Hin|[<-|[]]]; [eauto|].
      congruence.
Qed.

Lemma sc_face_step done st f st' :
  sc_faces M done st ->
  (fhs ← face_halfedges M f; ofold (sc_corner M G) fhs st) = Ret st' ->
  sc_faces M (done ++ [f]) st'.
Proof.
  intros [Hs HC]. ounfold.
  destruct (face_halfedges M f) as [fhs| | |] eqn:Ef; try discriminate.
  intros H.
  apply (ofold_prefix (sc_face M (snd (fst st))) (sc_corner M G)
           (fun d s a s' => sc_corner_keeps _ d s a s') fhs [] st st') in H.
  - simpl in H. destruct H as (Hm & Hs' & HC'). split; [exact Hs'|].
    intros f' fhs' he v Hin Hf Hhe Hv Hsg.
    apply in_app_or in Hin. destruct Hin as [Hin|[<-|[]]].
    + apply Hm. eapply HC; eauto.
    + assert (fhs' = fhs) by congruence. subst fhs'. eapply HC'; eauto.
  - split; [auto|]. split; [exact Hs|]. intros he v [].
Qed.

Lemma sc_collect_all (l : list N) (vic0 : list Z) st' :
  ofold (fun st f => fhs ← face_halfedges M f; ofold (sc_corner M G) fhs st) l (vic0, [], ∅)
    = Ret st' ->
  sc_faces M l st'.
Proof.
  intros H.
  apply (ofold_prefix (sc_faces M) _ (fun d s a s' => sc_face_step d s a s')
           l [] _ st') in H; [exact H|].
  split; [split|]; simpl.
  - intros v [].
  - intros v Hv. apply elem_of_empty in Hv. destruct Hv.
  - intros f fhs he v [].
Qed.

Lemma sc_split_all (vic : list Z) (l : list N) st' :
  ofold (fun (st : gset N * gset N) v =>
           a ← of_option (vget vic v);
           b ← of_option (vget (valence G) v);
           if (a =? b)%Z then Ret ({[ v ]} ∪ fst st, snd st)
           else Ret (fst st, {[ v ]} ∪ snd st)) l (∅, ∅) = Ret st' ->
  sc_split vic (valence G) l st'.
Proof.
  intros H.
  apply (ofold_prefix (sc_split vic (valence G))) with (done := []) in H.
  - exact H.
  - clear. intros d st v st' (H1 & H2 & H3). ounfold.
    destruct (vget vic v) as [a|] eqn:Ea; [|discriminate].
    destruct (vget (valence G) v) as [b|] eqn:Eb; [|discriminate].
    destruct (Z.eqb_spec a b) as [E|E]; intros H; inversion H; subst; clear H;
      unfold sc_split; simpl.
    + split; [|split].
      * intros w Hw. apply elem_of_union in Hw. destruct Hw as [Hw|Hw].
        -- apply elem_of_singleton in Hw. subst w.
           split; [apply in_or_app; right; now left|eauto].
        -- destruct (H1 w Hw) as [A B]. split; [apply in_or_app; auto|exact B].
      * intros w Hw. destruct (H2 w Hw) as [A B]. split; [apply in_or_app; auto|exact B].
      * intros w Hw. apply in_app_or in Hw. destruct Hw as [Hw|[<-|[]]].
        -- destruct (H3 w Hw); [left; apply elem_of_union; auto|auto].
        -- left. apply elem_of_union. left. now apply elem_of_singleton.
    + split; [|split].
      * intros w Hw. destruct (H1 w Hw) as [A B]. split; [apply in_or_app; auto|exact B].
      * intros w Hw. apply elem_of_union in Hw. destruct Hw as [Hw|Hw].
        -- apply elem_of_singleton in Hw. subst w.
           split; [apply in_or_app; right; now left|eauto].
        -- destruct (H2 w Hw) as [A B]. split; [apply in_or_app; auto|exact B].
      * intros w Hw. apply in_app_or in Hw. destruct Hw as [Hw|[<-|[]]].
        -- destruct (H3 w Hw); [auto|right; apply elem_of_union; auto].
        -- right. apply elem_of_union. left. now apply elem_of_singleton.
  - split; [|split]; simpl.
    + intros v Hv. apply elem_of_empty in Hv. destruct Hv.
    + intros v Hv. apply elem_of_empty in Hv. destruct Hv.
    + intros v [].
Qed.

End Collect.



Lemma vupd_length {A : Type} (l l' : list A) (i : N) (f : A -> A) :
  vupd l i f = Ret l' -> length l' = length l.
Proof.
  unfold vupd. destruct (vget l i); [|discriminate].
  intros H; inversion H. apply vset_length.
Qed.

Lemma markNewQuad_frame M G G' nq :
  markNewQuad M G nq = Ret G' ->
  mnq_frame G G'
  /\ (forall v, v ∈ singsBdr G' -> v ∈ singsBdr G \/ is_sing M v = Ret true)
  /\ (forall v, v ∈ irregular G' -> v ∈ irregular G \/ is_sing M v = Ret false).
Proof.
  unfold markNewQuad. ounfold.
  destruct (face_halfedges M nq) as [fhs| | |]; try discriminate.
  apply (ofold_inv (fun G1 => mnq_frame G G1
            /\ (forall v, v ∈ singsBdr G1 -> v ∈ singsBdr G \/ is_sing M v = Ret true)
            /\ (forall v, v ∈ irregular G1 -> v ∈ irregular G \/ is_sing M v = Ret false))).
  - clear G'. intros G1 heq G2 (F & HS & HI).
    destruct F as (F1 & F2 & F3 & F4 & F5 & F6 & F7 & F8 & F9 & F10).
    destruct (he_vertex M heq) as [v2q| | |]; try discriminate.
    destruct (vupd (valenceInCavity G1) v2q _) as [vic| | |] eqn:Eu; try discriminate.
    apply vupd_length in Eu. simpl.
    destruct (is_sing M v2q) as [[|]| | |] eqn:Es; try discriminate.
    + destruct (vget vic v2q) as [a|]; [|discriminate].
      destruct (vget (valence G1) v2q) as [b|]; [|discriminate].
      destruct (a =? b)%Z; [discriminate|].
      intros H; inversion H; subst G2; clear H. unfold mnq_frame. simpl.
      split; [|split].
      * repeat split; try assumption; try congruence.
        etransitivity; [exact F9|apply union_subseteq_r].
      * intros v Hv. apply elem_of_union in Hv. destruct Hv as [Hv|Hv]; [|auto].
        apply elem_of_singleton in Hv. subst v. auto.
      * exact HI.
    + destruct (mark_irregular _ (irregular G1) v2q) as [irr| | |] eqn:Em;
        try discriminate.
      assert (Em' : mark_irregular G1 (irregular G1) v2q = Ret irr) by exact Em.
      apply mark_irregular_adds in Em'. destruct Em' as [Hsub Hnew].
      intros H; inversion H; subst G2; clear H. unfold mnq_frame. simpl.
      split; [|split].
      * repeat split; try assumption; try congruence.
        etransitivity; [exact F10|exact Hsub].
      * exact HS.
      * intros v Hv. destruct (Hnew v Hv) as [Hv'| ->]; auto.
  - unfold mnq_frame. repeat split; auto.
Qed.

(** X23. [markNewQuad] never records a singularity strictly inside the
    cavity: when it returns, [sings], [valence], [vOnBoundary], [current] and
    the target number of sides are as before and [valenceInCavity] has kept
    its size; [singsBdr] and [irregular] have only grown, [singsBdr] by
    flagged vertices and [irregular] by unflagged ones. *)
Theorem markNewQuad_keeps_sings (M : MeshHalfEdges) (G G' : Gardener) (nq : N) :
  markNewQuad M G nq = Ret G' ->
  mnq_frame G G'
  /\ (forall v, v ∈ singsBdr G' -> v ∈ singsBdr G \/ is_sing M v = Ret true)
  /\ (forall v, v ∈ irregular G' -> v ∈ irregular G \/ is_sing M v = Ret false).
Proof. apply markNewQuad_frame. Qed.

Lemma markNewQuad_keeps_sings_witness :
  exists G', markNewQuad grid33_sing gardener33 4 = Ret G'
    /\ sings G' = sings gardener33
    /\ (forall v, v ∈ singsBdr G' ->
          v ∈ singsBdr gardener33 \/ is_sing grid33_sing v = Ret true).
Proof.
  assert (E : exists G', markNewQuad grid33_sing gardener33 4 = Ret G')
    by (eexists; vm_compute; reflexivity).
  destruct E as [G' E]. exists G'. split; [exact E|].
  destruct (markNewQuad_keeps_sings grid33_sing gardener33 G' 4 E) as ((A & _) & B & _).
  auto.
Defined.

(** X24. The growing step of [convexify], [growIsotropic] and [growMaximal]
    ([growByFlip] followed, on success, by [markNewQuad]): a step that
    succeeds has added exactly the quad across [hes[i]] to the current cavity
    and has left [sings], [valence] and [vOnBoundary] alone; a step that
    fails in a configuration other than closing a hole leaves the gardener
    and its cavity as they were. *)
Theorem flip_and_mark_step (M : MeshHalfEdges) (G G' : Gardener) (i : N) (b : bool) :
  flip_and_mark M G i = Ret (b, G') ->
  (b = true ->
     exists cav cav' nq,
       current G = Some cav /\ current G' = Some cav'
       /\ candidate_quad M cav i = Ret nq
       /\ quads cav' = {[ nq ]} ∪ quads cav
       /\ sings G' = sings G /\ valence G' = valence G
       /\ vOnBoundary G' = vOnBoundary G
       /\ singsBdr G ⊆ singsBdr G' /\ irregular G ⊆ irregular G')
  /\ (b = false ->
        (forall cav, current G = Some cav -> ~ closing_hole M cav i) -> G' = G).
Proof.
  unfold flip_and_mark. destruct (current G) as [cav|] eqn:Ec.
  2:{ intros H; inversion H; subst. split; [discriminate|auto]. }
  ounfold.
  destruct (growByFlip M cav i FlipInfo_init true) as [[[ok cav'] info]| | |] eqn:Eg;
    try discriminate.
  apply growByFlip_state_cases in Eg. destruct ok.
  - destruct Eg as [Hc Hq].
    destruct (markNewQuad M _ (fi_nq info)) as [G1| | |] eqn:Em; try discriminate.
    apply markNewQuad_frame in Em.
    destruct Em as ((F1 & F2 & F3 & F4 & _ & _ & _ & _ & F9 & F10) & _). simpl in *.
    intros H; inversion H; subst; clear H.
    split; [intros _|discriminate].
    exists cav, cav', (fi_nq info). repeat split; assumption.
  - intros H; inversion H; subst; clear H.
    split; [discriminate|]. intros _ Hn.
    destruct Eg as [Eg|Eg]; [destruct (Hn cav eq_refl Eg)|].
    subst cav'. destruct G; simpl in *. subst. reflexivity.
Qed.

Lemma flip_and_mark_step_witness :
  exists G G', setCavity grid33 gardener33 (mkCavity [16; 17; 18; 19] [] {[ 4 ]})
               = Ret (true, G)
    /\ flip_and_mark grid33 G 0 = Ret (true, G')
    /\ exists cav cav' nq,
         current G = Some cav /\ current G' = Some cav'
         /\ candidate_quad grid33 cav 0 = Ret nq
         /\ quads cav' = {[ nq ]} ∪ quads cav /\ sings G' = sings G.
Proof.
  assert (E : exists G, setCavity grid33 gardener33 (mkCavity [16; 17; 18; 19] [] {[ 4 ]})
                        = Ret (true, G)
                        /\ exists G', flip_and_mark grid33 G 0 = Ret (true, G')).
  { eexists. split; [vm_compute; reflexivity|]. eexists. vm_compute. reflexivity. }
  destruct E as (G & E1 & G' & E2). exists G, G'.
  split; [exact E1|]. split; [exact E2|].
  destruct (proj1 (flip_and_mark_step grid33 G G' 0 true E2) eq_refl)
    as (cav & cav' & nq & A & B & C & D & S & _).
  exists cav, cav', nq. auto.
Defined.

(** ** The constructor of the gardener *)

Lemma he_get_Ret M he h : he_get M he = Ret h -> vget (hedges M) he = Some h.
Proof.
  unfold he_get, of_option. destruct (vget (hedges M) he); intros H; inversion H; auto.
Qed.

Lemma vget_vset_cases {A : Type} (l : list A) (i j : N) (x y : A) :
  vget (vset l i x) j = Some y -> (j = i /\ y = x) \/ vget l j = Some y.
Proof.
  revert i j. induction l as [|z t IH]; intros i j H; simpl in H; [discriminate|].
  simpl. destruct (N.eqb_spec i 0) as [Ei|Hi]; simpl in H.
  - destruct (N.eqb_spec j 0) as [Ej|Hj].
    + inversion H. left. split; congruence.
    + right. exact H.
  - destruct (N.eqb_spec j 0) as [Ej|Hj].
    + right. exact H.
    + apply IH in H. destruct H as [[E Ey]|H]; [left; split; [lia|exact Ey]|auto].
Qed.

Lemma gn_inv_step M st he st' :
  gn_inv M st ->
  (h ← he_get M he;
   let v2 := vertex h in
   val ← vupd (fst st) v2 (fun x => (x + 1)%Z);
   if opposite h =? NO_ID then
     v1 ← M_vertex M he 0;
     onb ← vupd (snd st) v1 (fun _ => true);
     onb ← vupd onb v2 (fun _ => true);
     Ret (val, onb)
   else Ret (val, snd st)) = Ret st' ->
  gn_inv M st'.
Proof.
  intros (L1 & L2 & Hpos & Hb). ounfold.
  destruct (he_get M he) as [h| | |] eqn:Eh; try discriminate.
  apply he_get_Ret in Eh. cbv zeta.
  destruct (vupd (fst st) (vertex h) _) as [val| | |] eqn:Ev; try discriminate.
  assert (Hval : length val = length (vertices M)
                 /\ forall v x, vget val v = Some x -> (0 <= x)%Z).
  { split; [rewrite (vupd_length _ _ _ _ Ev); exact L1|].
    unfold vupd in Ev. destruct (vget (fst st) (vertex h)) as [x0|] eqn:E0; [|discriminate].
    inversion Ev; subst val. intros v x Hx.
    apply vget_vset_cases in Hx. destruct Hx as [[_ ->]|Hx]; [|eauto].
    specialize (Hpos _ _ E0). lia. }
  destruct Hval as [Lv Pv].
  destruct (N.eqb_spec (opposite h) NO_ID) as [Eo|Eo].
  - destruct (M_vertex M he 0) as [v1| | |] eqn:E1; try discriminate.
    destruct (vupd (snd st) v1 _) as [onb1| | |] eqn:Eb1; try discriminate.
    destruct (vupd onb1 (vertex h) _) as [onb2| | |] eqn:Eb2; try discriminate.
    intros H; inversion H; subst st'; clear H. unfold gn_inv. simpl.
    split; [exact Lv|].
    split; [rewrite (vupd_length _ _ _ _ Eb2), (vupd_length _ _ _ _ Eb1); exact L2|].
    split; [exact Pv|].
    intros v Hv. unfold vupd in Eb1, Eb2.
    destruct (vget (snd st) v1); [|discriminate].
    destruct (vget onb1 (vertex h)); [|discriminate].
    inversion Eb1; subst onb1. inversion Eb2; subst onb2.
    apply vget_vset_cases in Hv. destruct Hv as [[-> _]|Hv].
    { exists he, h. auto. }
    apply vget_vset_cases in Hv. destruct Hv as [[-> _]|Hv].
    { exists he, h. auto. }
    auto.
  - intros H; inversion H; subst st'; clear H. unfold gn_inv. simpl. auto.
Qed.

(** X25. The constructor of [Gardener] sizes [valence], [vOnBoundary] and
    [valenceInCavity] to the number of vertices; no valence is negative, and
    a vertex is marked as on the boundary only when it is an end of a half
    edge without opposite.  No cavity is current and no singularity is
    recorded. *)
Theorem Gardener_new_state (M : MeshHalfEdges) (G : Gardener) :
  Gardener_new M = Ret G ->
  (length (valence G) = length (vertices M)
   /\ length (vOnBoundary G) = length (vertices M)
   /\ length (valenceInCavity G) = length (vertices M))
  /\ (forall v x, vget (valence G) v = Some x -> (0 <= x)%Z)
  /\ (forall v, vget (vOnBoundary G) v = Some true -> bdr_end M v)
  /\ current G = None /\ sings G = ∅ /\ singsBdr G = ∅.
Proof.
  unfold Gardener_new. ounfold.
  destruct (ofold _ (iota (length (faces M))) _) as [[val onb]| | |] eqn:E; try discriminate.
  intros H; inversion H; subst G; clear H. simpl.
  apply (ofold_inv (gn_inv M)) in E.
  - destruct E as (L1 & L2 & Hp & Hb). simpl in *.
    rewrite repeat_length. repeat split; auto.
  - clear. intros st f st' Hst.
    destruct (face_halfedges M f) as [fhs| | |]; try discriminate.
    apply ofold_inv; [|exact Hst].
    intros s he s' Hs. apply gn_inv_step. exact Hs.
  - unfold gn_inv. simpl. rewrite !repeat_length.
    split; [reflexivity|]. split; [reflexivity|]. split.
    + intros v x Hx. apply vget_repeat in Hx. lia.
    + intros v Hv. apply vget_repeat in Hv. discriminate.
Qed.

Lemma Gardener_new_state_witness :
  exists G, Gardener_new grid33 = Ret G
    /\ length (valence G) = length (vertices grid33)
    /\ (forall v, vget (vOnBoundary G) v = Some true -> bdr_end grid33 v).
Proof.
  assert (E : exists G, Gardener_new grid33 = Ret G) by (eexists; vm_compute; reflexivity).
  destruct E as [G E]. exists G. split; [exact E|].
  destruct (Gardener_new_state grid33 G E) as ((A & _) & _ & B & _).
  auto.
Defined.

(** ** buildCondensedStructure: the numbering of the vertices *)

Lemma u32_small x : x < U32_MOD -> u32 x = x.
Proof. intros H. unfold u32. now apply N.mod_small. Qed.

Lemma vget_repeat_lt {A : Type} (d : A) (m : nat) (i : N) :
  i < N.of_nat m -> vget (repeat d m) i = Some d.
Proof.
  revert i. induction m as [|m IH]; intros i Hi; [lia|].
  simpl. destruct (N.eqb_spec i 0); [reflexivity|]. apply IH. lia.
Qed.

Lemma vsize_vresize {A : Type} (l : list A) (n : N) (d : A) : vsize (vresize l n d) = n.
Proof.
  unfold vresize, vsize. rewrite length_app, length_take, repeat_length. lia.
Qed.

Lemma vget_vresize_old {A : Type} (l : list A) (n i : N) (d : A) :
  i < vsize l -> vsize l <= n -> vget (vresize l n d) i = vget l i.
Proof.
  intros Hi Hn. unfold vresize. unfold vsize in *.
  rewrite take_ge by lia. apply vget_app_l. exact Hi.
Qed.

Lemma vget_vresize_new {A : Type} (l : list A) (n i : N) (d : A) :
  vsize l <= i -> i < n -> vget (vresize l n d) i = Some d.
Proof.
  intros Hi Hn. unfold vresize. unfold vsize in *.
  rewrite take_ge by lia. rewrite vget_app_r by exact Hi.
  apply vget_repeat_lt. unfold vsize. lia.
Qed.

Lemma numbered_push c vcount v :
  numbered c vcount -> vcount + 1 < U32_MOD ->
  numbered (mkCondensed (<[v := u32 vcount]> (cs_old2new c)) (cs_new2old c ++ [v])
              (cs_quads c) (cs_v2q c)) (wrap (vcount + 1)).
Proof.
  intros (Hc & Hback & Hkey) Hb. unfold numbered. simpl.
  assert (HU : U32_MOD < SIZE_MOD) by (vm_compute; reflexivity).
  rewrite wrap_small by lia. rewrite u32_small by lia.
  split; [rewrite vsize_app; unfold vsize at 2; simpl; lia|].
  split.
  - intros w n Hw. destruct (N.eq_dec w v) as [->|Hne].
    + rewrite lookup_insert_eq in Hw. inversion Hw; subst n.
      rewrite vget_app_r by lia. rewrite Hc, N.sub_diag. reflexivity.
    + rewrite lookup_insert_ne in Hw by congruence.
      pose proof (Hback w n Hw) as Hg.
      rewrite vget_app_l; [exact Hg|]. eapply vget_Some_lt; eauto.
  - intros w Hw. destruct (N.eq_dec w v) as [->|Hne].
    + rewrite lookup_insert_eq. eauto.
    + rewrite lookup_insert_ne by congruence. apply Hkey.
      apply in_app_or in Hw. destruct Hw as [Hw|[Hw|[]]]; [exact Hw|congruence].
Qed.

Lemma number_free_fold (free : list N) : forall c vcount,
  numbered c vcount -> vcount + N.of_nat (length free) < U32_MOD ->
  numbered (fst (foldl number_free (c, vcount) free))
           (snd (foldl number_free (c, vcount) free))
  /\ snd (foldl number_free (c, vcount) free) = vcount + N.of_nat (length free)
  /\ cs_new2old (fst (foldl number_free (c, vcount) free)) = cs_new2old c ++ free
  /\ cs_quads (fst (foldl number_free (c, vcount) free)) = cs_quads c
  /\ cs_v2q (fst (foldl number_free (c, vcount) free)) = cs_v2q c.
Proof.
  induction free as [|v t IH]; intros c vcount Hn Hb.
  - simpl. rewrite app_nil_r, N.add_0_r. auto.
  - simpl foldl. unfold number_free at 2 4 6 8 10 12. simpl fst. simpl snd.
    assert (HU : U32_MOD < SIZE_MOD) by (vm_compute; reflexivity).
    simpl length in Hb.
    pose proof (numbered_push c vcount v Hn ltac:(lia)) as Hn'.
    specialize (IH _ _ Hn'). rewrite wrap_small in IH by lia.
    rewrite wrap_small by lia.
    destruct IH as (A & B & C & D & E); [lia|].
    split; [exact A|]. split; [rewrite B; simpl length; lia|].
    split; [rewrite C; simpl; rewrite <- app_assoc; reflexivity|].
    split; [rewrite D; reflexivity | rewrite E; reflexivity].
Qed.

Lemma numbered_fields c c' vcount :
  cs_old2new c' = cs_old2new c -> cs_new2old c' = cs_new2old c ->
  numbered c vcount -> numbered c' vcount.
Proof. unfold numbered. intros -> ->. auto. Qed.

(** Writing the corner [k] of element [F] keeps the corners recorded before. *)
Lemma corner_recorded_keeps c o2n n2o v2q1 F k rowF x nv fl y f lv v :
  corner_recorded c f lv v ->
  cs_old2new c ⊆ o2n ->
  vget (cs_quads c) F = Some rowF ->
  f <> F \/ lv <> k ->
  (forall n fl0, vget (cs_v2q c) n = Some fl0 -> vget v2q1 n = Some fl0) ->
  vget v2q1 nv = Some fl ->
  corner_recorded (mkCondensed o2n n2o (vset (cs_quads c) F (vset rowF k x))
                     (vset v2q1 nv (fl ++ [y]))) f lv v.
Proof.
  intros (n & row & fl0 & L & Q & R & V & I) Hsub HF Hne Hkeep Hnv.
  unfold corner_recorded. simpl.
  assert (Hq : exists row', vget (vset (cs_quads c) F (vset rowF k x)) f = Some row'
                            /\ vget row' lv = Some n).
  { destruct (N.eq_dec f F) as [->|Hf].
    - exists (vset rowF k x). split.
      + apply vget_vset_eq. eapply vget_Some_lt; eauto.
      + destruct Hne as [Hne|Hne]; [congruence|].
        rewrite vget_vset_neq by congruence. congruence.
    - exists row. split; [|exact R]. rewrite vget_vset_neq by congruence. exact Q. }
  destruct Hq as (row' & Q' & R').
  assert (Hv : exists fl', vget (vset v2q1 nv (fl ++ [y])) n = Some fl' /\ In f fl').
  { destruct (N.eq_dec n nv) as [->|Hn].
    - exists (fl ++ [y]). split.
      + apply vget_vset_eq. eapply vget_Some_lt; eauto.
      + apply Hkeep in V. assert (fl0 = fl) by congruence. subst fl0.
        apply in_or_app. auto.
    - exists fl0. split; [|exact I]. rewrite vget_vset_neq by congruence. auto. }
  destruct Hv as (fl' & V' & I').
  exists n, row', fl'. split; [eapply lookup_weaken; eauto|]. auto.
Qed.

Lemma rows_four_vset (qs : list (list N)) F rowF k x :
  (forall f row, vget qs f = Some row -> vsize row = 4) ->
  vget qs F = Some rowF ->
  forall f row, vget (vset qs F (vset rowF k x)) f = Some row -> vsize row = 4.
Proof.
  intros Hrow HF f row H. apply vget_vset_cases in H.
  destruct H as [[_ ->]|H]; [|eauto].
  rewrite vsize_vset. eauto.
Qed.

Lemma NoDup_snoc {A : Type} (l : list A) (x : A) :
  List.NoDup l -> ~ In x l -> List.NoDup (l ++ [x]).
Proof.
  induction l as [|y t IH]; intros Hl Hx; simpl.
  - constructor; [intros []|constructor].
  - inversion Hl as [|y' t' Hy Ht]; subst. constructor.
    + intros Hin. apply in_app_or in Hin. destruct Hin as [Hin|[Hin|[]]]; [auto|].
      apply Hx. left. symmetry. exact Hin.
    + apply IH; [exact Ht|]. intros Hin. apply Hx. right. exact Hin.
Qed.

Lemma NoDup_vget {A : Type} (l : list A) (i j : N) (x : A) :
  List.NoDup l -> vget l i = Some x -> vget l j = Some x -> i = j.
Proof.
  revert i j. induction l as [|y t IH]; intros i j Hl Hi Hj; [discriminate|].
  inversion Hl as [|y' t' Hy Ht]; subst. simpl in Hi, Hj.
  destruct (N.eqb_spec i 0) as [Ei|Ei], (N.eqb_spec j 0) as [Ej|Ej].
  - congruence.
  - inversion Hi; subst. apply vget_In in Hj. contradiction.
  - inversion Hj; subst. apply vget_In in Hi. contradiction.
  - pose proof (IH _ _ Ht Hi Hj). lia.
Qed.

Lemma number_corner_step els free F k c vcount q v :
  N.of_nat (length free) + 4 * vsize els < U32_MOD ->
  numbered_quads els free F k c vcount ->
  vget els F = Some q -> k < 4 -> vget q k = Some v ->
  exists c' vcount', number_corner F (c, vcount) k v = Ret (c', vcount')
    /\ numbered_quads els free F (k + 1) c' vcount'.
Proof.
  intros Hb (Hn & Hle & Hpre & Hnd & Hv2q & Hq & Hrow & Hrec) HF Hk Hv.
  pose proof (vget_Some_lt _ _ _ HF) as HFlt.
  assert (HU : U32_MOD < SIZE_MOD) by (vm_compute; reflexivity).
  destruct (vget_lt (cs_quads c) F ltac:(lia)) as [rowF HrowF].
  pose proof (Hrow _ _ HrowF) as Hrow4.
  assert (Hnew : forall c1 nv fl,
            cs_quads c1 = cs_quads c ->
            cs_old2new c ⊆ cs_old2new c1 ->
            cs_old2new c1 !! v = Some nv -> nv < U32_MOD ->
            (forall n fl0, vget (cs_v2q c) n = Some fl0 -> vget (cs_v2q c1) n = Some fl0) ->
            vget (cs_v2q c1) nv = Some fl ->
            forall f lv q' v', f < F \/ (f = F /\ lv < k + 1) ->
              vget els f = Some q' -> vget q' lv = Some v' ->
              corner_recorded
                (mkCondensed (cs_old2new c1) (cs_new2old c1)
                   (vset (cs_quads c1) F (vset rowF k (u32 nv)))
                   (vset (cs_v2q c1) nv (fl ++ [u32 F]))) f lv v').
  { intros c1 nv fl Eq Hsub Hl Hnv Hkeep Hfl f lv q' v' Hcond Hq' Hv'.
    rewrite Eq.
    destruct (N.eq_dec f F) as [Ef|Ef]; [destruct (N.eq_dec lv k) as [El|El]|].
    - subst f lv. assert (q' = q) by congruence. subst q'.
      assert (v' = v) by congruence. subst v'.
      exists nv, (vset rowF k (u32 nv)), (fl ++ [u32 F]). simpl.
      split; [exact Hl|].
      split; [apply vget_vset_eq; lia|].
      split; [rewrite u32_small by exact Hnv; apply vget_vset_eq; lia|].
      split; [apply vget_vset_eq; eapply vget_Some_lt; eauto|].
      apply in_or_app. right. left. apply u32_small. lia.
    - apply (corner_recorded_keeps c); auto.
      apply (Hrec f lv q' v'); auto. right. split; [exact Ef|]. lia.
    - apply (corner_recorded_keeps c); auto.
      apply (Hrec f lv q' v'); auto. left. lia. }
  unfold number_corner. simpl fst. simpl snd.
  destruct (cs_old2new c !! v) as [n|] eqn:El.
  - destruct Hn as (Hc & Hback & Hkey).
    pose proof (vget_Some_lt _ _ _ (Hback v n El)) as Hnlt.
    destruct (vget_lt (cs_v2q c) n ltac:(lia)) as [fl Hfl].
    ounfold. rewrite HrowF, Hfl.
    eexists _, _. split; [reflexivity|].
    split; [unfold numbered; simpl; auto|].
    split; [lia|]. split; [exact Hpre|]. split; [exact Hnd|].
    split; [simpl; rewrite vsize_vset; exact Hv2q|].
    split; [simpl; rewrite vsize_vset; exact Hq|].
    split; [simpl; apply rows_four_vset; assumption|].
    apply (Hnew c n fl); auto. lia.
  - rewrite Hv2q, N.leb_refl.
    assert (Hvc : vcount + 1 < U32_MOD) by lia.
    rewrite !wrap_small by lia.
    assert (Hfl : vget (vresize (cs_v2q c) (vcount + 1) []) vcount = Some [])
      by (apply vget_vresize_new; lia).
    ounfold. cbn [cs_quads cs_v2q cs_old2new cs_new2old]. rewrite HrowF, Hfl.
    eexists _, _. split; [reflexivity|].
    pose proof (numbered_push c vcount v Hn Hvc) as Hn'.
    rewrite wrap_small in Hn' by lia.
    split; [revert Hn'; apply numbered_fields; reflexivity|].
    split; [lia|].
    split; [destruct Hpre as [rest Hpre]; exists (rest ++ [v]); simpl;
            rewrite Hpre, <- app_assoc; reflexivity|].
    split.
    { intros Hf. simpl. apply NoDup_snoc; [auto|].
      intros Hin. destruct Hn as (_ & _ & Hkey).
      destruct (Hkey v Hin) as [n Hn]. congruence. }
    split; [simpl; rewrite vsize_vset, vsize_vresize; reflexivity|].
    split; [simpl; rewrite vsize_vset; exact Hq|].
    split; [simpl; apply rows_four_vset; assumption|].
    set (c1 := mkCondensed (<[v := u32 vcount]> (cs_old2new c)) (cs_new2old c ++ [v])
                 (cs_quads c) (vresize (cs_v2q c) (vcount + 1) [])).
    assert (H1 : cs_old2new c ⊆ cs_old2new c1) by (apply insert_subseteq; exact El).
    assert (H2 : cs_old2new c1 !! v = Some vcount).
    { simpl. rewrite lookup_insert_eq. f_equal. apply u32_small. lia. }
    assert (H3 : forall n fl0, vget (cs_v2q c) n = Some fl0 ->
                   vget (cs_v2q c1) n = Some fl0).
    { intros n fl0 H0. simpl. rewrite vget_vresize_old; [exact H0| |lia].
      eapply vget_Some_lt; eauto. }
    exact (Hnew c1 vcount [] eq_refl H1 H2 ltac:(lia) H3 Hfl).
Qed.

Lemma number_quad_step els free F c vcount q :
  N.of_nat (length free) + 4 * vsize els < U32_MOD ->
  numbered_quads els free F 0 c vcount ->
  vget els F = Some q -> vsize q = 4 ->
  exists c' vcount', number_quad F q (c, vcount) = Ret (c', vcount')
    /\ numbered_quads els free (F + 1) 0 c' vcount'.
Proof.
  intros Hb H0 HF H4.
  destruct (vget_lt q 0 ltac:(lia)) as [v0 E0].
  destruct (vget_lt q 1 ltac:(lia)) as [v1 E1].
  destruct (vget_lt q 2 ltac:(lia)) as [v2 E2].
  destruct (vget_lt q 3 ltac:(lia)) as [v3 E3].
  destruct (number_corner_step els free F 0 c vcount q v0 Hb H0 HF ltac:(lia) E0)
    as (c1 & n1 & R1 & I1).
  destruct (number_corner_step els free F 1 c1 n1 q v1 Hb I1 HF ltac:(lia) E1)
    as (c2 & n2 & R2 & I2).
  destruct (number_corner_step els free F 2 c2 n2 q v2 Hb I2 HF ltac:(lia) E2)
    as (c3 & n3 & R3 & I3).
  destruct (number_corner_step els free F 3 c3 n3 q v3 Hb I3 HF ltac:(lia) E3)
    as (c4 & n4 & R4 & I4).
  exists c4, n4. split.
  - unfold number_quad. change (iota 4) with [0; 1; 2; 3]. simpl ofold. ounfold.
    rewrite E0, R1, E1, R2, E2, R3, E3, R4. reflexivity.
  - destruct I4 as (A & B & C & D & E & G & H & I).
    split; [exact A|]. split; [lia|]. split; [exact C|]. split; [exact D|].
    split; [exact E|]. split; [exact G|]. split; [exact H|].
    intros f lv q' v' Hc Hq' Hv'. apply (I f lv q' v'); [|exact Hq'|exact Hv'].
    destruct Hc as [Hc|[_ Hc]]; [|lia].
    destruct (N.eq_dec f F) as [->|Hne]; [|left; lia].
    right. split; [reflexivity|].
    assert (q' = q) by congruence. subst q'.
    apply vget_Some_lt in Hv'. change (3 + 1) with 4. lia.
Qed.

Lemma number_elements_inv els free :
  N.of_nat (length free) + 4 * vsize els < U32_MOD ->
  forall rest done c vcount,
    els = done ++ rest ->
    numbered_quads els free (vsize done) 0 c vcount ->
    exists b c' F vcount',
      number_elements rest (vsize done) (c, vcount) = Ret (b, c')
      /\ numbered_quads els free F 0 c' vcount'
      /\ (b = true -> F = vsize els)
      /\ (b = false <-> Exists (fun q => vsize q <> 4) rest).
Proof.
  intros Hb. induction rest as [|q t IH]; intros done c vcount Hels Hinv.
  - simpl. exists true, c, (vsize done), vcount.
    split; [reflexivity|]. split; [exact Hinv|].
    split; [intros _; rewrite Hels, app_nil_r; reflexivity|].
    split; [discriminate|]. intros H; inversion H.
  - simpl. destruct (N.eqb_spec (vsize q) 4) as [E4|E4]; simpl.
    + assert (HF : vget els (vsize done) = Some q).
      { rewrite Hels, vget_app_r by lia. rewrite N.sub_diag. reflexivity. }
      destruct (number_quad_step els free _ c vcount q Hb Hinv HF E4)
        as (c1 & n1 & R & I).
      ounfold. rewrite R.
      specialize (IH (done ++ [q]) c1 n1). rewrite vsize_app in IH.
      change (vsize [q]) with 1 in IH.
      destruct IH as (b & c' & F & vc' & R' & I' & T & Ex);
        [rewrite Hels, <- app_assoc; reflexivity | exact I |].
      exists b, c', F, vc'. split; [exact R'|]. split; [exact I'|]. split; [exact T|].
      rewrite Ex. split; [intros H; now apply Exists_cons_tl|].
      intros H; inversion H; [contradiction|assumption].
    + exists false, c, (vsize done), vcount.
      split; [reflexivity|]. split; [exact Hinv|]. split; [discriminate|].
      split; [intros _; apply Exists_cons_hd; exact E4 | reflexivity].
Qed.

Lemma condense_numbering_inv els free :
  N.of_nat (length free) + 4 * vsize els < U32_MOD ->
  exists b c F vcount,
    condense_numbering els free Condensed_empty = Ret (b, c)
    /\ numbered_quads els free F 0 c vcount
    /\ (b = true -> F = vsize els)
    /\ (b = false <-> Exists (fun q => vsize q <> 4) els).
Proof.
  intros Hb. unfold condense_numbering.
  destruct (number_free_fold free Condensed_empty 0) as (A & B & C & D & E).
  { unfold numbered. simpl. split; [reflexivity|]. split.
    - intros v n H. rewrite lookup_empty in H. discriminate.
    - intros v []. }
  { lia. }
  set (st := foldl number_free (Condensed_empty, 0) free) in *.
  apply (number_elements_inv els free Hb els [] _ _ eq_refl).
  split; [revert A; apply numbered_fields; reflexivity|].
  split; [change (vsize []) with 0; lia|].
  split; [exists []; simpl; rewrite C, app_nil_r; reflexivity|].
  split; [intros Hf; simpl; rewrite C; exact Hf|].
  split; [simpl; apply vsize_vresize|].
  split; [simpl; apply vsize_vresize|].
  split.
  - intros f row. simpl. rewrite D. unfold vresize. simpl. rewrite take_nil. simpl.
    intros H. apply vget_repeat in H. subst row. reflexivity.
  - intros f lv q v [H|[_ H]]; [change (vsize []) with 0 in H|]; lia.
Qed.

(** X26. The numbering of [buildCondensedStructure], started on empty
    containers with fewer than 2^32 vertices to number, returns; it returns
    false exactly when an element is not a quad.  [new2old] starts with the
    free vertices, [new2old[old2new[v]] = v] for every numbered vertex, every
    vertex of [new2old] is numbered, and [v2q] has one entry per vertex.  When
    the free vertices are pairwise distinct, no vertex is listed twice and
    [old2new[new2old[i]] = i]. *)
Theorem condense_numbering_roundtrip (els : list (list N)) (free : list N) :
  N.of_nat (length free) + 4 * vsize els < U32_MOD ->
  exists b c, condense_numbering els free Condensed_empty = Ret (b, c)
    /\ (b = false <-> Exists (fun q => vsize q <> 4) els)
    /\ (exists rest, cs_new2old c = free ++ rest)
    /\ (forall v n, cs_old2new c !! v = Some n -> vget (cs_new2old c) n = Some v)
    /\ (forall v, In v (cs_new2old c) -> exists n, cs_old2new c !! v = Some n)
    /\ vsize (cs_v2q c) = vsize (cs_new2old c)
    /\ (List.NoDup free ->
          List.NoDup (cs_new2old c)
          /\ forall i v, vget (cs_new2old c) i = Some v -> cs_old2new c !! v = Some i).
Proof.
  intros Hb. destruct (condense_numbering_inv els free Hb)
    as (b & c & F & vc & R & I & _ & Ex).
  destruct I as ((Hc & Hback & Hkey) & _ & Hpre & Hnd & Hv2q & _).
  exists b, c. split; [exact R|]. split; [exact Ex|]. split; [exact Hpre|].
  split; [exact Hback|]. split; [exact Hkey|]. split; [congruence|].
  intros Hf. split; [auto|]. intros i v Hi.
  destruct (Hkey v (vget_In _ _ _ Hi)) as [n Hn].
  pose proof (Hback v n Hn) as Hg.
  rewrite (NoDup_vget _ _ _ _ (Hnd Hf) Hi Hg). exact Hn.
Qed.

Lemma condense_numbering_roundtrip_witness :
  N.of_nat (length [12]) + 4 * vsize [[10; 11; 12; 13]; [11; 14; 15; 12]] < U32_MOD
  /\ exists b c,
       condense_numbering [[10; 11; 12; 13]; [11; 14; 15; 12]] [12] Condensed_empty
         = Ret (b, c)
       /\ (b = false <-> Exists (fun q => vsize q <> 4) [[10; 11; 12; 13]; [11; 14; 15; 12]])
       /\ (exists rest, cs_new2old c = [12] ++ rest).
Proof.
  assert (Hb : N.of_nat (length [12]) + 4 * vsize [[10; 11; 12; 13]; [11; 14; 15; 12]]
               < U32_MOD) by (vm_compute; reflexivity).
  split; [exact Hb|].
  destruct (condense_numbering_roundtrip [[10; 11; 12; 13]; [11; 14; 15; 12]] [12] Hb)
    as (b & c & R & Ex & Hpre & _).
  exists b, c. auto.
Defined.

(** X27. When the numbering of [buildCondensedStructure] returns true, there
    is one row of [quads] per element and every corner is recorded: the
    vertex [v] at corner [lv] of element [f] has a number [n] with
    [quads[f][lv] = n], and [f] is listed in [v2q[n]]. *)
Theorem condense_numbering_quads (els : list (list N)) (free : list N) (c : Condensed) :
  N.of_nat (length free) + 4 * vsize els < U32_MOD ->
  condense_numbering els free Condensed_empty = Ret (true, c) ->
  vsize (cs_quads c) = vsize els
  /\ (forall f row, vget (cs_quads c) f = Some row -> vsize row = 4)
  /\ forall f q lv v, vget els f = Some q -> vget q lv = Some v ->
       exists n row fl,
         cs_old2new c !! v = Some n
         /\ vget (cs_quads c) f = Some row /\ vget row lv = Some n
         /\ vget (cs_v2q c) n = Some fl /\ In f fl.
Proof.
  intros Hb R. destruct (condense_numbering_inv els free Hb)
    as (b & c' & F & vc & R' & I & T & _).
  rewrite R in R'. inversion R'; subst b c'. specialize (T eq_refl). subst F.
  destruct I as (_ & _ & _ & _ & _ & Hq & Hrow & Hrec).
  split; [exact Hq|]. split; [exact Hrow|].
  intros f q lv v Hf Hv. apply (Hrec f lv q v); [|exact Hf|exact Hv].
  left. eapply vget_Some_lt; eauto.
Qed.

Lemma condense_numbering_quads_witness :
  exists c,
    condense_numbering [[10; 11; 12; 13]; [11; 14; 15; 12]] [12] Condensed_empty
      = Ret (true, c)
    /\ vsize (cs_quads c) = 2
    /\ exists n row fl,
         cs_old2new c !! 14 = Some n
         /\ vget (cs_quads c) 1 = Some row /\ vget row 1 = Some n
         /\ vget (cs_v2q c) n = Some fl /\ In 1 fl.
Proof.
  assert (Hb : N.of_nat (length [12]) + 4 * vsize [[10; 11; 12; 13]; [11; 14; 15; 12]]
               < U32_MOD) by (vm_compute; reflexivity).
  assert (E : exists c, condense_numbering [[10; 11; 12; 13]; [11; 14; 15; 12]] [12]
                          Condensed_empty = Ret (true, c))
    by (eexists; vm_compute; reflexivity).
  destruct E as [c E]. exists c. split; [exact E|].
  destruct (condense_numbering_quads _ _ c Hb E) as (A & _ & B).
  split; [exact A|]. apply (B 1 [11; 14; 15; 12] 1 14); reflexivity.
Defined.

(** ** cavityIsRemeshable *)

Lemma vget_vset_default (l : list N) (s s' x : N) :
  s < vsize l ->
  default 0 (vget (vset l s x) s') = if N.eq_dec s' s then x else default 0 (vget l s').
Proof.
  intros Hs. destruct (N.eq_dec s' s) as [->|Hne].
  - rewrite vget_vset_eq by exact Hs. reflexivity.
  - rewrite vget_vset_neq by congruence. reflexivity.
Qed.

Lemma vget_vresize_default (l : list N) (n s : N) :
  vsize l <= n -> default 0 (vget (vresize l n 0) s) = default 0 (vget l s).
Proof.
  intros Hn. destruct (N.lt_ge_cases s (vsize l)) as [Hlt|Hge].
  - rewrite vget_vresize_old by assumption. reflexivity.
  - rewrite (vget_ge l s) by exact Hge.
    destruct (N.lt_ge_cases s n) as [Hs|Hs].
    + rewrite vget_vresize_new by assumption. reflexivity.
    + rewrite vget_ge; [reflexivity|]. rewrite vsize_vresize. exact Hs.
Qed.

Lemma on_side_cons (s s' : N) (rest : list N) :
  on_side (s :: rest) s' = (if N.eq_dec s' s then 1 else 0) + on_side rest s'.
Proof.
  unfold on_side. simpl.
  destruct (N.eq_dec s s') as [E|E], (N.eq_dec s' s) as [E'|E']; try congruence; lia.
Qed.

Lemma count_sides_spec (sides : list N) : forall npts0,
  vsize npts0 <= 5 ->
  match count_sides sides npts0 with
  | None => Exists (fun s => 5 <= s) sides
  | Some npts =>
      Forall (fun s => s < 5) sides
      /\ vsize npts <= 5 /\ vsize npts0 <= vsize npts
      /\ (forall s, In s sides -> s < vsize npts)
      /\ (vsize npts0 < vsize npts -> exists s, In s sides /\ vsize npts = s + 1)
      /\ (forall s, default 0 (vget npts s) = default 0 (vget npts0 s) + on_side sides s)
  end.
Proof.
  induction sides as [|s rest IH]; intros npts0 H5; simpl.
  - split; [constructor|]. split; [exact H5|]. split; [lia|].
    split; [intros s []|]. split; [lia|]. intros s. unfold on_side. simpl. lia.
  - assert (Hstep : forall npts1,
              vsize npts1 <= 5 -> vsize npts0 <= vsize npts1 -> s < vsize npts1 ->
              (vsize npts0 < vsize npts1 -> vsize npts1 = s + 1) ->
              (forall s', default 0 (vget npts1 s') = default 0 (vget npts0 s')) ->
              match count_sides rest (vset npts1 s (default 0 (vget npts1 s) + 1)) with
              | None => Exists (fun s => 5 <= s) (s :: rest)
              | Some npts =>
                  Forall (fun s => s < 5) (s :: rest)
                  /\ vsize npts <= 5 /\ vsize npts0 <= vsize npts
                  /\ (forall s', s = s' \/ In s' rest -> s' < vsize npts)
                  /\ (vsize npts0 < vsize npts ->
                        exists s', (s = s' \/ In s' rest) /\ vsize npts = s' + 1)
                  /\ (forall s', default 0 (vget npts s')
                                 = default 0 (vget npts0 s') + on_side (s :: rest) s')
              end).
    { intros npts1 H51 Hle Hs Htight Hsame.
      specialize (IH (vset npts1 s (default 0 (vget npts1 s) + 1))).
      rewrite vsize_vset in IH. specialize (IH H51).
      destruct (count_sides rest _) as [npts|].
      - destruct IH as (A & B & C & D & E & G).
        split; [constructor; [lia|exact A]|]. split; [exact B|]. split; [lia|].
        split; [intros s' [<-|Hin]; [lia|auto]|].
        split.
        + intros Hlt. destruct (N.eq_dec (vsize npts1) (vsize npts)) as [Eq|Ne].
          * exists s. split; [auto|]. rewrite <- Eq. apply Htight. lia.
          * destruct E as (s' & Hin & Es); [lia|]. exists s'. auto.
        + intros s'. rewrite G, vget_vset_default by exact Hs.
          rewrite on_side_cons. destruct (N.eq_dec s' s) as [->|Hne].
          * rewrite Hsame. lia.
          * rewrite Hsame. lia.
      - apply Exists_cons_tl. exact IH. }
    destruct (N.leb_spec (vsize npts0) s) as [Hge|Hlt].
    + destruct (N.leb_spec 5 s) as [H5s|H5s]; [apply Exists_cons_hd; exact H5s|].
      apply Hstep.
      * rewrite vsize_vresize. lia.
      * rewrite vsize_vresize. lia.
      * rewrite vsize_vresize. lia.
      * intros _. apply vsize_vresize.
      * intros s'. apply vget_vresize_default. lia.
    + apply Hstep; auto; lia.
Qed.

(** X28. [cavityIsRemeshable] answers false when [hes] and [side] differ in
    size or a side number is 5 or more, whatever the pattern test says.
    When it answers true, the pattern test has accepted at most 5 corners
    and, for each side, the number of its boundary half edges plus one;
    every side number is below the number of corners, and the last corner
    is a side number in use. *)
Theorem cavityIsRemeshable_sides (pattern : N -> list N -> bool) (cav : FCavity) :
  (vsize (hes cav) <> vsize (side cav) \/ Exists (fun s => 5 <= s) (side cav) ->
     cavityIsRemeshable pattern cav = false)
  /\ (cavityIsRemeshable pattern cav = true ->
        vsize (hes cav) = vsize (side cav)
        /\ exists npts,
             pattern (vsize npts) npts = true
             /\ vsize npts <= 5
             /\ (forall s, In s (side cav) -> s < vsize npts)
             /\ (side cav <> [] -> exists s, In s (side cav) /\ vsize npts = s + 1)
             /\ (forall s, s < vsize npts ->
                   vget npts s = Some (on_side (side cav) s + 1))).
Proof.
  unfold cavityIsRemeshable.
  destruct (N.eqb_spec (vsize (hes cav)) (vsize (side cav))) as [Es|Es]; simpl.
  2:{ split; [reflexivity|discriminate]. }
  pose proof (count_sides_spec (side cav) [] ltac:(unfold vsize; simpl; lia)) as H.
  destruct (count_sides (side cav) []) as [npts|].
  - destruct H as (A & B & C & D & E & G). split.
    + intros [Hne|Hex]; [contradiction|].
      apply Exists_exists in Hex. destruct Hex as (s & Hin & Hs).
      rewrite Forall_forall in A. specialize (A s Hin). lia.
    + intros Hp. split; [exact Es|].
      exists (map (fun x => x + 1) npts).
      assert (Hsz : vsize (map (fun x => x + 1) npts) = vsize npts)
        by (unfold vsize; rewrite length_map; reflexivity).
      rewrite Hsz. split; [rewrite <- Hsz; exact Hp|]. split; [exact B|].
      split; [exact D|]. split.
      * intros Hne. apply E. change (vsize (@nil N)) with 0.
        destruct (side cav) as [|s t]; [contradiction|].
        specialize (D s (or_introl eq_refl)). lia.
      * intros s Hs. destruct (vget_lt npts s Hs) as [x Hx].
        specialize (G s). rewrite Hx in G. simpl in G.
        assert (Hm : forall (l : list N) i y, vget l i = Some y ->
                       vget (map (fun x => x + 1) l) i = Some (y + 1)).
        { clear. induction l as [|z t IH]; intros i y H; [discriminate|].
          simpl in *. destruct (i =? 0); [inversion H; reflexivity|auto]. }
        rewrite (Hm _ _ _ Hx). rewrite G. reflexivity.
  - split; [reflexivity|discriminate].
Qed.

Lemma cavityIsRemeshable_sides_witness :
  cavityIsRemeshable (fun n _ => n =? 4) (mkCavity [16; 17; 18; 19] [0; 1; 2; 3] {[ 4 ]})
    = true
  /\ exists npts,
       vsize npts <= 5
       /\ (forall s, s < vsize npts -> vget npts s = Some (on_side [0; 1; 2; 3] s + 1)).
Proof.
  assert (H : cavityIsRemeshable (fun n _ => n =? 4)
                (mkCavity [16; 17; 18; 19] [0; 1; 2; 3] {[ 4 ]}) = true)
    by (vm_compute; reflexivity).
  split; [exact H|].
  destruct (proj2 (cavityIsRemeshable_sides _ _) H) as (_ & npts & _ & A & _ & _ & B).
  exists npts. auto.
Defined.
